(** * [Datastructures]: the way graph with its route searches, places and areas

    A shallow embedding of [prg2/datastructures.hh].  The phase-2 part comes
    first: the [Way] and [Crossroad_data] records, the two views of the way
    index, the crossroad table, and the operations [add_way], [remove_way],
    [clear_ways], [ways_from], [route_any] and [route_with_cycle] with their
    recursive helpers [search_any] and [search_cycle].  The phase-1 part,
    the places and the areas with their indexes and listings, follows under
    its own heading.

    Modelling conventions.
    - [int] and [Distance] are 32-bit two's-complement integers: a [Z]
      between [int_min] and [int_max].  Signed overflow of [+] and [-] and
      the conversion of a [double] that does not fit an [int] are undefined
      behaviour in C++; the model takes what the compiled program does: a
      sum or difference wraps around modulo 2^32 ([int_add], [int_sub]), and
      the conversion gives [int_min] ([int_of_floor]).
    - [double] is IEEE 754 binary64, as specified by the Standard Library's
      [SpecFloat]: conversion from [int], [+] and [std::sqrt] are correctly
      rounded to nearest even, and [std::pow(x, 2)] is the correctly rounded
      square of [x].
    - [std::unordered_map] is a [gmap].  [std::unordered_multimap] is an
      association list: [equal_range] enumerates the entries of a key in list
      order, [insert] appends and [erase] removes one entry.  The standard
      leaves the position of an inserted entry among equal keys open; the
      general theorems are proved from the representation invariant [wf],
      which holds in every reachable state and does not depend on that
      order.
    - [unordered_map::at] throws [std::out_of_range] on a missing key: the
      searches return an [outcome], whose [Throws] case is that exception.
    - The recursion of [search_any] and [search_cycle] is driven by a [fuel]
      argument that bounds the number of nested activations; [OutOfFuel] is
      returned exactly when the recursion would need a deeper call stack. *)

From Stdlib Require Import ZArith List Lia Reals Lra SpecFloat Sorted.
From stdpp Require Import base gmap strings list fin_maps.

Open Scope Z_scope.

(** ** Identifiers, sentinels, coordinates *)

Definition WayID : Type := string.

(** [using Distance = int]: distances are added with [int_add]. *)
Definition Distance : Type := Z.

Definition NO_WAY : WayID := "!!No way!!"%string.
Definition NO_VALUE : Z := -2147483648.
Definition NO_DISTANCE : Distance := NO_VALUE.

(** [std::numeric_limits<int>::min()] and [max()]. *)
Definition int_min : Z := -2147483648.
Definition int_max : Z := 2147483647.

(** The [int] that is congruent to [z] modulo 2^32. *)
Definition int_wrap (z : Z) : Z :=
  (z + 2147483648) mod 4294967296 - 2147483648.

(** [a + b] and [a - b] on [int]. *)
Definition int_add (a b : Z) : Z := int_wrap (a + b).
Definition int_sub (a b : Z) : Z := int_wrap (a - b).

Record Coord : Type := mkCoord { x : Z; y : Z }.

Definition NO_COORD : Coord := mkCoord NO_VALUE NO_VALUE.

#[global] Instance Coord_eq_dec : EqDecision Coord.
Proof. solve_decision. Defined.

#[global] Instance Coord_countable : Countable Coord.
Proof.
  refine (inj_countable' (λ c, (x c, y c)) (λ p, mkCoord p.1 p.2) _).
  by intros [].
Defined.

#[global] Instance Coord_inhabited : Inhabited Coord := populate NO_COORD.

(** ** struct Way *)

Module Way.
Record t : Type := mk {
  id : WayID;
  coordinates : list Coord;
  end1 : Coord;
  end2 : Coord;
  length : Z
}.
End Way.

#[global] Instance Way_eq_dec : EqDecision Way.t.
Proof. solve_decision. Defined.

(** ** double arithmetic *)

Definition double : Type := spec_float.
Definition double_prec : Z := 53.
Definition double_emax : Z := 1024.

(** The conversion of an [int] argument to [double]. *)
Definition double_of_int (n : Z) : double :=
  binary_normalize double_prec double_emax n 0 false.

(** [std::pow(a, 2)] *)
Definition double_pow2 (a : double) : double :=
  SFmul double_prec double_emax a a.

Definition double_add (a b : double) : double :=
  SFadd double_prec double_emax a b.

(** [std::sqrt(a)] *)
Definition double_sqrt (a : double) : double :=
  SFsqrt double_prec double_emax a.

(** [int n = std::floor(d)]: the floor of [d], converted to [int].  A floor
    between [int_min] and [int_max] is kept; for every other [d] (a floor
    out of this range, an infinity, a NaN) the conversion gives [int_min]. *)
Definition int_of_floor (d : double) : Z :=
  match d with
  | S754_zero _ => 0
  | S754_finite s m e =>
      let v := if s then Z.neg m else Z.pos m in
      let n := if 0 <=? e then v * 2 ^ e else v / 2 ^ (- e) in
      if (int_min <=? n) && (n <=? int_max) then n else int_min
  | _ => int_min
  end.

(** [std::floor(std::sqrt(std::pow(a.x - b.x, 2) + std::pow(a.y - b.y, 2)))],
    stored in an [int]; the two differences are [int] differences. *)
Definition section_length (a b : Coord) : Z :=
  int_of_floor
    (double_sqrt
       (double_add (double_pow2 (double_of_int (int_sub (x a) (x b))))
                   (double_pow2 (double_of_int (int_sub (y a) (y b)))))).

(** The body of the constructor's [for] loop, run for [i = 0 .. size - 2];
    [length += section_length] is an [int] addition. *)
Definition length_loop (coordinates : list Coord) : Z :=
  fold_left
    (λ len i,
       int_add len (section_length (coordinates !!! i) (coordinates !!! S i)))
    (seq 0 (List.length coordinates - 1)) 0.

(** [Way::Way(id, coordinates)].  [*coordinates.begin()] on an empty vector
    is undefined behaviour: the constructor is partial. *)
Definition Way_new (id : WayID) (coordinates : list Coord) : option Way.t :=
  match coordinates with
  | [] => None
  | c0 :: _ =>
      Some (Way.mk id coordinates c0 (List.last coordinates c0)
                   (length_loop coordinates))
  end.

(** ** struct Crossroad_data

    The struct declares the integer field as [minimum_distance]; the member
    functions access it as [distance]. *)

Module Crossroad_data.
Record t : Type := mk {
  coordinates : Coord;
  visited : bool;
  distance : Z
}.
End Crossroad_data.

Definition Crossroad_data_new (coordinates : Coord) : Crossroad_data.t :=
  Crossroad_data.mk coordinates false NO_DISTANCE.

(** ** The phase-2 members of class Datastructures *)

Record Datastructures : Type := mkDatastructures {
  ways_by_id_ : gmap WayID Way.t;
  ways_by_coord_ : list (Coord * Way.t);
  visited_coordinates_ : gmap Coord Crossroad_data.t;
  chosen_route_ : list (Coord * WayID * Distance);
  cyclic_route_ : list (Coord * WayID);
  route_found_ : bool
}.

(** The constructor leaves [route_found_] uninitialised; it is written by
    [clean_for_search] before it is ever read. *)
Definition Datastructures_new (route_found : bool) : Datastructures :=
  mkDatastructures ∅ [] ∅ [] [] route_found.

Definition with_visited_coordinates (vc : gmap Coord Crossroad_data.t)
    (s : Datastructures) : Datastructures :=
  mkDatastructures (ways_by_id_ s) (ways_by_coord_ s) vc
                   (chosen_route_ s) (cyclic_route_ s) (route_found_ s).

Definition with_chosen_route (r : list (Coord * WayID * Distance))
    (s : Datastructures) : Datastructures :=
  mkDatastructures (ways_by_id_ s) (ways_by_coord_ s) (visited_coordinates_ s)
                   r (cyclic_route_ s) (route_found_ s).

Definition with_cyclic_route (r : list (Coord * WayID))
    (s : Datastructures) : Datastructures :=
  mkDatastructures (ways_by_id_ s) (ways_by_coord_ s) (visited_coordinates_ s)
                   (chosen_route_ s) r (route_found_ s).

Definition with_route_found (b : bool) (s : Datastructures) : Datastructures :=
  mkDatastructures (ways_by_id_ s) (ways_by_coord_ s) (visited_coordinates_ s)
                   (chosen_route_ s) (cyclic_route_ s) b.

(** ** Outcomes of the recursive searches *)

Inductive outcome (A : Type) : Type :=
  | Returns (a : A)
  | Throws
  | OutOfFuel.
Arguments Returns {A} a.
Arguments Throws {A}.
Arguments OutOfFuel {A}.

#[global] Instance outcome_bind : MBind outcome :=
  λ A B f m, match m with
             | Returns a => f a
             | Throws => Throws
             | OutOfFuel => OutOfFuel
             end.

(** [visited_coordinates_.at(c)] *)
Definition crossroad_at (s : Datastructures) (c : Coord)
    : outcome Crossroad_data.t :=
  match visited_coordinates_ s !! c with
  | Some cd => Returns cd
  | None => Throws
  end.

(** [ways_by_id_.at(id)] *)
Definition way_at (s : Datastructures) (id : WayID) : outcome Way.t :=
  match ways_by_id_ s !! id with
  | Some w => Returns w
  | None => Throws
  end.

(** [visited_coordinates_.at(c)->distance = d] *)
Definition set_distance (c : Coord) (d : Z) (s : Datastructures)
    : outcome Datastructures :=
  cd ← crossroad_at s c;
  Returns (with_visited_coordinates
             (<[c := Crossroad_data.mk (Crossroad_data.coordinates cd)
                       (Crossroad_data.visited cd) d]>
                (visited_coordinates_ s)) s).

(** [visited_coordinates_.at(c)->visited = b] *)
Definition set_visited (c : Coord) (b : bool) (s : Datastructures)
    : outcome Datastructures :=
  cd ← crossroad_at s c;
  Returns (with_visited_coordinates
             (<[c := Crossroad_data.mk (Crossroad_data.coordinates cd)
                       b (Crossroad_data.distance cd)]>
                (visited_coordinates_ s)) s).

(** ** Way index operations *)

Definition get_way (s : Datastructures) (id : WayID) : option Way.t :=
  ways_by_id_ s !! id.

(** [coords.front()] and [coords.back()]; undefined on an empty vector. *)
Definition front (coords : list Coord) : option Coord := head coords.
Definition back (coords : list Coord) : option Coord := last coords.

Definition with_ways_by_coord (m : list (Coord * Way.t))
    (s : Datastructures) : Datastructures :=
  mkDatastructures (ways_by_id_ s) m (visited_coordinates_ s)
                   (chosen_route_ s) (cyclic_route_ s) (route_found_ s).

Definition with_ways_by_id (m : gmap WayID Way.t)
    (s : Datastructures) : Datastructures :=
  mkDatastructures m (ways_by_coord_ s) (visited_coordinates_ s)
                   (chosen_route_ s) (cyclic_route_ s) (route_found_ s).

(** [if (visited_coordinates_.find(c) == end()) insert({c, Crossroad_data(c)})] *)
Definition ensure_crossroad (c : Coord) (s : Datastructures) : Datastructures :=
  match visited_coordinates_ s !! c with
  | None =>
      with_visited_coordinates
        (<[c := Crossroad_data_new c]> (visited_coordinates_ s)) s
  | Some _ => s
  end.

(** [add_way]: [None] is the undefined behaviour of the [Way] constructor and
    of [coords.front()] on an empty vector, reached only after the duplicate
    check. *)
Definition add_way (s : Datastructures) (id : WayID) (coords : list Coord)
    : option (bool * Datastructures) :=
  match get_way s id with
  | Some _ => Some (false, s)
  | None =>
      added_way ← Way_new id coords;
      end1 ← front coords;
      end2 ← back coords;
      let s1 := with_ways_by_id (<[id := added_way]> (ways_by_id_ s)) s in
      let s2 := with_ways_by_coord (ways_by_coord_ s1 ++ [(end1, added_way)]) s1 in
      let s3 := with_ways_by_coord (ways_by_coord_ s2 ++ [(end2, added_way)]) s2 in
      Some (true, ensure_crossroad end2 (ensure_crossroad end1 s3))
  end.

(** The entries of [ways_by_coord_.equal_range(xy)], in iteration order. *)
Definition equal_range (xy : Coord) (m : list (Coord * Way.t))
    : list (Coord * Way.t) :=
  filter (λ e, e.1 = xy) m.

Definition ways_from (s : Datastructures) (xy : Coord)
    : list (WayID * Coord) :=
  (λ e : Coord * Way.t,
     if decide (xy = Way.end1 e.2) then (Way.id e.2, Way.end2 e.2)
     else (Way.id e.2, Way.end1 e.2))
  <$> equal_range xy (ways_by_coord_ s).

Definition get_way_coords (s : Datastructures) (id : WayID) : list Coord :=
  match get_way s id with
  | None => [NO_COORD]
  | Some w => Way.coordinates w
  end.

Definition clear_ways (s : Datastructures) : Datastructures :=
  mkDatastructures ∅ [] ∅ [] [] (route_found_ s).

(** The loop of [remove_way] over [equal_range(c)]: erase the first entry of
    key [c] whose way has identifier [id], then [break]. *)
Fixpoint erase_first (c : Coord) (id : WayID) (m : list (Coord * Way.t))
    : list (Coord * Way.t) :=
  match m with
  | [] => []
  | e :: m' =>
      if decide (e.1 = c ∧ id = Way.id e.2) then m'
      else e :: erase_first c id m'
  end.

(** [if (ways_from(c).size() == 0) visited_coordinates_.erase(c)] *)
Definition prune_crossroad (c : Coord) (s : Datastructures) : Datastructures :=
  if decide (List.length (ways_from s c) = 0%nat)
  then with_visited_coordinates (delete c (visited_coordinates_ s)) s
  else s.

Definition remove_way (s : Datastructures) (id : WayID)
    : bool * Datastructures :=
  match get_way s id with
  | None => (false, s)
  | Some searched_way =>
      let wanted_coord1 := Way.end1 searched_way in
      let wanted_coord2 := Way.end2 searched_way in
      let s1 := with_ways_by_coord
                  (erase_first wanted_coord1 id (ways_by_coord_ s)) s in
      let s2 := prune_crossroad wanted_coord1 s1 in
      let s3 := with_ways_by_coord
                  (erase_first wanted_coord2 id (ways_by_coord_ s2)) s2 in
      let s4 := prune_crossroad wanted_coord2 s3 in
      (true, with_ways_by_id (delete id (ways_by_id_ s4)) s4)
  end.

(** ** The route searches *)

(** Modelled from the spec: the mode constants [NORMAL] and [CYCLE] passed to
    [clean_for_search] are used but not declared in the source; the spec's
    reset(mode) distinguishes a path mode from a cycle mode, so they are two
    distinct integers. *)
Definition NORMAL : Z := 0.
Definition CYCLE : Z := 1.

Definition clean_for_search (type : Z) (s : Datastructures) : Datastructures :=
  let vc :=
    (λ cd, Crossroad_data.mk (Crossroad_data.coordinates cd) false NO_VALUE)
    <$> visited_coordinates_ s in
  let s1 := with_visited_coordinates vc (with_route_found false s) in
  if decide (type = NORMAL) then with_chosen_route [] s1
  else with_cyclic_route [] s1.

(** The [for] loop of [search_any] over [current_ways]; [rec c len] is the
    recursive call [search_any(c, goal, route_length + len)]. *)
Fixpoint search_any_loop
    (rec : Coord → Z → Datastructures → outcome Datastructures)
    (current : Coord) (current_ways : list (WayID * Coord))
    (s : Datastructures) : outcome Datastructures :=
  match current_ways with
  | [] => Returns s
  | it :: rest =>
      cd ← crossroad_at s it.2;
      if Crossroad_data.visited cd then search_any_loop rec current rest s
      else
        w ← way_at s it.1;
        s' ← rec it.2 (Way.length w) s;
        if route_found_ s' then
          cdc ← crossroad_at s' current;
          Returns (with_chosen_route
                     (chosen_route_ s' ++
                        [(current, it.1, Crossroad_data.distance cdc)]) s')
        else search_any_loop rec current rest s'
  end.

Fixpoint search_any (fuel : nat) (current goal : Coord) (route_length : Z)
    (s : Datastructures) : outcome Datastructures :=
  match fuel with
  | O => OutOfFuel
  | S fuel' =>
      s1 ← set_distance current route_length s;
      s2 ← set_visited current true s1;
      if decide (current = goal) then
        cd ← crossroad_at s2 current;
        Returns (with_chosen_route
                   (chosen_route_ s2 ++
                      [(goal, NO_WAY, Crossroad_data.distance cd)])
                   (with_route_found true s2))
      else
        search_any_loop
          (λ c len, search_any fuel' c goal (int_add route_length len))
          current (ways_from s2 current) s2
  end.

(** The call stack that [route_any] needs: one activation per crossroad. *)
Definition route_any_depth (s : Datastructures) : nat :=
  size (visited_coordinates_ s).

Definition route_any (s : Datastructures) (fromxy toxy : Coord)
    : outcome (list (Coord * WayID * Distance) * Datastructures) :=
  if decide (List.length (ways_from s toxy) = 0%nat
             ∨ List.length (ways_from s fromxy) = 0%nat)
  then Returns ([(NO_COORD, NO_WAY, NO_DISTANCE)], s)
  else
    let s1 := clean_for_search NORMAL s in
    s2 ← search_any (route_any_depth s1) fromxy toxy 0 s1;
    let s3 := with_chosen_route (reverse (chosen_route_ s2)) s2 in
    Returns (chosen_route_ s3, s3).

(** The [for] loop of [search_cycle]; [rec c] is [search_cycle(c, current)]. *)
Fixpoint search_cycle_loop
    (rec : Coord → Datastructures → outcome Datastructures)
    (current previous : Coord) (current_ways : list (WayID * Coord))
    (s : Datastructures) : outcome Datastructures :=
  match current_ways with
  | [] => Returns s
  | it :: rest =>
      if decide (it.2 = previous)
      then search_cycle_loop rec current previous rest s
      else
        s' ← rec it.2 s;
        if route_found_ s' then
          Returns (with_cyclic_route
                     (cyclic_route_ s' ++ [(current, it.1)]) s')
        else search_cycle_loop rec current previous rest s'
  end.

Fixpoint search_cycle (fuel : nat) (current previous : Coord)
    (s : Datastructures) : outcome Datastructures :=
  match fuel with
  | O => OutOfFuel
  | S fuel' =>
      cd ← crossroad_at s current;
      if Crossroad_data.visited cd then
        Returns (with_cyclic_route
                   (cyclic_route_ s ++ [(current, NO_WAY)])
                   (with_route_found true s))
      else
        s1 ← set_visited current true s;
        search_cycle_loop
          (λ c, search_cycle fuel' c current)
          current previous (ways_from s1 current) s1
  end.

(** The call stack that [route_with_cycle] needs: one activation per
    crossroad and one more for the call that meets a visited crossroad. *)
Definition route_with_cycle_depth (s : Datastructures) : nat :=
  S (size (visited_coordinates_ s)).

Definition route_with_cycle (s : Datastructures) (fromxy : Coord)
    : outcome (list (Coord * WayID) * Datastructures) :=
  if decide (List.length (ways_from s fromxy) = 0%nat)
  then Returns ([(NO_COORD, NO_WAY)], s)
  else
    let s1 := clean_for_search CYCLE s in
    s2 ← search_cycle (route_with_cycle_depth s1) fromxy NO_COORD s1;
    let s3 := with_cyclic_route (reverse (cyclic_route_ s2)) s2 in
    Returns (cyclic_route_ s3, s3).

(** ** A concrete graph: W1 (0,0)-(0,3) and W2 (0,3)-(4,3) *)

Definition c00 : Coord := mkCoord 0 0.
Definition c03 : Coord := mkCoord 0 3.
Definition c43 : Coord := mkCoord 4 3.

Definition add_way_ok (s : Datastructures) (id : WayID) (coords : list Coord)
    : Datastructures :=
  match add_way s id coords with
  | Some (_, s') => s'
  | None => s
  end.

Definition two_ways : Datastructures :=
  add_way_ok (add_way_ok (Datastructures_new false) "W1" [c00; c03])
             "W2" [c03; c43].

(** ** Sequences of calls *)

Inductive call : Type :=
  | Add_way (id : WayID) (coords : list Coord)
  | Remove_way (id : WayID)
  | Clear_ways
  | Route_any (fromxy toxy : Coord)
  | Route_with_cycle (fromxy : Coord).

(** The state after a call; [None] when the call has no defined result
    (undefined behaviour of [add_way], or a search that does not return). *)
Definition run (s : Datastructures) (c : call) : option Datastructures :=
  match c with
  | Add_way id coords => snd <$> add_way s id coords
  | Remove_way id => Some (remove_way s id).2
  | Clear_ways => Some (clear_ways s)
  | Route_any a b =>
      match route_any s a b with Returns r => Some r.2 | _ => None end
  | Route_with_cycle a =>
      match route_with_cycle s a with Returns r => Some r.2 | _ => None end
  end.

Fixpoint run_all (s : Datastructures) (cs : list call)
    : option Datastructures :=
  match cs with
  | [] => Some s
  | c :: cs' => s' ← run s c; run_all s' cs'
  end.

(** A state is reachable when some sequence of calls on a freshly
    constructed object leads to it. *)
Definition reachable (s : Datastructures) : Prop :=
  ∃ b cs, run_all (Datastructures_new b) cs = Some s.

(** ** The representation invariant *)

(** How often the entry [e] is stored in the multimap. *)
Definition occurrences (e : Coord * Way.t) (m : list (Coord * Way.t)) : nat :=
  List.length (filter (λ e', e' = e) m).

(** How often a way must be stored under [c]: once per end equal to [c]. *)
Definition incidence (c : Coord) (w : Way.t) : nat :=
  ((if decide (c = Way.end1 w) then 1 else 0)
   + (if decide (c = Way.end2 w) then 1 else 0))%nat.

Record wf (s : Datastructures) : Prop := mk_wf {
  wf_id : ∀ id w, ways_by_id_ s !! id = Some w → Way.id w = id;
  wf_coord : ∀ c w,
    occurrences (c, w) (ways_by_coord_ s) =
    if decide (ways_by_id_ s !! Way.id w = Some w) then incidence c w else 0%nat;
  wf_crossroad : ∀ c,
    is_Some (visited_coordinates_ s !! c) ↔ ∃ w, (c, w) ∈ ways_by_coord_ s
}.

(** ** Specification-side notions *)

(** The length the specification assigns to a polyline: the floor of the
    Euclidean distance (a real number), summed segment by segment. *)
Definition euclidean (a b : Coord) : R :=
  sqrt (IZR (x a - x b) * IZR (x a - x b) + IZR (y a - y b) * IZR (y a - y b)).

Definition floor_euclidean (a b : Coord) : Z := Zfloor (euclidean a b).

Fixpoint polyline_length (cs : list Coord) : Z :=
  match cs with
  | a :: (b :: _) as rest => floor_euclidean a b + polyline_length rest
  | _ => 0
  end.

(** The sum of the lengths of the sections, as the constructor computes
    them. *)
Fixpoint sections_length (cs : list Coord) : Z :=
  match cs with
  | a :: (b :: _) as rest =>
      int_add (section_length a b) (sections_length rest)
  | _ => 0
  end.

(** Calls that can take a stored way out of the index. *)
Definition removes (id : WayID) (c : call) : Prop :=
  c = Remove_way id ∨ c = Clear_ways.

(** What a search may change: neither view of the way index, not the set
    of coordinates that have a crossroad entry, and not the coordinate
    stored in an entry. *)
Record frame (s s' : Datastructures) : Prop := mk_frame {
  frame_by_id : ways_by_id_ s' = ways_by_id_ s;
  frame_by_coord : ways_by_coord_ s' = ways_by_coord_ s;
  frame_dom : dom (visited_coordinates_ s') = dom (visited_coordinates_ s);
  frame_coordinates : ∀ c cd cd',
    visited_coordinates_ s !! c = Some cd →
    visited_coordinates_ s' !! c = Some cd' →
    Crossroad_data.coordinates cd' = Crossroad_data.coordinates cd
}.

(** The other end of [w] seen from [c], as [ways_from] computes it. *)
Definition other_end (c : Coord) (w : Way.t) : Coord :=
  if decide (c = Way.end1 w) then Way.end2 w else Way.end1 w.

(** One endpoint of [remove_way]: erase the entry, then prune the crossroad. *)
Definition erase_end (c : Coord) (id : WayID) (s : Datastructures)
    : Datastructures :=
  prune_crossroad c
    (with_ways_by_coord (erase_first c id (ways_by_coord_ s)) s).

(** The crossroads that a search has not marked yet. *)
Definition unvisited (s : Datastructures) : gset Coord :=
  dom (filter (λ kv : Coord * Crossroad_data.t,
                 Crossroad_data.visited kv.2 = false)
              (visited_coordinates_ s)).

(** [r], read from start to goal, is a route: every entry but the last
    names the way that leaves its coordinate for the next entry's, and the
    distances accumulate the lengths of these ways; the last entry is the
    goal with [NO_WAY]. *)
Fixpoint route_ok (ways : gmap WayID Way.t) (goal : Coord)
    (r : list (Coord * WayID * Distance)) : Prop :=
  match r with
  | [] => False
  | (c, w, d) :: r' =>
      match r' with
      | [] => c = goal ∧ w = NO_WAY
      | (c', _, d') :: _ =>
          (∃ W, ways !! w = Some W
                ∧ ((c = Way.end1 W ∧ c' = Way.end2 W)
                   ∨ (c = Way.end2 W ∧ c' = Way.end1 W))
                ∧ d' = int_add d (Way.length W))
          ∧ route_ok ways goal r'
      end
  end.

(** A route that starts at [c] with distance [d]. *)
Definition route_from (ways : gmap WayID Way.t) (c : Coord) (d : Z)
    (goal : Coord) (r : list (Coord * WayID * Distance)) : Prop :=
  (∃ w r', r = (c, w, d) :: r') ∧ route_ok ways goal r.

(** What a call [search_any(current, goal, d)] has done when it returns. *)
Record any_post (s s' : Datastructures) (current goal : Coord) (d : Z)
    : Prop := mk_any_post {
  ap_frame : frame s s';
  ap_old : ∀ c cd,
    visited_coordinates_ s !! c = Some cd →
    Crossroad_data.visited cd = true →
    visited_coordinates_ s' !! c = Some cd;
  ap_unvisited : unvisited s' ⊆ unvisited s ∖ {[current]};
  ap_current : ∃ cd,
    visited_coordinates_ s' !! current = Some cd
    ∧ Crossroad_data.visited cd = true ∧ Crossroad_data.distance cd = d;
  ap_not_found :
    route_found_ s' = false → chosen_route_ s' = chosen_route_ s;
  ap_found :
    route_found_ s' = true →
    ∃ r, chosen_route_ s' = chosen_route_ s ++ reverse r
         ∧ route_from (ways_by_id_ s) current d goal r
}.

(** The same for the loop over the ways from [current]. *)
Record any_loop_post (s s' : Datastructures) (current goal : Coord) (d : Z)
    : Prop := mk_any_loop_post {
  alp_frame : frame s s';
  alp_old : ∀ c cd,
    visited_coordinates_ s !! c = Some cd →
    Crossroad_data.visited cd = true →
    visited_coordinates_ s' !! c = Some cd;
  alp_unvisited : unvisited s' ⊆ unvisited s;
  alp_not_found :
    route_found_ s' = false → chosen_route_ s' = chosen_route_ s;
  alp_found :
    route_found_ s' = true →
    ∃ r, chosen_route_ s' = chosen_route_ s ++ reverse r
         ∧ route_from (ways_by_id_ s) current d goal r
}.

(** ** The graph of the specification

    The vertices are coordinates, the edges are the stored ways; a way
    connects its two ends in both directions. *)
Definition step (s : Datastructures) (c : Coord) (w : WayID) (n : Coord)
    : Prop :=
  ∃ W, ways_by_id_ s !! w = Some W
       ∧ ((c = Way.end1 W ∧ n = Way.end2 W)
          ∨ (c = Way.end2 W ∧ n = Way.end1 W)).

(** A walk from [c]: the ways taken, each with the coordinate it leads to. *)
Fixpoint walk (s : Datastructures) (c : Coord) (q : list (WayID * Coord))
    : Prop :=
  match q with
  | [] => True
  | it :: q' => step s c it.1 it.2 ∧ walk s it.2 q'
  end.

Definition vertices (c : Coord) (q : list (WayID * Coord)) : list Coord :=
  c :: q.*2.

Definition walk_end (c : Coord) (q : list (WayID * Coord)) : Coord :=
  List.last q.*2 c.

(** No way is taken twice in a row. *)
Fixpoint no_retrace (q : list (WayID * Coord)) : Prop :=
  match q with
  | it :: q' =>
      match q' with
      | [] => True
      | it' :: _ => it.1 ≠ it'.1 ∧ no_retrace q'
      end
  | [] => True
  end.

(** There is a path from [a] to [b]. *)
Definition connected (s : Datastructures) (a b : Coord) : Prop :=
  ∃ q, walk s a q ∧ walk_end a q = b.

(** A cycle is reachable from [a]: some walk from [a] of length at least one,
    never retracing the way it has just used, ends on a coordinate it has
    already been at. *)
Definition cycle_reachable (s : Datastructures) (a : Coord) : Prop :=
  ∃ q it, walk s a (q ++ [it]) ∧ no_retrace (q ++ [it])
          ∧ it.2 ∈ vertices a q.

(** The crossroads that a search has marked. *)
Definition marked (s : Datastructures) : gset Coord :=
  dom (filter (λ kv : Coord * Crossroad_data.t,
                 Crossroad_data.visited kv.2 = true)
              (visited_coordinates_ s)).

(** The first way of a walk does not lead to [previous]. *)
Definition avoids (previous : Coord) (q : list (WayID * Coord)) : Prop :=
  ∀ it q', q = it :: q' → it.2 ≠ previous.

(** What [search_cycle(current, previous)] has established when it returns
    without having found a cycle: the crossroads [new] it has marked are
    closed under the ways, except for the ways from [current] back to
    [previous], and no walk from [current] that does not start towards
    [previous] and never retraces a way comes back to a coordinate. *)
Record explored (g : Datastructures) (new : gset Coord)
    (current previous : Coord) : Prop := mk_explored {
  ex_current : current ∈ new;
  ex_closed : ∀ m w n,
    m ∈ new → step g m w n → n ∈ new ∨ (m = current ∧ n = previous);
  ex_tree : ∀ q,
    walk g current q → no_retrace q → avoids previous q →
    NoDup (vertices current q) ∧ ∀ v, v ∈ vertices current q → v ∈ new
}.

(** The activations of [search_cycle] that are in progress: the walk [P]
    from the start to [current], entered from [previous]. *)
Record on_stack (g : Datastructures) (s : Datastructures)
    (from : Coord) (P : list (WayID * Coord)) (current previous : Coord)
    : Prop := mk_on_stack {
  os_walk : walk g from P;
  os_end : walk_end from P = current;
  os_no_retrace : no_retrace P;
  os_previous :
    P = [] ∨ ∃ P0 wp, P = P0 ++ [(wp, current)]
                      ∧ walk_end from P0 = previous ∧ previous ∈ marked s;
  os_finished : ∀ m,
    m ∈ marked s → m ∉ vertices from P →
    ∀ w n, step g m w n → n ∈ marked s
}.

(** What a call [search_cycle(current, previous)] on an unmarked crossroad
    has done when it returns. *)
Record cycle_post (g s s' : Datastructures) (from current previous : Coord)
    : Prop := mk_cycle_post {
  cp_marked : marked s ⊆ marked s';
  cp_found :
    route_found_ s' = true →
    cycle_reachable g from ∧ cyclic_route_ s' ≠ [];
  cp_not_found :
    route_found_ s' = false →
    cyclic_route_ s' = cyclic_route_ s
    ∧ explored g (marked s' ∖ marked s) current previous
}.

(** The invariant of the loop of [search_cycle] over the ways from
    [current]: [done] are the ways already handled, [s1] is the state in
    which the loop was entered. *)
Record loop_inv (g s1 t : Datastructures) (from : Coord)
    (P : list (WayID * Coord)) (current previous : Coord)
    (done : list (WayID * Coord)) : Prop := mk_loop_inv {
  li_marked : marked s1 ⊆ marked t;
  li_finished : ∀ m,
    m ∈ marked t → m ∉ vertices from P →
    ∀ w n, step g m w n →
      n ∈ marked t ∧ (n = current → ∃ w1, (w1, m) ∈ done);
  li_done : ∀ it,
    it ∈ done → it.2 = previous ∨ it.2 ∈ marked t ∖ marked s1;
  li_closed : ∀ m w n,
    m ∈ marked t ∖ marked s1 → step g m w n →
    n ∈ marked t ∖ marked s1 ∨ n = current;
  li_tree : ∀ it,
    it ∈ done → it.2 ≠ previous →
    ∀ q, walk g it.2 q → no_retrace q → avoids current q →
      NoDup (vertices it.2 q)
      ∧ ∀ v, v ∈ vertices it.2 q → v ∈ marked t ∖ marked s1;
  li_distinct : ∀ it it',
    it ∈ done → it' ∈ done → it.2 = it'.2 → it.2 ≠ previous → it = it'
}.

(** The value a query returns, without the state it leaves behind. *)
Definition returned {A B : Type} (o : outcome (A * B)) : outcome A :=
  match o with
  | Returns p => Returns p.1
  | Throws => Throws
  | OutOfFuel => OutOfFuel
  end.

(** [w] is a stored way with ends [c] and [c'] and length [len]. *)
Definition joins (ways : gmap WayID Way.t) (w : WayID) (c c' : Coord)
    (len : Z) : Prop :=
  ∃ W, ways !! w = Some W
       ∧ ((c = Way.end1 W ∧ c' = Way.end2 W)
          ∨ (c = Way.end2 W ∧ c' = Way.end1 W))
       ∧ Way.length W = len.

(** Two readings of a route [(c0,w0,d0), (c1,w1,d1), ...].  By departure:
    the way of an entry leads from its coordinate to the next entry's, and
    the next distance is the [int] sum of the distance and the length of
    the way: the two differ by the length whenever their sum fits an
    [int].  By arrival, as the specification has it: the way of an entry
    leads from the previous entry's coordinate to its own, and its length
    is the difference of the two distances. *)
Definition consecutive_by_departure (ways : gmap WayID Way.t)
    (r : list (Coord * WayID * Distance)) : Prop :=
  ∀ i ci wi di ci1 wi1 di1,
    r !! i = Some (ci, wi, di) → r !! S i = Some (ci1, wi1, di1) →
    ∃ len, joins ways wi ci ci1 len
           ∧ di1 = int_add di len
           ∧ (int_min <= di + len <= int_max → di1 - di = len).

Definition consecutive_by_arrival (ways : gmap WayID Way.t)
    (r : list (Coord * WayID * Distance)) : Prop :=
  ∀ i ci wi di ci1 wi1 di1,
    r !! i = Some (ci, wi, di) → r !! S i = Some (ci1, wi1, di1) →
    joins ways wi1 ci ci1 (di1 - di).

(** ** More concrete graphs *)

(** A single way from the sentinel coordinate to itself. *)
Definition sentinel_loop : Datastructures :=
  add_way_ok (Datastructures_new false) "L" [NO_COORD; NO_COORD].

(** A single way from (0,0) to itself. *)
Definition origin_loop : Datastructures :=
  add_way_ok (Datastructures_new false) "L" [c00; c00].

(** Two ways that do not meet: (0,0)-(0,3) and (4,3)-(4,4). *)
Definition c44 : Coord := mkCoord 4 4.

Definition apart : Datastructures :=
  add_way_ok (add_way_ok (Datastructures_new false) "W1" [c00; c03])
             "W3" [c43; c44].

(** The two ways of [two_ways], stored in the other order. *)
Definition two_ways_rev : Datastructures :=
  add_way_ok (add_way_ok (Datastructures_new false) "W2" [c03; c43])
             "W1" [c00; c03].

(** A single long way from (0,0) to (67117698,11586). *)
Definition c_far : Coord := mkCoord 67117698 11586.

Definition far_way : Datastructures :=
  add_way_ok (Datastructures_new false) "F" [c00; c_far].

(** The two ways of the example, as the constructor builds them. *)
Definition way_W1 : Way.t := Way.mk "W1" [c00; c03] c00 c03 3.
Definition way_W2 : Way.t := Way.mk "W2" [c03; c43] c03 c43 4.

(** The index by identifier that holds exactly these two ways. *)
Definition only_W1_W2 : gmap WayID Way.t :=
  <["W1"%string := way_W1]> (<["W2"%string := way_W2]> ∅).

(** ** The invariants that the lookups of the searches rely on *)

(** The view by coordinate only holds stored ways, each under one of its
    ends. *)
Definition index_ok (s : Datastructures) : Prop :=
  ∀ c W, (c, W) ∈ ways_by_coord_ s →
    ways_by_id_ s !! Way.id W = Some W ∧ (c = Way.end1 W ∨ c = Way.end2 W).

(** The crossroad-state invariant: every end of every stored way has an
    entry in the crossroad table. *)
Definition crossroad_inv (s : Datastructures) : Prop :=
  ∀ id W, ways_by_id_ s !! id = Some W →
    is_Some (visited_coordinates_ s !! Way.end1 W)
    ∧ is_Some (visited_coordinates_ s !! Way.end2 W).

(** ** Further notions for the ways and the searches *)

(** [all_ways]: the keys of [ways_by_id_], in the iteration order of the
    map. *)
Definition all_ways (s : Datastructures) : list WayID :=
  (map_to_list (ways_by_id_ s)).*1.

(** The calls that only query: the two route searches. *)
Definition is_query (c : call) : Prop :=
  match c with
  | Route_any _ _ | Route_with_cycle _ => True
  | _ => False
  end.

(** The result of a search, passed through [f]. *)
Definition outcome_map {A B : Type} (f : A → B) (o : outcome A) : outcome B :=
  match o with
  | Returns a => Returns (f a)
  | Throws => Throws
  | OutOfFuel => OutOfFuel
  end.

(** What a search that has not found the goal leaves behind: the goal is
    not among the crossroads it has marked, and every way from a crossroad
    it has marked leads to a marked crossroad. *)
Definition closed_post (g s s' : Datastructures) (goal : Coord) : Prop :=
  route_found_ s' = false →
  (goal ∉ marked s' ∖ marked s)
  ∧ (∀ m w n, m ∈ marked s' ∖ marked s → step g m w n → n ∈ marked s').

(** [r], read from the start, is the route of a cycle search: every entry
    but the last names a way from its coordinate to the next entry's, and
    the last entry carries [NO_WAY]. *)
Fixpoint cycle_route_ok (g : Datastructures) (r : list (Coord * WayID))
    : Prop :=
  match r with
  | [] => False
  | (c, w) :: r' =>
      match r' with
      | [] => w = NO_WAY
      | (c', _) :: _ => step g c w c' ∧ cycle_route_ok g r'
      end
  end.

(** What a call [search_cycle(current, _)] has added to [cyclic_route_]. *)
Definition cycle_walk_post (g s s' : Datastructures) (current : Coord)
    : Prop :=
  (route_found_ s' = false → cyclic_route_ s' = cyclic_route_ s)
  ∧ (route_found_ s' = true →
     ∃ w r, cyclic_route_ s' = cyclic_route_ s ++ reverse ((current, w) :: r)
            ∧ cycle_route_ok g ((current, w) :: r)
            ∧ (current ∉ marked s → r ≠ [])).

(** [W] is as its constructor built it from its identifier and its
    coordinates. *)
Definition constructed (W : Way.t) : Prop :=
  Way_new (Way.id W) (Way.coordinates W) = Some W.


(** * Phase 1: places and areas

    The phase-1 members of [class Datastructures] and the operations on
    them.  No phase-1 operation reads or writes a phase-2 member, and no
    phase-2 operation a phase-1 member: the two parts of the object are
    modelled as two records.

    [Place] and [Area] objects are created by [std::make_shared] and shared
    between the containers through pointers; [change_place_name],
    [change_place_coord] and [add_subarea_to_area] update an object in
    place.  The model keeps the objects in a store indexed by [address];
    a [std::shared_ptr] or [std::weak_ptr] is an address, [nullptr] is
    [None].  Reading through an address at which the store has no object is
    undefined. *)

Definition PlaceID : Type := Z.
Definition AreaID : Type := Z.
Definition Name : Type := string.

Definition NO_PLACE : PlaceID := -1.
Definition NO_AREA : AreaID := -1.
Definition NO_NAME : Name := "!!NO_NAME!!"%string.

Inductive PlaceType : Type :=
  | OTHER | FIREPIT | SHELTER | PARKING | PEAK | BAY | AREA | NO_TYPE.

#[global] Instance PlaceType_eq_dec : EqDecision PlaceType.
Proof. solve_decision. Defined.

Definition address : Type := nat.

Module Place.
Record t : Type := mk {
  id : PlaceID;
  name : Name;
  type : PlaceType;
  coordinates : Coord
}.
End Place.

Module Area.
Record t : Type := mk {
  id : AreaID;
  name : Name;
  coordinates : list Coord;
  parent_area : option address;
  subareas : list address
}.
End Area.

(** ** calculate_euclidean and the order of coordinates *)

Definition calculate_euclidean (coord : Coord) : double :=
  double_sqrt (double_add (double_pow2 (double_of_int (x coord)))
                          (double_pow2 (double_of_int (y coord)))).

(** [a < b] and [a == b] on [double]. *)
Definition double_lt (a b : double) : bool := SFltb a b.
Definition double_eq (a b : double) : bool := SFeqb a b.

(** [operator<(Coord, Coord)] *)
Definition Coord_lt (c1 c2 : Coord) : bool :=
  let c1_e := calculate_euclidean c1 in
  let c2_e := calculate_euclidean c2 in
  if double_lt c1_e c2_e then true
  else if double_lt c2_e c1_e then false
  else y c1 <? y c2.

(** ** The phase-1 members of class Datastructures *)

Record Places : Type := mkPlaces {
  coordinate_sorted_ : bool;
  alphabetical_sorted_ : bool;
  alphabetical_vector_ids_ : list PlaceID;
  coordinate_vector_ids_ : list PlaceID;
  places_by_id_ : gmap PlaceID address;
  places_by_name_ : list (Name * address);
  places_by_type_ : list (PlaceType * address);
  areas_by_id_ : gmap AreaID address;
  (** the objects that the pointers own *)
  place_store : gmap address Place.t;
  area_store : gmap address Area.t
}.

Definition Places_new : Places :=
  mkPlaces false false [] [] ∅ [] [] ∅ ∅ ∅.

(** [*p] for a pointer to a [Place] or an [Area]. *)
Definition place_at (s : Places) (p : address) : option Place.t :=
  place_store s !! p.
Definition area_at (s : Places) (p : address) : option Area.t :=
  area_store s !! p.

(** The address [std::make_shared] returns: one that holds no object. *)
Definition new_address {A : Type} (store : gmap address A) : address :=
  fresh (dom store).

Definition get_place (s : Places) (id : PlaceID) : option address :=
  places_by_id_ s !! id.

Definition get_area (s : Places) (id : AreaID) : option address :=
  areas_by_id_ s !! id.

Definition place_count (s : Places) : Z :=
  Z.of_nat (size (places_by_id_ s)).

(** [clear_all] empties the containers; the objects lose their owners. *)
Definition clear_all (s : Places) : Places :=
  mkPlaces false false (alphabetical_vector_ids_ s) (coordinate_vector_ids_ s)
           ∅ [] [] ∅ ∅ ∅.

Definition all_places (s : Places) : list PlaceID :=
  (map_to_list (places_by_id_ s)).*1.

Definition add_place (s : Places) (id : PlaceID) (name : Name)
    (type : PlaceType) (xy : Coord) : bool * Places :=
  match get_place s id with
  | Some _ => (false, s)
  | None =>
      let added_place := new_address (place_store s) in
      (true,
       mkPlaces false false
                (alphabetical_vector_ids_ s) (coordinate_vector_ids_ s)
                (<[id := added_place]> (places_by_id_ s))
                (places_by_name_ s ++ [(name, added_place)])
                (places_by_type_ s ++ [(type, added_place)])
                (areas_by_id_ s)
                (<[added_place := Place.mk id name type xy]> (place_store s))
                (area_store s))
  end.

Definition get_place_name_type (s : Places) (id : PlaceID)
    : option (Name * PlaceType) :=
  match get_place s id with
  | None => Some (NO_NAME, NO_TYPE)
  | Some wanted_place =>
      p ← place_at s wanted_place; Some (Place.name p, Place.type p)
  end.

Definition get_place_coord (s : Places) (id : PlaceID) : option Coord :=
  match get_place s id with
  | None => Some NO_COORD
  | Some wanted_place => Place.coordinates <$> place_at s wanted_place
  end.

Definition add_area (s : Places) (id : AreaID) (name : Name)
    (coords : list Coord) : bool * Places :=
  match get_area s id with
  | Some _ => (false, s)
  | None =>
      let added_area := new_address (area_store s) in
      (true,
       mkPlaces (coordinate_sorted_ s) (alphabetical_sorted_ s)
                (alphabetical_vector_ids_ s) (coordinate_vector_ids_ s)
                (places_by_id_ s) (places_by_name_ s) (places_by_type_ s)
                (<[id := added_area]> (areas_by_id_ s))
                (place_store s)
                (<[added_area := Area.mk id name coords None []]>
                   (area_store s)))
  end.

Definition get_area_name (s : Places) (id : AreaID) : option Name :=
  match get_area s id with
  | None => Some NO_NAME
  | Some wanted_area => Area.name <$> area_at s wanted_area
  end.

Definition get_area_coords (s : Places) (id : AreaID) : option (list Coord) :=
  match get_area s id with
  | None => Some [NO_COORD]
  | Some wanted_area => Area.coordinates <$> area_at s wanted_area
  end.

Definition creation_finished (s : Places) : Places := s.

(** ** Sorted listings *)

(** [std::multimap::insert]: the new entry goes to the upper bound of its
    key, before the first entry with a greater key. *)
Fixpoint multimap_insert {K V : Type} (lt : K → K → bool) (k : K) (v : V)
    (m : list (K * V)) : list (K * V) :=
  match m with
  | [] => [(k, v)]
  | e :: m' =>
      if lt k e.1 then (k, v) :: m else e :: multimap_insert lt k v m'
  end.

(** The first loop of [places_alphabetically] and [places_coord_order]:
    every place of [places_by_id_] goes into [temp_map] under [key]. *)
Fixpoint fill_temp_map {K : Type} (lt : K → K → bool) (key : Place.t → K)
    (s : Places) (entries : list (PlaceID * address))
    (temp_map : list (K * address)) : option (list (K * address)) :=
  match entries with
  | [] => Some temp_map
  | it :: rest =>
      p ← place_at s it.2;
      fill_temp_map lt key s rest (multimap_insert lt (key p) it.2 temp_map)
  end.

(** The loops that push [it->second->id] for every entry of a range. *)
Fixpoint push_ids {K : Type} (s : Places) (range : list (K * address))
    (ids : list PlaceID) : option (list PlaceID) :=
  match range with
  | [] => Some ids
  | it :: rest => p ← place_at s it.2; push_ids s rest (ids ++ [Place.id p])
  end.

Definition with_alphabetical (v : list PlaceID) (s : Places) : Places :=
  mkPlaces (coordinate_sorted_ s) true v (coordinate_vector_ids_ s)
           (places_by_id_ s) (places_by_name_ s) (places_by_type_ s)
           (areas_by_id_ s) (place_store s) (area_store s).

Definition with_coordinate (v : list PlaceID) (s : Places) : Places :=
  mkPlaces true (alphabetical_sorted_ s) (alphabetical_vector_ids_ s) v
           (places_by_id_ s) (places_by_name_ s) (places_by_type_ s)
           (areas_by_id_ s) (place_store s) (area_store s).

Definition places_alphabetically (s : Places)
    : option (list PlaceID * Places) :=
  if alphabetical_sorted_ s then Some (alphabetical_vector_ids_ s, s)
  else
    temp_map ← fill_temp_map String.ltb Place.name s
                 (map_to_list (places_by_id_ s)) [];
    ids ← push_ids s temp_map [];
    Some (ids, with_alphabetical ids s).

Definition places_coord_order (s : Places)
    : option (list PlaceID * Places) :=
  if coordinate_sorted_ s then Some (coordinate_vector_ids_ s, s)
  else
    temp_map ← fill_temp_map Coord_lt Place.coordinates s
                 (map_to_list (places_by_id_ s)) [];
    ids ← push_ids s temp_map [];
    Some (ids, with_coordinate ids s).

(** ** Lookups by name and by type *)

(** The entries of [equal_range(k)] of an unordered multimap. *)
Definition entries_of {K V : Type} `{EqDecision K} (k : K)
    (m : list (K * V)) : list (K * V) :=
  filter (λ e, e.1 = k) m.

Definition find_places_name (s : Places) (name : Name)
    : option (list PlaceID) :=
  push_ids s (entries_of name (places_by_name_ s)) [].

Definition find_places_type (s : Places) (type : PlaceType)
    : option (list PlaceID) :=
  push_ids s (entries_of type (places_by_type_ s)) [].

(** ** Changing and removing places *)

(** The loops of [change_place_name] and [remove_place] over
    [equal_range(key)]: the first entry whose place has identifier [id] is
    taken out of the multimap. *)
Fixpoint extract_first {K : Type} `{EqDecision K} (s : Places) (key : K)
    (id : PlaceID) (m : list (K * address))
    : option (option address * list (K * address)) :=
  match m with
  | [] => Some (None, [])
  | e :: m' =>
      if decide (e.1 = key) then
        p ← place_at s e.2;
        if decide (Place.id p = id) then Some (Some e.2, m')
        else r ← extract_first s key id m'; Some (r.1, e :: r.2)
      else r ← extract_first s key id m'; Some (r.1, e :: r.2)
  end.

Definition change_place_name (s : Places) (id : PlaceID) (newname : Name)
    : option (bool * Places) :=
  match get_place s id with
  | None => Some (false, s)
  | Some found_place =>
      p ← place_at s found_place;
      let old_name := Place.name p in
      let s1 :=
        mkPlaces (coordinate_sorted_ s) (alphabetical_sorted_ s)
                 (alphabetical_vector_ids_ s) (coordinate_vector_ids_ s)
                 (places_by_id_ s) (places_by_name_ s) (places_by_type_ s)
                 (areas_by_id_ s)
                 (<[found_place := Place.mk (Place.id p) newname (Place.type p)
                                            (Place.coordinates p)]>
                    (place_store s))
                 (area_store s) in
      r ← extract_first s1 old_name id (places_by_name_ s1);
      let by_name :=
        match r.1 with
        | Some wanted_element => r.2 ++ [(newname, wanted_element)]
        | None => places_by_name_ s1
        end in
      Some (true,
            mkPlaces (coordinate_sorted_ s1) false
                     (alphabetical_vector_ids_ s1) (coordinate_vector_ids_ s1)
                     (places_by_id_ s1) by_name (places_by_type_ s1)
                     (areas_by_id_ s1) (place_store s1) (area_store s1))
  end.

Definition change_place_coord (s : Places) (id : PlaceID) (newcoord : Coord)
    : option (bool * Places) :=
  match get_place s id with
  | None => Some (false, s)
  | Some found_place =>
      p ← place_at s found_place;
      Some (true,
            mkPlaces false (alphabetical_sorted_ s)
                     (alphabetical_vector_ids_ s) (coordinate_vector_ids_ s)
                     (places_by_id_ s) (places_by_name_ s) (places_by_type_ s)
                     (areas_by_id_ s)
                     (<[found_place := Place.mk (Place.id p) (Place.name p)
                                                (Place.type p) newcoord]>
                        (place_store s))
                     (area_store s))
  end.

(** [places_by_name_.erase(it)] and [places_by_type_.erase(it)] release one
    owner of the place and [places_by_id_.erase(id)] the last one; the
    store keeps the object, which no pointer reaches any more. *)
Definition remove_place (s : Places) (id : PlaceID) : option (bool * Places) :=
  match get_place s id with
  | None => Some (false, s)
  | Some to_be_removed =>
      p ← place_at s to_be_removed;
      rn ← extract_first s (Place.name p) id (places_by_name_ s);
      rt ← extract_first s (Place.type p) id (places_by_type_ s);
      Some (true,
            mkPlaces false false
                     (alphabetical_vector_ids_ s) (coordinate_vector_ids_ s)
                     (delete id (places_by_id_ s)) rn.2 rt.2
                     (areas_by_id_ s) (place_store s) (area_store s))
  end.

(** ** The three closest places *)

(** [distance < c.first || (distance == c.first
                            && c.second->coordinates.y > it->coordinates.y)] *)
Definition closer (s : Places) (distance : double) (it : Place.t)
    (c : double * option address) : option bool :=
  if double_lt distance c.1 then Some true
  else if double_eq distance c.1 then
    q ← c.2; pc ← place_at s q;
    Some (y (Place.coordinates it) <? y (Place.coordinates pc))
  else Some false.

Fixpoint closest_loop (s : Places) (xy : Coord)
    (range : list (PlaceType * address))
    (first_closest second_closest third_closest : double * option address)
    : option ((double * option address) * (double * option address)
              * (double * option address)) :=
  match range with
  | [] => Some (first_closest, second_closest, third_closest)
  | it :: rest =>
      p ← place_at s it.2;
      let distance :=
        calculate_euclidean
          (mkCoord (int_sub (x xy) (x (Place.coordinates p)))
                   (int_sub (y xy) (y (Place.coordinates p)))) in
      match first_closest.2 with
      | None =>
          closest_loop s xy rest (distance, Some it.2)
                       second_closest third_closest
      | Some _ =>
          b1 ← closer s distance p first_closest;
          if b1 : bool then
            closest_loop s xy rest (distance, Some it.2)
                         first_closest second_closest
          else
            match second_closest.2 with
            | None =>
                closest_loop s xy rest first_closest (distance, Some it.2)
                             third_closest
            | Some _ =>
                b2 ← closer s distance p second_closest;
                if b2 : bool then
                  closest_loop s xy rest first_closest (distance, Some it.2)
                               second_closest
                else
                  match third_closest.2 with
                  | None =>
                      closest_loop s xy rest first_closest second_closest
                                   (distance, Some it.2)
                  | Some _ =>
                      b3 ← closer s distance p third_closest;
                      if b3 : bool then
                        closest_loop s xy rest first_closest second_closest
                                     (distance, Some it.2)
                      else
                        closest_loop s xy rest first_closest second_closest
                                     third_closest
                  end
            end
      end
  end.

Definition places_closest_to (s : Places) (xy : Coord) (type : PlaceType)
    : option (list PlaceID) :=
  let range :=
    if decide (type = NO_TYPE) then places_by_type_ s
    else entries_of type (places_by_type_ s) in
  let unset : double * option address :=
    (double_of_int NO_DISTANCE, None) in
  r ← closest_loop s xy range unset unset unset;
  let '(first_closest, second_closest, third_closest) := r in
  match third_closest.2, second_closest.2, first_closest.2 with
  | Some p3, _, _ =>
      p1 ← first_closest.2; p2 ← second_closest.2;
      a1 ← place_at s p1; a2 ← place_at s p2; a3 ← place_at s p3;
      Some [Place.id a1; Place.id a2; Place.id a3]
  | None, Some p2, _ =>
      p1 ← first_closest.2;
      a1 ← place_at s p1; a2 ← place_at s p2;
      Some [Place.id a1; Place.id a2]
  | None, None, Some p1 =>
      a1 ← place_at s p1; Some [Place.id a1]
  | None, None, None => Some []
  end.

(** ** Areas *)

Definition all_areas (s : Places) : list AreaID :=
  (map_to_list (areas_by_id_ s)).*1.

Definition with_area_store (m : gmap address Area.t) (s : Places) : Places :=
  mkPlaces (coordinate_sorted_ s) (alphabetical_sorted_ s)
           (alphabetical_vector_ids_ s) (coordinate_vector_ids_ s)
           (places_by_id_ s) (places_by_name_ s) (places_by_type_ s)
           (areas_by_id_ s) (place_store s) m.

Definition add_subarea_to_area (s : Places) (id parentid : AreaID)
    : option (bool * Places) :=
  match get_area s id, get_area s parentid with
  | Some found_subarea, Some found_parent_area =>
      sub ← area_at s found_subarea;
      match Area.parent_area sub with
      | Some _ => Some (false, s)
      | None =>
          let s1 :=
            with_area_store
              (<[found_subarea :=
                   Area.mk (Area.id sub) (Area.name sub) (Area.coordinates sub)
                           (Some found_parent_area) (Area.subareas sub)]>
                 (area_store s)) s in
          par ← area_at s1 found_parent_area;
          Some (true,
                with_area_store
                  (<[found_parent_area :=
                       Area.mk (Area.id par) (Area.name par)
                               (Area.coordinates par) (Area.parent_area par)
                               (Area.subareas par ++ [found_subarea])]>
                     (area_store s1)) s1)
      end
  | _, _ => Some (false, s)
  end.

(** The loops and the recursion over areas need not end: a result is a
    value, undefined (an address without an object is read), or not
    reached within [fuel] loop rounds or nested calls. *)
Inductive result (A : Type) : Type :=
  | Value (a : A)
  | Undefined
  | Unfinished.
Arguments Value {A} a.
Arguments Undefined {A}.
Arguments Unfinished {A}.

#[global] Instance result_bind : MBind result :=
  λ A B f m, match m with
             | Value a => f a
             | Undefined => Undefined
             | Unfinished => Unfinished
             end.

Definition defined {A : Type} (o : option A) : result A :=
  match o with
  | Some a => Value a
  | None => Undefined
  end.

(** The [while] loop of [subarea_in_areas]. *)
Fixpoint parents_loop (fuel : nat) (s : Places) (found_area : address)
    (parents : list AreaID) : result (list AreaID) :=
  match fuel with
  | O => Unfinished
  | S fuel' =>
      a ← defined (area_at s found_area);
      match Area.parent_area a with
      | None => Value parents
      | Some parent =>
          pa ← defined (area_at s parent);
          parents_loop fuel' s parent (parents ++ [Area.id pa])
      end
  end.

Definition subarea_in_areas (fuel : nat) (s : Places) (id : AreaID)
    : result (list AreaID) :=
  match get_area s id with
  | None => Value [NO_AREA]
  | Some found_area => parents_loop fuel s found_area []
  end.

(** The [for] loop of [get_children]; [rec child] is the recursive call. *)
Fixpoint children_loop (rec : address → result (list AreaID)) (s : Places)
    (children : list address) (subareas : list AreaID)
    : result (list AreaID) :=
  match children with
  | [] => Value subareas
  | child :: rest =>
      c ← defined (area_at s child);
      children_subareas ← rec child;
      children_loop rec s rest ((subareas ++ [Area.id c]) ++ children_subareas)
  end.

Fixpoint get_children (fuel : nat) (s : Places) (current_area : address)
    : result (list AreaID) :=
  match fuel with
  | O => Unfinished
  | S fuel' =>
      a ← defined (area_at s current_area);
      children_loop (get_children fuel' s) s (Area.subareas a) []
  end.

Definition all_subareas_in_area (fuel : nat) (s : Places) (id : AreaID)
    : result (list AreaID) :=
  match get_area s id with
  | None => Value [NO_AREA]
  | Some parent_area => get_children fuel s parent_area
  end.

(** The two [while] loops of [common_area_of_subareas]. *)
Fixpoint parent_chain (fuel : nat) (s : Places)
    (parent_pointer : option address) (parents : list address)
    : result (list address) :=
  match fuel with
  | O => Unfinished
  | S fuel' =>
      match parent_pointer with
      | None => Value parents
      | Some p =>
          a ← defined (area_at s p);
          parent_chain fuel' s (Area.parent_area a) (parents ++ [p])
      end
  end.

(** [std::mismatch] on two ranges: the length of their common prefix. *)
Fixpoint mismatch (l1 l2 : list address) : nat :=
  match l1, l2 with
  | a :: l1', b :: l2' => if decide (a = b) then S (mismatch l1' l2') else O
  | _, _ => O
  end.

Definition common_area_of_subareas (fuel : nat) (s : Places)
    (id1 id2 : AreaID) : result AreaID :=
  match get_area s id1, get_area s id2 with
  | Some first_area, Some second_area =>
      a1 ← defined (area_at s first_area);
      a2 ← defined (area_at s second_area);
      first_parents ← parent_chain fuel s (Area.parent_area a1) [];
      second_parents ← parent_chain fuel s (Area.parent_area a2) [];
      match mismatch (reverse first_parents) (reverse second_parents) with
      | O => Value NO_AREA
      | S n =>
          p ← defined (reverse first_parents !! n);
          a ← defined (area_at s p);
          Value (Area.id a)
      end
  | _, _ => Value NO_AREA
  end.

(** ** Sequences of phase-1 calls *)

Inductive place_call : Type :=
  | Add_place (id : PlaceID) (name : Name) (type : PlaceType) (xy : Coord)
  | Remove_place (id : PlaceID)
  | Change_place_name (id : PlaceID) (newname : Name)
  | Change_place_coord (id : PlaceID) (newcoord : Coord)
  | Places_alphabetically
  | Places_coord_order
  | Add_area (id : AreaID) (name : Name) (coords : list Coord)
  | Add_subarea_to_area (id parentid : AreaID)
  | Creation_finished
  | Clear_all.

(** The state after a call; [None] when the call is undefined. *)
Definition run_place (s : Places) (c : place_call) : option Places :=
  match c with
  | Add_place id name type xy => Some (add_place s id name type xy).2
  | Remove_place id => snd <$> remove_place s id
  | Change_place_name id newname => snd <$> change_place_name s id newname
  | Change_place_coord id newcoord => snd <$> change_place_coord s id newcoord
  | Places_alphabetically => snd <$> places_alphabetically s
  | Places_coord_order => snd <$> places_coord_order s
  | Add_area id name coords => Some (add_area s id name coords).2
  | Add_subarea_to_area id parentid => snd <$> add_subarea_to_area s id parentid
  | Creation_finished => Some (creation_finished s)
  | Clear_all => Some (clear_all s)
  end.

Fixpoint run_places (s : Places) (cs : list place_call) : option Places :=
  match cs with
  | [] => Some s
  | c :: cs' => s' ← run_place s c; run_places s' cs'
  end.

Definition reachable_places (s : Places) : Prop :=
  ∃ cs, run_places Places_new cs = Some s.

(** ** The representation invariant of the place indexes *)

(** The place stored under [id]. *)
Definition place_of (s : Places) (id : PlaceID) : option Place.t :=
  p ← get_place s id; place_at s p.

(** [p] is the object that [places_by_id_] holds for its identifier. *)
Definition indexed (s : Places) (p : address) (a : Place.t) : Prop :=
  place_at s p = Some a ∧ get_place s (Place.id a) = Some p.

(** What the two sorted listings compute when their flag is not set. *)
Definition sorted_by {K : Type} (lt : K → K → bool) (key : Place.t → K)
    (s : Places) : option (list PlaceID) :=
  temp_map ← fill_temp_map lt key s (map_to_list (places_by_id_ s)) [];
  push_ids s temp_map [].

Record places_wf (s : Places) : Prop := mk_places_wf {
  pw_id : ∀ i p, get_place s i = Some p →
                 ∃ a, place_at s p = Some a ∧ Place.id a = i;
  pw_name : ∀ n p, (n, p) ∈ places_by_name_ s
                   ↔ ∃ a, indexed s p a ∧ Place.name a = n;
  pw_name_once : NoDup (places_by_name_ s).*2;
  pw_type : ∀ t p, (t, p) ∈ places_by_type_ s
                   ↔ ∃ a, indexed s p a ∧ Place.type a = t;
  pw_type_once : NoDup (places_by_type_ s).*2;
  pw_alphabetical :
    alphabetical_sorted_ s = true →
    sorted_by String.ltb Place.name s = Some (alphabetical_vector_ids_ s);
  pw_coordinate :
    coordinate_sorted_ s = true →
    sorted_by Coord_lt Place.coordinates s = Some (coordinate_vector_ids_ s)
}.

(** ** Specification-side notions for the listings *)

(** The entries of a [std::multimap] are in ascending order of their keys:
    no entry has a key less than the key of an entry before it. *)
Definition ascending {K V : Type} (lt : K → K → bool) (m : list (K * V))
    : Prop :=
  StronglySorted (λ e1 e2, lt e2.1 e1.1 = false) m.

(** The identifiers [ids] are listed in ascending order of the key of the
    places they name. *)
Definition listed_ascending {K : Type} (lt : K → K → bool)
    (key : Place.t → K) (s : Places) (ids : list PlaceID) : Prop :=
  ∀ i j x y a b,
    (i < j)%nat → ids !! i = Some x → ids !! j = Some y →
    place_of s x = Some a → place_of s y = Some b →
    lt (key b) (key a) = false.

(** The identifiers behind a list of addresses. *)
Definition ids_of (s : Places) (l : list address) : list PlaceID :=
  omap (λ p, Place.id <$> place_at s p) l.

(** ** The order of [double] values *)

(** The place of a [double] that is not a NaN in the order of [<]: sign
    class, then exponent, then mantissa. *)
Definition rank (f : double) : Z * Z * Z :=
  match f with
  | S754_infinity true => (-2, 0, 0)
  | S754_finite true m e => (-1, - e, Z.neg m)
  | S754_zero _ => (0, 0, 0)
  | S754_finite false m e => (1, e, Z.pos m)
  | S754_infinity false => (2, 0, 0)
  | S754_nan => (3, 0, 0)
  end.

Definition rank_lt (a b : Z * Z * Z) : Prop :=
  a.1.1 < b.1.1
  ∨ (a.1.1 = b.1.1 ∧ (a.1.2 < b.1.2 ∨ (a.1.2 = b.1.2 ∧ a.2 < b.2))).

(** A [double] that is neither negative nor a NaN. *)
Definition nonnegative (f : double) : Prop :=
  match f with
  | S754_zero _ => True
  | S754_infinity s | S754_finite s _ _ => s = false
  | S754_nan => False
  end.

(** A [double] with sign bit [sx] that is not a NaN. *)
Definition has_sign (sx : bool) (f : double) : Prop :=
  match f with
  | S754_zero s | S754_infinity s | S754_finite s _ _ => s = sx
  | S754_nan => False
  end.

(** The place of a coordinate in the order of [operator<]: its distance
    from the origin, then its [y]. *)
Definition coord_rank (c : Coord) : Z * Z * Z * Z :=
  (rank (calculate_euclidean c), y c).

Definition quad_lt (a b : Z * Z * Z * Z) : Prop :=
  rank_lt a.1 b.1 ∨ (a.1 = b.1 ∧ a.2 < b.2).

#[global] Instance quad_lt_dec a b : Decision (quad_lt a b).
Proof. unfold quad_lt, rank_lt. apply _. Defined.

Definition quad_ltb (a b : Z * Z * Z * Z) : bool := bool_decide (quad_lt a b).

(** ** Specification-side notions for [places_closest_to] *)

(** The distance of a place from [xy], as [places_closest_to] computes
    it: from the [int] differences of the coordinates. *)
Definition distance_to (xy : Coord) (a : Place.t) : double :=
  calculate_euclidean (mkCoord (int_sub (x xy) (x (Place.coordinates a)))
                               (int_sub (y xy) (y (Place.coordinates a)))).

(** [a] comes before [b] in the order of [places_closest_to]: it is closer
    to [xy], or as close and has the smaller [y]. *)
Definition nearer (xy : Coord) (a b : Place.t) : bool :=
  double_lt (distance_to xy a) (distance_to xy b)
  || (double_eq (distance_to xy a) (distance_to xy b)
      && (y (Place.coordinates a) <? y (Place.coordinates b))).

(** The places [places_closest_to] chooses from. *)
Definition candidate (type : PlaceType) (a : Place.t) : Prop :=
  type = NO_TYPE ∨ Place.type a = type.

Definition place_rank (xy : Coord) (a : Place.t) : Z * Z * Z * Z :=
  (rank (distance_to xy a), y (Place.coordinates a)).

Definition rank_at (s : Places) (xy : Coord) (p : address) : Z * Z * Z * Z :=
  match place_at s p with
  | Some a => place_rank xy a
  | None => (0, 0, 0, 0)
  end.

(** The three closest places as a sorted list: one round of the loop puts
    the place in its position and keeps the first three. *)
Definition keep3 (s : Places) (xy : Coord)
    (sel : list (Z * Z * Z * Z * address)) (p : address)
    : list (Z * Z * Z * Z * address) :=
  take 3 (multimap_insert quad_ltb (rank_at s xy p) p sel).

Definition unset : double * option address :=
  (double_of_int NO_DISTANCE, None).

(** The pair that the loop holds for an entry of the sorted list. *)
Definition slot (s : Places) (xy : Coord)
    (e : option (Z * Z * Z * Z * address)) : double * option address :=
  match e with
  | Some e =>
      match place_at s e.2 with
      | Some a => (distance_to xy a, Some e.2)
      | None => unset
      end
  | None => unset
  end.

(** The invariant of the loop of [places_closest_to]: [sel] holds, in
    ascending order, up to three of the places seen so far, and no place
    left out comes before the third. *)
Record closest_inv (s : Places) (xy : Coord) (seen : list address)
    (sel : list (Z * Z * Z * Z * address)) : Prop := mk_closest_inv {
  ci_ascending : ascending quad_ltb sel;
  ci_keys : ∀ e, e ∈ sel → e.1 = rank_at s xy e.2;
  ci_among : ∀ e, e ∈ sel → e.2 ∈ seen;
  ci_once : NoDup sel.*2;
  ci_three : (length sel ≤ 3)%nat;
  ci_rest : ∀ q, q ∈ seen → q ∉ sel.*2 →
    ∃ e, sel !! 2%nat = Some e ∧ quad_ltb (rank_at s xy q) e.1 = false
}.

(** ** The representation invariant of the areas *)

Record areas_wf (s : Places) : Prop := mk_areas_wf {
  aw_id : ∀ i p, get_area s i = Some p →
                 ∃ a, area_at s p = Some a ∧ Area.id a = i;
  aw_registered : ∀ p a, area_at s p = Some a → get_area s (Area.id a) = Some p;
  aw_parent : ∀ p a q,
    area_at s p = Some a → Area.parent_area a = Some q →
    ∃ b, area_at s q = Some b ∧ p ∈ Area.subareas b;
  aw_child : ∀ q b p,
    area_at s q = Some b → p ∈ Area.subareas b →
    ∃ a, area_at s p = Some a ∧ Area.parent_area a = Some q;
  aw_once : ∀ q b, area_at s q = Some b → NoDup (Area.subareas b)
}.

(** The area stored under [id]. *)
Definition area_of (s : Places) (id : AreaID) : option Area.t :=
  p ← get_area s id; area_at s p.

(** [l] are the areas above [x], from its parent up to the one that has
    no parent. *)
Fixpoint chain (s : Places) (x : address) (l : list address) : Prop :=
  match l with
  | [] => ∃ a, area_at s x = Some a ∧ Area.parent_area a = None
  | q :: l' =>
      (∃ a, area_at s x = Some a ∧ Area.parent_area a = Some q) ∧ chain s q l'
  end.

(** The identifiers behind a list of addresses of areas. *)
Definition area_ids (s : Places) (l : list address) : list AreaID :=
  omap (λ p, Area.id <$> area_at s p) l.

(** The operations on places leave the areas alone. *)
Definition areas_kept (s s' : Places) : Prop :=
  areas_by_id_ s' = areas_by_id_ s ∧ area_store s' = area_store s.


(** ** A sample state

    Four places and four areas; area 12 lies in area 11, which lies in
    area 10, and area 13 stands alone. *)
Definition sample_calls : list place_call :=
  [Add_place 1 "b" SHELTER (mkCoord 3 4);
   Add_place 2 "a" PEAK (mkCoord 0 1);
   Add_place 3 "c" SHELTER (mkCoord 1 0);
   Add_place 4 "a" FIREPIT (mkCoord (-2) 2);
   Add_area 10 "A" [mkCoord 0 0; mkCoord 9 0; mkCoord 9 9];
   Add_area 11 "B" [mkCoord 1 1; mkCoord 5 1; mkCoord 5 5];
   Add_area 12 "C" [mkCoord 2 2; mkCoord 3 2; mkCoord 3 3];
   Add_area 13 "D" [mkCoord 20 20; mkCoord 30 20; mkCoord 30 30];
   Add_subarea_to_area 11 10;
   Add_subarea_to_area 12 11].

Definition sample_places : Places :=
  default Places_new (run_places Places_new sample_calls).

(** * Theorems *)

(** ** int arithmetic *)

Lemma int_wrap_range z : int_min <= int_wrap z <= int_max.
Proof.
  unfold int_wrap, int_min, int_max.
  pose proof (Z.mod_pos_bound (z + 2147483648) 4294967296). lia.
Qed.

Lemma int_wrap_exact z : int_min <= z <= int_max → int_wrap z = z.
Proof.
  unfold int_wrap, int_min, int_max. intros Hz.
  rewrite Z.mod_small by lia. lia.
Qed.

Lemma int_wrap_idemp z : int_wrap (int_wrap z) = int_wrap z.
Proof. apply int_wrap_exact, int_wrap_range. Qed.

Lemma int_wrap_add_l a b : int_wrap (int_wrap a + b) = int_wrap (a + b).
Proof.
  unfold int_wrap.
  replace ((a + 2147483648) mod 4294967296 - 2147483648 + b + 2147483648)
    with ((a + 2147483648) mod 4294967296 + b) by lia.
  rewrite Zplus_mod_idemp_l. do 2 f_equal. lia.
Qed.

Lemma int_wrap_add_r a b : int_wrap (a + int_wrap b) = int_wrap (a + b).
Proof. rewrite (Z.add_comm a), int_wrap_add_l. f_equal. lia. Qed.

(** An [int] sum that fits an [int] is the sum. *)
Lemma int_add_exact a b : int_min <= a + b <= int_max → int_add a b = a + b.
Proof. apply int_wrap_exact. Qed.

(** ** The length of a way *)

Lemma Zfloor_sqrt (n : Z) : 0 <= n → Zfloor (sqrt (IZR n)) = Z.sqrt n.
Proof.
  intros Hn. apply Zfloor_eq.
  destruct (Z.sqrt_spec n Hn) as [Hlo Hhi].
  pose proof (Z.sqrt_nonneg n) as Hk.
  set (k := Z.sqrt n) in *.
  assert (Hk' : (0 <= IZR k)%R) by (apply IZR_le; lia).
  split.
  - rewrite <- (sqrt_square (IZR k)) at 1 by done.
    apply sqrt_le_1_alt. rewrite <- mult_IZR. apply IZR_le. lia.
  - replace (IZR k + 1)%R with (IZR (Z.succ k)) by (rewrite succ_IZR; done).
    rewrite <- (sqrt_square (IZR (Z.succ k))) by (apply IZR_le; lia).
    apply sqrt_lt_1_alt. split.
    + apply IZR_le; lia.
    + rewrite <- mult_IZR. apply IZR_lt. lia.
Qed.

Lemma floor_euclidean_sqrt (a b : Coord) :
  floor_euclidean a b
  = Z.sqrt ((x a - x b) * (x a - x b) + (y a - y b) * (y a - y b)).
Proof.
  unfold floor_euclidean, euclidean.
  rewrite <- !mult_IZR, <- plus_IZR.
  apply Zfloor_sqrt.
  pose proof (Z.square_nonneg (x a - x b)).
  pose proof (Z.square_nonneg (y a - y b)). lia.
Qed.

Lemma sections_length_int cs :
  int_wrap (sections_length cs) = sections_length cs.
Proof.
  destruct cs as [|a [|b cs']]; try done.
  cbn [sections_length]. apply int_wrap_idemp.
Qed.

Lemma length_loop_from (pre cs : list Coord) (acc : Z) :
  int_wrap acc = acc →
  fold_left
    (λ len i,
       int_add len (section_length ((pre ++ cs) !!! i) ((pre ++ cs) !!! S i)))
    (seq (List.length pre) (List.length cs - 1)) acc
  = int_add acc (sections_length cs).
Proof.
  revert pre acc. induction cs as [|a [|b cs'] IH]; intros pre acc Hacc.
  - simpl. unfold int_add. by rewrite Z.add_0_r.
  - simpl. unfold int_add. by rewrite Z.add_0_r.
  - replace (List.length (a :: b :: cs') - 1)%nat
      with (S (List.length (b :: cs') - 1)) by (simpl; lia).
    cbn [seq fold_left].
    specialize (IH (pre ++ [a]) (int_add acc (section_length a b))
                  (int_wrap_idemp _)).
    rewrite <- !app_assoc in IH. cbn [app] in IH.
    rewrite length_app in IH. cbn [List.length] in IH.
    replace (List.length pre + 1)%nat with (S (List.length pre)) in IH by lia.
    assert (Ha : (pre ++ a :: b :: cs') !!! List.length pre = a).
    { apply list_lookup_total_correct. by rewrite list_lookup_middle. }
    assert (Hb : (pre ++ a :: b :: cs') !!! S (List.length pre) = b).
    { apply list_lookup_total_correct.
      replace (pre ++ a :: b :: cs') with ((pre ++ [a]) ++ b :: cs')
        by (by rewrite <- app_assoc).
      apply list_lookup_middle. rewrite length_app. simpl. lia. }
    rewrite Ha, Hb.
    etrans; [exact IH|].
    cbn [sections_length]. unfold int_add.
    rewrite int_wrap_add_l, int_wrap_add_r. f_equal. lia.
Qed.

(** The loop of the constructor adds up the section lengths, section by
    section. *)
Lemma length_loop_sections (cs : list Coord) :
  length_loop cs = sections_length cs.
Proof.
  etrans; [exact (length_loop_from [] cs 0 eq_refl)|].
  apply sections_length_int.
Qed.

(** ** Outcomes and elementary steps *)

Lemma bind_Returns {A B} (m : outcome A) (f : A → outcome B) (b : B) :
  m ≫= f = Returns b → ∃ a, m = Returns a ∧ f a = Returns b.
Proof. destruct m; simpl; [eauto | done | done]. Qed.

Lemma crossroad_at_Returns s c cd :
  crossroad_at s c = Returns cd ↔ visited_coordinates_ s !! c = Some cd.
Proof.
  unfold crossroad_at. destruct (visited_coordinates_ s !! c); split;
    intros; simplify_eq; done.
Qed.

Lemma crossroad_at_lookup s c cd :
  visited_coordinates_ s !! c = Some cd → crossroad_at s c = Returns cd.
Proof. apply crossroad_at_Returns. Qed.

Lemma frame_same s s' :
  ways_by_id_ s' = ways_by_id_ s → ways_by_coord_ s' = ways_by_coord_ s →
  visited_coordinates_ s' = visited_coordinates_ s → frame s s'.
Proof.
  intros H1 H2 H3. split; [done | done | by rewrite H3 |].
  rewrite H3. intros c cd cd' Hc Hc'. congruence.
Qed.

Lemma frame_refl s : frame s s.
Proof. by apply frame_same. Qed.

Lemma frame_trans s1 s2 s3 : frame s1 s2 → frame s2 s3 → frame s1 s3.
Proof.
  intros [A1 A2 A3 A4] [B1 B2 B3 B4]. split; [congruence.. |].
  intros c cd cd' Hc Hc'.
  assert (is_Some (visited_coordinates_ s2 !! c)) as [cd2 Hc2].
  { apply elem_of_dom. rewrite A3. by apply elem_of_dom. }
  rewrite (B4 _ _ _ Hc2 Hc'). by eapply A4.
Qed.

Lemma frame_ways_from s s' c : frame s s' → ways_from s' c = ways_from s c.
Proof. intros [_ H _ _]. unfold ways_from. by rewrite H. Qed.

Lemma frame_with_chosen_route r s : frame s (with_chosen_route r s).
Proof. by apply frame_same. Qed.

Lemma frame_with_cyclic_route r s : frame s (with_cyclic_route r s).
Proof. by apply frame_same. Qed.

Lemma frame_with_route_found b s : frame s (with_route_found b s).
Proof. by apply frame_same. Qed.

Lemma frame_update s c cd cd' :
  visited_coordinates_ s !! c = Some cd →
  Crossroad_data.coordinates cd' = Crossroad_data.coordinates cd →
  frame s (with_visited_coordinates (<[c := cd']> (visited_coordinates_ s)) s).
Proof.
  intros Hc Heq. split; [done | done | |]; simpl.
  - by apply dom_insert_lookup_L.
  - intros k cd0 cd0'. destruct (decide (c = k)) as [->|Hne].
    + rewrite lookup_insert_eq. congruence.
    + rewrite lookup_insert_ne by done. congruence.
Qed.

Lemma set_distance_Returns c d s s' :
  set_distance c d s = Returns s' →
  ∃ cd, visited_coordinates_ s !! c = Some cd ∧
    s' = with_visited_coordinates
           (<[c := Crossroad_data.mk (Crossroad_data.coordinates cd)
                     (Crossroad_data.visited cd) d]>
              (visited_coordinates_ s)) s.
Proof.
  unfold set_distance. intros (cd & Hcd & H)%bind_Returns.
  apply crossroad_at_Returns in Hcd. exists cd. by simplify_eq.
Qed.

Lemma set_visited_Returns c b s s' :
  set_visited c b s = Returns s' →
  ∃ cd, visited_coordinates_ s !! c = Some cd ∧
    s' = with_visited_coordinates
           (<[c := Crossroad_data.mk (Crossroad_data.coordinates cd)
                     b (Crossroad_data.distance cd)]>
              (visited_coordinates_ s)) s.
Proof.
  unfold set_visited. intros (cd & Hcd & H)%bind_Returns.
  apply crossroad_at_Returns in Hcd. exists cd. by simplify_eq.
Qed.

Lemma set_distance_frame c d s s' : set_distance c d s = Returns s' → frame s s'.
Proof. intros (cd & Hcd & ->)%set_distance_Returns. by eapply frame_update. Qed.

Lemma set_visited_frame c b s s' : set_visited c b s = Returns s' → frame s s'.
Proof. intros (cd & Hcd & ->)%set_visited_Returns. by eapply frame_update. Qed.

Lemma search_any_loop_frame rec current ws s s' :
  (∀ c d s0 s1, rec c d s0 = Returns s1 → frame s0 s1) →
  search_any_loop rec current ws s = Returns s' → frame s s'.
Proof.
  intros Hrec. revert s. induction ws as [|it rest IH]; intros s; simpl.
  - intros ?; simplify_eq. apply frame_refl.
  - intros (cd & _ & H)%bind_Returns.
    destruct (Crossroad_data.visited cd); [by apply IH|].
    apply bind_Returns in H as (w & _ & H).
    apply bind_Returns in H as (s1 & Hs1 & H).
    apply Hrec in Hs1.
    destruct (route_found_ s1).
    + apply bind_Returns in H as (cdc & _ & H). simplify_eq.
      eapply frame_trans; [done | apply frame_with_chosen_route].
    + eapply frame_trans; [done | by apply IH].
Qed.

Lemma search_any_frame fuel current goal d s s' :
  search_any fuel current goal d s = Returns s' → frame s s'.
Proof.
  revert current d s s'. induction fuel as [|fuel IH]; intros current d s s';
    [done|]. simpl.
  intros (s1 & Hs1%set_distance_frame & H)%bind_Returns.
  apply bind_Returns in H as (s2 & Hs2%set_visited_frame & H).
  assert (frame s s2) as Hf by by eapply frame_trans.
  destruct (decide (current = goal)).
  - apply bind_Returns in H as (cd & _ & H). simplify_eq.
    eapply frame_trans; [done|].
    eapply frame_trans; [apply (frame_with_route_found true)|].
    apply frame_with_chosen_route.
  - eapply frame_trans; [done|].
    eapply search_any_loop_frame; [|done]. intros ????. apply IH.
Qed.

Lemma search_cycle_loop_frame rec current previous ws s s' :
  (∀ c s0 s1, rec c s0 = Returns s1 → frame s0 s1) →
  search_cycle_loop rec current previous ws s = Returns s' → frame s s'.
Proof.
  intros Hrec. revert s. induction ws as [|it rest IH]; intros s; simpl.
  - intros ?; simplify_eq. apply frame_refl.
  - destruct (decide (it.2 = previous)); [by apply IH|].
    intros (s1 & Hs1 & H)%bind_Returns.
    apply Hrec in Hs1.
    destruct (route_found_ s1).
    + simplify_eq. eapply frame_trans; [done | apply frame_with_cyclic_route].
    + eapply frame_trans; [done | by apply IH].
Qed.

Lemma search_cycle_frame fuel current previous s s' :
  search_cycle fuel current previous s = Returns s' → frame s s'.
Proof.
  revert current previous s s'.
  induction fuel as [|fuel IH]; intros current previous s s'; [done|]. simpl.
  intros (cd & _ & H)%bind_Returns.
  destruct (Crossroad_data.visited cd).
  - simplify_eq.
    eapply frame_trans; [apply (frame_with_route_found true)|].
    apply frame_with_cyclic_route.
  - apply bind_Returns in H as (s1 & Hs1%set_visited_frame & H).
    eapply frame_trans; [done|].
    eapply search_cycle_loop_frame; [|done]. intros ???. apply IH.
Qed.

Lemma clean_for_search_frame type s : frame s (clean_for_search type s).
Proof.
  unfold clean_for_search. case_decide; split; simpl; try done;
    try (by rewrite dom_fmap_L);
    intros c cd cd' Hc; rewrite lookup_fmap, Hc; simpl;
    by intros [= <-].
Qed.

Lemma route_any_frame s a b r s' :
  route_any s a b = Returns (r, s') → frame s s'.
Proof.
  unfold route_any. case_decide.
  - intros ?; simplify_eq. apply frame_refl.
  - intros (s2 & Hs2%search_any_frame & Hr)%bind_Returns. simplify_eq.
    eapply frame_trans; [apply clean_for_search_frame|].
    eapply frame_trans; [done | apply frame_with_chosen_route].
Qed.

Lemma route_with_cycle_frame s a r s' :
  route_with_cycle s a = Returns (r, s') → frame s s'.
Proof.
  unfold route_with_cycle. case_decide.
  - intros ?; simplify_eq. apply frame_refl.
  - intros (s2 & Hs2%search_cycle_frame & Hr)%bind_Returns. simplify_eq.
    eapply frame_trans; [apply clean_for_search_frame|].
    eapply frame_trans; [done | apply frame_with_cyclic_route].
Qed.

(** ** Counting entries of the multimap *)

Lemma occurrences_nil e : occurrences e [] = 0%nat.
Proof. done. Qed.

Lemma occurrences_cons e e' m :
  occurrences e (e' :: m)
  = ((if decide (e' = e) then 1 else 0) + occurrences e m)%nat.
Proof.
  unfold occurrences. rewrite filter_cons. by case_decide.
Qed.

Lemma occurrences_app e m1 m2 :
  occurrences e (m1 ++ m2) = (occurrences e m1 + occurrences e m2)%nat.
Proof. unfold occurrences. by rewrite filter_app, length_app. Qed.

Lemma occurrences_pos e m : e ∈ m ↔ (0 < occurrences e m)%nat.
Proof.
  induction m as [|e' m IH].
  - rewrite occurrences_nil. split; [by intros ?%elem_of_nil | lia].
  - rewrite occurrences_cons, elem_of_cons. case_decide; subst.
    + split; [lia | by left].
    + rewrite IH. split; [intros [?|?]; [congruence | lia] | intros; right; lia].
Qed.

Lemma occurrences_filter_le e (P : Coord * Way.t → Prop)
    `{!∀ e, Decision (P e)} m :
  (occurrences e (filter P m) ≤ occurrences e m)%nat.
Proof.
  induction m as [|e' m IH]; [done|].
  rewrite filter_cons. destruct (decide (P e')).
  - rewrite !occurrences_cons. lia.
  - rewrite occurrences_cons. lia.
Qed.

Lemma incidence_pos c w :
  (0 < incidence c w)%nat ↔ c = Way.end1 w ∨ c = Way.end2 w.
Proof. unfold incidence. repeat case_decide; intuition lia. Qed.

Lemma incidence_two c w :
  (2 ≤ incidence c w)%nat → c = Way.end1 w ∧ c = Way.end2 w.
Proof. unfold incidence. repeat case_decide; intuition lia. Qed.

(** ** Consequences of the representation invariant *)

Lemma elem_of_ways_from s c w n :
  (w, n) ∈ ways_from s c ↔
  ∃ W, (c, W) ∈ ways_by_coord_ s ∧ w = Way.id W ∧ n = other_end c W.
Proof.
  unfold ways_from, equal_range, other_end. rewrite list_elem_of_fmap. split.
  - intros ([k W] & Heq & [Hk Hin]%list_elem_of_filter). simpl in *. subst k.
    exists W. split; [done|]. by case_decide; simplify_eq.
  - intros (W & Hin & -> & ->). exists (c, W). split.
    + simpl. by case_decide.
    + by apply list_elem_of_filter.
Qed.

Section wf_facts.
Context (s : Datastructures) (Hwf : wf s).

Lemma wf_entry c W :
  (c, W) ∈ ways_by_coord_ s →
  ways_by_id_ s !! Way.id W = Some W ∧ (c = Way.end1 W ∨ c = Way.end2 W).
Proof.
  intros Hin%occurrences_pos. rewrite (wf_coord s Hwf) in Hin.
  case_decide; [|lia]. by apply incidence_pos in Hin.
Qed.

Lemma wf_stored id W :
  ways_by_id_ s !! id = Some W →
  Way.id W = id ∧ (Way.end1 W, W) ∈ ways_by_coord_ s
  ∧ (Way.end2 W, W) ∈ ways_by_coord_ s.
Proof.
  intros Hid. pose proof (wf_id s Hwf _ _ Hid) as Heq. subst id.
  split; [done|].
  split; apply occurrences_pos; rewrite (wf_coord s Hwf);
    (case_decide; [|done]); apply incidence_pos; auto.
Qed.

Lemma wf_ways_from c w n :
  (w, n) ∈ ways_from s c ↔
  ∃ W, ways_by_id_ s !! w = Some W
       ∧ ((c = Way.end1 W ∧ n = Way.end2 W)
          ∨ (c = Way.end2 W ∧ n = Way.end1 W)).
Proof.
  rewrite elem_of_ways_from. unfold other_end. split.
  - intros (W & [Hid Hc]%wf_entry & -> & ->). exists W. split; [done|].
    case_decide; [by left|]. destruct Hc; [done | by right].
  - intros (W & Hid & Hc). apply wf_stored in Hid as (<- & H1 & H2).
    exists W. destruct Hc as [[-> ->]|[-> ->]].
    + split; [done|]. split; [done|]. by case_decide.
    + split; [done|]. split; [done|]. by case_decide; [congruence|].
Qed.

Lemma wf_ways_from_sym c w n :
  (w, n) ∈ ways_from s c → (w, c) ∈ ways_from s n.
Proof. rewrite !wf_ways_from. intros (W & ? & ?). exists W. tauto. Qed.

Lemma wf_crossroad_source c w n :
  (w, n) ∈ ways_from s c → is_Some (visited_coordinates_ s !! c).
Proof.
  intros (W & Hin & _)%elem_of_ways_from. apply (wf_crossroad s Hwf). eauto.
Qed.

Lemma wf_crossroad_target c w n :
  (w, n) ∈ ways_from s c → is_Some (visited_coordinates_ s !! n).
Proof. intros ?%wf_ways_from_sym. by eapply wf_crossroad_source. Qed.

Lemma wf_incident_crossroad c :
  List.length (ways_from s c) ≠ 0%nat →
  is_Some (visited_coordinates_ s !! c).
Proof.
  destruct (ways_from s c) as [|[w n] l] eqn:Heq; [done|]. intros _.
  apply (wf_crossroad_source c w n). rewrite Heq. by left.
Qed.

(** A way is listed twice among the ways from [c] only if it is a
    self-loop at [c]. *)
Lemma wf_ways_from_twice c l1 l2 l3 w n n' :
  ways_from s c = l1 ++ (w, n) :: l2 ++ (w, n') :: l3 → n = c ∧ n' = c.
Proof.
  unfold ways_from. intros Heq.
  apply fmap_app_inv in Heq as (m1 & ma & _ & Hma & Heq).
  symmetry in Hma.
  apply fmap_cons_inv in Hma as ([k1 W1] & mb & He1 & Hmb & ->).
  symmetry in Hmb.
  apply fmap_app_inv in Hmb as (m2 & mc & _ & Hmc & ->).
  symmetry in Hmc.
  apply fmap_cons_inv in Hmc as ([k2 W2] & m3 & He2 & _ & ->).
  assert (Hin1 : (k1, W1) ∈ equal_range c (ways_by_coord_ s)).
  { rewrite Heq. apply elem_of_app. right. by left. }
  assert (Hin2 : (k2, W2) ∈ equal_range c (ways_by_coord_ s)).
  { rewrite Heq. apply elem_of_app. right. right.
    apply elem_of_app. right. by left. }
  apply list_elem_of_filter in Hin1 as [Hk1 Hin1].
  apply list_elem_of_filter in Hin2 as [Hk2 Hin2]. simpl in *. subst k1 k2.
  assert (Hid1 : w = Way.id W1).
  { destruct (decide (c = Way.end1 W1)); congruence. }
  assert (Hid2 : w = Way.id W2).
  { destruct (decide (c = Way.end1 W2)); congruence. }
  apply wf_entry in Hin1 as [Hs1 _]. apply wf_entry in Hin2 as [Hs2 _].
  rewrite <- Hid1 in Hs1. rewrite <- Hid2 in Hs2.
  assert (W2 = W1) by congruence. subst W2.
  assert (H2 : (2 ≤ occurrences (c, W1) (ways_by_coord_ s))%nat).
  { etrans; [|apply (occurrences_filter_le _ (λ e, e.1 = c))].
    fold (equal_range c (ways_by_coord_ s)). rewrite Heq.
    rewrite occurrences_app, occurrences_cons, occurrences_app,
      occurrences_cons.
    rewrite !decide_True by done. lia. }
  rewrite (wf_coord s Hwf) in H2. case_decide; [|lia].
  apply incidence_two in H2 as [H1 H2].
  rewrite decide_True in He1, He2 by done. simplify_eq. split; congruence.
Qed.
End wf_facts.

(** ** The invariant is established and preserved *)

Lemma wf_frame s s' : wf s → frame s s' → wf s'.
Proof.
  intros [H1 H2 H3] [F1 F2 F3 _]. split.
  - rewrite F1. apply H1.
  - rewrite F1, F2. apply H2.
  - intros c. rewrite F2, <- H3, <- !elem_of_dom, F3. done.
Qed.

Lemma wf_new b : wf (Datastructures_new b).
Proof.
  split; simpl.
  - intros id w. by rewrite lookup_empty.
  - intros c w. rewrite lookup_empty. by case_decide.
  - intros c. rewrite lookup_empty. split.
    + by intros [? ?].
    + by intros [w ?%elem_of_nil].
Qed.

Lemma wf_clear_ways s : wf (clear_ways s).
Proof. apply (wf_new (route_found_ s)). Qed.

Lemma last_default (l : list Coord) (a d d' : Coord) :
  List.last (a :: l) d = List.last (a :: l) d'.
Proof.
  revert a. induction l as [|b l IH]; intros a; [done|].
  change (List.last (b :: l) d = List.last (b :: l) d'). apply IH.
Qed.

Lemma back_last (c0 : Coord) (l : list Coord) :
  back (c0 :: l) = Some (List.last (c0 :: l) c0).
Proof.
  unfold back. revert c0. induction l as [|a l IH]; intros c0; [done|].
  change (last (a :: l) = Some (List.last (a :: l) c0)).
  rewrite (IH a). f_equal. apply last_default.
Qed.

(** What a successful [add_way] does, with the undefined cases excluded. *)
Lemma add_way_true s id coords s' :
  add_way s id coords = Some (true, s') →
  ways_by_id_ s !! id = None ∧
  ∃ W, Way_new id coords = Some W ∧ Way.id W = id
       ∧ Way.coordinates W = coords
       ∧ Way.length W = length_loop coords ∧
    s' = ensure_crossroad (Way.end2 W) (ensure_crossroad (Way.end1 W)
           (mkDatastructures (<[id := W]> (ways_by_id_ s))
              ((ways_by_coord_ s ++ [(Way.end1 W, W)]) ++ [(Way.end2 W, W)])
              (visited_coordinates_ s) (chosen_route_ s) (cyclic_route_ s)
              (route_found_ s))).
Proof.
  unfold add_way, get_way. destruct (ways_by_id_ s !! id) eqn:Hid; [done|].
  destruct coords as [|c0 l]; [done|].
  rewrite back_last. simpl. intros ?; simplify_eq.
  split; [done|]. eexists. split; [done|]. done.
Qed.

Lemma add_way_false s id coords s' :
  add_way s id coords = Some (false, s') →
  is_Some (ways_by_id_ s !! id) ∧ s' = s.
Proof.
  unfold add_way, get_way. destruct (ways_by_id_ s !! id) eqn:Hid.
  - intros ?; simplify_eq. eauto.
  - destruct coords as [|c0 l]; [done|]. rewrite back_last. simpl.
    intros ?; simplify_eq.
Qed.

Lemma ensure_crossroad_is_Some c s k :
  is_Some (visited_coordinates_ (ensure_crossroad c s) !! k)
  ↔ is_Some (visited_coordinates_ s !! k) ∨ k = c.
Proof.
  unfold ensure_crossroad.
  destruct (visited_coordinates_ s !! c) eqn:Hc; simpl.
  - split; [auto|]. intros [?| ->]; eauto.
  - destruct (decide (c = k)) as [->|Hne].
    + rewrite lookup_insert_eq. split; eauto.
    + rewrite lookup_insert_ne by done. split; [auto|].
      intros [?|?]; [done | congruence].
Qed.

Lemma ensure_crossroad_index c s :
  ways_by_id_ (ensure_crossroad c s) = ways_by_id_ s
  ∧ ways_by_coord_ (ensure_crossroad c s) = ways_by_coord_ s.
Proof.
  unfold ensure_crossroad. by destruct (visited_coordinates_ s !! c).
Qed.

Lemma wf_add_way s id coords b s' :
  wf s → add_way s id coords = Some (b, s') → wf s'.
Proof.
  intros Hwf Hadd. destruct b; [|by apply add_way_false in Hadd as [_ ->]].
  apply add_way_true in Hadd as (Hnone & W & _ & HidW & _ & _ & ->).
  set (s3 := mkDatastructures _ _ _ _ _ _).
  destruct (ensure_crossroad_index (Way.end2 W)
              (ensure_crossroad (Way.end1 W) s3)) as [E1 E2].
  destruct (ensure_crossroad_index (Way.end1 W) s3) as [E3 E4].
  split.
  - rewrite E1, E3. simpl. intros id' w.
    destruct (decide (id = id')) as [<-|Hne].
    + rewrite lookup_insert_eq. by intros [= <-].
    + rewrite lookup_insert_ne by done. apply (wf_id s Hwf).
  - intros c w. rewrite E1, E2, E3, E4. simpl.
    rewrite !occurrences_app, !occurrences_cons, !occurrences_nil.
    rewrite (wf_coord s Hwf).
    destruct (decide (w = W)) as [->|HW].
    + rewrite HidW, lookup_insert_eq, Hnone.
      rewrite (decide_False (P := None = Some W)) by done.
      rewrite (decide_True (P := Some W = Some W)) by done. unfold incidence.
      repeat case_decide; simplify_eq; solve [lia | congruence].
    + rewrite (decide_False (P := (Way.end1 W, W) = (c, w))) by congruence.
      rewrite (decide_False (P := (Way.end2 W, W) = (c, w))) by congruence.
      destruct (decide (id = Way.id w)) as [Heq|Hne].
      * rewrite <- Heq, lookup_insert_eq, Hnone.
        rewrite !decide_False; [done | congruence | done].
      * rewrite lookup_insert_ne by done.
        case_decide; lia.
  - intros c. rewrite !ensure_crossroad_is_Some, E2, E4. simpl.
    rewrite (wf_crossroad s Hwf). split.
    + intros [[[w Hw]| ->]| ->].
      * exists w. rewrite !elem_of_app. auto.
      * exists W. rewrite !elem_of_app, !list_elem_of_singleton. auto.
      * exists W. rewrite !elem_of_app, !list_elem_of_singleton. auto.
    + intros [w Hw]. rewrite !elem_of_app, !list_elem_of_singleton in Hw.
      destruct Hw as [[Hw|Hw]|Hw]; simplify_eq; eauto.
Qed.

Lemma elem_of_erase_first c id m e :
  e ∈ erase_first c id m → e ∈ m.
Proof.
  induction m as [|e' m IH]; simpl; [done|].
  case_decide.
  - by right.
  - rewrite !elem_of_cons. intros [?|?]; auto.
Qed.

Lemma elem_of_erase_first_other c id m e :
  e ∈ m → e.1 ≠ c → e ∈ erase_first c id m.
Proof.
  intros Hin Hne. induction m as [|e' m IH]; simpl; [done|].
  apply elem_of_cons in Hin as [->|Hin].
  - rewrite decide_False by tauto. by left.
  - case_decide; [done|]. right. auto.
Qed.

(** If all entries of key [c] with identifier [id] are the entry [(c, W)],
    the loop erases one occurrence of it. *)
Lemma occurrences_erase_first c W m e :
  (∀ e', e' ∈ m → e'.1 = c → Way.id W = Way.id e'.2 → e' = (c, W)) →
  (c, W) ∈ m →
  occurrences e (erase_first c (Way.id W) m)
  = (occurrences e m - (if decide ((c, W) = e) then 1 else 0))%nat.
Proof.
  intros Hall Hin. induction m as [|e' m IH]; [by apply elem_of_nil in Hin|].
  simpl.
  destruct (decide (e'.1 = c ∧ Way.id W = Way.id e'.2)) as [[H1 H2]|Hno].
  - rewrite (Hall e') by (done || by left).
    rewrite occurrences_cons. case_decide; lia.
  - apply elem_of_cons in Hin as [<-|Hin]; [by destruct Hno|].
    rewrite !occurrences_cons, IH; [|intros; apply Hall; by try right|done].
    assert (e' ≠ (c, W)) by (intros ->; by destruct Hno).
    repeat case_decide; simplify_eq; lia.
Qed.

Lemma ways_from_nil s c :
  List.length (ways_from s c) = 0%nat ↔ ∀ w, (c, w) ∉ ways_by_coord_ s.
Proof.
  unfold ways_from, equal_range. rewrite length_fmap, length_zero_iff_nil.
  split.
  - intros Hnil w Hin.
    assert (Hf : (c, w) ∈ filter (λ e : Coord * Way.t, e.1 = c)
                           (ways_by_coord_ s))
      by (by apply list_elem_of_filter).
    rewrite Hnil in Hf. by apply elem_of_nil in Hf.
  - intros Hno. apply elem_of_nil_inv. intros [k w] [Hk Hin]%list_elem_of_filter.
    simpl in Hk. subst k. by apply (Hno w).
Qed.

Lemma erase_end_crossroad c id s :
  (∀ k, is_Some (visited_coordinates_ s !! k)
        ↔ ∃ w, (k, w) ∈ ways_by_coord_ s) →
  ∀ k, is_Some (visited_coordinates_ (erase_end c id s) !! k)
       ↔ ∃ w, (k, w) ∈ ways_by_coord_ (erase_end c id s).
Proof.
  intros HP k. unfold erase_end, prune_crossroad.
  set (s1 := with_ways_by_coord _ s).
  assert (Hother : k ≠ c →
    (∃ w, (k, w) ∈ ways_by_coord_ s1) ↔ ∃ w, (k, w) ∈ ways_by_coord_ s).
  { intros Hne. split; intros [w Hw]; exists w.
    - exact (elem_of_erase_first _ _ _ _ Hw).
    - by apply elem_of_erase_first_other. }
  case_decide as Hlen; simpl.
  - destruct (decide (k = c)) as [->|Hne].
    + rewrite lookup_delete_eq. split; [by intros [? ?]|].
      intros [w Hw]. by apply (proj1 (ways_from_nil s1 c) Hlen w) in Hw.
    + rewrite lookup_delete_ne by done. rewrite HP. symmetry.
      exact (Hother Hne).
  - destruct (decide (k = c)) as [->|Hne].
    + rewrite HP. split.
      * intros _. destruct (ways_from s1 c) as [|[w n] l] eqn:Hwf; [done|].
        assert (Hin : (w, n) ∈ ways_from s1 c) by (rewrite Hwf; by left).
        apply elem_of_ways_from in Hin as (W & ? & _). eauto.
      * intros [w Hw]. exists w. exact (elem_of_erase_first _ _ _ _ Hw).
    + rewrite HP. symmetry. exact (Hother Hne).
Qed.

Lemma erase_end_index c id s :
  ways_by_id_ (erase_end c id s) = ways_by_id_ s
  ∧ ways_by_coord_ (erase_end c id s) = erase_first c id (ways_by_coord_ s).
Proof. unfold erase_end, prune_crossroad. by case_decide. Qed.

Lemma remove_way_true s id s' :
  remove_way s id = (true, s') →
  ∃ W, ways_by_id_ s !! id = Some W ∧
    let s4 := erase_end (Way.end2 W) id (erase_end (Way.end1 W) id s) in
    s' = with_ways_by_id (delete id (ways_by_id_ s4)) s4.
Proof.
  unfold remove_way, get_way. destruct (ways_by_id_ s !! id) as [W|]; [|done].
  intros ?; simplify_eq. by exists W.
Qed.

Lemma remove_way_false s id s' :
  remove_way s id = (false, s') → ways_by_id_ s !! id = None ∧ s' = s.
Proof.
  unfold remove_way, get_way. destruct (ways_by_id_ s !! id) as [W|].
  - intros ?; simplify_eq.
  - intros ?; by simplify_eq.
Qed.

Lemma wf_remove_way s id b s' :
  wf s → remove_way s id = (b, s') → wf s'.
Proof.
  intros Hwf Hrm. destruct b; [|by apply remove_way_false in Hrm as [_ ->]].
  apply remove_way_true in Hrm as (W & HW & Hs'). simpl in Hs'. subst s'.
  destruct (wf_stored s Hwf _ _ HW) as (HidW & Hin1 & Hin2). subst id.
  set (s2 := erase_end (Way.end1 W) (Way.id W) s).
  set (s4 := erase_end (Way.end2 W) (Way.id W) s2).
  destruct (erase_end_index (Way.end1 W) (Way.id W) s) as [I1 C1].
  destruct (erase_end_index (Way.end2 W) (Way.id W) s2) as [I2 C2].
  fold s2 in I1, C1. fold s4 in I2, C2.
  assert (Hall : ∀ c e', e' ∈ ways_by_coord_ s → e'.1 = c →
            Way.id W = Way.id e'.2 → e' = (c, W)).
  { intros c [k W'] Hin Hk Hid. simpl in *. subst k.
    apply (wf_entry s Hwf) in Hin as [Hin _]. rewrite <- Hid in Hin.
    by simplify_eq. }
  assert (Hocc1 : ∀ e, occurrences e (ways_by_coord_ s2)
            = (occurrences e (ways_by_coord_ s)
               - (if decide ((Way.end1 W, W) = e) then 1 else 0))%nat).
  { intros e. rewrite C1. apply occurrences_erase_first; [|done].
    intros e'. apply Hall. }
  assert (Hocc2 : ∀ e, occurrences e (ways_by_coord_ s4)
            = (occurrences e (ways_by_coord_ s2)
               - (if decide ((Way.end2 W, W) = e) then 1 else 0))%nat).
  { intros e. rewrite C2. apply occurrences_erase_first.
    - intros e' He'. apply Hall. rewrite C1 in He'.
      exact (elem_of_erase_first _ _ _ _ He').
    - apply occurrences_pos. rewrite Hocc1, (wf_coord s Hwf).
      rewrite decide_True by done. unfold incidence.
      rewrite (decide_True (P := Way.end2 W = Way.end2 W)) by done.
      repeat case_decide; simplify_eq; solve [lia | congruence]. }
  split.
  - simpl. rewrite I2, I1. intros id' w [_ Hl]%lookup_delete_Some.
    by apply (wf_id s Hwf).
  - intros c w. simpl. rewrite I2, I1, Hocc2, Hocc1, (wf_coord s Hwf).
    destruct (decide (w = W)) as [->|HneW].
    + rewrite lookup_delete_eq, HW.
      rewrite (decide_True (P := Some W = Some W)) by done.
      rewrite (decide_False (P := None = Some W)) by done.
      unfold incidence.
      repeat case_decide; simplify_eq; solve [lia | congruence].
    + rewrite (decide_False (P := (Way.end1 W, W) = (c, w))) by congruence.
      rewrite (decide_False (P := (Way.end2 W, W) = (c, w))) by congruence.
      destruct (decide (Way.id W = Way.id w)) as [Heq|Hne].
      * rewrite <- Heq, lookup_delete_eq, HW.
        rewrite !decide_False; [lia | done | congruence].
      * rewrite lookup_delete_ne by done. case_decide; lia.
  - simpl. apply erase_end_crossroad, erase_end_crossroad.
    apply (wf_crossroad s Hwf).
Qed.

Lemma run_wf s c s' : wf s → run s c = Some s' → wf s'.
Proof.
  intros Hwf. destruct c as [id coords|id| |a b|a]; simpl.
  - destruct (add_way s id coords) as [[b s1]|] eqn:Hadd; [|done].
    simpl. intros ?; simplify_eq. by eapply wf_add_way.
  - intros ?; simplify_eq. destruct (remove_way s id) as [b s1] eqn:Hrm.
    by eapply wf_remove_way.
  - intros ?; simplify_eq. apply wf_clear_ways.
  - destruct (route_any s a b) as [[r s1]| |] eqn:Hr; [|done|done].
    intros ?; simplify_eq. eapply wf_frame; [done|]. by eapply route_any_frame.
  - destruct (route_with_cycle s a) as [[r s1]| |] eqn:Hr; [|done|done].
    intros ?; simplify_eq. eapply wf_frame; [done|].
    by eapply route_with_cycle_frame.
Qed.

Lemma run_all_wf cs : ∀ s s', wf s → run_all s cs = Some s' → wf s'.
Proof.
  induction cs as [|c cs IH]; intros s s' Hwf; simpl.
  - intros ?; by simplify_eq.
  - destruct (run s c) as [s1|] eqn:Hrun; [|done]. simpl.
    apply IH. by eapply run_wf.
Qed.

Lemma reachable_wf s : reachable s → wf s.
Proof. intros (b & cs & Hrun). eapply run_all_wf; [apply wf_new | done]. Qed.

(** ** The any-route search *)

Lemma elem_of_unvisited s c :
  c ∈ unvisited s ↔
  ∃ cd, visited_coordinates_ s !! c = Some cd
        ∧ Crossroad_data.visited cd = false.
Proof.
  unfold unvisited. rewrite elem_of_dom. unfold is_Some.
  setoid_rewrite map_lookup_filter_Some. simpl. naive_solver.
Qed.

Lemma unvisited_mark s c cd' :
  Crossroad_data.visited cd' = true →
  unvisited (with_visited_coordinates (<[c := cd']> (visited_coordinates_ s)) s)
  = unvisited s ∖ {[c]}.
Proof.
  intros Hv. apply set_eq. intros k.
  rewrite elem_of_difference, !elem_of_unvisited, elem_of_singleton. simpl.
  destruct (decide (c = k)) as [->|Hne].
  - rewrite lookup_insert_eq. split.
    + intros (cd & ? & ?). simplify_eq. congruence.
    + intros [_ ?]. done.
  - rewrite lookup_insert_ne by done. split.
    + intros ?. split; [done | congruence].
    + by intros [? _].
Qed.

Lemma unvisited_size_mark s c cd' :
  Crossroad_data.visited cd' = true → c ∈ unvisited s →
  S (size (unvisited (with_visited_coordinates
                        (<[c := cd']> (visited_coordinates_ s)) s)))
  = size (unvisited s).
Proof.
  intros Hv Hc. rewrite unvisited_mark by done.
  rewrite size_difference by (by apply singleton_subseteq_l).
  rewrite size_singleton.
  assert (size (unvisited s) ≠ 0%nat); [|lia].
  intros Hz%size_empty_inv. apply Hz in Hc. by apply not_elem_of_empty in Hc.
Qed.

Lemma unvisited_le_size s :
  (size (unvisited s) ≤ size (visited_coordinates_ s))%nat.
Proof.
  unfold unvisited. rewrite <- size_dom with (m := visited_coordinates_ s).
  apply subseteq_size, dom_filter_subseteq.
Qed.

Lemma set_distance_lookup c d s cd :
  visited_coordinates_ s !! c = Some cd →
  set_distance c d s
  = Returns (with_visited_coordinates
               (<[c := Crossroad_data.mk (Crossroad_data.coordinates cd)
                         (Crossroad_data.visited cd) d]>
                  (visited_coordinates_ s)) s).
Proof. intros H. unfold set_distance. by rewrite (crossroad_at_lookup _ _ _ H). Qed.

Lemma set_visited_lookup c b s cd :
  visited_coordinates_ s !! c = Some cd →
  set_visited c b s
  = Returns (with_visited_coordinates
               (<[c := Crossroad_data.mk (Crossroad_data.coordinates cd)
                         b (Crossroad_data.distance cd)]>
                  (visited_coordinates_ s)) s).
Proof. intros H. unfold set_visited. by rewrite (crossroad_at_lookup _ _ _ H). Qed.

Lemma route_ok_cons ways goal c w d c' w' d' r W :
  ways !! w = Some W →
  (c = Way.end1 W ∧ c' = Way.end2 W) ∨ (c = Way.end2 W ∧ c' = Way.end1 W) →
  d' = int_add d (Way.length W) →
  route_ok ways goal ((c', w', d') :: r) →
  route_ok ways goal ((c, w, d) :: (c', w', d') :: r).
Proof. intros. split; [|done]. exists W. auto. Qed.

Lemma search_any_loop_spec (n : nat) rec current goal d :
  (∀ c len t0, wf t0 → route_found_ t0 = false → c ∈ unvisited t0 →
     (size (unvisited t0) ≤ n)%nat →
     ∃ t1, rec c len t0 = Returns t1
           ∧ any_post t0 t1 c goal (int_add d len)) →
  ∀ ws t cd,
    wf t → route_found_ t = false →
    (∀ it, it ∈ ws → it ∈ ways_from t current) →
    visited_coordinates_ t !! current = Some cd →
    Crossroad_data.visited cd = true → Crossroad_data.distance cd = d →
    (size (unvisited t) ≤ n)%nat →
    ∃ t', search_any_loop rec current ws t = Returns t'
          ∧ any_loop_post t t' current goal d.
Proof.
  intros Hrec. induction ws as [|[w n0] ws IH];
    intros t cd Hwf Hnf Hws Hcur Hcv Hcd Hsize; simpl.
  - exists t. split; [done|].
    split; [apply frame_refl | done | done | done | congruence].
  - assert (Hin : (w, n0) ∈ ways_from t current) by (apply Hws; by left).
    destruct (wf_crossroad_target t Hwf _ _ _ Hin) as [cdn Hcdn].
    rewrite (crossroad_at_lookup _ _ _ Hcdn). simpl.
    destruct (Crossroad_data.visited cdn) eqn:Hvn.
    { eapply IH; eauto. intros it Hit. apply Hws. by right. }
    pose proof Hin as (W & HW & Hends)%(wf_ways_from t Hwf).
    unfold way_at. rewrite HW. simpl.
    destruct (Hrec n0 (Way.length W) t Hwf Hnf) as (t1 & Hret & Hpost);
      [apply elem_of_unvisited; eauto | done |].
    rewrite Hret. simpl.
    destruct Hpost as [Hfr Hold Hunv Hcur1 Hnf1 Hf1].
    pose proof (Hold _ _ Hcur Hcv) as Hcur'.
    destruct (route_found_ t1) eqn:Hfound.
    + rewrite (crossroad_at_lookup _ _ _ Hcur'). simpl.
      eexists. split; [done|]. split; simpl.
      * eapply frame_trans; [done | apply frame_with_chosen_route].
      * done.
      * etrans; [exact Hunv|]. by apply subseteq_difference_l.
      * congruence.
      * intros _. destruct (Hf1 eq_refl) as (r & Hr & [(w' & r' & ->) Hok]).
        exists ((current, w, d)
                  :: (n0, w', int_add d (Way.length W)) :: r').
        split.
        { rewrite Hr, Hcd, (reverse_cons _ (current, w, d)).
          by rewrite app_assoc. }
        split; [eauto|]. eapply route_ok_cons; eauto.
    + destruct (IH t1 cd) as (t' & Hloop & Hpost'); try done.
      * by eapply wf_frame.
      * intros it Hit. rewrite (frame_ways_from _ _ _ Hfr). apply Hws.
        by right.
      * etrans; [|exact Hsize]. apply subseteq_size.
        etrans; [exact Hunv|]. by apply subseteq_difference_l.
      * exists t'. split; [done|].
        destruct Hpost' as [Hfr' Hold' Hunv' Hnf' Hf'].
        split.
        -- by eapply frame_trans.
        -- intros c cd0 Hc0 Hv0. apply Hold'; [|done]. by apply Hold.
        -- etrans; [exact Hunv'|]. etrans; [exact Hunv|].
           by apply subseteq_difference_l.
        -- intros Hx. rewrite (Hnf' Hx). by apply Hnf1.
        -- intros Hx. destruct (Hf' Hx) as (r & Hr & Hroute).
           exists r. rewrite Hr, (Hnf1 eq_refl).
           by rewrite (frame_by_id _ _ Hfr) in Hroute.
Qed.

Lemma search_any_spec fuel : ∀ current goal d s,
  wf s → route_found_ s = false → current ∈ unvisited s →
  (size (unvisited s) ≤ fuel)%nat →
  ∃ s', search_any fuel current goal d s = Returns s'
        ∧ any_post s s' current goal d.
Proof.
  induction fuel as [|fuel IH]; intros current goal d s Hwf Hnf Hcur Hsize.
  { assert (size (unvisited s) ≠ 0%nat); [|lia].
    intros Hz%size_empty_inv. apply Hz in Hcur.
    by apply not_elem_of_empty in Hcur. }
  pose proof Hcur as (cd & Hcd & Hv)%elem_of_unvisited.
  simpl. rewrite (set_distance_lookup _ _ _ _ Hcd). simpl.
  set (s1 := with_visited_coordinates _ s).
  rewrite (set_visited_lookup current true s1 _ (lookup_insert_eq _ _ _)).
  simpl. rewrite insert_insert_eq.
  set (cd2 := Crossroad_data.mk (Crossroad_data.coordinates cd) true d).
  set (s2 := with_visited_coordinates
               (<[current := cd2]> (visited_coordinates_ s)) s).
  change (with_visited_coordinates (<[current:=cd2]> (visited_coordinates_ s))
            s1) with s2.
  assert (Hfr2 : frame s s2) by (by eapply frame_update).
  assert (Hunv2 : unvisited s2 = unvisited s ∖ {[current]})
    by (by apply unvisited_mark).
  assert (Hcur2 : visited_coordinates_ s2 !! current = Some cd2)
    by apply lookup_insert_eq.
  assert (Hold2 : ∀ c cd0, visited_coordinates_ s !! c = Some cd0 →
            Crossroad_data.visited cd0 = true →
            visited_coordinates_ s2 !! c = Some cd0).
  { intros c cd0 Hc Hv0. simpl. rewrite lookup_insert_ne; [done|].
    intros <-. congruence. }
  destruct (decide (current = goal)) as [<-|Hne].
  - rewrite (crossroad_at_lookup _ _ _ Hcur2). simpl.
    eexists. split; [done|]. split; simpl.
    + eapply frame_trans; [exact Hfr2|]. by apply frame_same.
    + exact Hold2.
    + by rewrite <- Hunv2.
    + exists cd2. by rewrite lookup_insert_eq.
    + done.
    + intros _. exists [(current, NO_WAY, d)]. split; [done|].
      split; [eauto | done].
  - destruct (search_any_loop_spec fuel
                (λ c len, search_any fuel c goal (int_add d len))
                current goal d) with (ws := ways_from s2 current) (t := s2)
                (cd := cd2) as (s' & Hloop & Hpost); try done.
    + intros c len t0 ????. by apply IH.
    + by eapply wf_frame.
    + pose proof (unvisited_size_mark s current cd2 eq_refl Hcur). 
      fold s2 in H. lia.
    + exists s'. split; [done|].
      destruct Hpost as [Hfr' Hold' Hunv' Hnf' Hf'].
      split.
      * by eapply frame_trans.
      * intros c cd0 Hc Hv0. apply Hold'; [|done]. by apply Hold2.
      * by rewrite <- Hunv2.
      * exists cd2. split; [|done]. by apply Hold'.
      * done.
      * intros Hx. destruct (Hf' Hx) as (r & Hr & Hroute). by exists r.
Qed.

(** ** Walks *)

Lemma wf_step g c w n : wf g → step g c w n ↔ (w, n) ∈ ways_from g c.
Proof. intros Hwf. symmetry. by apply wf_ways_from. Qed.

Lemma step_sym g c w n : step g c w n → step g n w c.
Proof. intros (W & ? & ?). exists W. tauto. Qed.

Lemma step_fun g c w n c' n' :
  step g c w n → step g c' w n' → (c' = c ∧ n' = n) ∨ (c' = n ∧ n' = c).
Proof.
  intros (W & HW & Hc) (W' & HW' & Hc'). simplify_eq.
  destruct Hc as [[-> ->]|[-> ->]], Hc' as [[-> ->]|[-> ->]]; auto.
Qed.

Lemma step_frame g t c w n : frame g t → step t c w n ↔ step g c w n.
Proof. intros Hfr. unfold step. by rewrite (frame_by_id _ _ Hfr). Qed.

Lemma walk_frame g t c q : frame g t → walk t c q ↔ walk g c q.
Proof.
  intros Hfr. revert c. induction q as [|it q IH]; intros c; simpl; [done|].
  by rewrite IH, (step_frame g t).
Qed.

Lemma walk_end_nil c : walk_end c [] = c.
Proof. done. Qed.

Lemma walk_end_snoc c q it : walk_end c (q ++ [it]) = it.2.
Proof. unfold walk_end. rewrite fmap_app. simpl. apply last_last. Qed.

Lemma walk_end_cons c it q : walk_end c (it :: q) = walk_end it.2 q.
Proof.
  unfold walk_end. change ((it :: q).*2) with (it.2 :: q.*2).
  destruct (q.*2) as [|v l]; [done|].
  change (List.last (v :: l) c = List.last (v :: l) it.2).
  apply last_default.
Qed.

Lemma walk_app g c q1 q2 :
  walk g c (q1 ++ q2) ↔ walk g c q1 ∧ walk g (walk_end c q1) q2.
Proof.
  revert c. induction q1 as [|it q1 IH]; intros c; simpl.
  - rewrite walk_end_nil. tauto.
  - rewrite IH, walk_end_cons. tauto.
Qed.

Lemma vertices_snoc c q it : vertices c (q ++ [it]) = vertices c q ++ [it.2].
Proof. unfold vertices. by rewrite fmap_app. Qed.

Lemma walk_end_vertices c q : walk_end c q ∈ vertices c q.
Proof.
  induction q as [|it q IH] using rev_ind.
  - rewrite walk_end_nil. by left.
  - rewrite walk_end_snoc, vertices_snoc, elem_of_app, list_elem_of_singleton.
    by right.
Qed.

Lemma no_retrace_cons it q :
  no_retrace (it :: q) ↔ (∀ it' q', q = it' :: q' → it.1 ≠ it'.1) ∧ no_retrace q.
Proof.
  simpl. destruct q as [|it' q']; simpl.
  - split; [|done]. intros _. split; [|done]. by intros ?? ?.
  - split.
    + intros [? ?]. split; [|done]. intros ?? ?. by simplify_eq.
    + intros [H ?]. split; [|done]. by eapply H.
Qed.

Lemma no_retrace_snoc q it :
  no_retrace (q ++ [it]) ↔
  no_retrace q ∧ (∀ q0 it0, q = q0 ++ [it0] → it0.1 ≠ it.1).
Proof.
  induction q as [|it1 q IH].
  - simpl. split; [|done]. intros _. split; [done|].
    intros q0 it0 Hq. by destruct q0.
  - change ((it1 :: q) ++ [it]) with (it1 :: (q ++ [it])).
    rewrite !no_retrace_cons, IH. split.
    + intros (Hhd & Hq & Hlast). split; [split; [|done]|].
      * intros it' q' ->. by eapply Hhd.
      * intros q0 it0 Heq. destruct q0 as [|x q0]; simplify_eq/=.
        -- by eapply Hhd.
        -- by eapply Hlast.
    + intros ((Hhd & Hq) & Hlast). split; [|split; [done|]].
      * intros it' q' Heq. destruct q as [|x q]; simplify_eq/=.
        -- by apply (Hlast [] it1).
        -- by eapply Hhd.
      * intros q0 it0 ->. by apply (Hlast (it1 :: q0) it0).
Qed.

(** ** Marked and unmarked crossroads *)

Lemma elem_of_marked s c :
  c ∈ marked s ↔
  ∃ cd, visited_coordinates_ s !! c = Some cd
        ∧ Crossroad_data.visited cd = true.
Proof.
  unfold marked. rewrite elem_of_dom. unfold is_Some.
  setoid_rewrite map_lookup_filter_Some. simpl. naive_solver.
Qed.

Lemma marked_not_unvisited s c : c ∈ marked s → c ∈ unvisited s → False.
Proof.
  intros (cd & H1 & H2)%elem_of_marked (cd' & H1' & H2')%elem_of_unvisited.
  congruence.
Qed.

Lemma marked_or_unvisited s c :
  is_Some (visited_coordinates_ s !! c) → c ∈ marked s ∨ c ∈ unvisited s.
Proof.
  intros [cd Hcd]. destruct (Crossroad_data.visited cd) eqn:Hv.
  - left. apply elem_of_marked. eauto.
  - right. apply elem_of_unvisited. eauto.
Qed.

Lemma marked_mark s c cd' :
  Crossroad_data.visited cd' = true →
  marked (with_visited_coordinates (<[c := cd']> (visited_coordinates_ s)) s)
  = marked s ∪ {[c]}.
Proof.
  intros Hv. apply set_eq. intros k.
  rewrite elem_of_union, !elem_of_marked, elem_of_singleton. simpl.
  destruct (decide (c = k)) as [->|Hne].
  - rewrite lookup_insert_eq. split; [auto | eauto].
  - rewrite lookup_insert_ne by done. split; [auto|].
    intros [?|?]; [done | congruence].
Qed.

Lemma unvisited_subseteq s s' :
  dom (visited_coordinates_ s') = dom (visited_coordinates_ s) →
  marked s ⊆ marked s' → unvisited s' ⊆ unvisited s.
Proof.
  intros Hdom Hsub c Hc.
  assert (Hin : is_Some (visited_coordinates_ s !! c)).
  { apply elem_of_dom. rewrite <- Hdom. apply elem_of_dom.
    apply elem_of_unvisited in Hc as (cd & ? & _). eauto. }
  destruct (marked_or_unvisited s c Hin) as [Hm|?]; [|done].
  destruct (marked_not_unvisited s' c); auto.
Qed.

Lemma search_cycle_marked fuel current previous s cd :
  visited_coordinates_ s !! current = Some cd →
  Crossroad_data.visited cd = true →
  search_cycle (S fuel) current previous s
  = Returns (with_cyclic_route (cyclic_route_ s ++ [(current, NO_WAY)])
               (with_route_found true s)).
Proof.
  intros Hcd Hv. simpl. rewrite (crossroad_at_lookup _ _ _ Hcd). simpl.
  by rewrite Hv.
Qed.

(** ** The cycle search *)

Lemma no_retrace_extend g from P current previous w n :
  walk g from P → no_retrace P →
  (P = [] ∨ ∃ P0 wp, P = P0 ++ [(wp, current)]
                     ∧ walk_end from P0 = previous ∧ previous ≠ current) →
  step g current w n → n ≠ previous →
  no_retrace (P ++ [(w, n)]).
Proof.
  intros Hwalk Hnr Hprev Hstep Hn. apply no_retrace_snoc. split; [done|].
  intros q0 it0 Heq. destruct Hprev as [->|(P0 & wp & -> & Hend & Hpc)].
  { by destruct q0. }
  apply app_inj_tail in Heq as [<- <-]. simpl. intros <-.
  apply walk_app in Hwalk as [_ [Hlast _]]. simpl in Hlast.
  rewrite Hend in Hlast.
  destruct (step_fun _ _ _ _ _ _ Hstep Hlast) as [[? ?]|[? ?]]; congruence.
Qed.

Lemma loop_inv_skip g s1 t from P current previous done w :
  loop_inv g s1 t from P current previous done →
  loop_inv g s1 t from P current previous (done ++ [(w, previous)]).
Proof.
  intros [H1 H2 H3 H4 H5 H6]. split.
  - done.
  - intros m Hm HmP w0 n0 Hs.
    destruct (H2 m Hm HmP w0 n0 Hs) as [? Hx]. split; [done|].
    intros ->. destruct (Hx eq_refl) as [w1 ?]. exists w1.
    apply elem_of_app. by left.
  - intros it [Hit|Hit%list_elem_of_singleton]%elem_of_app.
    + by apply H3.
    + subst. by left.
  - done.
  - intros it [Hit|Hit%list_elem_of_singleton]%elem_of_app Hne.
    + by apply H5.
    + by subst.
  - intros it it' [Hit|Hit%list_elem_of_singleton]%elem_of_app
      [Hit'|Hit'%list_elem_of_singleton]%elem_of_app Heq Hne.
    + by apply H6.
    + subst. simpl in *. congruence.
    + subst. simpl in *. congruence.
    + by subst.
Qed.

Lemma loop_inv_child g s1 t t1 from P current previous done w n :
  loop_inv g s1 t from P current previous done →
  current ∈ marked s1 →
  marked t ⊆ marked t1 →
  n ∉ marked t →
  explored g (marked t1 ∖ marked t) n current →
  loop_inv g s1 t1 from P current previous (done ++ [(w, n)]).
Proof.
  intros [H1 H2 H3 H4 H5 H6] Hcur Hsub Hn [E1 E2 E3].
  assert (Hcurt : current ∈ marked t) by auto.
  assert (Hnew : ∀ v, v ∈ marked t1 ∖ marked t → v ∈ marked t1 ∖ marked s1).
  { intros v [? ?]%elem_of_difference. apply elem_of_difference. auto. }
  assert (Hold : ∀ v, v ∈ marked t ∖ marked s1 → v ∈ marked t1 ∖ marked s1).
  { intros v [? ?]%elem_of_difference. apply elem_of_difference. auto. }
  split.
  - by etrans.
  - intros m Hm HmP w0 n0 Hs. destruct (decide (m ∈ marked t)) as [Hmt|Hmt].
    + destruct (H2 m Hmt HmP w0 n0 Hs) as [? Hx]. split; [auto|].
      intros Heq. destruct (Hx Heq) as [w1 ?]. exists w1.
      apply elem_of_app. by left.
    + assert (Hmn : m ∈ marked t1 ∖ marked t) by (by apply elem_of_difference).
      destruct (E2 m w0 n0 Hmn Hs) as [Hn0|[-> ->]].
      * apply elem_of_difference in Hn0 as [? ?]. split; [done|].
        by intros ->.
      * split; [auto|]. intros _. exists w. apply elem_of_app. right.
        by apply list_elem_of_singleton.
  - intros it [Hit|Hit%list_elem_of_singleton]%elem_of_app.
    + destruct (H3 it Hit) as [?|?]; auto.
    + subst. right. simpl. auto.
  - intros m w0 n0 Hm Hs. destruct (decide (m ∈ marked t)) as [Hmt|Hmt].
    + assert (Hm' : m ∈ marked t ∖ marked s1).
      { apply elem_of_difference in Hm as [_ ?]. by apply elem_of_difference. }
      destruct (H4 m w0 n0 Hm' Hs); auto.
    + assert (Hmn : m ∈ marked t1 ∖ marked t).
      { apply elem_of_difference in Hm as [? _]. by apply elem_of_difference. }
      destruct (E2 m w0 n0 Hmn Hs) as [?|[_ ->]]; auto.
  - intros it [Hit|Hit%list_elem_of_singleton]%elem_of_app Hne q Hq Hnr Hav.
    + destruct (H5 it Hit Hne q Hq Hnr Hav) as [? Hv]. split; [done|].
      intros v Hvq. auto.
    + subst. simpl in *. destruct (E3 q Hq Hnr Hav) as [? Hv]. split; [done|].
      intros v Hvq. auto.
  - intros it it' [Hit|Hit%list_elem_of_singleton]%elem_of_app
      [Hit'|Hit'%list_elem_of_singleton]%elem_of_app Heq Hne.
    + by apply H6.
    + subst. simpl in *. destruct (H3 it Hit) as [?|Hx]; [done|].
      apply elem_of_difference in Hx as [Hx _]. by rewrite Heq in Hx.
    + subst. simpl in *. destruct (H3 it' Hit') as [Hx|Hx]; [congruence|].
      apply elem_of_difference in Hx as [Hx _]. by rewrite <- Heq in Hx.
    + by subst.
Qed.

Lemma cycle_from_marked g s1 t from P current previous done rest w n :
  wf g →
  walk g from P → walk_end from P = current → no_retrace P →
  (P = [] ∨ ∃ P0 wp, P = P0 ++ [(wp, current)]
                     ∧ walk_end from P0 = previous ∧ previous ≠ current) →
  loop_inv g s1 t from P current previous done →
  ways_from g current = done ++ (w, n) :: rest →
  n ≠ previous → n ∈ marked t →
  cycle_reachable g from.
Proof.
  intros Hwf Hwalk Hend Hnr Hprev Hinv Hsplit Hn Hm.
  assert (Hstep : step g current w n).
  { apply wf_step; [done|]. rewrite Hsplit, elem_of_app. right. by left. }
  destruct (decide (n ∈ vertices from P)) as [HnP|HnP].
  - exists P, (w, n). split; [|split; [|done]].
    + apply walk_app. rewrite Hend. simpl. done.
    + by eapply no_retrace_extend.
  - destruct (li_finished _ _ _ _ _ _ _ _ Hinv n Hm HnP w current
                (step_sym _ _ _ _ Hstep)) as [_ Hx].
    destruct (Hx eq_refl) as [w1 Hw1].
    assert (Hstep1 : step g current w1 n).
    { apply wf_step; [done|]. rewrite Hsplit, elem_of_app. by left. }
    assert (Hne : w1 ≠ w).
    { intros ->. apply list_elem_of_split in Hw1 as (l1 & l2 & ->).
      rewrite <- app_assoc in Hsplit. simpl in Hsplit.
      apply (wf_ways_from_twice g Hwf) in Hsplit as [-> _].
      apply HnP. rewrite <- Hend. apply walk_end_vertices. }
    exists (P ++ [(w1, n)]), (w, current). split; [|split].
    + apply walk_app. split.
      * apply walk_app. rewrite Hend. simpl. done.
      * rewrite walk_end_snoc. simpl. split; [|done]. by apply step_sym.
    + apply no_retrace_snoc. split.
      * by eapply no_retrace_extend.
      * intros q0 it0 [<- <-]%app_inj_tail. done.
    + simpl. rewrite vertices_snoc, elem_of_app. left.
      rewrite <- Hend. apply walk_end_vertices.
Qed.

Lemma frame_lookup g t c :
  frame g t → is_Some (visited_coordinates_ g !! c) →
  is_Some (visited_coordinates_ t !! c).
Proof.
  intros Hfr Hc. apply elem_of_dom. rewrite (frame_dom _ _ Hfr).
  by apply elem_of_dom.
Qed.

Lemma search_cycle_loop_spec g from (k : nat) rec current previous P s1 :
  wf g →
  walk g from P → walk_end from P = current → no_retrace P →
  (P = [] ∨ ∃ P0 wp, P = P0 ++ [(wp, current)]
                     ∧ walk_end from P0 = previous ∧ previous ≠ current) →
  current ∈ marked s1 →
  (∀ n t cd,
     visited_coordinates_ t !! n = Some cd →
     Crossroad_data.visited cd = true →
     rec n t = Returns (with_cyclic_route (cyclic_route_ t ++ [(n, NO_WAY)])
                          (with_route_found true t))) →
  (∀ n t P',
     frame g t → route_found_ t = false → n ∈ unvisited t →
     (size (unvisited t) < k)%nat →
     on_stack g t from P' n current →
     ∃ t1, rec n t = Returns t1 ∧ frame t t1
           ∧ cycle_post g t t1 from n current) →
  ∀ rest done t,
    ways_from g current = done ++ rest →
    frame g t → route_found_ t = false → (size (unvisited t) < k)%nat →
    loop_inv g s1 t from P current previous done →
    ∃ t', search_cycle_loop rec current previous rest t = Returns t'
      ∧ frame t t' ∧ marked t ⊆ marked t'
      ∧ (route_found_ t' = true →
           cycle_reachable g from ∧ cyclic_route_ t' ≠ [])
      ∧ (route_found_ t' = false →
           cyclic_route_ t' = cyclic_route_ t
           ∧ loop_inv g s1 t' from P current previous (ways_from g current)).
Proof.
  intros Hwf Hwalk Hend Hnr Hprev Hcur Hrecm Hrecu.
  induction rest as [|[w n] rest IH]; intros done t Hsplit Hfr Hnf Hsize Hinv.
  { rewrite app_nil_r in Hsplit. exists t. split; [done|].
    split; [apply frame_refl|]. split; [done|]. split; [congruence|].
    intros _. split; [done|]. by rewrite Hsplit. }
  assert (Hin : (w, n) ∈ ways_from g current).
  { rewrite Hsplit, elem_of_app. right. by left. }
  assert (Hstep : step g current w n) by (by apply wf_step).
  assert (Hsplit' : ways_from g current = (done ++ [(w, n)]) ++ rest).
  { by rewrite <- app_assoc. }
  simpl. destruct (decide (n = previous)) as [->|Hn].
  { apply (IH (done ++ [(w, previous)])); try done. by apply loop_inv_skip. }
  destruct (frame_lookup g t n Hfr (wf_crossroad_target g Hwf _ _ _ Hin))
    as [cdn Hcdn].
  destruct (Crossroad_data.visited cdn) eqn:Hvn.
  - rewrite (Hrecm _ _ _ Hcdn Hvn). simpl. eexists. split; [done|].
    split; [by apply frame_same|]. split; [done|]. split; [|done].
    intros _. split.
    + eapply cycle_from_marked; eauto. apply elem_of_marked. eauto.
    + intros Hnil. symmetry in Hnil. by apply app_cons_not_nil in Hnil.
  - assert (Hnu : n ∈ unvisited t) by (apply elem_of_unvisited; eauto).
    assert (Hnm : n ∉ marked t).
    { intros ?. by eapply marked_not_unvisited. }
    assert (Hcurt : current ∈ marked t)
      by (by apply (li_marked _ _ _ _ _ _ _ _ Hinv)).
    destruct (Hrecu n t (P ++ [(w, n)]) Hfr Hnf Hnu Hsize)
      as (t1 & Hret & Hfr1 & [Hsub Hfound Hnot]).
    { split.
      - apply walk_app. rewrite Hend. simpl. done.
      - apply walk_end_snoc.
      - by eapply no_retrace_extend.
      - right. exists P, w. done.
      - intros m Hm HmP w0 n0 Hs.
        eapply (li_finished _ _ _ _ _ _ _ _ Hinv m Hm); [|done].
        intros HP. apply HmP. rewrite vertices_snoc, elem_of_app. by left. }
    rewrite Hret. simpl. destruct (route_found_ t1) eqn:Hf1.
    + eexists. split; [done|].
      split; [eapply frame_trans; [done | by apply frame_same]|].
      split; [exact Hsub|]. split; [|simpl; congruence].
      intros _. split; [by apply Hfound|]. simpl.
      intros Hnil. symmetry in Hnil. by apply app_cons_not_nil in Hnil.
    + destruct (Hnot eq_refl) as [Hcyc Hexp].
      destruct (IH (done ++ [(w, n)]) t1) as (t' & Hloop & Hfr' & Hsub' & Hf' & Hn');
        try done.
      * by eapply frame_trans.
      * eapply Nat.le_lt_trans; [|exact Hsize]. apply subseteq_size.
        apply unvisited_subseteq; [|done]. apply (frame_dom _ _ Hfr1).
      * by eapply loop_inv_child.
      * exists t'. split; [done|]. split; [by eapply frame_trans|].
        split; [by etrans|]. split; [done|].
        intros Hx. destruct (Hn' Hx) as [? ?]. split; [congruence | done].
Qed.

Lemma search_cycle_spec g from fuel : wf g →
  ∀ current previous s P,
    frame g s → route_found_ s = false → current ∈ unvisited s →
    (size (unvisited s) < fuel)%nat →
    on_stack g s from P current previous →
    ∃ s', search_cycle fuel current previous s = Returns s'
          ∧ frame s s' ∧ cycle_post g s s' from current previous.
Proof.
  intros Hwf. induction fuel as [|fuel IH];
    intros current previous s P Hfr Hnf Hcur Hsize [Hw He Hnr Hp Hfin];
    [lia|].
  pose proof Hcur as (cd & Hcd & Hv)%elem_of_unvisited.
  simpl. rewrite (crossroad_at_lookup _ _ _ Hcd). simpl. rewrite Hv.
  rewrite (set_visited_lookup _ _ _ _ Hcd). simpl.
  set (cd1 := Crossroad_data.mk _ true _).
  set (s1 := with_visited_coordinates _ s).
  assert (Hfr1 : frame s s1) by (by eapply frame_update).
  assert (Hm1 : marked s1 = marked s ∪ {[current]}) by (by apply marked_mark).
  assert (Hsz1 : S (size (unvisited s1)) = size (unvisited s))
    by (by apply unvisited_size_mark).
  assert (Hcm : current ∉ marked s).
  { intros ?. by eapply marked_not_unvisited. }
  assert (Hcm1 : current ∈ marked s1).
  { rewrite Hm1, elem_of_union, elem_of_singleton. by right. }
  destruct (search_cycle_loop_spec g from fuel
              (λ c, search_cycle fuel c current) current previous P s1)
    with (rest := ways_from s1 current) (done := @nil (WayID * Coord))
         (t := s1)
    as (s' & Hloop & Hfr' & Hsub' & Hf' & Hn'); try done.
  - destruct Hp as [?|(P0 & wp & ? & ? & Hpm)]; [by left|]. right.
    exists P0, wp. split; [done|]. split; [done|]. by intros ->.
  - intros n t cdn Hn Hvn. destruct fuel as [|fuel']; [lia|].
    exact (search_cycle_marked _ _ _ _ _ Hn Hvn).
  - intros n t P' ?????. by eapply IH.
  - simpl. symmetry. apply (frame_ways_from g). by eapply frame_trans.
  - by eapply frame_trans.
  - lia.
  - split.
    + done.
    + intros m Hm HmP w n Hs. rewrite Hm1 in Hm.
      apply elem_of_union in Hm as [Hm|Hm%elem_of_singleton].
      * pose proof (Hfin m Hm HmP w n Hs) as Hnm. split.
        -- rewrite Hm1, elem_of_union. by left.
        -- by intros ->.
      * subst m. destruct HmP. rewrite <- He. apply walk_end_vertices.
    + by intros it ?%elem_of_nil.
    + intros m w n [? ?]%elem_of_difference. done.
    + by intros it ?%elem_of_nil.
    + by intros it it' ?%elem_of_nil.
  - exists s'. split; [done|]. split; [by eapply frame_trans|]. split.
    + etrans; [|exact Hsub']. rewrite Hm1. apply union_subseteq_l.
    + done.
    + intros Hx. destruct (Hn' Hx) as [Hcyc [L1 L2 L3 L4 L5 L6]].
      split; [done|].
      assert (Hsplit : ∀ v, v ∈ marked s' ∖ marked s ↔
                v = current ∨ v ∈ marked s' ∖ marked s1).
      { intros v. rewrite !elem_of_difference, Hm1, elem_of_union,
          elem_of_singleton. split.
        - intros [? ?]. destruct (decide (v = current)); [by left|].
          right. split; [done|]. by intros [?|?].
        - intros [->|[? Hx']].
          + split; [auto | done].
          + split; [done|]. intros ?. apply Hx'. by left. }
      split.
      * apply Hsplit. by left.
      * intros m w n [->|Hm]%Hsplit Hs.
        -- apply (wf_step g _ _ _ Hwf) in Hs.
           destruct (L3 _ Hs) as [?|?]; [by right|]. left. apply Hsplit.
           by right.
        -- left. apply Hsplit. destruct (L4 m w n Hm Hs); auto.
      * intros q Hq Hnrq Hav. destruct q as [|it q].
        { split; [apply NoDup_singleton|]. intros v ?%list_elem_of_singleton.
          subst. apply Hsplit. by left. }
        destruct Hq as [Hs Hq]. apply no_retrace_cons in Hnrq as [Hhd Hnrq].
        assert (Hit : it ∈ ways_from g current).
        { destruct it as [w n]. by apply wf_step. }
        assert (Hne : it.2 ≠ previous) by (by eapply Hav).
        destruct (L5 it Hit Hne q Hq Hnrq) as [Hnd Hall].
        { intros it' q' -> Heq. simpl in *. destruct Hq as [Hs' _].
          rewrite Heq in Hs'. apply step_sym, (wf_step g _ _ _ Hwf) in Hs'.
          assert (it = (it'.1, it.2)) as Hx' by (by apply L6).
          apply (Hhd it' q' eq_refl). by rewrite Hx'. }
        split.
        -- change (vertices current (it :: q))
             with (current :: vertices it.2 q).
           apply NoDup_cons. split; [|done]. intros Hc%Hall.
           apply elem_of_difference in Hc as [_ ?]. done.
        -- change (vertices current (it :: q))
             with (current :: vertices it.2 q).
           intros v [->|Hvq]%elem_of_cons; apply Hsplit; [by left|].
           right. by apply Hall.
Qed.

(** ** A deeper call stack does not change a result *)

Lemma search_any_loop_mono rec rec' current ws s (r : outcome Datastructures) :
  (∀ c d t r0, rec c d t = r0 → r0 ≠ OutOfFuel → rec' c d t = r0) →
  search_any_loop rec current ws s = r → r ≠ OutOfFuel →
  search_any_loop rec' current ws s = r.
Proof.
  intros Hrec. revert s. induction ws as [|it ws IH]; intros s; simpl; [done|].
  destruct (crossroad_at s it.2) as [cd| |]; simpl; [|done|done].
  destruct (Crossroad_data.visited cd); [apply IH|].
  destruct (way_at s it.1) as [w| |]; simpl; [|done|done].
  destruct (rec it.2 (Way.length w) s) as [s1| |] eqn:Hr; simpl.
  - rewrite (Hrec _ _ _ _ Hr) by done. simpl.
    destruct (route_found_ s1); [done | apply IH].
  - by rewrite (Hrec _ _ _ _ Hr).
  - by intros <-.
Qed.

Lemma search_any_fuel_mono fuel : ∀ fuel' current goal d s r,
  (fuel ≤ fuel')%nat →
  search_any fuel current goal d s = r → r ≠ OutOfFuel →
  search_any fuel' current goal d s = r.
Proof.
  induction fuel as [|fuel IH]; intros fuel' current goal d s r Hle; simpl.
  { by intros <-. }
  destruct fuel' as [|fuel']; [lia|]. simpl.
  destruct (set_distance current d s) as [s1| |]; simpl; [|done|done].
  destruct (set_visited current true s1) as [s2| |]; simpl; [|done|done].
  destruct (decide (current = goal)); [done|].
  apply search_any_loop_mono. intros c len t r0. apply IH. lia.
Qed.

Lemma search_cycle_loop_mono rec rec' current previous ws s
    (r : outcome Datastructures) :
  (∀ c t r0, rec c t = r0 → r0 ≠ OutOfFuel → rec' c t = r0) →
  search_cycle_loop rec current previous ws s = r → r ≠ OutOfFuel →
  search_cycle_loop rec' current previous ws s = r.
Proof.
  intros Hrec. revert s. induction ws as [|it ws IH]; intros s; simpl; [done|].
  destruct (decide (it.2 = previous)); [apply IH|].
  destruct (rec it.2 s) as [s1| |] eqn:Hr; simpl.
  - rewrite (Hrec _ _ _ Hr) by done. simpl.
    destruct (route_found_ s1); [done | apply IH].
  - by rewrite (Hrec _ _ _ Hr).
  - by intros <-.
Qed.

Lemma search_cycle_fuel_mono fuel : ∀ fuel' current previous s r,
  (fuel ≤ fuel')%nat →
  search_cycle fuel current previous s = r → r ≠ OutOfFuel →
  search_cycle fuel' current previous s = r.
Proof.
  induction fuel as [|fuel IH]; intros fuel' current previous s r Hle; simpl.
  { by intros <-. }
  destruct fuel' as [|fuel']; [lia|]. simpl.
  destruct (crossroad_at s current) as [cd| |]; simpl; [|done|done].
  destruct (Crossroad_data.visited cd); [done|].
  destruct (set_visited current true s) as [s1| |]; simpl; [|done|done].
  apply search_cycle_loop_mono. intros c t r0. apply IH. lia.
Qed.

(** ** Resetting the search state *)

Lemma clean_for_search_found type s :
  route_found_ (clean_for_search type s) = false.
Proof. unfold clean_for_search. by case_decide. Qed.

Lemma clean_for_search_lookup type s c :
  visited_coordinates_ (clean_for_search type s) !! c
  = (λ cd, Crossroad_data.mk (Crossroad_data.coordinates cd) false NO_VALUE)
    <$> visited_coordinates_ s !! c.
Proof. unfold clean_for_search. case_decide; simpl; apply lookup_fmap. Qed.

Lemma clean_for_search_unvisited type s c :
  is_Some (visited_coordinates_ s !! c) → c ∈ unvisited (clean_for_search type s).
Proof.
  intros [cd Hcd]. apply elem_of_unvisited.
  rewrite clean_for_search_lookup, Hcd. simpl. eauto.
Qed.

Lemma clean_for_search_marked type s : marked (clean_for_search type s) = ∅.
Proof.
  apply set_eq. intros c. rewrite elem_of_marked, clean_for_search_lookup.
  split; [|by intros ?%not_elem_of_empty].
  intros (cd & Hcd & Hv). destruct (visited_coordinates_ s !! c); simplify_eq/=.
Qed.

Lemma clean_for_search_size type s :
  size (visited_coordinates_ (clean_for_search type s))
  = size (visited_coordinates_ s).
Proof. unfold clean_for_search. case_decide; simpl; apply map_size_fmap. Qed.

Lemma clean_for_search_chosen s : chosen_route_ (clean_for_search NORMAL s) = [].
Proof. unfold clean_for_search. by rewrite decide_True. Qed.

Lemma clean_for_search_cyclic s : cyclic_route_ (clean_for_search CYCLE s) = [].
Proof. unfold clean_for_search. by rewrite decide_False. Qed.

(** ** Routes and paths *)

Lemma route_ok_departure ways goal r :
  route_ok ways goal r → consecutive_by_departure ways r.
Proof.
  induction r as [|[[c w] d] r IH]; [done|].
  destruct r as [|[[c' w'] d'] r'].
  - intros _ i ???????. by destruct i.
  - intros [(W & HW & Hends & Hd) Hok] i ci wi di ci1 wi1 di1 Hi Hi1.
    destruct i as [|i].
    + simpl in *. simplify_eq. exists (Way.length W).
      split; [by exists W|]. split; [done|].
      intros Hfit. rewrite (int_add_exact _ _ Hfit). lia.
    + by eapply (IH Hok i).
Qed.

Lemma route_ok_last ways goal r :
  route_ok ways goal r → ∃ r0 d, r = r0 ++ [(goal, NO_WAY, d)].
Proof.
  induction r as [|[[c w] d] r IH]; [done|].
  destruct r as [|[[c' w'] d'] r'].
  - intros [-> ->]. by exists [], d.
  - intros [_ Hok]. destruct (IH Hok) as (r0 & d0 & ->).
    by exists ((c, w, d) :: r0), d0.
Qed.

Lemma route_ok_connected s goal r c w d r' :
  r = (c, w, d) :: r' → route_ok (ways_by_id_ s) goal r → connected s c goal.
Proof.
  revert c w d r'. induction r as [|[[c0 w0] d0] r IH]; [done|].
  intros c w d r' [= -> -> -> ->].
  destruct r' as [|[[c' w'] d'] r''].
  - intros [-> _]. by exists [].
  - intros [(W & HW & Hends & _) Hok].
    destruct (IH c' w' d' r'' eq_refl Hok) as (q & Hq & Hend).
    exists ((w, c') :: q). split.
    + split; [|done]. exists W. done.
    + by rewrite walk_end_cons.
Qed.

Lemma search_any_from_clean s a b fuel :
  wf s → is_Some (visited_coordinates_ s !! a) →
  (size (visited_coordinates_ s) ≤ fuel)%nat →
  ∃ s', search_any fuel a b 0 (clean_for_search NORMAL s) = Returns s'
        ∧ any_post (clean_for_search NORMAL s) s' a b 0.
Proof.
  intros Hwf Ha Hfuel. apply search_any_spec.
  - eapply wf_frame; [done | apply clean_for_search_frame].
  - apply clean_for_search_found.
  - by apply clean_for_search_unvisited.
  - etrans; [apply unvisited_le_size|]. by rewrite clean_for_search_size.
Qed.

Lemma route_any_spec s a b :
  wf s →
  List.length (ways_from s b) ≠ 0%nat → List.length (ways_from s a) ≠ 0%nat →
  ∃ r s', route_any s a b = Returns (r, s') ∧ frame s s'
          ∧ (r = [] ∨ route_from (ways_by_id_ s) a 0 b r).
Proof.
  intros Hwf Hb Ha. unfold route_any. rewrite decide_False by tauto.
  destruct (search_any_from_clean s a b
              (route_any_depth (clean_for_search NORMAL s)) Hwf)
    as (s2 & Hs2 & [Hfr _ _ _ Hnf Hf]).
  { by apply wf_incident_crossroad. }
  { unfold route_any_depth. by rewrite clean_for_search_size. }
  rewrite Hs2. simpl. eexists _, _. split; [done|]. split.
  - eapply frame_trans; [apply clean_for_search_frame|].
    eapply frame_trans; [done | apply frame_with_chosen_route].
  - rewrite clean_for_search_chosen in Hnf, Hf.
    destruct (route_found_ s2).
    + right. destruct (Hf eq_refl) as (r & -> & Hr). simpl.
      rewrite reverse_involutive.
      by rewrite (frame_by_id _ _ (clean_for_search_frame NORMAL s)) in Hr.
    + left. by rewrite (Hnf eq_refl).
Qed.

Lemma route_any_sentinel s a b :
  List.length (ways_from s b) = 0%nat ∨ List.length (ways_from s a) = 0%nat →
  route_any s a b = Returns ([(NO_COORD, NO_WAY, NO_DISTANCE)], s).
Proof. intros H. unfold route_any. by rewrite decide_True. Qed.

Lemma search_cycle_from_clean s a fuel :
  wf s → is_Some (visited_coordinates_ s !! a) →
  (size (visited_coordinates_ s) < fuel)%nat →
  ∃ s', search_cycle fuel a NO_COORD (clean_for_search CYCLE s) = Returns s'
        ∧ frame (clean_for_search CYCLE s) s'
        ∧ cycle_post (clean_for_search CYCLE s) (clean_for_search CYCLE s) s'
            a a NO_COORD.
Proof.
  intros Hwf Ha Hfuel.
  apply (search_cycle_spec _ a fuel) with (P := []).
  - eapply wf_frame; [done | apply clean_for_search_frame].
  - apply frame_refl.
  - apply clean_for_search_found.
  - by apply clean_for_search_unvisited.
  - eapply Nat.le_lt_trans; [apply unvisited_le_size|].
    by rewrite clean_for_search_size.
  - split; [done | done | done | by left |].
    intros m Hm. rewrite clean_for_search_marked in Hm.
    by apply not_elem_of_empty in Hm.
Qed.

Lemma cycle_reachable_frame g t a :
  frame g t → cycle_reachable t a ↔ cycle_reachable g a.
Proof.
  intros Hfr. unfold cycle_reachable.
  by setoid_rewrite (walk_frame g t _ _ Hfr).
Qed.

Lemma cycle_reachable_not_NoDup g a :
  cycle_reachable g a →
  (∀ q, walk g a q → no_retrace q → NoDup (vertices a q)) → False.
Proof.
  intros (q & it & Hw & Hnr & Hin) Hall.
  specialize (Hall _ Hw Hnr). rewrite vertices_snoc in Hall.
  apply NoDup_app in Hall as (_ & Hdisj & _).
  apply (Hdisj _ Hin). by left.
Qed.

Lemma route_with_cycle_spec s a :
  wf s → List.length (ways_from s a) ≠ 0%nat →
  ∃ r s', route_with_cycle s a = Returns (r, s') ∧ frame s s'
    ∧ (r ≠ [] → cycle_reachable s a)
    ∧ (r = [] →
       ∀ q, walk s a q → no_retrace q → avoids NO_COORD q →
            NoDup (vertices a q)).
Proof.
  intros Hwf Ha. unfold route_with_cycle. rewrite decide_False by done.
  pose proof (clean_for_search_frame CYCLE s) as Hfr0.
  destruct (search_cycle_from_clean s a
              (route_with_cycle_depth (clean_for_search CYCLE s)) Hwf)
    as (s2 & Hs2 & Hfr & [_ Hf Hnf]).
  { by apply wf_incident_crossroad. }
  { unfold route_with_cycle_depth. rewrite clean_for_search_size. lia. }
  rewrite Hs2. simpl. eexists _, _. split; [done|]. split.
  { eapply frame_trans; [done|].
    eapply frame_trans; [done | apply frame_with_cyclic_route]. }
  rewrite clean_for_search_cyclic in Hnf.
  destruct (route_found_ s2).
  - destruct (Hf eq_refl) as [Hc Hne]. split.
    + intros _. by apply (cycle_reachable_frame s _ a Hfr0).
    + intros Hnil. destruct Hne. apply (f_equal reverse) in Hnil.
      by rewrite reverse_involutive in Hnil.
  - destruct (Hnf eq_refl) as [-> [_ _ Htree]]. split; [done|].
    intros _ q Hq Hnr Hav.
    apply (Htree q); [by apply (walk_frame s _ _ _ Hfr0) | done | done].
Qed.

(** ** The concrete graphs *)

Lemma two_ways_reachable : reachable two_ways.
Proof.
  exists false, [Add_way "W1" [c00; c03]; Add_way "W2" [c03; c43]].
  vm_compute. reflexivity.
Qed.

Lemma apart_reachable : reachable apart.
Proof.
  exists false, [Add_way "W1" [c00; c03]; Add_way "W3" [c43; c44]].
  vm_compute. reflexivity.
Qed.

Lemma origin_loop_reachable : reachable origin_loop.
Proof. exists false, [Add_way "L" [c00; c00]]. vm_compute. reflexivity. Qed.

Lemma sentinel_loop_reachable : reachable sentinel_loop.
Proof.
  exists false, [Add_way "L" [NO_COORD; NO_COORD]]. vm_compute. reflexivity.
Qed.

(** In [apart], a walk from (0,0) or (0,3) stays on these two coordinates. *)
Lemma apart_walk q : ∀ c,
  c = c00 ∨ c = c03 → walk apart c q → walk_end c q = c00 ∨ walk_end c q = c03.
Proof.
  induction q as [|[w n] q IH]; intros c Hc; [done|].
  intros [Hs Hq]. rewrite walk_end_cons. apply IH; [|done]. simpl in *.
  apply (wf_step apart _ _ _ (reachable_wf _ apart_reachable)) in Hs.
  destruct Hc as [->| ->]; vm_compute in Hs;
    apply list_elem_of_singleton in Hs; simplify_eq; auto.
Qed.

Lemma apart_not_connected : ¬ connected apart c00 c43.
Proof.
  intros (q & Hq & Hend).
  destruct (apart_walk q c00 (or_introl eq_refl) Hq) as [H|H];
    rewrite Hend in H; discriminate.
Qed.

(** ** Running the any-route search step by step *)

Lemma search_any_unfold fuel current goal d s cd :
  visited_coordinates_ s !! current = Some cd →
  search_any (S fuel) current goal d s
  = let s2 := with_visited_coordinates
                (<[current := Crossroad_data.mk (Crossroad_data.coordinates cd)
                                true d]> (visited_coordinates_ s)) s in
    if decide (current = goal) then
      Returns (with_chosen_route (chosen_route_ s2 ++ [(goal, NO_WAY, d)])
                 (with_route_found true s2))
    else
      search_any_loop (λ c len, search_any fuel c goal (int_add d len))
        current (ways_from s current) s2.
Proof.
  intros Hcd. simpl. rewrite (set_distance_lookup _ _ _ _ Hcd). simpl.
  rewrite (set_visited_lookup current true _ _ (lookup_insert_eq _ _ _)).
  simpl. rewrite insert_insert_eq. case_decide; [|done].
  unfold crossroad_at. simpl. by rewrite lookup_insert_eq.
Qed.

Lemma search_any_loop_skip rec current w n ws s cd :
  visited_coordinates_ s !! n = Some cd →
  Crossroad_data.visited cd = true →
  search_any_loop rec current ((w, n) :: ws) s
  = search_any_loop rec current ws s.
Proof.
  intros Hcd Hv. simpl. rewrite (crossroad_at_lookup _ _ _ Hcd). simpl.
  by rewrite Hv.
Qed.

Lemma search_any_loop_found rec current w n ws s cd W s' cdc :
  visited_coordinates_ s !! n = Some cd →
  Crossroad_data.visited cd = false →
  ways_by_id_ s !! w = Some W →
  rec n (Way.length W) s = Returns s' →
  route_found_ s' = true →
  visited_coordinates_ s' !! current = Some cdc →
  search_any_loop rec current ((w, n) :: ws) s
  = Returns (with_chosen_route
               (chosen_route_ s' ++ [(current, w, Crossroad_data.distance cdc)])
               s').
Proof.
  intros Hcd Hv HW Hrec Hf Hcdc. simpl.
  rewrite (crossroad_at_lookup _ _ _ Hcd). simpl. rewrite Hv.
  unfold way_at. rewrite HW. simpl. rewrite Hrec. simpl. rewrite Hf.
  by rewrite (crossroad_at_lookup _ _ _ Hcdc).
Qed.

(** ** The entries of a key, from the counts *)

Lemma occurrences_equal_range c W m :
  occurrences (c, W) (equal_range c m) = occurrences (c, W) m.
Proof.
  unfold equal_range. induction m as [|e m IH]; [done|].
  rewrite filter_cons. destruct (decide (e.1 = c)) as [He|He].
  - by rewrite !occurrences_cons, IH.
  - rewrite occurrences_cons, IH, decide_False; [done|].
    intros ->. by destruct He.
Qed.

Lemma occurrences_one_all e (l : list (Coord * Way.t)) :
  (∀ e', e' ∈ l → e' = e) → occurrences e l = 1%nat → l = [e].
Proof.
  intros Hall Hocc. destruct l as [|e1 l]; [done|].
  assert (e1 = e) as -> by (apply Hall; by left).
  rewrite occurrences_cons, decide_True in Hocc by done.
  destruct l as [|e2 l]; [done|].
  assert (e2 = e) as -> by (apply Hall; right; by left).
  rewrite occurrences_cons, decide_True in Hocc by done. lia.
Qed.

Lemma occurrences_one_each a b (l : list (Coord * Way.t)) :
  a ≠ b → (∀ e, e ∈ l → e = a ∨ e = b) →
  occurrences a l = 1%nat → occurrences b l = 1%nat →
  l = [a; b] ∨ l = [b; a].
Proof.
  intros Hne Hall Ha Hb. destruct l as [|e1 l].
  { by rewrite occurrences_nil in Ha. }
  rewrite !occurrences_cons in Ha, Hb.
  assert (He1 : e1 = a ∨ e1 = b) by (apply Hall; by left).
  assert (Hl : ∀ e, e ∈ l → e = a ∨ e = b) by (intros; apply Hall; by right).
  destruct He1 as [-> | ->].
  - rewrite decide_True in Ha by done. rewrite decide_False in Hb by done.
    left. f_equal. apply occurrences_one_all; [|lia].
    intros e He. destruct (Hl e He) as [-> | ->]; [|done].
    apply occurrences_pos in He. lia.
  - rewrite decide_False in Ha by done. rewrite decide_True in Hb by done.
    right. f_equal. apply occurrences_one_all; [|lia].
    intros e He. destruct (Hl e He) as [-> | ->]; [done|].
    apply occurrences_pos in He. lia.
Qed.

(** ** The graph with exactly W1 and W2 *)

Section only_two_ways.
Context (s : Datastructures) (Hwf : wf s)
        (Hways : ways_by_id_ s = only_W1_W2).

Lemma only_lookup id W :
  ways_by_id_ s !! id = Some W ↔
  (id = "W1"%string ∧ W = way_W1) ∨ (id = "W2"%string ∧ W = way_W2).
Proof.
  rewrite Hways. unfold only_W1_W2.
  rewrite lookup_insert_Some, lookup_insert_Some, lookup_empty. split.
  - intros [[<- <-]|[_ [[<- <-]|[_ ?]]]]; [by left | by right | done].
  - intros [[-> ->]|[-> ->]]; [by left|]. right. split; [done|]. by left.
Qed.

Lemma only_entry c W :
  (c, W) ∈ ways_by_coord_ s →
  (W = way_W1 ∧ (c = c00 ∨ c = c03)) ∨ (W = way_W2 ∧ (c = c03 ∨ c = c43)).
Proof.
  intros [HW Hc]%(wf_entry s Hwf).
  apply only_lookup in HW as [[_ ->]|[_ ->]]; simpl in Hc; auto.
Qed.

Lemma only_occurrences c W :
  ways_by_id_ s !! Way.id W = Some W →
  occurrences (c, W) (ways_by_coord_ s) = incidence c W.
Proof. intros HW. by rewrite (wf_coord s Hwf), decide_True. Qed.

Lemma only_range_c00 : equal_range c00 (ways_by_coord_ s) = [(c00, way_W1)].
Proof.
  apply occurrences_one_all.
  - intros [k W] [Hk Hin]%list_elem_of_filter. simpl in Hk. subst k.
    apply only_entry in Hin as [[-> _]|[-> [?|?]]]; [done | done | done].
  - rewrite occurrences_equal_range, only_occurrences; [done|].
    apply only_lookup. by left.
Qed.

Lemma only_range_c03 :
  equal_range c03 (ways_by_coord_ s) = [(c03, way_W1); (c03, way_W2)]
  ∨ equal_range c03 (ways_by_coord_ s) = [(c03, way_W2); (c03, way_W1)].
Proof.
  apply occurrences_one_each.
  - done.
  - intros [k W] [Hk Hin]%list_elem_of_filter. simpl in Hk. subst k.
    apply only_entry in Hin as [[-> _]|[-> _]]; auto.
  - rewrite occurrences_equal_range, only_occurrences; [done|].
    apply only_lookup. by left.
  - rewrite occurrences_equal_range, only_occurrences; [done|].
    apply only_lookup. by right.
Qed.

Lemma only_ways_from_c00 : ways_from s c00 = [("W1"%string, c03)].
Proof. unfold ways_from. by rewrite only_range_c00. Qed.

Lemma only_ways_from_c03 :
  ways_from s c03 = [("W1"%string, c00); ("W2"%string, c43)]
  ∨ ways_from s c03 = [("W2"%string, c43); ("W1"%string, c00)].
Proof.
  unfold ways_from. destruct only_range_c03 as [-> | ->]; [by left | by right].
Qed.

Lemma only_crossroad c :
  c = c00 ∨ c = c03 ∨ c = c43 → is_Some (visited_coordinates_ s !! c).
Proof.
  intros Hc. apply (wf_crossroad s Hwf).
  destruct (wf_stored s Hwf "W1"%string way_W1) as (_ & H1 & H2);
    [apply only_lookup; by left|].
  destruct (wf_stored s Hwf "W2"%string way_W2) as (_ & H3 & H4);
    [apply only_lookup; by right|].
  destruct Hc as [-> | [-> | ->]]; eauto.
Qed.

Lemma only_incident c :
  c = c00 ∨ c = c03 ∨ c = c43 → List.length (ways_from s c) ≠ 0%nat.
Proof.
  intros Hc Hz. destruct (only_crossroad c Hc) as [cd Hcd].
  assert (is_Some (visited_coordinates_ s !! c)) as [W HW]%(wf_crossroad s Hwf)
    by eauto.
  by apply (proj1 (ways_from_nil s c) Hz W).
Qed.

(** The search from (0,0) for (4,3), run with a call stack of depth 3. *)
Lemma only_search_any :
  ∃ s', search_any 3 c00 c43 0 (clean_for_search NORMAL s) = Returns s'
        ∧ chosen_route_ s'
          = [(c43, NO_WAY, 7); (c03, "W2"%string, 3); (c00, "W1"%string, 0)].
Proof.
  destruct (only_crossroad c00) as [cd0 H0]; [auto|].
  destruct (only_crossroad c03) as [cd3 H3]; [auto|].
  destruct (only_crossroad c43) as [cd4 H4]; [auto|].
  pose proof (clean_for_search_frame NORMAL s) as Hfr.
  pose proof (clean_for_search_chosen s) as Hch.
  pose proof (clean_for_search_lookup NORMAL s c00) as L0.
  pose proof (clean_for_search_lookup NORMAL s c03) as L3.
  pose proof (clean_for_search_lookup NORMAL s c43) as L4.
  rewrite H0 in L0. rewrite H3 in L3. rewrite H4 in L4. simpl in L0, L3, L4.
  pose proof (frame_ways_from _ _ c00 Hfr) as F0.
  pose proof (frame_ways_from _ _ c03 Hfr) as F3.
  rewrite only_ways_from_c00 in F0.
  pose proof (frame_by_id _ _ Hfr) as Hid.
  set (s1 := clean_for_search NORMAL s) in *.
  assert (HW1 : ways_by_id_ s1 !! "W1"%string = Some way_W1).
  { rewrite Hid. apply only_lookup. by left. }
  assert (HW2 : ways_by_id_ s1 !! "W2"%string = Some way_W2).
  { rewrite Hid. apply only_lookup. by right. }
  (* the call on (0,0) *)
  rewrite (search_any_unfold 2 c00 c43 0 s1 _ L0). cbv zeta.
  rewrite decide_False by done. rewrite F0.
  set (s2 := with_visited_coordinates _ s1).
  assert (L3' : visited_coordinates_ s2 !! c03
            = Some (Crossroad_data.mk (Crossroad_data.coordinates cd3)
                      false NO_VALUE)).
  { unfold s2. simpl. by rewrite lookup_insert_ne. }
  (* the call on (0,3) *)
  set (s3 := with_visited_coordinates
               (<[c03 := Crossroad_data.mk (Crossroad_data.coordinates cd3)
                           true (0 + 3)]> (visited_coordinates_ s2)) s2).
  (* the call on (4,3), which is the goal *)
  assert (L4' : visited_coordinates_ s3 !! c43
            = Some (Crossroad_data.mk (Crossroad_data.coordinates cd4)
                      false NO_VALUE)).
  { unfold s3, s2. simpl. by rewrite !lookup_insert_ne. }
  pose proof (search_any_unfold 0 c43 c43 (0 + 3 + 4) s3 _ L4') as E4.
  cbv zeta in E4. rewrite decide_True in E4 by done.
  set (t4 := with_chosen_route _ _) in E4.
  assert (Hfound4 : route_found_ t4 = true) by done.
  assert (Lc3 : visited_coordinates_ t4 !! c03
            = Some (Crossroad_data.mk (Crossroad_data.coordinates cd3)
                      true (0 + 3))).
  { unfold t4, s3. simpl. rewrite lookup_insert_ne by done.
    by rewrite lookup_insert_eq. }
  assert (Lc0 : visited_coordinates_ s3 !! c00
            = Some (Crossroad_data.mk (Crossroad_data.coordinates cd0)
                      true 0)).
  { unfold s3, s2. simpl. rewrite lookup_insert_ne by done.
    by rewrite lookup_insert_eq. }
  assert (HW2' : ways_by_id_ s3 !! "W2"%string = Some way_W2) by done.
  set (t3 := with_chosen_route
               (chosen_route_ t4 ++ [(c03, "W2"%string, 0 + 3)]) t4).
  assert (E3 : search_any 2 c03 c43 (0 + 3) s2 = Returns t3).
  { rewrite (search_any_unfold 1 c03 c43 (0 + 3) s2 _ L3'). cbv zeta.
    rewrite decide_False by done. fold s3.
    change (ways_from s2 c03) with (ways_from s1 c03). rewrite F3.
    destruct only_ways_from_c03 as [-> | ->].
    - rewrite (search_any_loop_skip _ _ _ _ _ _ _ Lc0 eq_refl).
      by rewrite (search_any_loop_found _ _ _ _ _ _ _ _ _ _
                    L4' eq_refl HW2' E4 Hfound4 Lc3).
    - by rewrite (search_any_loop_found _ _ _ _ _ _ _ _ _ _
                    L4' eq_refl HW2' E4 Hfound4 Lc3). }
  assert (Lc0' : visited_coordinates_ t3 !! c00
            = Some (Crossroad_data.mk (Crossroad_data.coordinates cd0)
                      true 0)).
  { unfold t3, t4. simpl. rewrite !lookup_insert_ne by done.
    by rewrite lookup_insert_eq. }
  assert (HW1' : ways_by_id_ s2 !! "W1"%string = Some way_W1) by done.
  rewrite (search_any_loop_found _ _ _ _ _ _ _ _ _ _
             L3' eq_refl HW1' E3 eq_refl Lc0').
  eexists. split; [done|]. simpl. rewrite ?Hch. reflexivity.
Qed.

Lemma only_route_any :
  returned (route_any s c00 c43)
  = Returns [(c00, "W1"%string, 0); (c03, "W2"%string, 3); (c43, NO_WAY, 7)].
Proof.
  unfold route_any. rewrite decide_False.
  2:{ intros [Hz|Hz].
      - exact (only_incident c43 (or_intror (or_intror eq_refl)) Hz).
      - exact (only_incident c00 (or_introl eq_refl) Hz). }
  destruct only_search_any as (s3 & Hs3 & Hch).
  set (n := route_any_depth (clean_for_search NORMAL s)).
  destruct (search_any_from_clean s c00 c43 n Hwf) as (s' & Hs' & _).
  { apply only_crossroad. auto. }
  { unfold n, route_any_depth. by rewrite clean_for_search_size. }
  rewrite Hs'. simpl.
  apply (search_any_fuel_mono _ (n `max` 3)) in Hs'; [|lia|done].
  apply (search_any_fuel_mono _ (n `max` 3)) in Hs3; [|lia|done].
  assert (s' = s3) as -> by congruence. by rewrite Hch.
Qed.
End only_two_ways.

(** * The claims *)

(** ** C1: consecutive entries of a route *)

(** C1, as stated, fails: in the route that [route_any] returns from (0,0)
    to (4,3) over W1 and W2, the way of an entry is not the way that leads
    to it from the previous entry. *)
Lemma route_any_not_by_arrival :
  reachable two_ways
  ∧ returned (route_any two_ways c00 c43)
    = Returns [(c00, "W1"%string, 0); (c03, "W2"%string, 3); (c43, NO_WAY, 7)]
  ∧ ¬ consecutive_by_arrival (ways_by_id_ two_ways)
        [(c00, "W1"%string, 0); (c03, "W2"%string, 3); (c43, NO_WAY, 7)].
Proof.
  split; [apply two_ways_reachable|]. split; [vm_compute; reflexivity|].
  intros H.
  destruct (H 0%nat c00 "W1"%string 0 c03 "W2"%string 3 eq_refl eq_refl)
    as (W & HW & _ & Hlen).
  vm_compute in HW. injection HW as <-. vm_compute in Hlen. discriminate.
Qed.

(** C1, amended: in every reachable state, a result of [route_any a b] that
    is neither the sentinel sequence nor empty starts at [a] with distance
    0, ends at [b] with [NO_WAY], and of two consecutive entries
    [(ci, wi, di)], [(ci+1, wi+1, di+1)] the way [wi] of the first is a
    stored way whose ends are [ci] and [ci+1]; [di+1] is the [int] sum of
    [di] and the length of [wi], so that [di+1 - di] is the length of [wi]
    whenever [di] plus the length fits an [int], and [di+1] is that sum
    reduced modulo 2^32 otherwise. *)
Theorem route_any_by_departure s a b r :
  reachable s →
  returned (route_any s a b) = Returns r →
  r ≠ [(NO_COORD, NO_WAY, NO_DISTANCE)] → r ≠ [] →
  (∃ w r', r = (a, w, 0) :: r')
  ∧ consecutive_by_departure (ways_by_id_ s) r
  ∧ (∃ r0 d, r = r0 ++ [(b, NO_WAY, d)]).
Proof.
  intros Hwf%reachable_wf Hret Hsent Hnil.
  destruct (decide (List.length (ways_from s b) = 0%nat
                    ∨ List.length (ways_from s a) = 0%nat)) as [Hz|Hz].
  { rewrite (route_any_sentinel _ _ _ Hz) in Hret. simpl in Hret.
    by simplify_eq. }
  destruct (route_any_spec s a b Hwf) as (r1 & s' & Hr & _ & Hroute);
    [tauto | tauto |].
  rewrite Hr in Hret. simpl in Hret. simplify_eq.
  destruct Hroute as [->|[Hhd Hok]]; [done|].
  split; [done|]. split.
  - by eapply route_ok_departure.
  - by eapply route_ok_last.
Qed.

Lemma route_any_by_departure_witness :
  (∃ w r', [(c00, "W1"%string, 0); (c03, "W2"%string, 3); (c43, NO_WAY, 7)]
           = (c00, w, 0) :: r')
  ∧ consecutive_by_departure (ways_by_id_ two_ways)
      [(c00, "W1"%string, 0); (c03, "W2"%string, 3); (c43, NO_WAY, 7)]
  ∧ (∃ r0 d, [(c00, "W1"%string, 0); (c03, "W2"%string, 3); (c43, NO_WAY, 7)]
             = r0 ++ [(c43, NO_WAY, d)]).
Proof.
  apply (route_any_by_departure two_ways c00 c43).
  - exists false, [Add_way "W1" [c00; c03]; Add_way "W2" [c03; c43]].
    vm_compute. reflexivity.
  - vm_compute. reflexivity.
  - discriminate.
  - discriminate.
Defined.

(** ** C2: the route over W1 and W2 *)

(** C2, as stated, fails: the returned sequence is not
    [((0,0), NO_WAY, 0), ((0,3), W1, 3), ((4,3), W2, 7)]. *)
Lemma route_any_two_ways_not_as_claimed :
  reachable two_ways
  ∧ ways_by_id_ two_ways = only_W1_W2
  ∧ returned (route_any two_ways c00 c43)
    ≠ Returns [(c00, NO_WAY, 0); (c03, "W1"%string, 3); (c43, "W2"%string, 7)].
Proof.
  split; [apply two_ways_reachable|]. split; [vm_compute; reflexivity|].
  intros H. vm_compute in H. discriminate.
Qed.

(** C2, amended: in every reachable state in which exactly the two ways W1
    (0,0)-(0,3), of length 3, and W2 (0,3)-(4,3), of length 4, are stored,
    [route_any] from (0,0) to (4,3) returns
    [((0,0), W1, 0), ((0,3), W2, 3), ((4,3), NO_WAY, 7)]: in start-to-goal
    order, with the distances 0, 3, 7, each entry naming the way that
    leaves it and the goal carrying [NO_WAY]. *)
Theorem route_any_two_ways s :
  reachable s →
  ways_by_id_ s = only_W1_W2 →
  returned (route_any s c00 c43)
  = Returns [(c00, "W1"%string, 0); (c03, "W2"%string, 3); (c43, NO_WAY, 7)].
Proof. intros Hwf%reachable_wf Hways. by apply only_route_any. Qed.

Lemma route_any_two_ways_witness :
  returned (route_any two_ways_rev c00 c43)
  = Returns [(c00, "W1"%string, 0); (c03, "W2"%string, 3); (c43, NO_WAY, 7)].
Proof.
  apply (route_any_two_ways two_ways_rev).
  - exists false, [Add_way "W2" [c03; c43]; Add_way "W1" [c00; c03]].
    vm_compute. reflexivity.
  - vm_compute. reflexivity.
Defined.

(** ** C3: cycles *)

(** C3, as stated, fails: with a single way from the sentinel coordinate
    [NO_COORD] to itself, a cycle is reachable from [NO_COORD], yet
    [route_with_cycle NO_COORD] returns the empty sequence, because the
    search takes [NO_COORD] for the crossroad it came from. *)
Lemma route_with_cycle_misses_sentinel_loop :
  reachable sentinel_loop
  ∧ List.length (ways_from sentinel_loop NO_COORD) ≠ 0%nat
  ∧ cycle_reachable sentinel_loop NO_COORD
  ∧ returned (route_with_cycle sentinel_loop NO_COORD) = Returns [].
Proof.
  split; [apply sentinel_loop_reachable|]. split; [by vm_compute|].
  split; [|vm_compute; reflexivity].
  exists [], ("L"%string, NO_COORD). split; [|split].
  - split; [|done].
    apply (wf_step _ _ _ _ (reachable_wf _ sentinel_loop_reachable)).
    vm_compute. by left.
  - done.
  - by left.
Qed.

(** C3, amended: in every reachable state in which no way ends at the
    sentinel coordinate [NO_COORD], and for every coordinate [a] with at
    least one incident way, [route_with_cycle a] returns a non-empty
    sequence if and only if a cycle is reachable from [a], and the empty
    sequence otherwise. *)
Theorem route_with_cycle_iff s a :
  reachable s →
  List.length (ways_from s NO_COORD) = 0%nat →
  List.length (ways_from s a) ≠ 0%nat →
  ∃ r, returned (route_with_cycle s a) = Returns r
       ∧ (r ≠ [] ↔ cycle_reachable s a)
       ∧ (¬ cycle_reachable s a → r = []).
Proof.
  intros Hwf%reachable_wf Hno Ha.
  destruct (route_with_cycle_spec s a Hwf Ha)
    as (r & s' & Hr & _ & Hfound & Hnot).
  exists r. rewrite Hr. split; [done|].
  assert (Hav : ∀ c q, walk s c q → avoids NO_COORD q).
  { intros c q Hq it q' -> Heq. destruct Hq as [Hs _]. rewrite Heq in Hs.
    apply step_sym, (wf_step s _ _ _ Hwf) in Hs.
    destruct (ways_from s NO_COORD); [by apply elem_of_nil in Hs | done]. }
  assert (Hcyc : cycle_reachable s a → r ≠ []).
  { intros Hc ->. apply (cycle_reachable_not_NoDup s a Hc).
    intros q Hq Hnr. apply Hnot; eauto. }
  split; [by split|].
  intros Hn. destruct r as [|e r]; [done|]. destruct Hn. by apply Hfound.
Qed.

Lemma route_with_cycle_iff_witness :
  ∃ r, returned (route_with_cycle origin_loop c00) = Returns r
       ∧ (r ≠ [] ↔ cycle_reachable origin_loop c00)
       ∧ (¬ cycle_reachable origin_loop c00 → r = []).
Proof.
  apply (route_with_cycle_iff origin_loop c00).
  - exists false, [Add_way "L" [c00; c00]]. vm_compute. reflexivity.
  - vm_compute. reflexivity.
  - vm_compute. discriminate.
Defined.

(** ** C4: crossroad entries follow the ways *)

(** C4: after every sequence of [add_way], [remove_way], [clear_ways],
    [route_any] and [route_with_cycle] calls, a coordinate has a crossroad
    entry if and only if it is an end of a stored way; a route query leaves
    both views of the way index, the set of coordinates with an entry and
    the coordinate stored in each entry as they were. *)
Theorem crossroad_entries_follow_ways s :
  reachable s →
  (∀ c, is_Some (visited_coordinates_ s !! c)
        ↔ ∃ id W, ways_by_id_ s !! id = Some W
                  ∧ (c = Way.end1 W ∨ c = Way.end2 W))
  ∧ (∀ a b r s', route_any s a b = Returns (r, s') → frame s s')
  ∧ (∀ a r s', route_with_cycle s a = Returns (r, s') → frame s s').
Proof.
  intros Hwf%reachable_wf. split; [|split].
  - intros c. rewrite (wf_crossroad s Hwf). split.
    + intros [W [HW Hc]%(wf_entry s Hwf)]. eauto.
    + intros (id & W & HW & Hc).
      apply (wf_stored s Hwf) in HW as (_ & H1 & H2).
      exists W. by destruct Hc as [-> | ->].
  - intros a b r s'. apply route_any_frame.
  - intros a r s'. apply route_with_cycle_frame.
Qed.

Lemma crossroad_entries_follow_ways_witness :
  (∀ c, is_Some (visited_coordinates_ two_ways !! c)
        ↔ ∃ id W, ways_by_id_ two_ways !! id = Some W
                  ∧ (c = Way.end1 W ∨ c = Way.end2 W))
  ∧ (∀ a b r s', route_any two_ways a b = Returns (r, s') → frame two_ways s')
  ∧ (∀ a r s', route_with_cycle two_ways a = Returns (r, s')
               → frame two_ways s').
Proof.
  apply (crossroad_entries_follow_ways two_ways).
  exists false, [Add_way "W1" [c00; c03]; Add_way "W2" [c03; c43]].
  vm_compute. reflexivity.
Defined.

(** ** C5: failed mutations *)

(** C5: [add_way] with an identifier that is already stored returns false
    and leaves the whole state as it was, and so does [remove_way] with an
    identifier that is not stored. *)
Theorem failed_mutation_unchanged s id coords :
  (is_Some (ways_by_id_ s !! id) → add_way s id coords = Some (false, s))
  ∧ (ways_by_id_ s !! id = None → remove_way s id = (false, s)).
Proof.
  unfold add_way, remove_way, get_way. split.
  - by intros [W ->].
  - by intros ->.
Qed.

Lemma failed_mutation_unchanged_witness :
  add_way two_ways "W1" [c43; c00] = Some (false, two_ways)
  ∧ remove_way two_ways "W9" = (false, two_ways).
Proof.
  split.
  - apply (failed_mutation_unchanged two_ways "W1" [c43; c00]).
    vm_compute. eauto.
  - apply (failed_mutation_unchanged two_ways "W9" []).
    vm_compute. reflexivity.
Defined.

(** ** C6: sentinel and empty results *)

(** C6: [route_any a b] returns the one-element sentinel sequence, leaving
    the state untouched, when [a] or [b] has no incident way; in a reachable
    state in which both have an incident way but no path leads from [a] to
    [b], it returns the empty sequence, which is not the sentinel
    sequence. *)
Theorem route_any_sentinel_or_empty s a b :
  (List.length (ways_from s a) = 0%nat ∨ List.length (ways_from s b) = 0%nat →
   route_any s a b = Returns ([(NO_COORD, NO_WAY, NO_DISTANCE)], s))
  ∧ (reachable s →
     List.length (ways_from s a) ≠ 0%nat →
     List.length (ways_from s b) ≠ 0%nat →
     ¬ connected s a b →
     returned (route_any s a b) = Returns []
     ∧ [] ≠ [(NO_COORD, NO_WAY, NO_DISTANCE)]).
Proof.
  split.
  - intros H. apply route_any_sentinel. tauto.
  - intros Hwf%reachable_wf Ha Hb Hno. split; [|done].
    destruct (route_any_spec s a b Hwf Hb Ha)
      as (r & s' & Hr & _ & [->|[(w & r' & ->) Hok]]).
    + by rewrite Hr.
    + destruct Hno. by eapply route_ok_connected.
Qed.

Lemma route_any_sentinel_or_empty_witness :
  route_any apart (mkCoord 9 9) c43
  = Returns ([(NO_COORD, NO_WAY, NO_DISTANCE)], apart)
  ∧ returned (route_any apart c00 c43) = Returns []
  ∧ [] ≠ [(NO_COORD, NO_WAY, NO_DISTANCE)].
Proof.
  split.
  - apply (route_any_sentinel_or_empty apart (mkCoord 9 9) c43).
    left. vm_compute. reflexivity.
  - apply (route_any_sentinel_or_empty apart c00 c43).
    + exists false, [Add_way "W1" [c00; c03]; Add_way "W3" [c43; c44]].
      vm_compute. reflexivity.
    + vm_compute. discriminate.
    + vm_compute. discriminate.
    + apply apart_not_connected.
Defined.

(** ** C7: a route from a coordinate to itself *)

(** C7: in every reachable state, for every coordinate [x] with at least one
    incident way, [route_any x x] returns exactly [[(x, NO_WAY, 0)]]. *)
Theorem route_any_same s x :
  reachable s →
  List.length (ways_from s x) ≠ 0%nat →
  returned (route_any s x x) = Returns [(x, NO_WAY, 0)].
Proof.
  intros Hwf%reachable_wf Hx. unfold route_any.
  rewrite decide_False by tauto.
  destruct (wf_incident_crossroad s Hwf x Hx) as [cd Hcd].
  set (s1 := clean_for_search NORMAL s).
  assert (Hcd1 : visited_coordinates_ s1 !! x
            = Some (Crossroad_data.mk (Crossroad_data.coordinates cd)
                      false NO_VALUE)).
  { unfold s1. by rewrite clean_for_search_lookup, Hcd. }
  assert (Hfuel : route_any_depth s1 ≠ 0%nat).
  { unfold route_any_depth. intros Hz%map_size_empty_inv.
    by rewrite Hz, lookup_empty in Hcd1. }
  destruct (route_any_depth s1) as [|fuel]; [done|].
  rewrite (search_any_unfold fuel x x 0 s1 _ Hcd1). cbv zeta.
  rewrite decide_True by done. simpl.
  unfold s1. rewrite ?clean_for_search_chosen. reflexivity.
Qed.

Lemma route_any_same_witness :
  returned (route_any two_ways c03 c03) = Returns [(c03, NO_WAY, 0)].
Proof.
  apply (route_any_same two_ways c03).
  - exists false, [Add_way "W1" [c00; c03]; Add_way "W2" [c03; c43]].
    vm_compute. reflexivity.
  - vm_compute. discriminate.
Defined.

(** ** C8: the length of a way *)

Lemma add_way_stored s id coords s' W :
  add_way s id coords = Some (true, s') → Way_new id coords = Some W →
  ways_by_id_ s' !! id = Some W.
Proof.
  intros (_ & W' & HW' & _ & _ & _ & ->)%add_way_true HW.
  rewrite HW' in HW. injection HW as ->.
  destruct (ensure_crossroad_index (Way.end2 W)
              (ensure_crossroad (Way.end1 W)
                 (mkDatastructures (<[id := W]> (ways_by_id_ s))
                    ((ways_by_coord_ s ++ [(Way.end1 W, W)])
                       ++ [(Way.end2 W, W)])
                    (visited_coordinates_ s) (chosen_route_ s)
                    (cyclic_route_ s) (route_found_ s)))) as [-> _].
  destruct (ensure_crossroad_index (Way.end1 W)
              (mkDatastructures (<[id := W]> (ways_by_id_ s))
                 ((ways_by_coord_ s ++ [(Way.end1 W, W)])
                    ++ [(Way.end2 W, W)])
                 (visited_coordinates_ s) (chosen_route_ s)
                 (cyclic_route_ s) (route_found_ s))) as [-> _].
  simpl. apply lookup_insert_eq.
Qed.

Lemma add_way_other s id coords s' id' W :
  add_way s id coords = Some (true, s') → id' ≠ id →
  ways_by_id_ s !! id' = Some W → ways_by_id_ s' !! id' = Some W.
Proof.
  intros (_ & W' & HW' & _ & _ & _ & ->)%add_way_true Hne HW.
  destruct (ensure_crossroad_index (Way.end2 W')
              (ensure_crossroad (Way.end1 W')
                 (mkDatastructures (<[id := W']> (ways_by_id_ s))
                    ((ways_by_coord_ s ++ [(Way.end1 W', W')])
                       ++ [(Way.end2 W', W')])
                    (visited_coordinates_ s) (chosen_route_ s)
                    (cyclic_route_ s) (route_found_ s)))) as [-> _].
  destruct (ensure_crossroad_index (Way.end1 W')
              (mkDatastructures (<[id := W']> (ways_by_id_ s))
                 ((ways_by_coord_ s ++ [(Way.end1 W', W')])
                    ++ [(Way.end2 W', W')])
                 (visited_coordinates_ s) (chosen_route_ s)
                 (cyclic_route_ s) (route_found_ s))) as [-> _].
  simpl. by rewrite lookup_insert_ne.
Qed.

Lemma run_keeps_way s c s' id W :
  run s c = Some s' → ¬ removes id c →
  ways_by_id_ s !! id = Some W → ways_by_id_ s' !! id = Some W.
Proof.
  intros Hrun Hrm HW. destruct c as [id' coords|id'| |a b|a]; simpl in Hrun.
  - destruct (add_way s id' coords) as [[[] s1]|] eqn:Hadd; simplify_eq/=.
    + eapply add_way_other; [done| |done].
      intros ->. apply add_way_true in Hadd as [Hnone _]. congruence.
    + by apply add_way_false in Hadd as [_ ->].
  - simplify_eq. destruct (remove_way s id') as [[] s1] eqn:Hr; simpl.
    + apply remove_way_true in Hr as (W' & HW' & ->). simpl.
      destruct (erase_end_index (Way.end2 W') id'
                  (erase_end (Way.end1 W') id' s)) as [-> _].
      destruct (erase_end_index (Way.end1 W') id' s) as [-> _].
      rewrite lookup_delete_ne; [done|]. intros ->. apply Hrm. by left.
    + by apply remove_way_false in Hr as [_ ->].
  - destruct Hrm. by right.
  - destruct (route_any s a b) as [[r s1]| |] eqn:Hr; simplify_eq/=.
    by rewrite (frame_by_id _ _ (route_any_frame _ _ _ _ _ Hr)).
  - destruct (route_with_cycle s a) as [[r s1]| |] eqn:Hr; simplify_eq/=.
    by rewrite (frame_by_id _ _ (route_with_cycle_frame _ _ _ _ Hr)).
Qed.

Lemma run_all_keeps_way cs : ∀ s s' id W,
  run_all s cs = Some s' → Forall (λ c, ¬ removes id c) cs →
  ways_by_id_ s !! id = Some W → ways_by_id_ s' !! id = Some W.
Proof.
  induction cs as [|c cs IH]; intros s s' id W; simpl.
  - intros ?. by simplify_eq.
  - destruct (run s c) as [s1|] eqn:Hrun; [|done]. simpl.
    intros Hall [Hc Hcs]%Forall_cons HW.
    eapply IH; [done | done |]. by eapply run_keeps_way.
Qed.

(** What holds of the stored length: a way created by [add_way] is stored
    with its coordinates and with the sum of its section lengths, taken
    section by section, and the stored way stays the same through every later
    sequence of calls that does not remove it. *)
Lemma way_length_sections s id coords s' :
  add_way s id coords = Some (true, s') →
  ∃ W, ways_by_id_ s' !! id = Some W
       ∧ Way.coordinates W = coords
       ∧ Way.length W = sections_length coords
       ∧ ∀ cs s'', Forall (λ c, ¬ removes id c) cs →
                   run_all s' cs = Some s'' →
                   ways_by_id_ s'' !! id = Some W.
Proof.
  intros Hadd.
  pose proof Hadd as (_ & W & HW & _ & Hcoords & Hlen & _)%add_way_true.
  pose proof (add_way_stored _ _ _ _ _ Hadd HW) as Hs'.
  exists W. split; [done|]. split; [done|]. split.
  - by rewrite Hlen, length_loop_sections.
  - intros cs s'' Hcs Hrun. by eapply run_all_keeps_way.
Qed.

(** The sum of the two squares of the section (0,0)-(67117698,11586) is
    67117699^2 - 1, below 2^53 and so exact in [double]; its square root lies
    closer to 67117699 than to the [double] just below it, and [std::sqrt]
    returns 67117699. *)
Lemma double_sqrt_rounds_up :
  double_add (double_pow2 (double_of_int 67117698))
             (double_pow2 (double_of_int 11586))
  = double_of_int (67117699 * 67117699 - 1)
  ∧ double_sqrt (double_of_int (67117699 * 67117699 - 1))
    = double_of_int 67117699
  ∧ int_of_floor (double_of_int 67117699) = 67117699.
Proof. vm_compute. done. Qed.

(** C8 fails on the code: the way created from (0,0)-(67117698,11586) is
    stored with length 67117699, but the floor of the Euclidean distance
    between the two coordinates is 67117698.  The squares and their sum,
    67117699^2 - 1, are exact in [double]; the square root is rounded up to
    67117699 before the floor is taken. *)
Lemma way_length_not_floor_sum :
  add_way (Datastructures_new false) "F" [c00; c_far] = Some (true, far_way)
  ∧ (Way.length <$> get_way far_way "F") = Some 67117699
  ∧ polyline_length [c00; c_far] = 67117698.
Proof.
  split; [vm_compute; reflexivity|]. split; [vm_compute; reflexivity|].
  cbn [polyline_length]. rewrite floor_euclidean_sqrt.
  vm_compute. reflexivity.
Qed.

(** ** C9: termination and recursion depth *)

(** C9, as stated, fails for the cycle search: with a single way from (0,0)
    to itself there is one coordinate, but [search_cycle] needs two nested
    activations; with a call stack of depth one it does not finish. *)
Lemma search_cycle_depth_exceeds_coordinates :
  reachable origin_loop
  ∧ size (visited_coordinates_ origin_loop) = 1%nat
  ∧ search_cycle 1 c00 NO_COORD (clean_for_search CYCLE origin_loop)
    = OutOfFuel
  ∧ ∃ s', search_cycle 2 c00 NO_COORD (clean_for_search CYCLE origin_loop)
          = Returns s'.
Proof.
  split; [apply origin_loop_reachable|]. split; [by vm_compute|].
  split; [by vm_compute|]. eexists. vm_compute. reflexivity.
Qed.

(** C9, amended: in every reachable state, with [n] the number of distinct
    coordinates in the graph, the traversal behind [route_any] started at a
    coordinate with an incident way returns within [n] nested activations,
    and the traversal behind [route_with_cycle] within [n + 1]; a deeper
    call stack does not change what they return. *)
Theorem search_depth_bound s a b :
  reachable s →
  List.length (ways_from s a) ≠ 0%nat →
  (∃ s', ∀ fuel, (size (visited_coordinates_ s) ≤ fuel)%nat →
         search_any fuel a b 0 (clean_for_search NORMAL s) = Returns s')
  ∧ (∃ s', ∀ fuel, (S (size (visited_coordinates_ s)) ≤ fuel)%nat →
           search_cycle fuel a NO_COORD (clean_for_search CYCLE s)
           = Returns s').
Proof.
  intros Hwf%reachable_wf Ha.
  pose proof (wf_incident_crossroad s Hwf a Ha) as Hin. split.
  - destruct (search_any_from_clean s a b (size (visited_coordinates_ s))
                Hwf Hin) as (s' & Hs' & _); [done|].
    exists s'. intros fuel Hfuel.
    by eapply search_any_fuel_mono.
  - destruct (search_cycle_from_clean s a (S (size (visited_coordinates_ s)))
                Hwf Hin) as (s' & Hs' & _); [lia|].
    exists s'. intros fuel Hfuel.
    by eapply search_cycle_fuel_mono.
Qed.

Lemma search_depth_bound_witness :
  (∃ s', ∀ fuel, (size (visited_coordinates_ two_ways) ≤ fuel)%nat →
         search_any fuel c00 c43 0 (clean_for_search NORMAL two_ways)
         = Returns s')
  ∧ (∃ s', ∀ fuel, (S (size (visited_coordinates_ two_ways)) ≤ fuel)%nat →
           search_cycle fuel c00 NO_COORD (clean_for_search CYCLE two_ways)
           = Returns s').
Proof.
  apply (search_depth_bound two_ways c00 c43).
  - exists false, [Add_way "W1" [c00; c03]; Add_way "W2" [c03; c43]].
    vm_compute. reflexivity.
  - vm_compute. discriminate.
Defined.

(** ** C10: the lookups of the searches succeed *)

Lemma wf_index_ok s : wf s → index_ok s.
Proof. intros Hwf c W. by apply wf_entry. Qed.

Lemma wf_crossroad_inv s : wf s → crossroad_inv s.
Proof.
  intros Hwf id W (_ & H1 & H2)%(wf_stored s Hwf).
  split; apply (wf_crossroad s Hwf); eauto.
Qed.

Lemma index_ok_frame s s' : frame s s' → index_ok s → index_ok s'.
Proof.
  intros [F1 F2 _ _] H c W. rewrite F1, F2. apply H.
Qed.

Lemma crossroad_inv_frame s s' : frame s s' → crossroad_inv s → crossroad_inv s'.
Proof.
  intros Hfr H id W. rewrite (frame_by_id _ _ Hfr). intros [H1 H2]%H.
  split; by eapply frame_lookup.
Qed.

Section lookups.
Context (s : Datastructures) (Hidx : index_ok s) (Hcr : crossroad_inv s).

Lemma safe_way c w n : (w, n) ∈ ways_from s c → is_Some (ways_by_id_ s !! w).
Proof.
  intros (W & [HW _]%Hidx & -> & _)%elem_of_ways_from. eauto.
Qed.

Lemma safe_source c w n :
  (w, n) ∈ ways_from s c → is_Some (visited_coordinates_ s !! c).
Proof.
  intros (W & [HW Hc]%Hidx & _ & _)%elem_of_ways_from.
  destruct (Hcr _ _ HW) as [H1 H2]. by destruct Hc as [-> | ->].
Qed.

Lemma safe_target c w n :
  (w, n) ∈ ways_from s c → is_Some (visited_coordinates_ s !! n).
Proof.
  intros (W & [HW Hc]%Hidx & _ & ->)%elem_of_ways_from.
  destruct (Hcr _ _ HW) as [H1 H2]. unfold other_end. by case_decide.
Qed.

Lemma safe_incident c :
  List.length (ways_from s c) ≠ 0%nat →
  is_Some (visited_coordinates_ s !! c).
Proof.
  destruct (ways_from s c) as [|[w n] l] eqn:Heq; [done|]. intros _.
  apply (safe_source c w n). rewrite Heq. by left.
Qed.
End lookups.

Lemma search_any_loop_total (k : nat) rec current :
  (∀ c len t,
     index_ok t → crossroad_inv t → c ∈ unvisited t →
     (size (unvisited t) ≤ k)%nat →
     ∃ t1, rec c len t = Returns t1 ∧ frame t t1
           ∧ unvisited t1 ⊆ unvisited t) →
  ∀ ws t,
    index_ok t → crossroad_inv t →
    (∀ it, it ∈ ws → it ∈ ways_from t current) →
    is_Some (visited_coordinates_ t !! current) →
    (size (unvisited t) ≤ k)%nat →
    ∃ t', search_any_loop rec current ws t = Returns t' ∧ frame t t'
          ∧ unvisited t' ⊆ unvisited t.
Proof.
  intros Hrec. induction ws as [|[w n] ws IH];
    intros t Hidx Hcr Hws Hcur Hsize; simpl.
  { exists t. split; [done|]. split; [apply frame_refl | done]. }
  assert (Hin : (w, n) ∈ ways_from t current) by (apply Hws; by left).
  destruct (safe_target t Hidx Hcr _ _ _ Hin) as [cdn Hcdn].
  destruct (safe_way t Hidx _ _ _ Hin) as [W HW].
  rewrite (crossroad_at_lookup _ _ _ Hcdn). simpl.
  destruct (Crossroad_data.visited cdn) eqn:Hvn.
  { apply IH; try done. intros it Hit. apply Hws. by right. }
  unfold way_at. rewrite HW. simpl.
  destruct (Hrec n (Way.length W) t Hidx Hcr) as (t1 & Hret & Hfr & Hsub);
    [apply elem_of_unvisited; eauto | done |].
  rewrite Hret. simpl.
  destruct (frame_lookup _ _ _ Hfr Hcur) as [cdc Hcdc].
  destruct (route_found_ t1).
  - rewrite (crossroad_at_lookup _ _ _ Hcdc). simpl.
    eexists. split; [done|]. split; [|done].
    eapply frame_trans; [done | apply frame_with_chosen_route].
  - destruct (IH t1) as (t' & Hloop & Hfr' & Hsub').
    + by eapply index_ok_frame.
    + by eapply crossroad_inv_frame.
    + intros it Hit. rewrite (frame_ways_from _ _ _ Hfr). apply Hws. by right.
    + by exists cdc.
    + etrans; [|exact Hsize]. by apply subseteq_size.
    + exists t'. split; [done|]. split; [by eapply frame_trans | by etrans].
Qed.

Lemma search_any_total fuel : ∀ current goal d s,
  index_ok s → crossroad_inv s → current ∈ unvisited s →
  (size (unvisited s) ≤ fuel)%nat →
  ∃ s', search_any fuel current goal d s = Returns s' ∧ frame s s'
        ∧ unvisited s' ⊆ unvisited s.
Proof.
  induction fuel as [|fuel IH]; intros current goal d s Hidx Hcr Hcur Hsize.
  { assert (size (unvisited s) ≠ 0%nat); [|lia].
    intros Hz%size_empty_inv. apply Hz in Hcur.
    by apply not_elem_of_empty in Hcur. }
  pose proof Hcur as (cd & Hcd & Hv)%elem_of_unvisited.
  rewrite (search_any_unfold _ _ _ _ _ _ Hcd). cbv zeta.
  set (cd2 := Crossroad_data.mk (Crossroad_data.coordinates cd) true d).
  set (s2 := with_visited_coordinates _ s).
  assert (Hfr2 : frame s s2) by (by eapply frame_update).
  assert (Hunv2 : unvisited s2 = unvisited s ∖ {[current]})
    by (by apply unvisited_mark).
  assert (Hsub2 : unvisited s2 ⊆ unvisited s).
  { rewrite Hunv2. by apply subseteq_difference_l. }
  case_decide.
  - eexists. split; [done|]. split; [|exact Hsub2].
    eapply frame_trans; [exact Hfr2|]. by apply frame_same.
  - destruct (search_any_loop_total fuel
                (λ c len, search_any fuel c goal (int_add d len)) current)
      with (ws := ways_from s current) (t := s2)
      as (s' & Hloop & Hfr' & Hsub').
    + intros c len t ????. by apply IH.
    + by eapply index_ok_frame.
    + by eapply crossroad_inv_frame.
    + intros it Hit. by rewrite (frame_ways_from _ _ _ Hfr2).
    + eapply frame_lookup; eauto.
    + pose proof (unvisited_size_mark s current cd2 eq_refl Hcur) as Hsz.
      fold s2 in Hsz. lia.
    + exists s'. split; [done|]. split; [by eapply frame_trans | by etrans].
Qed.

Lemma search_cycle_loop_total (k : nat) rec current previous :
  (∀ c t,
     index_ok t → crossroad_inv t →
     is_Some (visited_coordinates_ t !! c) →
     (size (unvisited t) < k)%nat →
     ∃ t1, rec c t = Returns t1 ∧ frame t t1
           ∧ unvisited t1 ⊆ unvisited t) →
  ∀ ws t,
    index_ok t → crossroad_inv t →
    (∀ it, it ∈ ws → it ∈ ways_from t current) →
    (size (unvisited t) < k)%nat →
    ∃ t', search_cycle_loop rec current previous ws t = Returns t'
          ∧ frame t t' ∧ unvisited t' ⊆ unvisited t.
Proof.
  intros Hrec. induction ws as [|[w n] ws IH];
    intros t Hidx Hcr Hws Hsize; simpl.
  { exists t. split; [done|]. split; [apply frame_refl | done]. }
  assert (Hin : (w, n) ∈ ways_from t current) by (apply Hws; by left).
  assert (Hrest : ∀ it, it ∈ ws → it ∈ ways_from t current).
  { intros it Hit. apply Hws. by right. }
  case_decide; [by apply IH|].
  destruct (Hrec n t Hidx Hcr (safe_target t Hidx Hcr _ _ _ Hin) Hsize)
    as (t1 & Hret & Hfr & Hsub).
  rewrite Hret. simpl. destruct (route_found_ t1).
  - eexists. split; [done|]. split; [|done].
    eapply frame_trans; [done | apply frame_with_cyclic_route].
  - destruct (IH t1) as (t' & Hloop & Hfr' & Hsub').
    + by eapply index_ok_frame.
    + by eapply crossroad_inv_frame.
    + intros it Hit. rewrite (frame_ways_from _ _ _ Hfr). by apply Hrest.
    + eapply Nat.le_lt_trans; [|exact Hsize]. by apply subseteq_size.
    + exists t'. split; [done|]. split; [by eapply frame_trans | by etrans].
Qed.

Lemma search_cycle_total fuel : ∀ current previous s,
  index_ok s → crossroad_inv s →
  is_Some (visited_coordinates_ s !! current) →
  (size (unvisited s) < fuel)%nat →
  ∃ s', search_cycle fuel current previous s = Returns s' ∧ frame s s'
        ∧ unvisited s' ⊆ unvisited s.
Proof.
  induction fuel as [|fuel IH]; intros current previous s Hidx Hcr [cd Hcd]
    Hsize; [lia|].
  destruct (Crossroad_data.visited cd) eqn:Hv.
  { rewrite (search_cycle_marked _ _ _ _ _ Hcd Hv). eexists.
    split; [done|]. split; [by apply frame_same | done]. }
  assert (Hcur : current ∈ unvisited s) by (apply elem_of_unvisited; eauto).
  simpl. rewrite (crossroad_at_lookup _ _ _ Hcd). simpl. rewrite Hv.
  rewrite (set_visited_lookup _ _ _ _ Hcd). simpl.
  set (cd1 := Crossroad_data.mk _ true _).
  set (s1 := with_visited_coordinates _ s).
  assert (Hfr1 : frame s s1) by (by eapply frame_update).
  assert (Hunv1 : unvisited s1 = unvisited s ∖ {[current]})
    by (by apply unvisited_mark).
  assert (Hsz : S (size (unvisited s1)) = size (unvisited s))
    by (by apply unvisited_size_mark).
  destruct (search_cycle_loop_total fuel (λ c, search_cycle fuel c current)
              current previous)
    with (ws := ways_from s1 current) (t := s1)
    as (s' & Hloop & Hfr' & Hsub').
  - intros c t ????. by apply IH.
  - by eapply index_ok_frame.
  - by eapply crossroad_inv_frame.
  - done.
  - lia.
  - exists s'. split; [done|]. split; [by eapply frame_trans|].
    etrans; [exact Hsub'|]. rewrite Hunv1. by apply subseteq_difference_l.
Qed.

(** C10: in every state in which the crossroad-state invariant holds (every
    end of every stored way has a crossroad entry), the view by coordinate
    holding only stored ways, [route_any] and [route_with_cycle] return: no
    [at] lookup of [search_any] or [search_cycle] throws, and neither search
    runs out of call stack. *)
Theorem queries_total s a b :
  index_ok s → crossroad_inv s →
  (∃ r s', route_any s a b = Returns (r, s'))
  ∧ (∃ r s', route_with_cycle s a = Returns (r, s')).
Proof.
  intros Hidx Hcr. split.
  - unfold route_any. case_decide as Hz; [eauto|].
    pose proof (clean_for_search_frame NORMAL s) as Hfr.
    destruct (search_any_total
                (route_any_depth (clean_for_search NORMAL s)) a b 0
                (clean_for_search NORMAL s)) as (s2 & Hs2 & _).
    + by eapply index_ok_frame.
    + by eapply crossroad_inv_frame.
    + apply clean_for_search_unvisited, (safe_incident s Hidx Hcr). tauto.
    + apply unvisited_le_size.
    + rewrite Hs2. simpl. eauto.
  - unfold route_with_cycle. case_decide as Hz; [eauto|].
    pose proof (clean_for_search_frame CYCLE s) as Hfr.
    destruct (search_cycle_total
                (route_with_cycle_depth (clean_for_search CYCLE s)) a NO_COORD
                (clean_for_search CYCLE s)) as (s2 & Hs2 & _).
    + by eapply index_ok_frame.
    + by eapply crossroad_inv_frame.
    + eapply frame_lookup; [done|]. by apply (safe_incident s Hidx Hcr).
    + unfold route_with_cycle_depth.
      pose proof (unvisited_le_size (clean_for_search CYCLE s)). lia.
    + rewrite Hs2. simpl. eauto.
Qed.

Lemma queries_total_witness :
  (∃ r s', route_any two_ways c00 c43 = Returns (r, s'))
  ∧ (∃ r s', route_with_cycle two_ways c00 = Returns (r, s')).
Proof.
  apply (queries_total two_ways c00 c43).
  - apply wf_index_ok, reachable_wf.
    exists false, [Add_way "W1" [c00; c03]; Add_way "W2" [c03; c43]].
    vm_compute. reflexivity.
  - apply wf_crossroad_inv, reachable_wf.
    exists false, [Add_way "W1" [c00; c03]; Add_way "W2" [c03; c43]].
    vm_compute. reflexivity.
Defined.

(** * Further properties of the ways and the route searches *)

Lemma elem_of_all_ways s id : id ∈ all_ways s ↔ is_Some (ways_by_id_ s !! id).
Proof.
  unfold all_ways. rewrite list_elem_of_fmap. split.
  - intros ([k w] & -> & Hin%elem_of_map_to_list). eauto.
  - intros [w Hw]. exists (id, w). split; [done|]. by apply elem_of_map_to_list.
Qed.

Lemma NoDup_all_ways s : NoDup (all_ways s).
Proof. apply NoDup_fst_map_to_list. Qed.

Lemma all_ways_insert s s' id W :
  ways_by_id_ s !! id = None → ways_by_id_ s' = <[id := W]> (ways_by_id_ s) →
  all_ways s' ≡ₚ id :: all_ways s.
Proof.
  intros Hnone Heq. unfold all_ways. rewrite Heq.
  rewrite map_to_list_insert by done. done.
Qed.

Lemma all_ways_delete s s' id W :
  ways_by_id_ s !! id = Some W → ways_by_id_ s' = delete id (ways_by_id_ s) →
  all_ways s ≡ₚ id :: all_ways s'.
Proof.
  intros Hsome Heq. unfold all_ways. rewrite Heq.
  rewrite <- (insert_delete_id (ways_by_id_ s) id W) at 1 by done.
  rewrite map_to_list_insert by apply lookup_delete_eq. done.
Qed.

(** ** Adding a way *)

Lemma ways_from_app s m c :
  ways_from (with_ways_by_coord m s) c
  = (λ e : Coord * Way.t,
       if decide (c = Way.end1 e.2) then (Way.id e.2, Way.end2 e.2)
       else (Way.id e.2, Way.end1 e.2)) <$> equal_range c m.
Proof. done. Qed.

Lemma add_way_ends s id coords s' a b W :
  add_way s id coords = Some (true, s') → Way_new id coords = Some W →
  front coords = Some a → back coords = Some b →
  Way.end1 W = a ∧ Way.end2 W = b.
Proof.
  intros _ HW Ha Hb. destruct coords as [|c0 l]; [done|].
  rewrite back_last in Hb. simpl in *. by simplify_eq.
Qed.

Lemma add_way_ways_from s id coords s' a b c :
  add_way s id coords = Some (true, s') →
  front coords = Some a → back coords = Some b →
  ways_from s' c
  = ways_from s c ++ (if decide (c = a) then [(id, b)] else [])
                  ++ (if decide (c = b) then [(id, a)] else []).
Proof.
  intros Hadd Ha Hb.
  pose proof Hadd as (_ & W & HW & HidW & _ & _ & ->)%add_way_true.
  destruct (add_way_ends _ _ _ _ _ _ _ Hadd HW Ha Hb) as [H1 H2].
  unfold ways_from.
  destruct (ensure_crossroad_index (Way.end2 W)
              (ensure_crossroad (Way.end1 W)
                 (mkDatastructures (<[id := W]> (ways_by_id_ s))
                    ((ways_by_coord_ s ++ [(Way.end1 W, W)])
                       ++ [(Way.end2 W, W)])
                    (visited_coordinates_ s) (chosen_route_ s)
                    (cyclic_route_ s) (route_found_ s)))) as [_ ->].
  destruct (ensure_crossroad_index (Way.end1 W)
              (mkDatastructures (<[id := W]> (ways_by_id_ s))
                 ((ways_by_coord_ s ++ [(Way.end1 W, W)])
                    ++ [(Way.end2 W, W)])
                 (visited_coordinates_ s) (chosen_route_ s)
                 (cyclic_route_ s) (route_found_ s))) as [_ ->].
  simpl. unfold equal_range. rewrite !filter_app, !fmap_app, <- app_assoc.
  f_equal. rewrite H1, H2. f_equal.
  - rewrite filter_cons, filter_nil. simpl.
    destruct (decide (a = c)) as [->|Hne].
    + rewrite !decide_True by done. simpl. rewrite H1, H2, HidW.
      by rewrite decide_True.
    + by rewrite decide_False by congruence.
  - rewrite filter_cons, filter_nil. simpl.
    destruct (decide (b = c)) as [->|Hne].
    + rewrite (decide_True (P := c = c)) by done. simpl.
      rewrite H1, H2, HidW. case_decide; congruence.
    + by rewrite decide_False by congruence.
Qed.

Lemma add_way_succeeds s id coords a b :
  ways_by_id_ s !! id = None → front coords = Some a → back coords = Some b →
  ∃ s', add_way s id coords = Some (true, s').
Proof.
  intros Hnone Ha Hb. unfold add_way, get_way. rewrite Hnone, Ha, Hb.
  destruct coords as [|c0 l]; [done|]. simpl. eauto.
Qed.

Lemma add_way_coords s id coords s' :
  add_way s id coords = Some (true, s') →
  get_way_coords s' id = coords
  ∧ ∀ id', id' ≠ id → get_way_coords s' id' = get_way_coords s id'.
Proof.
  intros Hadd.
  pose proof Hadd as (Hnone & W & HW & HidW & Hcs & _ & Hs')%add_way_true.
  unfold get_way_coords, get_way. split.
  - by rewrite (add_way_stored _ _ _ _ _ Hadd HW).
  - intros id' Hne. subst s'.
    destruct (ensure_crossroad_index (Way.end2 W)
              (ensure_crossroad (Way.end1 W)
                 (mkDatastructures (<[id := W]> (ways_by_id_ s))
                    ((ways_by_coord_ s ++ [(Way.end1 W, W)])
                       ++ [(Way.end2 W, W)])
                    (visited_coordinates_ s) (chosen_route_ s)
                    (cyclic_route_ s) (route_found_ s)))) as [-> _].
    destruct (ensure_crossroad_index (Way.end1 W)
              (mkDatastructures (<[id := W]> (ways_by_id_ s))
                 ((ways_by_coord_ s ++ [(Way.end1 W, W)])
                    ++ [(Way.end2 W, W)])
                 (visited_coordinates_ s) (chosen_route_ s)
                 (cyclic_route_ s) (route_found_ s))) as [-> _].
    simpl. by rewrite lookup_insert_ne.
Qed.

Lemma add_way_by_id s id coords s' W :
  add_way s id coords = Some (true, s') → Way_new id coords = Some W →
  ways_by_id_ s' = <[id := W]> (ways_by_id_ s).
Proof.
  intros (_ & W' & HW' & _ & _ & _ & ->)%add_way_true HW.
  rewrite HW' in HW. injection HW as ->.
  destruct (ensure_crossroad_index (Way.end2 W)
              (ensure_crossroad (Way.end1 W)
                 (mkDatastructures (<[id := W]> (ways_by_id_ s))
                    ((ways_by_coord_ s ++ [(Way.end1 W, W)])
                       ++ [(Way.end2 W, W)])
                    (visited_coordinates_ s) (chosen_route_ s)
                    (cyclic_route_ s) (route_found_ s)))) as [-> _].
  destruct (ensure_crossroad_index (Way.end1 W)
              (mkDatastructures (<[id := W]> (ways_by_id_ s))
                 ((ways_by_coord_ s ++ [(Way.end1 W, W)])
                    ++ [(Way.end2 W, W)])
                 (visited_coordinates_ s) (chosen_route_ s)
                 (cyclic_route_ s) (route_found_ s))) as [-> _].
  done.
Qed.

(** X1: [add_way] with an identifier that is not stored and a coordinate list
    with first element [a] and last element [b] returns true.  Afterwards
    [get_way_coords] returns the list for the new way, [all_ways] holds the
    new identifier besides the old ones, [ways_from] lists at every
    coordinate what it listed before, plus the new way towards [b] at [a]
    and towards [a] at [b], and every other way has the coordinates it
    had. *)
Theorem add_way_then_lookup s id coords a b :
  id ∉ all_ways s → front coords = Some a → back coords = Some b →
  ∃ s', add_way s id coords = Some (true, s')
    ∧ get_way_coords s' id = coords
    ∧ all_ways s' ≡ₚ id :: all_ways s
    ∧ (∀ c, ways_from s' c
            ≡ₚ ways_from s c ++ (if decide (c = a) then [(id, b)] else [])
                             ++ (if decide (c = b) then [(id, a)] else []))
    ∧ (∀ id', id' ≠ id → get_way_coords s' id' = get_way_coords s id').
Proof.
  intros Hnew Ha Hb.
  assert (Hnone : ways_by_id_ s !! id = None).
  { apply eq_None_not_Some. by rewrite <- elem_of_all_ways. }
  destruct (add_way_succeeds s id coords a b Hnone Ha Hb) as [s' Hadd].
  exists s'. split; [done|].
  destruct (add_way_coords _ _ _ _ Hadd) as [Hc Hother].
  pose proof Hadd as (_ & W & HW & _)%add_way_true.
  split; [done|]. split; [|split; [|done]].
  - eapply all_ways_insert; [done|]. by eapply add_way_by_id.
  - intros c. by rewrite (add_way_ways_from _ _ _ _ a b c Hadd).
Qed.

Lemma add_way_then_lookup_witness :
  ∃ s', add_way two_ways "W3" [c43; c44; c00] = Some (true, s')
    ∧ get_way_coords s' "W3" = [c43; c44; c00]
    ∧ all_ways s' ≡ₚ "W3"%string :: all_ways two_ways
    ∧ (∀ c, ways_from s' c
            ≡ₚ ways_from two_ways c
               ++ (if decide (c = c43) then [("W3"%string, c00)] else [])
               ++ (if decide (c = c00) then [("W3"%string, c43)] else []))
    ∧ (∀ id', id' ≠ "W3"%string →
              get_way_coords s' id' = get_way_coords two_ways id').
Proof.
  apply (add_way_then_lookup two_ways "W3" [c43; c44; c00] c43 c00).
  - rewrite elem_of_all_ways. vm_compute. by intros [? ?].
  - reflexivity.
  - reflexivity.
Defined.

(** ** Removing a way *)









Lemma remove_way_by_id s id s' :
  remove_way s id = (true, s') → ways_by_id_ s' = delete id (ways_by_id_ s).
Proof.
  intros (W & HW & ->)%remove_way_true. simpl.
  destruct (erase_end_index (Way.end2 W) id
              (erase_end (Way.end1 W) id s)) as [-> _].
  by destruct (erase_end_index (Way.end1 W) id s) as [-> _].
Qed.

(** X2: in every reachable state [remove_way] of a stored way returns true.
    Afterwards [get_way_coords] answers [[NO_COORD]] for it, [all_ways] has
    lost exactly this identifier, [ways_from] lists at every coordinate the
    entries it listed before except those of the removed way, and every
    other way has the coordinates it had. *)
Theorem remove_way_then_lookup s id :
  reachable s → id ∈ all_ways s →
  ∃ s', remove_way s id = (true, s')
    ∧ get_way_coords s' id = [NO_COORD]
    ∧ all_ways s ≡ₚ id :: all_ways s'
    ∧ (∀ c w n, (w, n) ∈ ways_from s' c ↔ (w, n) ∈ ways_from s c ∧ w ≠ id)
    ∧ (∀ id', id' ≠ id → get_way_coords s' id' = get_way_coords s id').
Proof.
  intros Hwf%reachable_wf [W HW]%elem_of_all_ways.
  destruct (remove_way s id) as [[] s'] eqn:Hrm;
    [|apply remove_way_false in Hrm as [? _]; congruence].
  exists s'. split; [done|].
  pose proof (wf_remove_way _ _ _ _ Hwf Hrm) as Hwf'.
  pose proof (remove_way_by_id _ _ _ Hrm) as Hid.
  unfold get_way_coords, get_way. rewrite Hid, lookup_delete_eq.
  split; [done|]. split; [by eapply all_ways_delete|]. split.
  - intros c w n. rewrite (wf_ways_from s' Hwf'), (wf_ways_from s Hwf), Hid.
    split.
    + intros (W' & [Hne HW']%lookup_delete_Some & Hends). split; [|done]. eauto.
    + intros [(W' & HW' & Hends) Hne]. exists W'. split; [|done].
      by rewrite lookup_delete_ne.
  - intros id' Hne. by rewrite lookup_delete_ne.
Qed.

Lemma remove_way_then_lookup_witness :
  ∃ s', remove_way two_ways "W1" = (true, s')
    ∧ get_way_coords s' "W1" = [NO_COORD]
    ∧ all_ways two_ways ≡ₚ "W1"%string :: all_ways s'
    ∧ (∀ c w n, (w, n) ∈ ways_from s' c
                ↔ (w, n) ∈ ways_from two_ways c ∧ w ≠ "W1"%string)
    ∧ (∀ id', id' ≠ "W1"%string →
              get_way_coords s' id' = get_way_coords two_ways id').
Proof.
  apply (remove_way_then_lookup two_ways "W1").
  - exact two_ways_reachable.
  - rewrite elem_of_all_ways. vm_compute. eauto.
Defined.



(** ** Stored ways are as their constructor built them *)

Lemma Way_new_constructed id coords W :
  Way_new id coords = Some W → constructed W.
Proof.
  unfold constructed. destruct coords as [|c0 l]; [done|]. simpl.
  by intros [= <-].
Qed.

Lemma run_constructed s c s' :
  (∀ id W, ways_by_id_ s !! id = Some W → constructed W) →
  run s c = Some s' →
  ∀ id W, ways_by_id_ s' !! id = Some W → constructed W.
Proof.
  intros HI Hrun id W. destruct c as [id' coords|id'| |a b|a]; simpl in Hrun.
  - destruct (add_way s id' coords) as [[[] s1]|] eqn:Hadd; simplify_eq/=.
    + pose proof Hadd as (_ & W' & HW' & _)%add_way_true.
      rewrite (add_way_by_id _ _ _ _ _ Hadd HW').
      intros [[_ <-]|[_ ?]]%lookup_insert_Some; [|eauto].
      by eapply Way_new_constructed.
    + apply add_way_false in Hadd as [_ ->]. apply HI.
  - simplify_eq. destruct (remove_way s id') as [[] s1] eqn:Hr; simpl.
    + rewrite (remove_way_by_id _ _ _ Hr). intros [_ ?]%lookup_delete_Some.
      eauto.
    + apply remove_way_false in Hr as [_ ->]. apply HI.
  - simplify_eq. simpl. by rewrite lookup_empty.
  - destruct (route_any s a b) as [[r s1]| |] eqn:Hr; simplify_eq/=.
    rewrite (frame_by_id _ _ (route_any_frame _ _ _ _ _ Hr)). apply HI.
  - destruct (route_with_cycle s a) as [[r s1]| |] eqn:Hr; simplify_eq/=.
    rewrite (frame_by_id _ _ (route_with_cycle_frame _ _ _ _ Hr)). apply HI.
Qed.

Lemma reachable_constructed s id W :
  reachable s → ways_by_id_ s !! id = Some W → constructed W.
Proof.
  intros (b & cs & Hrun). revert id W.
  assert (HI : ∀ id W, ways_by_id_ (Datastructures_new b) !! id = Some W →
                       constructed W) by (intros ??; simpl; by rewrite lookup_empty).
  revert Hrun HI. generalize (Datastructures_new b).
  induction cs as [|c cs IH]; intros t Hrun HI; simpl in Hrun.
  - by simplify_eq.
  - destruct (run t c) as [t1|] eqn:Hc; [|done]. simpl in Hrun.
    eapply IH; [done|]. by eapply run_constructed.
Qed.

Lemma constructed_ends W :
  constructed W →
  front (Way.coordinates W) = Some (Way.end1 W)
  ∧ back (Way.coordinates W) = Some (Way.end2 W).
Proof.
  unfold constructed. destruct (Way.coordinates W) as [|c0 l] eqn:Hcs; [done|].
  simpl. intros [= HW]. rewrite <- HW. simpl. split; [done|].
  by rewrite back_last.
Qed.

(** X4: in every reachable state, a way that [ways_from] lists at [a] as
    leading to [b] is listed at [b] as leading to [a], is one of
    [all_ways], and its coordinate list runs from [a] to [b] or from [b] to
    [a]. *)
Theorem ways_from_both_ends s a w b :
  reachable s → (w, b) ∈ ways_from s a →
  (w, a) ∈ ways_from s b
  ∧ w ∈ all_ways s
  ∧ ((front (get_way_coords s w) = Some a ∧ back (get_way_coords s w) = Some b)
     ∨ (front (get_way_coords s w) = Some b
        ∧ back (get_way_coords s w) = Some a)).
Proof.
  intros Hr Hin. pose proof (reachable_wf _ Hr) as Hwf.
  split; [by apply wf_ways_from_sym|].
  apply (wf_ways_from s Hwf) in Hin as (W & HW & Hends).
  split; [apply elem_of_all_ways; eauto|].
  unfold get_way_coords, get_way. rewrite HW.
  destruct (constructed_ends W (reachable_constructed _ _ _ Hr HW)) as [-> ->].
  destruct Hends as [[-> ->]|[-> ->]]; auto.
Qed.

Lemma ways_from_both_ends_witness :
  ("W2"%string, c03) ∈ ways_from two_ways c43
  ∧ "W2"%string ∈ all_ways two_ways
  ∧ ((front (get_way_coords two_ways "W2") = Some c03
      ∧ back (get_way_coords two_ways "W2") = Some c43)
     ∨ (front (get_way_coords two_ways "W2") = Some c43
        ∧ back (get_way_coords two_ways "W2") = Some c03)).
Proof.
  apply (ways_from_both_ends two_ways c03 "W2" c43).
  - exact two_ways_reachable.
  - vm_compute. apply list_elem_of_further, list_elem_of_here.
Defined.

(** ** The searches do not depend on what earlier queries left behind *)

Lemma search_any_loop_cyclic rec current ws r :
  (∀ c len s, rec c len (with_cyclic_route r s)
              = outcome_map (with_cyclic_route r) (rec c len s)) →
  ∀ s, search_any_loop rec current ws (with_cyclic_route r s)
       = outcome_map (with_cyclic_route r) (search_any_loop rec current ws s).
Proof.
  intros Hrec. induction ws as [|it ws IH]; intros s; simpl; [done|].
  unfold crossroad_at, way_at. simpl.
  destruct (visited_coordinates_ s !! it.2) as [cd|]; simpl; [|done].
  destruct (Crossroad_data.visited cd); [apply IH|].
  destruct (ways_by_id_ s !! it.1) as [W|]; simpl; [|done].
  rewrite Hrec. destruct (rec it.2 (Way.length W) s) as [s'| |]; simpl;
    [|done|done].
  destruct (route_found_ s'); [|apply IH].
  by destruct (visited_coordinates_ s' !! current).
Qed.

Lemma set_distance_cyclic c d r s :
  set_distance c d (with_cyclic_route r s)
  = outcome_map (with_cyclic_route r) (set_distance c d s).
Proof.
  unfold set_distance, crossroad_at. simpl.
  by destruct (visited_coordinates_ s !! c).
Qed.

Lemma set_visited_cyclic c b r s :
  set_visited c b (with_cyclic_route r s)
  = outcome_map (with_cyclic_route r) (set_visited c b s).
Proof.
  unfold set_visited, crossroad_at. simpl.
  by destruct (visited_coordinates_ s !! c).
Qed.

Lemma search_any_cyclic fuel r : ∀ current goal d s,
  search_any fuel current goal d (with_cyclic_route r s)
  = outcome_map (with_cyclic_route r) (search_any fuel current goal d s).
Proof.
  induction fuel as [|fuel IH]; intros current goal d s; [done|].
  cbn [search_any]. rewrite set_distance_cyclic.
  destruct (set_distance current d s) as [s1| |]; [|done|done].
  cbn [outcome_map mbind outcome_bind]. rewrite set_visited_cyclic.
  destruct (set_visited current true s1) as [s2| |]; [|done|done].
  cbn [outcome_map mbind outcome_bind].
  case_decide.
  - unfold crossroad_at. simpl.
    by destruct (visited_coordinates_ s2 !! current).
  - apply (search_any_loop_cyclic
             (λ c len, search_any fuel c goal (int_add d len))).
    intros c len t. apply IH.
Qed.

Lemma search_cycle_loop_chosen rec current previous ws r :
  (∀ c s, rec c (with_chosen_route r s)
          = outcome_map (with_chosen_route r) (rec c s)) →
  ∀ s, search_cycle_loop rec current previous ws (with_chosen_route r s)
       = outcome_map (with_chosen_route r)
           (search_cycle_loop rec current previous ws s).
Proof.
  intros Hrec. induction ws as [|it ws IH]; intros s; simpl; [done|].
  case_decide; [apply IH|].
  rewrite Hrec. destruct (rec it.2 s) as [s'| |]; simpl; [|done|done].
  destruct (route_found_ s'); [done | apply IH].
Qed.

Lemma set_visited_chosen c b r s :
  set_visited c b (with_chosen_route r s)
  = outcome_map (with_chosen_route r) (set_visited c b s).
Proof.
  unfold set_visited, crossroad_at. simpl.
  by destruct (visited_coordinates_ s !! c).
Qed.

Lemma search_cycle_chosen fuel r : ∀ current previous s,
  search_cycle fuel current previous (with_chosen_route r s)
  = outcome_map (with_chosen_route r) (search_cycle fuel current previous s).
Proof.
  induction fuel as [|fuel IH]; intros current previous s; [done|].
  cbn [search_cycle]. unfold crossroad_at.
  change (visited_coordinates_ (with_chosen_route r s))
    with (visited_coordinates_ s).
  destruct (visited_coordinates_ s !! current) as [cd|]; [|done].
  cbn [mbind outcome_bind].
  destruct (Crossroad_data.visited cd); [done|].
  rewrite set_visited_chosen.
  destruct (set_visited current true s) as [s1| |]; [|done|done].
  cbn [outcome_map mbind outcome_bind].
  apply (search_cycle_loop_chosen (λ c, search_cycle fuel c current)).
  intros c t. apply IH.
Qed.

Lemma frame_clean s t :
  frame s t →
  (λ cd, Crossroad_data.mk (Crossroad_data.coordinates cd) false NO_VALUE)
    <$> visited_coordinates_ t
  = (λ cd, Crossroad_data.mk (Crossroad_data.coordinates cd) false NO_VALUE)
    <$> visited_coordinates_ s.
Proof.
  intros [_ _ Hdom Hco]. apply map_eq. intros c. rewrite !lookup_fmap.
  destruct (visited_coordinates_ s !! c) as [cd|] eqn:Hs.
  - assert (is_Some (visited_coordinates_ t !! c)) as [cd' Ht].
    { apply elem_of_dom. rewrite Hdom. by apply elem_of_dom. }
    rewrite Ht. simpl. by rewrite (Hco _ _ _ Hs Ht).
  - assert (visited_coordinates_ t !! c = None) as ->; [|done].
    apply not_elem_of_dom. rewrite Hdom. by apply not_elem_of_dom.
Qed.

Lemma frame_clean_NORMAL s t :
  frame s t →
  clean_for_search NORMAL t
  = with_cyclic_route (cyclic_route_ t) (clean_for_search NORMAL s).
Proof.
  intros Hf. unfold clean_for_search. rewrite !decide_True by done.
  unfold with_chosen_route, with_visited_coordinates, with_route_found,
    with_cyclic_route. simpl.
  by rewrite (frame_clean _ _ Hf), (frame_by_id _ _ Hf), (frame_by_coord _ _ Hf).
Qed.

Lemma frame_clean_CYCLE s t :
  frame s t →
  clean_for_search CYCLE t
  = with_chosen_route (chosen_route_ t) (clean_for_search CYCLE s).
Proof.
  intros Hf. unfold clean_for_search. rewrite !decide_False by done.
  unfold with_chosen_route, with_visited_coordinates, with_route_found,
    with_cyclic_route. simpl.
  by rewrite (frame_clean _ _ Hf), (frame_by_id _ _ Hf), (frame_by_coord _ _ Hf).
Qed.

Lemma frame_route_any s t a b :
  frame s t → returned (route_any t a b) = returned (route_any s a b).
Proof.
  intros Hf. unfold route_any. rewrite !(frame_ways_from _ _ _ Hf).
  case_decide; [done|].
  rewrite (frame_clean_NORMAL _ _ Hf). unfold route_any_depth.
  change (visited_coordinates_ (with_cyclic_route (cyclic_route_ t)
            (clean_for_search NORMAL s)))
    with (visited_coordinates_ (clean_for_search NORMAL s)).
  rewrite search_any_cyclic.
  by destruct (search_any _ a b 0 (clean_for_search NORMAL s)).
Qed.

Lemma frame_route_with_cycle s t a :
  frame s t → returned (route_with_cycle t a) = returned (route_with_cycle s a).
Proof.
  intros Hf. unfold route_with_cycle. rewrite !(frame_ways_from _ _ _ Hf).
  case_decide; [done|].
  rewrite (frame_clean_CYCLE _ _ Hf). unfold route_with_cycle_depth.
  change (visited_coordinates_ (with_chosen_route (chosen_route_ t)
            (clean_for_search CYCLE s)))
    with (visited_coordinates_ (clean_for_search CYCLE s)).
  rewrite search_cycle_chosen.
  by destruct (search_cycle _ a NO_COORD (clean_for_search CYCLE s)).
Qed.

Lemma run_all_queries_frame cs : ∀ s t,
  Forall is_query cs → run_all s cs = Some t → frame s t.
Proof.
  induction cs as [|c cs IH]; intros s t Hq Hrun; simpl in Hrun.
  - simplify_eq. apply frame_refl.
  - apply Forall_cons in Hq as [Hc Hq].
    destruct (run s c) as [s1|] eqn:Hs1; [|done]. simpl in Hrun.
    eapply frame_trans; [|by eapply IH].
    destruct c as [| | |a b|a]; try done; simpl in Hs1.
    + destruct (route_any s a b) as [[r s2]| |] eqn:Hr; simplify_eq/=.
      by eapply route_any_frame.
    + destruct (route_with_cycle s a) as [[r s2]| |] eqn:Hr; simplify_eq/=.
      by eapply route_with_cycle_frame.
Qed.

(** X5: the route searches do not depend on what earlier searches left in the
    crossroad table and the route buffers: after any sequence of
    [route_any] and [route_with_cycle] calls, each of the two returns what
    it would have returned before the sequence. *)
Theorem queries_do_not_interfere s cs t a b :
  Forall is_query cs → run_all s cs = Some t →
  returned (route_any t a b) = returned (route_any s a b)
  ∧ returned (route_with_cycle t a) = returned (route_with_cycle s a).
Proof.
  intros Hq Hrun. pose proof (run_all_queries_frame _ _ _ Hq Hrun) as Hf.
  split; [by apply frame_route_any | by apply frame_route_with_cycle].
Qed.

Lemma queries_do_not_interfere_witness :
  ∃ t, run_all two_ways [Route_with_cycle c00; Route_any c43 c00] = Some t
       ∧ returned (route_any t c00 c43) = returned (route_any two_ways c00 c43)
       ∧ returned (route_with_cycle t c00)
         = returned (route_with_cycle two_ways c00).
Proof.
  eexists. split; [vm_compute; reflexivity|].
  apply (queries_do_not_interfere two_ways
           [Route_with_cycle c00; Route_any c43 c00]).
  - repeat constructor.
  - vm_compute. reflexivity.
Defined.

(** ** A route never passes a crossroad twice *)

Lemma search_any_loop_simple (n : nat) rec current goal d :
  (∀ c len t0, wf t0 → route_found_ t0 = false → c ∈ unvisited t0 →
     (size (unvisited t0) ≤ n)%nat →
     ∃ t1, rec c len t0 = Returns t1
           ∧ any_post t0 t1 c goal (int_add d len)
       ∧ (route_found_ t1 = true →
          ∃ r, chosen_route_ t1 = chosen_route_ t0 ++ r
               ∧ NoDup r.*1.*1 ∧ ∀ x, x ∈ r.*1.*1 → x ∈ unvisited t0)) →
  ∀ ws t cd t',
    wf t → route_found_ t = false →
    (∀ it, it ∈ ws → it ∈ ways_from t current) →
    visited_coordinates_ t !! current = Some cd →
    Crossroad_data.visited cd = true →
    (size (unvisited t) ≤ n)%nat →
    search_any_loop rec current ws t = Returns t' →
    route_found_ t' = true →
    ∃ r, chosen_route_ t' = chosen_route_ t ++ r
         ∧ NoDup r.*1.*1
         ∧ ∀ x, x ∈ r.*1.*1 → x = current ∨ x ∈ unvisited t.
Proof.
  intros Hrec. induction ws as [|[w n0] ws IH];
    intros t cd t' Hwf Hnf Hws Hcur Hcv Hsize; simpl.
  { intros ? ?; simplify_eq. congruence. }
  assert (Hin : (w, n0) ∈ ways_from t current) by (apply Hws; by left).
  destruct (wf_crossroad_target t Hwf _ _ _ Hin) as [cdn Hcdn].
  rewrite (crossroad_at_lookup _ _ _ Hcdn). simpl.
  destruct (Crossroad_data.visited cdn) eqn:Hvn.
  { eapply IH; eauto. intros it Hit. apply Hws. by right. }
  pose proof Hin as (W & HW & Hends)%(wf_ways_from t Hwf).
  unfold way_at. rewrite HW. simpl.
  destruct (Hrec n0 (Way.length W) t Hwf Hnf) as (t1 & Hret & Hpost & Hsimple);
    [apply elem_of_unvisited; eauto | done |].
  rewrite Hret. simpl.
  destruct Hpost as [Hfr Hold Hunv Hcur1 Hnf1 Hf1].
  pose proof (Hold _ _ Hcur Hcv) as Hcur'.
  destruct (route_found_ t1) eqn:Hfound.
  - rewrite (crossroad_at_lookup _ _ _ Hcur'). simpl.
    intros ? _; simplify_eq. simpl.
    destruct (Hsimple eq_refl) as (r & Hr & Hnd & Hsub).
    exists (r ++ [(current, w, Crossroad_data.distance cd)]).
    rewrite Hr, !fmap_app, app_assoc. simpl. split; [done|]. split.
    + apply NoDup_app. split; [done|]. split; [|apply NoDup_singleton].
      intros x Hx ->%list_elem_of_singleton. apply Hsub in Hx.
      apply elem_of_unvisited in Hx as (cd0 & ? & ?). congruence.
    + intros x [Hx| ->%list_elem_of_singleton]%elem_of_app; auto.
  - intros Hloop Hfound'.
    destruct (IH t1 cd t') as (r & Hr & Hnd & Hsub); try done.
    + by eapply wf_frame.
    + intros it Hit. rewrite (frame_ways_from _ _ _ Hfr). apply Hws.
      by right.
    + etrans; [|exact Hsize]. apply subseteq_size.
      etrans; [exact Hunv|]. by apply subseteq_difference_l.
    + exists r. rewrite Hr, (Hnf1 eq_refl). split; [done|]. split; [done|].
      intros x Hx. destruct (Hsub x Hx) as [?|Hx1]; [by left|]. right.
      apply Hunv in Hx1. by apply elem_of_difference in Hx1 as [? _].
Qed.

Lemma search_any_simple fuel : ∀ current goal d s,
  wf s → route_found_ s = false → current ∈ unvisited s →
  (size (unvisited s) ≤ fuel)%nat →
  ∃ s', search_any fuel current goal d s = Returns s'
    ∧ any_post s s' current goal d
    ∧ (route_found_ s' = true →
       ∃ r, chosen_route_ s' = chosen_route_ s ++ r
            ∧ NoDup r.*1.*1 ∧ ∀ x, x ∈ r.*1.*1 → x ∈ unvisited s).
Proof.
  induction fuel as [|fuel IH]; intros current goal d s Hwf Hnf Hcur Hsize.
  { assert (size (unvisited s) ≠ 0%nat); [|lia].
    intros Hz%size_empty_inv. apply Hz in Hcur.
    by apply not_elem_of_empty in Hcur. }
  destruct (search_any_spec (S fuel) current goal d s Hwf Hnf Hcur Hsize)
    as (s' & Hret & Hpost).
  exists s'. split; [done|]. split; [done|]. intros Hfound.
  pose proof Hcur as (cd & Hcd & Hv)%elem_of_unvisited.
  simpl in Hret. rewrite (set_distance_lookup _ _ _ _ Hcd) in Hret.
  simpl in Hret.
  set (s1 := with_visited_coordinates _ s) in Hret.
  rewrite (set_visited_lookup current true s1 _ (lookup_insert_eq _ _ _))
    in Hret.
  simpl in Hret. rewrite insert_insert_eq in Hret.
  set (cd2 := Crossroad_data.mk (Crossroad_data.coordinates cd) true d) in *.
  set (s2 := with_visited_coordinates
               (<[current := cd2]> (visited_coordinates_ s)) s).
  change (with_visited_coordinates (<[current:=cd2]> (visited_coordinates_ s))
            s1) with s2 in Hret.
  assert (Hfr2 : frame s s2) by (by eapply frame_update).
  assert (Hunv2 : unvisited s2 = unvisited s ∖ {[current]})
    by (by apply unvisited_mark).
  assert (Hcur2 : visited_coordinates_ s2 !! current = Some cd2)
    by apply lookup_insert_eq.
  destruct (decide (current = goal)) as [<-|Hne].
  - rewrite (crossroad_at_lookup _ _ _ Hcur2) in Hret. simpl in Hret.
    simplify_eq. simpl. exists [(current, NO_WAY, d)].
    split; [done|]. split; [apply NoDup_singleton|].
    by intros x ->%list_elem_of_singleton.
  - destruct (search_any_loop_simple fuel
                (λ c len, search_any fuel c goal (int_add d len))
                current goal d) with (ws := ways_from s2 current) (t := s2)
                (cd := cd2) (t' := s') as (r & Hr & Hnd & Hsub); try done.
    + intros c len t0 ????. by apply IH.
    + by eapply wf_frame.
    + pose proof (unvisited_size_mark s current cd2 eq_refl Hcur) as Hsz.
      fold s2 in Hsz. lia.
    + exists r. split; [done|]. split; [done|]. intros x Hx.
      destruct (Hsub x Hx) as [->|Hx2]; [done|].
      rewrite Hunv2 in Hx2. by apply elem_of_difference in Hx2 as [? _].
Qed.

(** X6: in every reachable state, a route that [route_any] returns passes no
    coordinate twice. *)
Theorem route_any_simple s a b r s' :
  reachable s → route_any s a b = Returns (r, s') → NoDup r.*1.*1.
Proof.
  intros Hwf%reachable_wf. unfold route_any.
  case_decide as Hways.
  { intros ?; simplify_eq. apply NoDup_singleton. }
  intros (s2 & Hs2 & Hr)%bind_Returns. simplify_eq. simpl.
  assert (Hwf1 : wf (clean_for_search NORMAL s))
    by (eapply wf_frame; [done | apply clean_for_search_frame]).
  destruct (search_any_simple (route_any_depth (clean_for_search NORMAL s))
              a b 0 (clean_for_search NORMAL s)) as (s3 & Hret & Hpost & Hsimple).
  - done.
  - apply clean_for_search_found.
  - apply clean_for_search_unvisited, wf_incident_crossroad; [done|tauto].
  - apply unvisited_le_size.
  - rewrite Hret in Hs2. simplify_eq.
    destruct (route_found_ s2) eqn:Hfound.
    + destruct (Hsimple eq_refl) as (r & Hr & Hnd & _).
      rewrite Hr, clean_for_search_chosen. simpl.
      rewrite !fmap_reverse. by rewrite reverse_Permutation.
    + rewrite (ap_not_found _ _ _ _ _ Hpost Hfound), clean_for_search_chosen.
      apply NoDup_nil_2.
Qed.

Lemma route_any_simple_witness :
  NoDup [(c00, "W1"%string, 0); (c03, "W2"%string, 3); (c43, NO_WAY, 7)].*1.*1.
Proof.
  eapply (route_any_simple two_ways c00 c43).
  - exact two_ways_reachable.
  - vm_compute. reflexivity.
Defined.

(** ** The any-route search finds a route whenever there is a path *)

Lemma any_post_marked s s' current goal d :
  any_post s s' current goal d → marked s ⊆ marked s' ∧ current ∈ marked s'.
Proof.
  intros [_ Hold _ (cd & Hcd & Hv & _) _ _]. split.
  - intros m (cd0 & H0 & Hv0)%elem_of_marked. apply elem_of_marked.
    exists cd0. split; [|done]. by apply Hold.
  - apply elem_of_marked. eauto.
Qed.

Lemma search_any_loop_closed g (n : nat) rec current goal d :
  wf g →
  (∀ c len t0, wf t0 → frame g t0 → route_found_ t0 = false →
     c ∈ unvisited t0 → (size (unvisited t0) ≤ n)%nat →
     ∃ t1, rec c len t0 = Returns t1
           ∧ any_post t0 t1 c goal (int_add d len)
           ∧ closed_post g t0 t1 goal) →
  ∀ ws t cd t',
    wf t → frame g t → route_found_ t = false →
    (∀ it, it ∈ ws → it ∈ ways_from t current) →
    visited_coordinates_ t !! current = Some cd →
    Crossroad_data.visited cd = true →
    (size (unvisited t) ≤ n)%nat →
    search_any_loop rec current ws t = Returns t' →
    route_found_ t' = false →
    marked t ⊆ marked t'
    ∧ (goal ∉ marked t' ∖ marked t)
    ∧ (∀ m w n, m ∈ marked t' ∖ marked t → step g m w n → n ∈ marked t')
    ∧ ∀ it, it ∈ ws → it.2 ∈ marked t'.
Proof.
  intros Hg Hrec. induction ws as [|[w n0] ws IH];
    intros t cd t' Hwf Hfg Hnf Hws Hcur Hcv Hsize; simpl.
  { intros ? _; simplify_eq. split; [done|]. split.
    - by intros [? ?]%elem_of_difference.
    - split; [by intros m ?? [? ?]%elem_of_difference|].
      by intros it ?%elem_of_nil. }
  assert (Hin : (w, n0) ∈ ways_from t current) by (apply Hws; by left).
  destruct (wf_crossroad_target t Hwf _ _ _ Hin) as [cdn Hcdn].
  rewrite (crossroad_at_lookup _ _ _ Hcdn). simpl.
  destruct (Crossroad_data.visited cdn) eqn:Hvn.
  { intros Hloop Hnf'.
    destruct (IH t cd t') as (Hsub & Hgoal & Hclosed & Hdone); try done.
    { intros it Hit. apply Hws. by right. }
    split; [done|]. split; [done|]. split; [done|].
    intros it [->|Hit]%elem_of_cons; [|by apply Hdone].
    apply Hsub, elem_of_marked. eauto. }
  pose proof Hin as (W & HW & Hends)%(wf_ways_from t Hwf).
  unfold way_at. rewrite HW. simpl.
  destruct (Hrec n0 (Way.length W) t Hwf Hfg Hnf) as (t1 & Hret & Hpost & Hcl);
    [apply elem_of_unvisited; eauto | done |].
  rewrite Hret. simpl.
  destruct (any_post_marked _ _ _ _ _ Hpost) as [Hsub1 Hn0].
  destruct Hpost as [Hfr Hold Hunv Hcur1 Hnf1 Hf1].
  pose proof (Hold _ _ Hcur Hcv) as Hcur'.
  destruct (route_found_ t1) eqn:Hfound.
  { rewrite (crossroad_at_lookup _ _ _ Hcur'). simpl.
    intros ? Hx; simplify_eq. simpl in Hx. congruence. }
  intros Hloop Hnf'.
  destruct (Hcl Hfound) as [Hgoal1 Hclosed1].
  destruct (IH t1 cd t') as (Hsub & Hgoal & Hclosed & Hdone); try done.
  - by eapply wf_frame.
  - by eapply frame_trans.
  - intros it Hit. rewrite (frame_ways_from _ _ _ Hfr). apply Hws. by right.
  - etrans; [|exact Hsize]. apply subseteq_size.
    etrans; [exact Hunv|]. by apply subseteq_difference_l.
  - split; [by etrans|]. split; [|split].
    + intros [Hg' Hng]%elem_of_difference.
      destruct (decide (goal ∈ marked t1)) as [H1|H1].
      * apply Hgoal1. by apply elem_of_difference.
      * apply Hgoal. by apply elem_of_difference.
    + intros m w' n' [Hm Hnm]%elem_of_difference Hstep.
      destruct (decide (m ∈ marked t1)) as [H1|H1].
      * apply Hsub. apply (Hclosed1 m w' n'); [|done].
        by apply elem_of_difference.
      * apply (Hclosed m w' n'); [|done]. by apply elem_of_difference.
    + intros it [->|Hit]%elem_of_cons; [by apply Hsub | by apply Hdone].
Qed.

Lemma search_any_closed g fuel : wf g → ∀ current goal d s,
  wf s → frame g s → route_found_ s = false → current ∈ unvisited s →
  (size (unvisited s) ≤ fuel)%nat →
  ∃ s', search_any fuel current goal d s = Returns s'
        ∧ any_post s s' current goal d ∧ closed_post g s s' goal.
Proof.
  intros Hg. induction fuel as [|fuel IH];
    intros current goal d s Hwf Hfg Hnf Hcur Hsize.
  { assert (size (unvisited s) ≠ 0%nat); [|lia].
    intros Hz%size_empty_inv. apply Hz in Hcur.
    by apply not_elem_of_empty in Hcur. }
  destruct (search_any_spec (S fuel) current goal d s Hwf Hnf Hcur Hsize)
    as (s' & Hret & Hpost).
  exists s'. split; [done|]. split; [done|]. intros Hnf'.
  pose proof Hcur as (cd & Hcd & Hv)%elem_of_unvisited.
  simpl in Hret. rewrite (set_distance_lookup _ _ _ _ Hcd) in Hret.
  simpl in Hret.
  set (s1 := with_visited_coordinates _ s) in Hret.
  rewrite (set_visited_lookup current true s1 _ (lookup_insert_eq _ _ _))
    in Hret.
  simpl in Hret. rewrite insert_insert_eq in Hret.
  set (cd2 := Crossroad_data.mk (Crossroad_data.coordinates cd) true d) in *.
  set (s2 := with_visited_coordinates
               (<[current := cd2]> (visited_coordinates_ s)) s).
  change (with_visited_coordinates (<[current:=cd2]> (visited_coordinates_ s))
            s1) with s2 in Hret.
  assert (Hfr2 : frame s s2) by (by eapply frame_update).
  assert (Hunv2 : unvisited s2 = unvisited s ∖ {[current]})
    by (by apply unvisited_mark).
  assert (Hm2 : marked s2 = marked s ∪ {[current]}) by (by apply marked_mark).
  assert (Hcur2 : visited_coordinates_ s2 !! current = Some cd2)
    by apply lookup_insert_eq.
  destruct (decide (current = goal)) as [<-|Hne].
  { rewrite (crossroad_at_lookup _ _ _ Hcur2) in Hret. simpl in Hret.
    simplify_eq. }
  destruct (search_any_loop_closed g fuel
              (λ c len, search_any fuel c goal (int_add d len))
              current goal d Hg) with (ws := ways_from s2 current) (t := s2)
              (cd := cd2) (t' := s') as (Hsub & Hgoal & Hclosed & Hdone);
    try done.
  - intros c len t0 ?????. by apply IH.
  - by eapply wf_frame.
  - by eapply frame_trans.
  - pose proof (unvisited_size_mark s current cd2 eq_refl Hcur) as Hsz.
    fold s2 in Hsz. lia.
  - split.
    + intros [Hg' Hng]%elem_of_difference. apply Hgoal.
      apply elem_of_difference. split; [done|]. rewrite Hm2.
      intros [?| ->%elem_of_singleton]%elem_of_union; done.
    + intros m w n [Hm Hnm]%elem_of_difference Hstep.
      destruct (decide (m = current)) as [->|Hmc].
      * apply (Hdone (w, n)).
        rewrite (frame_ways_from g s2) by (by eapply frame_trans).
        by apply wf_step.
      * apply (Hclosed m w n); [|done]. apply elem_of_difference.
        split; [done|]. rewrite Hm2.
        intros [?| ?%elem_of_singleton]%elem_of_union; done.
Qed.

Lemma closed_walk g (M : gset Coord) q : ∀ c,
  (∀ m w n, m ∈ M → step g m w n → n ∈ M) →
  c ∈ M → walk g c q → walk_end c q ∈ M.
Proof.
  induction q as [|it q IH]; intros c Hcl Hc; simpl.
  - by rewrite walk_end_nil.
  - intros [Hstep Hq]. rewrite walk_end_cons. apply IH; [done| |done].
    by eapply Hcl.
Qed.

(** X7: in every reachable state, for two coordinates that both have an
    incident way, [route_any] returns, and the sequence it returns is
    non-empty exactly when a path of stored ways leads from the first
    coordinate to the second. *)
Theorem route_any_finds_a_route s a b :
  reachable s →
  List.length (ways_from s a) ≠ 0%nat → List.length (ways_from s b) ≠ 0%nat →
  ∃ r s', route_any s a b = Returns (r, s') ∧ (r ≠ [] ↔ connected s a b).
Proof.
  intros Hwf%reachable_wf Ha Hb.
  destruct (route_any_spec s a b Hwf Hb Ha) as (r & s' & Hret & _ & Hr).
  exists r, s'. split; [done|]. split.
  { intros Hne. destruct Hr as [->|[(w & r' & Heq) Hok]]; [done|].
    by eapply route_ok_connected. }
  intros (q & Hq & Hend) ->.
  unfold route_any in Hret. rewrite decide_False in Hret by tauto.
  pose proof (clean_for_search_frame NORMAL s) as Hfr0.
  set (g := clean_for_search NORMAL s) in *.
  assert (Hg : wf g) by (by eapply wf_frame).
  destruct (search_any_closed g (route_any_depth g) Hg a b 0 g Hg
              (frame_refl g) (clean_for_search_found NORMAL s))
    as (s2 & Hs2 & Hpost & Hcl).
  - by apply clean_for_search_unvisited, wf_incident_crossroad.
  - apply unvisited_le_size.
  - rewrite Hs2 in Hret. simpl in Hret. injection Hret as Hrev _.
    apply (f_equal reverse) in Hrev. rewrite reverse_involutive in Hrev.
    destruct (any_post_marked _ _ _ _ _ Hpost) as [_ Ha2].
    destruct (route_found_ s2) eqn:Hfound.
    + destruct (ap_found _ _ _ _ _ Hpost Hfound)
        as (r & Hr2 & [(w & r' & ->) _]).
      rewrite Hrev, reverse_cons in Hr2. symmetry in Hr2.
      apply app_eq_nil in Hr2 as [_ Hr2]. by apply app_eq_nil in Hr2 as [_ ?].
    + destruct (Hcl Hfound) as [Hgoal Hclosed].
      unfold g in Hgoal, Hclosed.
      rewrite clean_for_search_marked, difference_empty_L in Hgoal, Hclosed.
      apply Hgoal. rewrite <- Hend.
      apply (closed_walk g); [done | done |].
      by apply (walk_frame s g).
Qed.

Lemma route_any_finds_a_route_witness :
  ∃ r s', route_any two_ways c00 c43 = Returns (r, s')
          ∧ (r ≠ [] ↔ connected two_ways c00 c43).
Proof.
  apply (route_any_finds_a_route two_ways c00 c43).
  - exact two_ways_reachable.
  - vm_compute. discriminate.
  - vm_compute. discriminate.
Defined.

(** ** The route of a cycle search is a walk *)

Lemma search_cycle_loop_walk g rec current previous :
  wf g →
  (∀ c t0 t1, frame g t0 → route_found_ t0 = false →
     rec c t0 = Returns t1 → frame t0 t1 ∧ cycle_walk_post g t0 t1 c) →
  ∀ ws t t',
    frame g t → route_found_ t = false →
    (∀ it, it ∈ ws → it ∈ ways_from g current) →
    search_cycle_loop rec current previous ws t = Returns t' →
    (route_found_ t' = false → cyclic_route_ t' = cyclic_route_ t)
    ∧ (route_found_ t' = true →
       ∃ w r, cyclic_route_ t' = cyclic_route_ t ++ reverse ((current, w) :: r)
              ∧ cycle_route_ok g ((current, w) :: r) ∧ r ≠ []).
Proof.
  intros Hg Hrec. induction ws as [|[w n0] ws IH];
    intros t t' Hfg Hnf Hws; simpl.
  { intros ?; simplify_eq. split; [done | congruence]. }
  case_decide as Hprev.
  { apply IH; try done. intros it Hit. apply Hws. by right. }
  intros (t1 & Hret & Hrest)%bind_Returns.
  destruct (Hrec _ _ _ Hfg Hnf Hret) as (Hfr & Hnf1 & Hf1).
  destruct (route_found_ t1) eqn:Hfound.
  - simplify_eq. simpl. rewrite Hfound. split; [done|]. intros _.
    destruct (Hf1 eq_refl) as (w' & r & Hr & Hok & _).
    exists w, ((n0, w') :: r). split; [|split; [|done]].
    + rewrite Hr. rewrite (reverse_cons _ (current, w)).
      by rewrite app_assoc.
    + split; [|done]. apply wf_step; [done|]. apply Hws. by left.
  - destruct (IH t1 t') as [Hnf' Hf']; try done.
    + by eapply frame_trans.
    + intros it Hit. apply Hws. by right.
    + rewrite <- (Hnf1 eq_refl). done.
Qed.

Lemma search_cycle_walk g fuel : wf g → ∀ current previous s s',
  frame g s → route_found_ s = false →
  search_cycle fuel current previous s = Returns s' →
  frame s s' ∧ cycle_walk_post g s s' current.
Proof.
  intros Hg. induction fuel as [|fuel IH];
    intros current previous s s' Hfg Hnf Hret; [done|].
  split; [by eapply search_cycle_frame|].
  simpl in Hret. apply bind_Returns in Hret as (cd & Hcd & Hret).
  apply crossroad_at_Returns in Hcd.
  destruct (Crossroad_data.visited cd) eqn:Hv.
  { simplify_eq. split; [done|]. intros _. exists NO_WAY, [].
    split; [done|]. split; [done|]. intros Hnm. destruct Hnm.
    apply elem_of_marked. eauto. }
  apply bind_Returns in Hret as (s1 & Hs1 & Hloop).
  pose proof (set_visited_frame _ _ _ _ Hs1) as Hfr1.
  apply set_visited_Returns in Hs1 as (cd' & Hcd' & ->).
  set (s1 := with_visited_coordinates _ s) in *.
  destruct (search_cycle_loop_walk g (λ c, search_cycle fuel c current)
              current previous Hg) with (ws := ways_from s1 current)
              (t := s1) (t' := s') as [Hnf' Hf']; try done.
  - intros c t0 t1 ???. by eapply IH.
  - by eapply frame_trans.
  - intros it Hit. rewrite <- (frame_ways_from g s1); [done|].
    by eapply frame_trans.
  - split; [done|]. intros Hfound.
    destruct (Hf' Hfound) as (w & r & Hr & Hok & Hne). by exists w, r.
Qed.

Lemma cycle_route_ok_steps g r :
  cycle_route_ok g r →
  (∃ r0 c, r = r0 ++ [(c, NO_WAY)])
  ∧ ∀ i ci wi ci1 wi1,
      r !! i = Some (ci, wi) → r !! S i = Some (ci1, wi1) → step g ci wi ci1.
Proof.
  induction r as [|[c w] r IH]; [done|].
  destruct r as [|[c' w'] r'].
  - intros ->. split; [by exists [], c|]. intros i ?????. by destruct i.
  - intros [Hstep Hok]. destruct (IH Hok) as [(r0 & c0 & Hr0) Hsteps].
    split.
    + exists ((c, w) :: r0), c0. by rewrite Hr0.
    + intros i ci wi ci1 wi1 Hi Hi1. destruct i as [|i].
      * simpl in *. by simplify_eq.
      * by eapply (Hsteps i).
Qed.

(** X8: in every reachable state, a non-empty result of [route_with_cycle a],
    for [a] with an incident way, has at least two entries, starts at [a],
    ends with an entry whose way is [NO_WAY], and the way of every entry
    but the last joins its coordinate to the coordinate of the next
    entry. *)
Theorem route_with_cycle_walk s a r s' :
  reachable s → List.length (ways_from s a) ≠ 0%nat →
  route_with_cycle s a = Returns (r, s') → r ≠ [] →
  (∃ w c' w' r', r = (a, w) :: (c', w') :: r')
  ∧ (∃ r0 c, r = r0 ++ [(c, NO_WAY)])
  ∧ ∀ i ci wi ci1 wi1,
      r !! i = Some (ci, wi) → r !! S i = Some (ci1, wi1) → step s ci wi ci1.
Proof.
  intros Hwf%reachable_wf Ha. unfold route_with_cycle.
  rewrite decide_False by done.
  intros (s2 & Hs2 & Hr)%bind_Returns Hne. simplify_eq.
  cbn [cyclic_route_ with_cyclic_route] in *.
  pose proof (clean_for_search_frame CYCLE s) as Hfr0.
  set (g := clean_for_search CYCLE s) in *.
  assert (Hg : wf g) by (by eapply wf_frame).
  destruct (search_cycle_walk g _ Hg a NO_COORD g s2 (frame_refl g)
              (clean_for_search_found CYCLE s) Hs2) as [_ [Hnf Hf]].
  unfold g in Hnf, Hf. rewrite clean_for_search_cyclic in Hnf, Hf.
  destruct (route_found_ s2).
  - destruct (Hf eq_refl) as (w & r & Hr & Hok & Hr').
    simpl in Hr. rewrite Hr, reverse_involutive.
    rewrite clean_for_search_marked in Hr'.
    destruct r as [|[c' w'] r']; [by destruct Hr'; [apply not_elem_of_empty|]|].
    split; [by exists w, c', w', r'|].
    destruct (cycle_route_ok_steps _ _ Hok) as [Hlast Hsteps].
    split; [done|]. intros i ci wi ci1 wi1 Hi Hi1.
    apply (step_frame s g); [done|]. by eapply Hsteps.
  - rewrite (Hnf eq_refl) in Hne. done.
Qed.

Lemma route_with_cycle_walk_witness :
  (∃ w c' w' r',
     [(c00, "L"%string); (c00, NO_WAY)] = (c00, w) :: (c', w') :: r')
  ∧ (∃ r0 c, [(c00, "L"%string); (c00, NO_WAY)] = r0 ++ [(c, NO_WAY)])
  ∧ ∀ i ci wi ci1 wi1,
      [(c00, "L"%string); (c00, NO_WAY)] !! i = Some (ci, wi) →
      [(c00, "L"%string); (c00, NO_WAY)] !! S i = Some (ci1, wi1) →
      step origin_loop ci wi ci1.
Proof.
  eapply (route_with_cycle_walk origin_loop c00).
  - exact origin_loop_reachable.
  - vm_compute. discriminate.
  - vm_compute. reflexivity.
  - discriminate.
Defined.

(** * Places and areas *)

(** ** Comparing [double] values *)

Lemma double_lt_rank a b :
  a ≠ S754_nan → b ≠ S754_nan →
  double_lt a b = true ↔ rank_lt (rank a) (rank b).
Proof.
  intros Ha Hb. unfold double_lt, SFltb, rank_lt.
  destruct a as [sa|sa| |sa ma ea], b as [sb|sb| |sb mb eb]; try done;
    try destruct sa; try destruct sb; simpl; try (split; [done | lia]);
    try (split; [lia | done]).
  - change (PosDef.Pos.compare_cont Eq ma mb) with (ma ?= mb)%positive.
    destruct (Z.compare_spec ea eb); simpl;
      [destruct (Pos.compare_spec ma mb); simpl|..];
      split; try done; try lia.
  - change (PosDef.Pos.compare_cont Eq ma mb) with (ma ?= mb)%positive.
    destruct (Z.compare_spec ea eb); simpl;
      [destruct (Pos.compare_spec ma mb); simpl|..];
      split; try done; try lia.
Qed.

Lemma double_eq_rank a b :
  a ≠ S754_nan → b ≠ S754_nan →
  double_eq a b = true ↔ rank a = rank b.
Proof.
  intros Ha Hb. unfold double_eq, SFeqb.
  destruct a as [sa|sa| |sa ma ea], b as [sb|sb| |sb mb eb]; try done;
    try destruct sa; try destruct sb; simpl; try (split; [done | congruence]);
    try done.
  - change (PosDef.Pos.compare_cont Eq ma mb) with (ma ?= mb)%positive.
    destruct (Z.compare_spec ea eb); simpl;
      [destruct (Pos.compare_spec ma mb); simpl|..];
      split; try done; try congruence; intros [= ? ?]; lia.
  - change (PosDef.Pos.compare_cont Eq ma mb) with (ma ?= mb)%positive.
    destruct (Z.compare_spec ea eb); simpl;
      [destruct (Pos.compare_spec ma mb); simpl|..];
      split; try done; try congruence; intros [= ? ?]; lia.
Qed.

(** ** No NaN among the distances *)

Lemma shr_1_nonneg r : 0 <= shr_m r → 0 <= shr_m (shr_1 r).
Proof.
  destruct r as [m r s]. simpl. destruct m as [|p|p]; simpl; [done| |lia].
  destruct p; simpl; lia.
Qed.

Lemma iter_pos_shr_1_nonneg p : ∀ r,
  0 <= shr_m r → 0 <= shr_m (SpecFloat.iter_pos shr_1 p r).
Proof.
  induction p as [p IH|p IH|]; intros r Hr; simpl.
  - apply IH, IH. by apply shr_1_nonneg.
  - by apply IH, IH.
  - by apply shr_1_nonneg.
Qed.

Lemma shr_fexp_nonneg prec emax m e l :
  0 <= m → 0 <= shr_m (shr_fexp prec emax m e l).1.
Proof.
  intros Hm. unfold shr_fexp, shr.
  assert (H0 : 0 <= shr_m (shr_record_of_loc m l)).
  { destruct l as [|[]]; simpl; lia. }
  destruct (fexp prec emax (Zdigits2 m + e) - e); simpl; try done.
  by apply iter_pos_shr_1_nonneg.
Qed.

Lemma binary_round_aux_sign prec emax sx mx ex lx :
  0 <= mx → has_sign sx (binary_round_aux prec emax sx mx ex lx).
Proof.
  intros Hm. unfold binary_round_aux.
  pose proof (shr_fexp_nonneg prec emax mx ex lx Hm) as H1.
  destruct (shr_fexp prec emax mx ex lx) as [mrs' e']. simpl in H1.
  assert (H2 : 0 <= round_nearest_even (shr_m mrs') (loc_of_shr_record mrs')).
  { unfold round_nearest_even.
    destruct (loc_of_shr_record mrs') as [|[]]; try lia.
    destruct (Z.even (shr_m mrs')); lia. }
  pose proof (shr_fexp_nonneg prec emax _ e' loc_Exact H2) as H3.
  destruct (shr_fexp prec emax _ e' loc_Exact) as [mrs'' e'']. simpl in H3.
  destruct (shr_m mrs'') as [|p|p]; simpl; [done| |lia].
  by destruct (e'' <=? emax - prec).
Qed.

Lemma binary_round_sign prec emax sx mx ex :
  has_sign sx (binary_round prec emax sx mx ex).
Proof.
  unfold binary_round. destruct (shl_align _ _ _) as [mz ez].
  by apply binary_round_aux_sign.
Qed.

Lemma double_of_int_not_nan n : double_of_int n ≠ S754_nan.
Proof.
  unfold double_of_int, binary_normalize. destruct n as [|p|p]; [done| |].
  - pose proof (binary_round_sign double_prec double_emax false p 0) as H.
    intros Heq. by rewrite Heq in H.
  - pose proof (binary_round_sign double_prec double_emax true p 0) as H.
    intros Heq. by rewrite Heq in H.
Qed.

Lemma has_sign_nonnegative f : has_sign false f → nonnegative f.
Proof. by destruct f. Qed.

Lemma double_pow2_nonnegative a : a ≠ S754_nan → nonnegative (double_pow2 a).
Proof.
  intros Ha. unfold double_pow2. destruct a as [s|s| |s m e]; simpl; try done.
  - by destruct s.
  - apply has_sign_nonnegative.
    replace (xorb s s) with false by (by destruct s).
    by apply binary_round_aux_sign.
Qed.

Lemma double_add_nonnegative a b :
  nonnegative a → nonnegative b → nonnegative (double_add a b).
Proof.
  unfold double_add.
  destruct a as [sa|sa| |sa ma ea], b as [sb|sb| |sb mb eb]; simpl; try done.
  - by destruct sa, sb.
  - by intros -> ->.
  - intros -> ->. simpl. apply has_sign_nonnegative.
    destruct (shl_align ma ea (Z.min ea eb)) as [m1 e1].
    destruct (shl_align mb eb (Z.min ea eb)) as [m2 e2]. simpl.
    apply binary_round_sign.
Qed.

Lemma double_sqrt_nonnegative a : nonnegative a → nonnegative (double_sqrt a).
Proof.
  unfold double_sqrt. destruct a as [s|s| |s m e]; simpl; try done.
  - by intros ->.
  - intros ->. unfold SFsqrt_core_binary.
    set (m' := match _ - _ with Z0 => _ | _ => _ end).
    assert (Hq : 0 <= (Z.sqrtrem m').1).
    { unfold Z.sqrtrem. destruct m' as [|p|p]; simpl; try done.
      destruct (Pos.sqrtrem p) as [q [| |]]; simpl; lia. }
    destruct (Z.sqrtrem m') as [q r]. simpl in Hq.
    apply has_sign_nonnegative. by apply binary_round_aux_sign.
Qed.

Lemma calculate_euclidean_nonnegative c : nonnegative (calculate_euclidean c).
Proof.
  apply double_sqrt_nonnegative, double_add_nonnegative;
    apply double_pow2_nonnegative, double_of_int_not_nan.
Qed.

Lemma nonnegative_not_nan f : nonnegative f → f ≠ S754_nan.
Proof. by destruct f. Qed.

(** ** The sample state *)

Lemma sample_places_reachable : reachable_places sample_places.
Proof. exists sample_calls. vm_compute. reflexivity. Qed.

(** ** Places *)

Lemma option_bind_Some {A B} (m : option A) (f : A → option B) (b : B) :
  m ≫= f = Some b ↔ ∃ a, m = Some a ∧ f a = Some b.
Proof.
  destruct m as [a|]; simpl.
  - split; [eauto|]. by intros (? & [= <-] & ?).
  - split; [done|]. by intros (? & ? & _).
Qed.

(** ** Reading the store *)

Lemma new_address_fresh {A} (store : gmap address A) :
  store !! new_address store = None.
Proof. apply not_elem_of_dom, is_fresh. Qed.

Lemma push_ids_ext {K} s s' (range : list (K * address)) : ∀ ids,
  (∀ p, Place.id <$> place_at s' p = Place.id <$> place_at s p) →
  push_ids s' range ids = push_ids s range ids.
Proof.
  induction range as [|it range IH]; intros ids Hext; simpl; [done|].
  specialize (Hext it.2) as Hit.
  destruct (place_at s' it.2) as [a'|], (place_at s it.2) as [a|];
    simplify_eq/=; [|done].
  rewrite Hit. by apply IH.
Qed.

Lemma fill_temp_map_ext {K} (lt : K → K → bool) key s s' entries : ∀ tm,
  (∀ p, key <$> place_at s' p = key <$> place_at s p) →
  fill_temp_map lt key s' entries tm = fill_temp_map lt key s entries tm.
Proof.
  induction entries as [|it entries IH]; intros tm Hext; simpl; [done|].
  specialize (Hext it.2) as Hit.
  destruct (place_at s' it.2) as [a'|], (place_at s it.2) as [a|];
    simplify_eq/=; [|done].
  rewrite Hit. by apply IH.
Qed.

Lemma sorted_by_ext {K} (lt : K → K → bool) key s s' :
  places_by_id_ s' = places_by_id_ s →
  (∀ p, key <$> place_at s' p = key <$> place_at s p) →
  (∀ p, Place.id <$> place_at s' p = Place.id <$> place_at s p) →
  sorted_by lt key s' = sorted_by lt key s.
Proof.
  intros Hid Hkey Hids. unfold sorted_by. rewrite Hid.
  rewrite (fill_temp_map_ext lt key s s') by done.
  destruct (fill_temp_map lt key s _ []) as [tm|]; simpl; [|done].
  by apply push_ids_ext.
Qed.

Lemma push_ids_Some {K} s (range : list (K * address)) : ∀ ids,
  (∀ e, e ∈ range → is_Some (place_at s e.2)) →
  push_ids s range ids = Some (ids ++ ids_of s range.*2).
Proof.
  induction range as [|it range IH]; intros ids Hall; simpl.
  - by rewrite app_nil_r.
  - destruct (Hall it) as [a Ha]; [by left|]. unfold ids_of. simpl.
    rewrite Ha. simpl. rewrite IH by (intros; apply Hall; by right).
    by rewrite <- app_assoc.
Qed.

Lemma elem_of_ids_of s l i :
  i ∈ ids_of s l ↔ ∃ p a, p ∈ l ∧ place_at s p = Some a ∧ Place.id a = i.
Proof.
  unfold ids_of. rewrite list_elem_of_omap. split.
  - intros (p & Hp & Hi). destruct (place_at s p) as [a|] eqn:Ha; simplify_eq/=.
    eauto.
  - intros (p & a & Hp & Ha & <-). exists p. by rewrite Ha.
Qed.

(** ** Taking an entry out of a multimap *)

Lemma extract_first_found {K} `{EqDecision K} s (key : K) id
    (m : list (K * address)) p a :
  place_at s p = Some a → Place.id a = id →
  (key, p) ∈ m →
  (∀ k q, (k, q) ∈ m → ∃ b, place_at s q = Some b ∧ (Place.id b = id → q = p)) →
  ∃ m1 m2, m = m1 ++ (key, p) :: m2
           ∧ extract_first s key id m = Some (Some p, m1 ++ m2).
Proof.
  intros Ha Hid. induction m as [|[k q] m IH]; intros Hin Hall.
  { by apply elem_of_nil in Hin. }
  simpl. destruct (Hall k q) as (b & Hb & Hbp); [by left|].
  assert (Hrest : (key, p) ∈ m → ∃ m1 m2, (k, q) :: m = m1 ++ (key, p) :: m2
            ∧ (extract_first s key id m
               ≫= λ r, Some (r.1, (k, q) :: r.2)) = Some (Some p, m1 ++ m2)).
  { intros Hin'. destruct IH as (m1 & m2 & -> & ->); [done| |].
    - intros k' q' Hq'. apply (Hall k'). by right.
    - by exists ((k, q) :: m1), m2. }
  case_decide as Hk.
  - rewrite Hb. simpl. case_decide as Hbid.
    + assert (q = p) by auto. subst. by exists [], m.
    + apply Hrest. apply elem_of_cons in Hin as [[= -> ->]|?]; [|done].
      congruence.
  - apply Hrest. apply elem_of_cons in Hin as [[= -> ->]|?]; done.
Qed.

(** ** The invariant is established and preserved *)

Lemma places_wf_new : places_wf Places_new.
Proof.
  split; try done.
  - intros n p. split; [by intros ?%elem_of_nil|]. by intros (a & [? ?] & _).
  - apply NoDup_nil_2.
  - intros n p. split; [by intros ?%elem_of_nil|]. by intros (a & [? ?] & _).
  - apply NoDup_nil_2.
Qed.

Lemma places_wf_clear_all s : places_wf (clear_all s).
Proof.
  split; try done.
  - intros n p. split; [by intros ?%elem_of_nil|]. by intros (a & [? ?] & _).
  - apply NoDup_nil_2.
  - intros n p. split; [by intros ?%elem_of_nil|]. by intros (a & [? ?] & _).
  - apply NoDup_nil_2.
Qed.

(** States with the same place containers and place objects. *)
Lemma places_wf_same s s' :
  places_by_id_ s' = places_by_id_ s →
  places_by_name_ s' = places_by_name_ s →
  places_by_type_ s' = places_by_type_ s →
  place_store s' = place_store s →
  (alphabetical_sorted_ s' = true →
   sorted_by String.ltb Place.name s = Some (alphabetical_vector_ids_ s')) →
  (coordinate_sorted_ s' = true →
   sorted_by Coord_lt Place.coordinates s = Some (coordinate_vector_ids_ s')) →
  places_wf s → places_wf s'.
Proof.
  intros Hid Hn Ht Hst Ha Hc [W1 W2 W3 W4 W5 W6 W7].
  assert (Hat : ∀ p, place_at s' p = place_at s p)
    by (intros p; unfold place_at; by rewrite Hst).
  assert (Hget : ∀ i, get_place s' i = get_place s i)
    by (intros i; unfold get_place; by rewrite Hid).
  assert (Hind : ∀ p a, indexed s' p a ↔ indexed s p a)
    by (intros p a; unfold indexed; by rewrite Hat, Hget).
  split.
  - intros i p. rewrite Hget, Hat. apply W1.
  - intros n p. rewrite Hn, W2. by setoid_rewrite Hind.
  - by rewrite Hn.
  - intros t p. rewrite Ht, W4. by setoid_rewrite Hind.
  - by rewrite Ht.
  - intros H1. rewrite <- (Ha H1).
    apply sorted_by_ext; [done | |]; intros p; by rewrite Hat.
  - intros H1. rewrite <- (Hc H1).
    apply sorted_by_ext; [done | |]; intros p; by rewrite Hat.
Qed.

Lemma add_place_true s id name type xy s' :
  add_place s id name type xy = (true, s') →
  get_place s id = None
  ∧ s' = mkPlaces false false
           (alphabetical_vector_ids_ s) (coordinate_vector_ids_ s)
           (<[id := new_address (place_store s)]> (places_by_id_ s))
           (places_by_name_ s ++ [(name, new_address (place_store s))])
           (places_by_type_ s ++ [(type, new_address (place_store s))])
           (areas_by_id_ s)
           (<[new_address (place_store s) := Place.mk id name type xy]>
              (place_store s))
           (area_store s).
Proof.
  unfold add_place. destruct (get_place s id); [done|].
  intros [= <-]. done.
Qed.

Lemma add_place_false s id name type xy s' :
  add_place s id name type xy = (false, s') →
  is_Some (get_place s id) ∧ s' = s.
Proof.
  unfold add_place. destruct (get_place s id); [|done].
  intros [= <-]. eauto.
Qed.

Lemma indexed_add_place s id name type xy s' :
  add_place s id name type xy = (true, s') →
  ∀ q b, indexed s' q b
         ↔ (q = new_address (place_store s) ∧ b = Place.mk id name type xy)
           ∨ indexed s q b.
Proof.
  intros [Hnone ->]%add_place_true q b.
  pose proof (new_address_fresh (place_store s)) as Hfresh.
  set (l := new_address (place_store s)) in *.
  unfold indexed, place_at, get_place in *. simpl.
  destruct (decide (q = l)) as [->|Hq].
  - rewrite lookup_insert_eq, Hfresh. split.
    + intros [[= <-] _]. by left.
    + intros [[_ ->]|[? _]]; [|done]. simpl. by rewrite lookup_insert_eq.
  - rewrite lookup_insert_ne by done. split.
    + intros [Hb Hi]. right. split; [done|].
      apply lookup_insert_Some in Hi as [[_ ?]|[_ ?]]; [congruence | done].
    + intros [[? _]|[Hb Hi]]; [done|]. split; [done|].
      rewrite lookup_insert_ne; [done|]. congruence.
Qed.

Lemma places_wf_indexed_store s p a : indexed s p a → place_store s !! p = Some a.
Proof. by intros [? _]. Qed.

Lemma places_wf_add_place s id name type xy b s' :
  places_wf s → add_place s id name type xy = (b, s') → places_wf s'.
Proof.
  intros Hwf Hadd. destruct b; [|by apply add_place_false in Hadd as [_ ->]].
  pose proof (indexed_add_place _ _ _ _ _ _ Hadd) as Hind.
  pose proof Hadd as [Hnone ->]%add_place_true.
  pose proof (new_address_fresh (place_store s)) as Hfresh.
  set (l := new_address (place_store s)) in *.
  destruct Hwf as [W1 W2 W3 W4 W5 _ _].
  assert (Hnew : ∀ {K} (m : list (K * address)),
            (∀ k q, (k, q) ∈ m → ∃ a, indexed s q a) → l ∉ m.*2).
  { intros K m Hm [[k q] [-> Hin]]%list_elem_of_fmap. simpl in *.
    destruct (Hm _ _ Hin) as (a & Ha & _). unfold place_at in Ha. congruence. }
  split; simpl; try done.
  - intros i p. unfold get_place, place_at. simpl.
    intros [[<- <-]|[Hne Hp]]%lookup_insert_Some.
    + rewrite lookup_insert_eq. eauto.
    + destruct (W1 _ _ Hp) as (a & Ha & Hi). exists a. split; [|done].
      rewrite lookup_insert_ne; [done|]. unfold place_at in Ha. congruence.
  - intros n p. rewrite elem_of_app, list_elem_of_singleton, W2. split.
    + intros [(a & Ha & Hn)|[= -> ->]].
      * exists a. split; [|done]. apply Hind. by right.
      * eexists. split; [apply Hind; by left | done].
    + intros (a & [[-> ->]|Ha]%Hind & Hn); [simpl in Hn; subst; by right|].
      left. eauto.
  - rewrite fmap_app. apply NoDup_app. split; [done|]. split.
    + intros q Hq ->%list_elem_of_singleton. revert Hq. apply Hnew.
      intros k q (a & ? & _)%W2. eauto.
    + apply NoDup_singleton.
  - intros t p. rewrite elem_of_app, list_elem_of_singleton, W4. split.
    + intros [(a & Ha & Hn)|[= -> ->]].
      * exists a. split; [|done]. apply Hind. by right.
      * eexists. split; [apply Hind; by left | done].
    + intros (a & [[-> ->]|Ha]%Hind & Hn); [simpl in Hn; subst; by right|].
      left. eauto.
  - rewrite fmap_app. apply NoDup_app. split; [done|]. split.
    + intros q Hq ->%list_elem_of_singleton. revert Hq. apply Hnew.
      intros k q (a & ? & _)%W4. eauto.
    + apply NoDup_singleton.
Qed.

(** An object is updated in place, its identifier kept. *)
Lemma indexed_update s s' p a a' :
  indexed s p a → Place.id a' = Place.id a →
  places_by_id_ s' = places_by_id_ s →
  place_store s' = <[p := a']> (place_store s) →
  ∀ q b, indexed s' q b ↔ (q = p ∧ b = a') ∨ (q ≠ p ∧ indexed s q b).
Proof.
  intros [Ha Hi] Hid Hby Hst q b. unfold indexed, place_at, get_place in *.
  rewrite Hby, Hst. destruct (decide (q = p)) as [->|Hq].
  - rewrite lookup_insert_eq. split.
    + intros [[= <-] _]. by left.
    + intros [[_ ->]|[? _]]; [|done]. by rewrite Hid.
  - rewrite lookup_insert_ne by done. split; [by right | by intros [[? _]|[_ ?]]].
Qed.

Lemma place_at_update s s' p a' q :
  place_store s' = <[p := a']> (place_store s) →
  place_at s' q = if decide (q = p) then Some a' else place_at s q.
Proof.
  intros Hst. unfold place_at. rewrite Hst. case_decide as Hq.
  - subst. apply lookup_insert_eq.
  - by apply lookup_insert_ne.
Qed.

Lemma sorted_by_update {K} (lt : K → K → bool) key s s' p a a' :
  place_at s p = Some a → Place.id a' = Place.id a → key a' = key a →
  places_by_id_ s' = places_by_id_ s →
  place_store s' = <[p := a']> (place_store s) →
  sorted_by lt key s' = sorted_by lt key s.
Proof.
  intros Ha Hid Hkey Hby Hst. apply sorted_by_ext; [done | |];
    intros q; rewrite (place_at_update s s' p a' q Hst);
    case_decide; subst; rewrite ?Ha; simpl; congruence.
Qed.

Section places_wf_facts.
Context (s : Places) (Hwf : places_wf s).

Lemma wf_get_place i p :
  get_place s i = Some p → ∃ a, indexed s p a ∧ Place.id a = i.
Proof.
  intros Hp. destruct (pw_id s Hwf _ _ Hp) as (a & Ha & <-).
  exists a. by split.
Qed.

Lemma indexed_inj p q a b :
  indexed s p a → indexed s q b → Place.id a = Place.id b → p = q.
Proof. intros [_ Hp] [_ Hq] Heq. rewrite Heq in Hp. congruence. Qed.

Lemma wf_by_name_valid i k q :
  (k, q) ∈ places_by_name_ s →
  ∃ b, place_at s q = Some b
       ∧ (Place.id b = i → ∀ p, get_place s i = Some p → q = p).
Proof.
  intros (b & [Hb Hi] & _)%(pw_name s Hwf). exists b. split; [done|].
  intros <- p Hp. congruence.
Qed.

Lemma wf_by_type_valid i k q :
  (k, q) ∈ places_by_type_ s →
  ∃ b, place_at s q = Some b
       ∧ (Place.id b = i → ∀ p, get_place s i = Some p → q = p).
Proof.
  intros (b & [Hb Hi] & _)%(pw_type s Hwf). exists b. split; [done|].
  intros <- p Hp. congruence.
Qed.
End places_wf_facts.

Lemma change_place_name_false s id newname s' :
  change_place_name s id newname = Some (false, s') →
  get_place s id = None ∧ s' = s.
Proof.
  unfold change_place_name. destruct (get_place s id) as [p|]; [|by intros [= <-]].
  intros (a & _ & (r & _ & Hr)%option_bind_Some)%option_bind_Some. done.
Qed.

Lemma change_place_name_true s id newname p :
  places_wf s → get_place s id = Some p →
  ∃ a m1 m2,
    indexed s p a ∧ Place.id a = id
    ∧ places_by_name_ s = m1 ++ (Place.name a, p) :: m2
    ∧ change_place_name s id newname
      = Some (true,
              mkPlaces (coordinate_sorted_ s) false
                (alphabetical_vector_ids_ s) (coordinate_vector_ids_ s)
                (places_by_id_ s) ((m1 ++ m2) ++ [(newname, p)])
                (places_by_type_ s) (areas_by_id_ s)
                (<[p := Place.mk (Place.id a) newname (Place.type a)
                                 (Place.coordinates a)]> (place_store s))
                (area_store s)).
Proof.
  intros Hwf Hp. destruct (wf_get_place s Hwf _ _ Hp) as (a & Hind & Hid).
  pose proof Hind as [Ha _].
  unfold change_place_name. rewrite Hp, Ha. simpl.
  set (a' := Place.mk (Place.id a) newname (Place.type a)
                      (Place.coordinates a)).
  set (s1 := mkPlaces _ _ _ _ _ _ _ _ (<[p := a']> (place_store s)) _).
  destruct (extract_first_found s1 (Place.name a) id (places_by_name_ s) p a')
    as (m1 & m2 & Hm & Hex).
  - unfold place_at. simpl. apply lookup_insert_eq.
  - done.
  - apply (pw_name s Hwf). eauto.
  - intros k q Hq. destruct (wf_by_name_valid s Hwf id _ _ Hq) as (b & Hb & Hbp).
    rewrite (place_at_update s s1 p a' q eq_refl). case_decide as Hqp.
    + subst q. eauto.
    + exists b. split; [done|]. intros Hbi. by apply Hbp.
  - exists a, m1, m2. split; [done|]. split; [done|]. split; [done|].
    change (places_by_name_ s1) with (places_by_name_ s). rewrite Hex. done.
Qed.

Lemma NoDup_snd_remove {K} (m1 m2 : list (K * address)) k p :
  NoDup (m1 ++ (k, p) :: m2).*2 →
  NoDup (m1 ++ m2).*2 ∧ p ∉ (m1 ++ m2).*2.
Proof.
  rewrite !fmap_app, fmap_cons. simpl.
  intros (H1 & H2 & [H3 H4]%NoDup_cons)%NoDup_app. split.
  - apply NoDup_app. split; [done|]. split; [|done].
    intros q Hq1 Hq2. apply (H2 q Hq1). by right.
  - intros [Hq|Hq]%elem_of_app; [|done]. apply (H2 p Hq). by left.
Qed.

Lemma elem_of_remove_middle {K} (m1 m2 : list (K * address)) k p e :
  NoDup (m1 ++ (k, p) :: m2).*2 →
  e ∈ m1 ++ m2 ↔ e ∈ m1 ++ (k, p) :: m2 ∧ e.2 ≠ p.
Proof.
  intros Hnd. destruct (NoDup_snd_remove _ _ _ _ Hnd) as [_ Hp].
  rewrite !elem_of_app, elem_of_cons. split.
  - intros He. split; [tauto|]. intros <-. apply Hp.
    apply list_elem_of_fmap. exists e. split; [done|]. by apply elem_of_app.
  - intros [[?|[->|?]] Hne]; tauto.
Qed.

Lemma places_wf_change_place_name s id newname b s' :
  places_wf s → change_place_name s id newname = Some (b, s') → places_wf s'.
Proof.
  intros Hwf Hch. destruct b;
    [|by apply change_place_name_false in Hch as [_ ->]].
  destruct (get_place s id) as [p|] eqn:Hp; [|by unfold change_place_name in Hch; rewrite Hp in Hch].
  destruct (change_place_name_true s id newname p Hwf Hp)
    as (a & m1 & m2 & Hind & Hid & Hm & Heq).
  rewrite Heq in Hch. injection Hch as <-.
  set (a' := Place.mk (Place.id a) newname (Place.type a)
                      (Place.coordinates a)).
  set (s' := mkPlaces _ _ _ _ _ _ _ _ _ _).
  pose proof (indexed_update s s' p a a' Hind eq_refl eq_refl eq_refl) as Hupd.
  pose proof Hwf as [W1 W2 W3 W4 W5 W6 W7].
  rewrite Hm in W3.
  destruct (NoDup_snd_remove _ _ _ _ W3) as [Hnd Hnp].
  split.
  - intros i q Hq. change (get_place s i = Some q) in Hq.
    destruct (W1 _ _ Hq) as (b & Hb & Hi).
    rewrite (place_at_update s s' p a' q eq_refl). case_decide; [|eauto].
    subst q. exists a'. split; [done|]. destruct Hind as [Ha _]. simpl.
    congruence.
  - intros n q. change (places_by_name_ s') with ((m1 ++ m2) ++ [(newname, p)]).
    rewrite elem_of_app, list_elem_of_singleton.
    rewrite (elem_of_remove_middle m1 m2 (Place.name a) p (n, q) W3).
    rewrite <- Hm, W2. simpl. split.
    + intros [[(b & Hb & Hn) Hqp]|[= -> ->]].
      * exists b. split; [|done]. apply Hupd. by right.
      * exists a'. split; [|done]. apply Hupd. by left.
    + intros (b & [[-> ->]|[Hqp Hb]]%Hupd & Hn);
        [simpl in Hn; subst; by right|].
      left. eauto.
  - change (places_by_name_ s') with ((m1 ++ m2) ++ [(newname, p)]).
    rewrite fmap_app. apply NoDup_app. split; [done|]. split.
    + by intros q Hq ->%list_elem_of_singleton.
    + apply NoDup_singleton.
  - intros t q. change (places_by_type_ s') with (places_by_type_ s).
    rewrite W4. split.
    + intros (b & Hb & Ht). destruct (decide (q = p)) as [->|Hqp].
      * exists a'. split; [apply Hupd; by left|].
        destruct Hind as [Ha _], Hb as [Hb _]. by simplify_eq.
      * exists b. split; [|done]. apply Hupd. by right.
    + intros (b & [[-> ->]|[Hqp Hb]]%Hupd & Ht); eauto.
  - exact W5.
  - done.
  - intros Hc. change (coordinate_vector_ids_ s') with (coordinate_vector_ids_ s).
    rewrite <- (W7 Hc). destruct Hind as [Ha _].
    by apply (sorted_by_update _ _ s s' p a a').
Qed.

Lemma change_place_coord_false s id newcoord s' :
  change_place_coord s id newcoord = Some (false, s') →
  get_place s id = None ∧ s' = s.
Proof.
  unfold change_place_coord.
  destruct (get_place s id) as [p|]; [|by intros [= <-]].
  by intros (a & _ & ?)%option_bind_Some.
Qed.

Lemma change_place_coord_true s id newcoord p :
  places_wf s → get_place s id = Some p →
  ∃ a, indexed s p a ∧ Place.id a = id
    ∧ change_place_coord s id newcoord
      = Some (true,
              mkPlaces false (alphabetical_sorted_ s)
                (alphabetical_vector_ids_ s) (coordinate_vector_ids_ s)
                (places_by_id_ s) (places_by_name_ s) (places_by_type_ s)
                (areas_by_id_ s)
                (<[p := Place.mk (Place.id a) (Place.name a) (Place.type a)
                                 newcoord]> (place_store s))
                (area_store s)).
Proof.
  intros Hwf Hp. destruct (wf_get_place s Hwf _ _ Hp) as (a & Hind & Hid).
  pose proof Hind as [Ha _].
  unfold change_place_coord. rewrite Hp, Ha. simpl. eauto.
Qed.

Lemma places_wf_change_place_coord s id newcoord b s' :
  places_wf s → change_place_coord s id newcoord = Some (b, s') → places_wf s'.
Proof.
  intros Hwf Hch. destruct b;
    [|by apply change_place_coord_false in Hch as [_ ->]].
  destruct (get_place s id) as [p|] eqn:Hp;
    [|by unfold change_place_coord in Hch; rewrite Hp in Hch].
  destruct (change_place_coord_true s id newcoord p Hwf Hp)
    as (a & Hind & Hid & Heq).
  rewrite Heq in Hch. injection Hch as <-.
  set (a' := Place.mk (Place.id a) (Place.name a) (Place.type a) newcoord).
  set (s' := mkPlaces _ _ _ _ _ _ _ _ _ _).
  pose proof (indexed_update s s' p a a' Hind eq_refl eq_refl eq_refl) as Hupd.
  pose proof Hwf as [W1 W2 W3 W4 W5 W6 W7].
  assert (Hkeep : ∀ q (P : Place.t → Prop), P a' ↔ P a →
            (∃ b, indexed s q b ∧ P b) ↔ ∃ b, indexed s' q b ∧ P b).
  { intros q P HP. split.
    - intros (b & Hb & Hn). destruct (decide (q = p)) as [->|Hqp].
      + exists a'. split; [apply Hupd; by left|].
        destruct Hind as [Ha _], Hb as [Hb _]. apply HP. by simplify_eq.
      + exists b. split; [|done]. apply Hupd. by right.
    - intros (b & [[-> ->]|[Hqp Hb]]%Hupd & Hn); [|eauto].
      exists a. split; [done|]. by apply HP. }
  split.
  - intros i q Hq. change (get_place s i = Some q) in Hq.
    destruct (W1 _ _ Hq) as (b & Hb & Hi).
    rewrite (place_at_update s s' p a' q eq_refl). case_decide; [|eauto].
    subst q. exists a'. split; [done|]. destruct Hind as [Ha _]. simpl.
    congruence.
  - intros n q. change (places_by_name_ s') with (places_by_name_ s).
    rewrite W2. by apply (Hkeep q (λ b, Place.name b = n)).
  - exact W3.
  - intros t q. change (places_by_type_ s') with (places_by_type_ s).
    rewrite W4. by apply (Hkeep q (λ b, Place.type b = t)).
  - exact W5.
  - intros Hc. change (alphabetical_vector_ids_ s')
      with (alphabetical_vector_ids_ s).
    rewrite <- (W6 Hc). destruct Hind as [Ha _].
    by apply (sorted_by_update _ _ s s' p a a').
  - done.
Qed.

Lemma remove_place_false s id s' :
  remove_place s id = Some (false, s') → get_place s id = None ∧ s' = s.
Proof.
  unfold remove_place. destruct (get_place s id) as [p|]; [|by intros [= <-]].
  intros (a & _ & (rn & _ & (rt & _ & ?)%option_bind_Some)%option_bind_Some)
    %option_bind_Some.
  done.
Qed.

Lemma remove_place_true s id p :
  places_wf s → get_place s id = Some p →
  ∃ a n1 n2 t1 t2,
    indexed s p a ∧ Place.id a = id
    ∧ places_by_name_ s = n1 ++ (Place.name a, p) :: n2
    ∧ places_by_type_ s = t1 ++ (Place.type a, p) :: t2
    ∧ remove_place s id
      = Some (true,
              mkPlaces false false
                (alphabetical_vector_ids_ s) (coordinate_vector_ids_ s)
                (delete id (places_by_id_ s)) (n1 ++ n2) (t1 ++ t2)
                (areas_by_id_ s) (place_store s) (area_store s)).
Proof.
  intros Hwf Hp. destruct (wf_get_place s Hwf _ _ Hp) as (a & Hind & Hid).
  pose proof Hind as [Ha _].
  unfold remove_place. rewrite Hp, Ha. simpl.
  destruct (extract_first_found s (Place.name a) id (places_by_name_ s) p a)
    as (n1 & n2 & Hn & ->); [done | done | | |].
  { apply (pw_name s Hwf). eauto. }
  { intros k q Hq. destruct (wf_by_name_valid s Hwf id _ _ Hq) as (b & Hb & Hbp).
    exists b. split; [done|]. intros Hbi. by apply Hbp. }
  destruct (extract_first_found s (Place.type a) id (places_by_type_ s) p a)
    as (t1 & t2 & Ht & ->); [done | done | | |].
  { apply (pw_type s Hwf). eauto. }
  { intros k q Hq. destruct (wf_by_type_valid s Hwf id _ _ Hq) as (b & Hb & Hbp).
    exists b. split; [done|]. intros Hbi. by apply Hbp. }
  simpl. by exists a, n1, n2, t1, t2.
Qed.

Lemma places_wf_remove_place s id b s' :
  places_wf s → remove_place s id = Some (b, s') → places_wf s'.
Proof.
  intros Hwf Hrm. destruct b; [|by apply remove_place_false in Hrm as [_ ->]].
  destruct (get_place s id) as [p|] eqn:Hp;
    [|by unfold remove_place in Hrm; rewrite Hp in Hrm].
  destruct (remove_place_true s id p Hwf Hp)
    as (a & n1 & n2 & t1 & t2 & Hind & Hid & Hn & Ht & Heq).
  rewrite Heq in Hrm. injection Hrm as <-.
  set (s' := mkPlaces _ _ _ _ _ _ _ _ _ _).
  pose proof Hwf as [W1 W2 W3 W4 W5 W6 W7].
  assert (Hupd : ∀ q b, indexed s' q b ↔ indexed s q b ∧ q ≠ p).
  { intros q b. unfold indexed, place_at, get_place. simpl.
    rewrite lookup_delete_Some. split.
    - intros (Hb & Hne & Hq). split; [done|]. intros ->.
      destruct Hind as [Ha _]. unfold place_at in Ha. congruence.
    - intros [[Hb Hq] Hne]. split; [done|]. split; [|done].
      intros Heq'. destruct Hind as [_ Hi]. unfold get_place in Hi.
      congruence. }
  rewrite Hn in W3. rewrite Ht in W5.
  split.
  - intros i q Hq. unfold get_place in Hq. simpl in Hq.
    apply lookup_delete_Some in Hq as [Hne Hq]. by apply W1.
  - intros n q. change (places_by_name_ s') with (n1 ++ n2).
    rewrite (elem_of_remove_middle n1 n2 (Place.name a) p (n, q) W3).
    rewrite <- Hn, W2. simpl. split.
    + intros [(b & Hb & Hnb) Hqp]. exists b. split; [|done]. by apply Hupd.
    + intros (b & [Hb Hqp]%Hupd & Hnb). eauto.
  - by destruct (NoDup_snd_remove _ _ _ _ W3).
  - intros t q. change (places_by_type_ s') with (t1 ++ t2).
    rewrite (elem_of_remove_middle t1 t2 (Place.type a) p (t, q) W5).
    rewrite <- Ht, W4. simpl. split.
    + intros [(b & Hb & Hnb) Hqp]. exists b. split; [|done]. by apply Hupd.
    + intros (b & [Hb Hqp]%Hupd & Hnb). eauto.
  - by destruct (NoDup_snd_remove _ _ _ _ W5).
  - done.
  - done.
Qed.

Lemma places_alphabetically_unfold s :
  places_alphabetically s
  = if alphabetical_sorted_ s then Some (alphabetical_vector_ids_ s, s)
    else ids ← sorted_by String.ltb Place.name s;
         Some (ids, with_alphabetical ids s).
Proof.
  unfold places_alphabetically, sorted_by.
  destruct (alphabetical_sorted_ s); [done|].
  by destruct (fill_temp_map _ _ _ _ _).
Qed.

Lemma places_coord_order_unfold s :
  places_coord_order s
  = if coordinate_sorted_ s then Some (coordinate_vector_ids_ s, s)
    else ids ← sorted_by Coord_lt Place.coordinates s;
         Some (ids, with_coordinate ids s).
Proof.
  unfold places_coord_order, sorted_by.
  destruct (coordinate_sorted_ s); [done|].
  by destruct (fill_temp_map _ _ _ _ _).
Qed.

Lemma places_wf_places_alphabetically s ids s' :
  places_wf s → places_alphabetically s = Some (ids, s') → places_wf s'.
Proof.
  intros Hwf. rewrite places_alphabetically_unfold.
  destruct (alphabetical_sorted_ s) eqn:Hflag; [by intros [= _ <-]|].
  intros (ids' & Hids & [= -> <-])%option_bind_Some.
  apply (places_wf_same s); try done.
  simpl. apply (pw_coordinate s Hwf).
Qed.

Lemma places_wf_places_coord_order s ids s' :
  places_wf s → places_coord_order s = Some (ids, s') → places_wf s'.
Proof.
  intros Hwf. rewrite places_coord_order_unfold.
  destruct (coordinate_sorted_ s) eqn:Hflag; [by intros [= _ <-]|].
  intros (ids' & Hids & [= -> <-])%option_bind_Some.
  apply (places_wf_same s); try done.
  simpl. apply (pw_alphabetical s Hwf).
Qed.

Lemma add_area_places s id name coords :
  let s' := (add_area s id name coords).2 in
  places_by_id_ s' = places_by_id_ s ∧ places_by_name_ s' = places_by_name_ s
  ∧ places_by_type_ s' = places_by_type_ s ∧ place_store s' = place_store s
  ∧ alphabetical_sorted_ s' = alphabetical_sorted_ s
  ∧ alphabetical_vector_ids_ s' = alphabetical_vector_ids_ s
  ∧ coordinate_sorted_ s' = coordinate_sorted_ s
  ∧ coordinate_vector_ids_ s' = coordinate_vector_ids_ s.
Proof. unfold add_area. by destruct (get_area s id). Qed.

Lemma add_subarea_to_area_places s id parentid b s' :
  add_subarea_to_area s id parentid = Some (b, s') →
  places_by_id_ s' = places_by_id_ s ∧ places_by_name_ s' = places_by_name_ s
  ∧ places_by_type_ s' = places_by_type_ s ∧ place_store s' = place_store s
  ∧ alphabetical_sorted_ s' = alphabetical_sorted_ s
  ∧ alphabetical_vector_ids_ s' = alphabetical_vector_ids_ s
  ∧ coordinate_sorted_ s' = coordinate_sorted_ s
  ∧ coordinate_vector_ids_ s' = coordinate_vector_ids_ s.
Proof.
  unfold add_subarea_to_area.
  destruct (get_area s id) as [p|]; [|by intros [= _ <-]].
  destruct (get_area s parentid) as [q|]; [|by intros [= _ <-]].
  intros (sub & _ & H)%option_bind_Some.
  destruct (Area.parent_area sub); [by injection H as _ <-|].
  apply option_bind_Some in H as (par & _ & [= _ <-]). done.
Qed.

Lemma run_place_wf s c s' : places_wf s → run_place s c = Some s' → places_wf s'.
Proof.
  intros Hwf. destruct c; simpl.
  - intros [= <-]. destruct (add_place s id name type xy) as [b s1] eqn:Hadd.
    by eapply places_wf_add_place.
  - destruct (remove_place s id) as [[b s1]|] eqn:H; [|done].
    intros [= <-]. by eapply places_wf_remove_place.
  - destruct (change_place_name s id newname) as [[b s1]|] eqn:H; [|done].
    intros [= <-]. by eapply places_wf_change_place_name.
  - destruct (change_place_coord s id newcoord) as [[b s1]|] eqn:H; [|done].
    intros [= <-]. by eapply places_wf_change_place_coord.
  - destruct (places_alphabetically s) as [[ids s1]|] eqn:H; [|done].
    intros [= <-]. by eapply places_wf_places_alphabetically.
  - destruct (places_coord_order s) as [[ids s1]|] eqn:H; [|done].
    intros [= <-]. by eapply places_wf_places_coord_order.
  - intros [= <-].
    destruct (add_area_places s id name coords)
      as (H1 & H2 & H3 & H4 & H5 & H6 & H7 & H8).
    apply (places_wf_same s); try done.
    + rewrite H5, H6. apply (pw_alphabetical s Hwf).
    + rewrite H7, H8. apply (pw_coordinate s Hwf).
  - destruct (add_subarea_to_area s id parentid) as [[b s1]|] eqn:H; [|done].
    intros [= <-].
    destruct (add_subarea_to_area_places _ _ _ _ _ H)
      as (H1 & H2 & H3 & H4 & H5 & H6 & H7 & H8).
    apply (places_wf_same s); try done.
    + rewrite H5, H6. apply (pw_alphabetical s Hwf).
    + rewrite H7, H8. apply (pw_coordinate s Hwf).
  - by intros [= <-].
  - intros [= <-]. apply places_wf_clear_all.
Qed.

Lemma run_places_wf cs : ∀ s s',
  places_wf s → run_places s cs = Some s' → places_wf s'.
Proof.
  induction cs as [|c cs IH]; intros s s' Hwf; simpl.
  - by intros [= <-].
  - destruct (run_place s c) as [s1|] eqn:Hrun; [|done]. simpl.
    apply IH. by eapply run_place_wf.
Qed.

Lemma reachable_places_wf s : reachable_places s → places_wf s.
Proof. intros (cs & Hrun). eapply run_places_wf; [apply places_wf_new | done]. Qed.

(** ** What the lookups return *)

Lemma place_of_Some s i a :
  place_of s i = Some a ↔ ∃ p, get_place s i = Some p ∧ place_at s p = Some a.
Proof. unfold place_of. apply option_bind_Some. Qed.

Lemma place_of_indexed s i a :
  places_wf s →
  place_of s i = Some a ↔ ∃ p, indexed s p a ∧ Place.id a = i.
Proof.
  intros Hwf. rewrite place_of_Some. split.
  - intros (p & Hp & Ha). destruct (pw_id s Hwf _ _ Hp) as (b & Hb & Hi).
    exists p. assert (b = a) by congruence. subst b. split; [|done].
    split; [done|]. by rewrite Hi.
  - intros (p & [Ha Hp] & <-). eauto.
Qed.

Lemma elem_of_all_places s i : i ∈ all_places s ↔ is_Some (get_place s i).
Proof.
  unfold all_places, get_place. rewrite list_elem_of_fmap. split.
  - intros ([k w] & -> & Hin%elem_of_map_to_list). eauto.
  - intros [w Hw]. exists (i, w). split; [done|]. by apply elem_of_map_to_list.
Qed.

Lemma NoDup_omap {A B} (f : A → option B) (l : list A) :
  NoDup l → (∀ x y b, x ∈ l → y ∈ l → f x = Some b → f y = Some b → x = y) →
  NoDup (omap f l).
Proof.
  induction 1 as [|x l Hx Hl IH]; intros Hinj; simpl; [apply NoDup_nil_2|].
  assert (IH' : NoDup (omap f l)).
  { apply IH. intros ?????. apply Hinj; by right. }
  destruct (f x) as [b|] eqn:Hfx; [|done].
  apply NoDup_cons. split; [|done].
  intros (y & Hy & Hfy)%list_elem_of_omap.
  assert (x = y); [|by subst].
  by apply (Hinj x y b); [left | right | |].
Qed.

(** The loop of [find_places_name] and [find_places_type] over an index
    that holds every indexed place once, under its key. *)
Lemma find_exact {K} `{EqDecision K} s (key : Place.t → K)
    (m : list (K * address)) k :
  places_wf s →
  (∀ n p, (n, p) ∈ m ↔ ∃ a, indexed s p a ∧ key a = n) → NoDup m.*2 →
  ∃ ids, push_ids s (entries_of k m) [] = Some ids ∧ NoDup ids
         ∧ ∀ i, i ∈ ids ↔ ∃ a, place_of s i = Some a ∧ key a = k.
Proof.
  intros Hwf Hm Hnd.
  assert (Hin : ∀ p, p ∈ (entries_of k m).*2 ↔ ∃ a, indexed s p a ∧ key a = k).
  { intros p. rewrite <- Hm, list_elem_of_fmap. unfold entries_of. split.
    - intros ([n q] & -> & [Hn Hq]%list_elem_of_filter). simpl in *. by subst.
    - intros Hp. exists (k, p). split; [done|]. by apply list_elem_of_filter. }
  exists (ids_of s (entries_of k m).*2). split; [|split].
  - rewrite push_ids_Some; [done|]. intros [n p] He. simpl.
    destruct (proj1 (Hin p)) as (a & [Ha _] & _); [|eauto].
    apply list_elem_of_fmap. by exists (n, p).
  - apply NoDup_omap.
    + unfold entries_of. apply (sublist_NoDup _ m.*2); [exact Hnd|].
      apply fmap_sublist, sublist_filter.
    + intros p q i (a & Ha & _)%Hin (b & Hb & _)%Hin Hp Hq.
      destruct Ha as [Ha Hia], Hb as [Hb Hib]. rewrite Ha in Hp.
      rewrite Hb in Hq. simpl in *. simplify_eq. congruence.
  - intros i. rewrite elem_of_ids_of. setoid_rewrite (place_of_indexed s i _ Hwf).
    split.
    + intros (p & a & (b & Hb & Hk)%Hin & Ha & Hi).
      assert (b = a) by (destruct Hb; congruence). subst b. eauto.
    + intros (a & (p & Hp & Hi) & Hk). exists p, a.
      split; [apply Hin; eauto|]. by destruct Hp.
Qed.

(** X9: in every reachable state [find_places_name] returns, each once,
    exactly the identifiers of the places whose name is the given one, also
    after places were renamed or removed. *)
Theorem find_places_name_exact s name :
  reachable_places s →
  ∃ ids, find_places_name s name = Some ids ∧ NoDup ids
         ∧ ∀ i, i ∈ ids ↔ ∃ a, place_of s i = Some a ∧ Place.name a = name.
Proof.
  intros Hwf%reachable_places_wf.
  apply (find_exact s Place.name); [done | apply (pw_name s Hwf) |].
  apply (pw_name_once s Hwf).
Qed.

Lemma find_places_name_exact_witness :
  ∃ ids, find_places_name sample_places "a" = Some ids ∧ NoDup ids
         ∧ ∀ i, i ∈ ids ↔ ∃ a, place_of sample_places i = Some a
                               ∧ Place.name a = "a"%string.
Proof. apply (find_places_name_exact sample_places "a"), sample_places_reachable. Defined.

(** X10: in every reachable state [find_places_type] returns, each once,
    exactly the identifiers of the places of the given type. *)
Theorem find_places_type_exact s type :
  reachable_places s →
  ∃ ids, find_places_type s type = Some ids ∧ NoDup ids
         ∧ ∀ i, i ∈ ids ↔ ∃ a, place_of s i = Some a ∧ Place.type a = type.
Proof.
  intros Hwf%reachable_places_wf.
  apply (find_exact s Place.type); [done | apply (pw_type s Hwf) |].
  apply (pw_type_once s Hwf).
Qed.

Lemma find_places_type_exact_witness :
  ∃ ids, find_places_type sample_places SHELTER = Some ids ∧ NoDup ids
         ∧ ∀ i, i ∈ ids ↔ ∃ a, place_of sample_places i = Some a
                               ∧ Place.type a = SHELTER.
Proof.
  apply (find_places_type_exact sample_places SHELTER), sample_places_reachable.
Defined.

Lemma all_places_insert s s' id p :
  get_place s id = None → places_by_id_ s' = <[id := p]> (places_by_id_ s) →
  all_places s' ≡ₚ id :: all_places s ∧ place_count s' = place_count s + 1.
Proof.
  intros Hnone Heq. unfold all_places, place_count. rewrite Heq. split.
  - by rewrite map_to_list_insert.
  - rewrite map_size_insert_None by done. lia.
Qed.

Lemma all_places_delete s s' id p :
  get_place s id = Some p → places_by_id_ s' = delete id (places_by_id_ s) →
  all_places s ≡ₚ id :: all_places s' ∧ place_count s = place_count s' + 1.
Proof.
  intros Hsome Heq. unfold all_places, place_count. rewrite Heq. split.
  - rewrite <- (insert_delete_id (places_by_id_ s) id p) at 1 by done.
    by rewrite map_to_list_insert by apply lookup_delete_eq.
  - rewrite map_size_delete_Some by done.
    assert (size (places_by_id_ s) ≠ 0%nat); [|lia].
    intros Hz%map_size_empty_inv. unfold get_place in Hsome.
    by rewrite Hz, lookup_empty in Hsome.
Qed.

(** X11: in every reachable state [add_place] with an identifier that is not in
    use returns true.  Afterwards the place is found with the given name,
    type and coordinate, [all_places] holds its identifier besides the old
    ones, [place_count] has grown by one, and every other place is as it
    was. *)
Theorem add_place_then_lookup s id name type xy :
  reachable_places s → id ∉ all_places s →
  ∃ s', add_place s id name type xy = (true, s')
    ∧ get_place_name_type s' id = Some (name, type)
    ∧ get_place_coord s' id = Some xy
    ∧ all_places s' ≡ₚ id :: all_places s
    ∧ place_count s' = place_count s + 1
    ∧ ∀ j, j ≠ id → place_of s' j = place_of s j.
Proof.
  intros Hwf%reachable_places_wf Hnew.
  assert (Hnone : get_place s id = None).
  { apply eq_None_not_Some. by rewrite <- elem_of_all_places. }
  destruct (add_place s id name type xy) as [b s'] eqn:Hadd.
  destruct b; [|apply add_place_false in Hadd as [[? ?] _]; congruence].
  exists s'. split; [done|].
  pose proof Hadd as [_ Hs']%add_place_true.
  pose proof (new_address_fresh (place_store s)) as Hfresh.
  set (l := new_address (place_store s)) in *.
  assert (Hg : get_place s' id = Some l).
  { rewrite Hs'. unfold get_place. simpl. apply lookup_insert_eq. }
  assert (Ha : place_at s' l = Some (Place.mk id name type xy)).
  { rewrite Hs'. unfold place_at. simpl. apply lookup_insert_eq. }
  unfold get_place_name_type, get_place_coord. rewrite Hg, Ha. simpl.
  split; [done|]. split; [done|].
  destruct (all_places_insert s s' id l Hnone) as [H1 H2]; [by rewrite Hs'|].
  split; [done|]. split; [done|].
  intros j Hj. unfold place_of, get_place, place_at. rewrite Hs'. simpl.
  rewrite lookup_insert_ne by done.
  destruct (places_by_id_ s !! j) as [q|] eqn:Hq; [|done]. simpl.
  rewrite lookup_insert_ne; [done|]. intros <-.
  destruct (pw_id s Hwf _ _ Hq) as (a & Ha' & _). unfold place_at in Ha'.
  congruence.
Qed.

Lemma add_place_then_lookup_witness :
  ∃ s', add_place sample_places 5 "e" BAY (mkCoord 7 7) = (true, s')
    ∧ get_place_name_type s' 5 = Some ("e"%string, BAY)
    ∧ get_place_coord s' 5 = Some (mkCoord 7 7)
    ∧ all_places s' ≡ₚ 5 :: all_places sample_places
    ∧ place_count s' = place_count sample_places + 1
    ∧ ∀ j, j ≠ 5 → place_of s' j = place_of sample_places j.
Proof.
  apply (add_place_then_lookup sample_places 5 "e" BAY (mkCoord 7 7)).
  - exact sample_places_reachable.
  - rewrite elem_of_all_places. vm_compute. by intros [? ?].
Defined.

(** X12: in every reachable state [change_place_name] of a stored place
    returns true.  Afterwards the place has the new name and the type and
    coordinate it had, every other place and [all_places] are as they were,
    [find_places_name] lists the place under the new name and, when the two
    names differ, no longer under the old one. *)
Theorem change_place_name_effect s id newname a :
  reachable_places s → place_of s id = Some a →
  ∃ s', change_place_name s id newname = Some (true, s')
    ∧ place_of s' id
      = Some (Place.mk id newname (Place.type a) (Place.coordinates a))
    ∧ (∀ j, j ≠ id → place_of s' j = place_of s j)
    ∧ all_places s' = all_places s
    ∧ (∃ ids, find_places_name s' newname = Some ids ∧ id ∈ ids)
    ∧ (Place.name a ≠ newname →
       ∃ ids, find_places_name s' (Place.name a) = Some ids ∧ id ∉ ids).
Proof.
  intros Hwf%reachable_places_wf (p & Hp & Ha)%place_of_Some.
  destruct (change_place_name_true s id newname p Hwf Hp)
    as (a0 & m1 & m2 & Hind & Hid & Hm & Heq).
  assert (a0 = a) by (destruct Hind; congruence). subst a0.
  eexists. split; [exact Heq|].
  pose proof (places_wf_change_place_name _ _ _ _ _ Hwf Heq) as Hwf'.
  set (s' := mkPlaces _ _ _ _ _ _ _ _ _ _) in *.
  assert (Hnew : place_of s' id
            = Some (Place.mk id newname (Place.type a) (Place.coordinates a))).
  { unfold place_of. change (get_place s' id) with (get_place s id).
    rewrite Hp. simpl. rewrite (place_at_update s s' p _ p eq_refl).
    rewrite decide_True by done. by rewrite Hid. }
  split; [done|]. split; [|split; [done|split]].
  - intros j Hj. unfold place_of. change (get_place s' j) with (get_place s j).
    destruct (get_place s j) as [q|] eqn:Hq; [|done]. simpl.
    rewrite (place_at_update s s' p _ q eq_refl).
    rewrite decide_False; [done|]. intros ->.
    destruct (pw_id s Hwf _ _ Hq) as (b & Hb & Hj').
    destruct Hind as [Ha' _]. congruence.
  - destruct (find_exact s' Place.name (places_by_name_ s') newname Hwf'
                (pw_name s' Hwf') (pw_name_once s' Hwf')) as (ids & Hf & _ & Hin).
    exists ids. split; [done|]. apply Hin. eauto.
  - intros Hne.
    destruct (find_exact s' Place.name (places_by_name_ s') (Place.name a) Hwf'
                (pw_name s' Hwf') (pw_name_once s' Hwf')) as (ids & Hf & _ & Hin).
    exists ids. split; [done|]. intros (b & Hb & Hn)%Hin.
    rewrite Hnew in Hb. injection Hb as <-. simpl in Hn. congruence.
Qed.

Lemma change_place_name_effect_witness :
  ∃ s', change_place_name sample_places 1 "a" = Some (true, s')
    ∧ place_of s' 1 = Some (Place.mk 1 "a" SHELTER (mkCoord 3 4))
    ∧ (∀ j, j ≠ 1 → place_of s' j = place_of sample_places j)
    ∧ all_places s' = all_places sample_places
    ∧ (∃ ids, find_places_name s' "a" = Some ids ∧ 1 ∈ ids)
    ∧ ("b"%string ≠ "a"%string →
       ∃ ids, find_places_name s' "b" = Some ids ∧ 1 ∉ ids).
Proof.
  apply (change_place_name_effect sample_places 1 "a"
           (Place.mk 1 "b" SHELTER (mkCoord 3 4))).
  - exact sample_places_reachable.
  - vm_compute. reflexivity.
Defined.

(** X13: in every reachable state [change_place_coord] of a stored place
    returns true.  Afterwards the place has the new coordinate and the name
    and type it had, and every other place, [all_places],
    [find_places_name] and [find_places_type] are as they were. *)
Theorem change_place_coord_effect s id newcoord a :
  reachable_places s → place_of s id = Some a →
  ∃ s', change_place_coord s id newcoord = Some (true, s')
    ∧ place_of s' id = Some (Place.mk id (Place.name a) (Place.type a) newcoord)
    ∧ get_place_coord s' id = Some newcoord
    ∧ (∀ j, j ≠ id → place_of s' j = place_of s j)
    ∧ all_places s' = all_places s
    ∧ (∀ n, find_places_name s' n = find_places_name s n)
    ∧ (∀ t, find_places_type s' t = find_places_type s t).
Proof.
  intros Hwf%reachable_places_wf (p & Hp & Ha)%place_of_Some.
  destruct (change_place_coord_true s id newcoord p Hwf Hp)
    as (a0 & Hind & Hid & Heq).
  assert (a0 = a) by (destruct Hind; congruence). subst a0.
  eexists. split; [exact Heq|].
  set (s' := mkPlaces _ _ _ _ _ _ _ _ _ _) in *.
  assert (Hat : place_at s' p
            = Some (Place.mk id (Place.name a) (Place.type a) newcoord)).
  { rewrite (place_at_update s s' p _ p eq_refl).
    rewrite decide_True by done. by rewrite Hid. }
  assert (Hids : ∀ q, Place.id <$> place_at s' q = Place.id <$> place_at s q).
  { intros q. rewrite (place_at_update s s' p _ q eq_refl).
    case_decide; [|done]. subst. by rewrite Ha. }
  split; [|split; [|split; [|split; [done|split]]]].
  - unfold place_of. change (get_place s' id) with (get_place s id).
    by rewrite Hp.
  - unfold get_place_coord. change (get_place s' id) with (get_place s id).
    by rewrite Hp, Hat.
  - intros j Hj. unfold place_of. change (get_place s' j) with (get_place s j).
    destruct (get_place s j) as [q|] eqn:Hq; [|done]. simpl.
    rewrite (place_at_update s s' p _ q eq_refl).
    rewrite decide_False; [done|]. intros ->.
    destruct (pw_id s Hwf _ _ Hq) as (b & Hb & Hj').
    destruct Hind as [Ha' _]. congruence.
  - intros n. unfold find_places_name. by apply push_ids_ext.
  - intros t. unfold find_places_type. by apply push_ids_ext.
Qed.

Lemma change_place_coord_effect_witness :
  ∃ s', change_place_coord sample_places 1 (mkCoord 0 0) = Some (true, s')
    ∧ place_of s' 1 = Some (Place.mk 1 "b" SHELTER (mkCoord 0 0))
    ∧ get_place_coord s' 1 = Some (mkCoord 0 0)
    ∧ (∀ j, j ≠ 1 → place_of s' j = place_of sample_places j)
    ∧ all_places s' = all_places sample_places
    ∧ (∀ n, find_places_name s' n = find_places_name sample_places n)
    ∧ (∀ t, find_places_type s' t = find_places_type sample_places t).
Proof.
  apply (change_place_coord_effect sample_places 1 (mkCoord 0 0)
           (Place.mk 1 "b" SHELTER (mkCoord 3 4))).
  - exact sample_places_reachable.
  - vm_compute. reflexivity.
Defined.

(** X14: in every reachable state [remove_place] of a stored place returns
    true.  Afterwards the lookups answer with the not-found values for its
    identifier, [all_places] has lost exactly this identifier,
    [place_count] is smaller by one, every other place is as it was, and no
    result of [find_places_name] or [find_places_type] holds the
    identifier. *)
Theorem remove_place_then_lookup s id :
  reachable_places s → id ∈ all_places s →
  ∃ s', remove_place s id = Some (true, s')
    ∧ get_place_name_type s' id = Some (NO_NAME, NO_TYPE)
    ∧ get_place_coord s' id = Some NO_COORD
    ∧ all_places s ≡ₚ id :: all_places s'
    ∧ place_count s = place_count s' + 1
    ∧ (∀ j, j ≠ id → place_of s' j = place_of s j)
    ∧ (∀ n ids, find_places_name s' n = Some ids → id ∉ ids)
    ∧ (∀ t ids, find_places_type s' t = Some ids → id ∉ ids).
Proof.
  intros Hwf%reachable_places_wf [p Hp]%elem_of_all_places.
  destruct (remove_place_true s id p Hwf Hp)
    as (a & n1 & n2 & t1 & t2 & Hind & Hid & Hn & Ht & Heq).
  eexists. split; [exact Heq|].
  pose proof (places_wf_remove_place _ _ _ _ Hwf Heq) as Hwf'.
  set (s' := mkPlaces _ _ _ _ _ _ _ _ _ _) in *.
  assert (Hg : get_place s' id = None).
  { unfold get_place. simpl. apply lookup_delete_eq. }
  unfold get_place_name_type, get_place_coord. rewrite Hg.
  split; [done|]. split; [done|].
  destruct (all_places_delete s s' id p Hp eq_refl) as [H1 H2].
  split; [done|]. split; [done|]. split; [|split].
  - intros j Hj. unfold place_of, get_place. simpl.
    by rewrite lookup_delete_ne.
  - intros n ids Hf.
    destruct (find_exact s' Place.name (places_by_name_ s') n Hwf'
                (pw_name s' Hwf') (pw_name_once s' Hwf')) as (ids' & Hf' & _ & Hin).
    unfold find_places_name in Hf. rewrite Hf' in Hf. injection Hf as ->.
    intros (b & Hb & _)%Hin. unfold place_of in Hb. by rewrite Hg in Hb.
  - intros t ids Hf.
    destruct (find_exact s' Place.type (places_by_type_ s') t Hwf'
                (pw_type s' Hwf') (pw_type_once s' Hwf')) as (ids' & Hf' & _ & Hin).
    unfold find_places_type in Hf. rewrite Hf' in Hf. injection Hf as ->.
    intros (b & Hb & _)%Hin. unfold place_of in Hb. by rewrite Hg in Hb.
Qed.

Lemma remove_place_then_lookup_witness :
  ∃ s', remove_place sample_places 2 = Some (true, s')
    ∧ get_place_name_type s' 2 = Some (NO_NAME, NO_TYPE)
    ∧ get_place_coord s' 2 = Some NO_COORD
    ∧ all_places sample_places ≡ₚ 2 :: all_places s'
    ∧ place_count sample_places = place_count s' + 1
    ∧ (∀ j, j ≠ 2 → place_of s' j = place_of sample_places j)
    ∧ (∀ n ids, find_places_name s' n = Some ids → 2 ∉ ids)
    ∧ (∀ t ids, find_places_type s' t = Some ids → 2 ∉ ids).
Proof.
  apply (remove_place_then_lookup sample_places 2).
  - exact sample_places_reachable.
  - rewrite elem_of_all_places. vm_compute. eauto.
Defined.

(** ** The sorted listings *)

Lemma StronglySorted_lookup {A} (R : A → A → Prop) (l : list A) i j x y :
  StronglySorted R l → (i < j)%nat → l !! i = Some x → l !! j = Some y → R x y.
Proof.
  intros Hs. revert i j. induction Hs as [|a l Hs IH Hall]; intros i j Hij Hi Hj.
  { done. }
  destruct j as [|j]; [lia|]. destruct i as [|i].
  - simpl in *. injection Hi as ->.
    rewrite Forall_forall in Hall. apply Hall. by eapply list_elem_of_lookup_2.
  - simpl in *. apply (IH i j); [lia | done | done].
Qed.

Section sorted_listing.
Context {K : Type} (lt : K → K → bool) (key : Place.t → K).
Context (lt_asym : ∀ a b, lt a b = true → lt b a = false).
Context (lt_negtrans :
  ∀ a b c, lt a b = false → lt b c = false → lt a c = false).

Lemma multimap_insert_perm {V} k (v : V) m :
  multimap_insert lt k v m ≡ₚ (k, v) :: m.
Proof.
  induction m as [|e m IH]; simpl; [done|].
  destruct (lt k e.1); [done|]. rewrite IH. apply Permutation_swap.
Qed.

Lemma multimap_insert_ascending {V} k (v : V) m :
  ascending lt m → ascending lt (multimap_insert lt k v m).
Proof.
  unfold ascending. induction 1 as [|e m Hs IH Hall]; simpl.
  { repeat constructor. }
  destruct (lt k e.1) eqn:Hk.
  - constructor; [by constructor|]. constructor.
    + simpl. by apply lt_asym.
    + rewrite Forall_forall in Hall |- *. intros e' He'. simpl.
      apply (lt_negtrans _ e.1); [by apply Hall | by apply lt_asym].
  - constructor; [done|].
    rewrite Forall_forall in Hall |- *. intros e' He'.
    rewrite multimap_insert_perm in He'.
    apply elem_of_cons in He' as [->|He']; [done | by apply Hall].
Qed.

Lemma fill_temp_map_spec s entries : ∀ tm,
  (∀ it, it ∈ entries → is_Some (place_at s it.2)) →
  ascending lt tm →
  (∀ e, e ∈ tm → ∃ a, place_at s e.2 = Some a ∧ key a = e.1) →
  ∃ tm', fill_temp_map lt key s entries tm = Some tm'
    ∧ ascending lt tm'
    ∧ (∀ e, e ∈ tm' → ∃ a, place_at s e.2 = Some a ∧ key a = e.1)
    ∧ tm'.*2 ≡ₚ tm.*2 ++ entries.*2.
Proof.
  induction entries as [|it entries IH]; intros tm Hvalid Hs Hkeys; simpl.
  { exists tm. by rewrite app_nil_r. }
  destruct (Hvalid it) as [a Ha]; [by left|]. rewrite Ha. simpl.
  destruct (IH (multimap_insert lt (key a) it.2 tm))
    as (tm' & Hf & Hs' & Hk' & Hp).
  - intros it' Hit'. apply Hvalid. by right.
  - by apply multimap_insert_ascending.
  - intros e. rewrite multimap_insert_perm.
    intros [->|He]%elem_of_cons; [eauto | by apply Hkeys].
  - exists tm'. split; [done|]. split; [done|]. split; [done|].
    rewrite Hp, multimap_insert_perm. simpl.
    by rewrite <- Permutation_middle.
Qed.

Lemma sorted_by_spec s :
  places_wf s →
  ∃ ids, sorted_by lt key s = Some ids
    ∧ ids ≡ₚ all_places s ∧ listed_ascending lt key s ids.
Proof.
  intros Hwf. unfold sorted_by.
  assert (Hentry : ∀ it, it ∈ map_to_list (places_by_id_ s) →
            ∃ a, indexed s it.2 a ∧ Place.id a = it.1).
  { intros [i p] Hit%elem_of_map_to_list. by apply (wf_get_place s Hwf). }
  destruct (fill_temp_map_spec s (map_to_list (places_by_id_ s)) [])
    as (tm & -> & Hs & Hk & Hp).
  { intros it (a & [Ha _] & _)%Hentry. eauto. }
  { constructor. }
  { by intros e ?%elem_of_nil. }
  simpl in *.
  assert (Hvalid : ∀ e, e ∈ tm → ∃ a, indexed s e.2 a ∧ key a = e.1).
  { intros e He. destruct (Hk e He) as (a & Ha & Hka).
    assert (Hin : e.2 ∈ (map_to_list (places_by_id_ s)).*2).
    { rewrite <- Hp. apply list_elem_of_fmap. eauto. }
    apply list_elem_of_fmap in Hin as (it & Heq & Hit).
    destruct (Hentry it Hit) as (b & Hb & _). rewrite <- Heq in Hb.
    assert (b = a) by (destruct Hb; congruence). subst b. eauto. }
  rewrite push_ids_Some by (intros e (a & [Ha _] & _)%Hvalid; eauto).
  eexists. split; [done|]. simpl. split.
  - unfold ids_of. rewrite Hp. unfold all_places.
    generalize (map_to_list (places_by_id_ s)) Hentry.
    intros l Hl. induction l as [|it l IH]; [done|]. simpl.
    destruct (Hl it) as (a & [Ha _] & Hi); [by left|]. rewrite Ha. simpl.
    rewrite Hi. f_equiv. apply IH. intros it' Hit'. apply Hl. by right.
  - intros i j x y a b Hij Hx Hy Ha Hb.
    assert (Hpos : ∀ n z c, ids_of s tm.*2 !! n = Some z →
              place_of s z = Some c → ∃ e, tm !! n = Some e ∧ key c = e.1).
    { clear -Hvalid Hwf. revert Hvalid. generalize tm. clear tm.
      intros tm Hvalid. induction tm as [|e tm IH]; intros n z c Hz Hc.
      { done. }
      destruct (Hvalid e) as (a & Ha & Hka); [by left|].
      unfold ids_of in Hz. simpl in Hz. destruct Ha as [Ha Hia].
      rewrite Ha in Hz. simpl in Hz. destruct n as [|n].
      - simpl in Hz. injection Hz as <-. exists e. split; [done|].
        unfold place_of in Hc. rewrite Hia in Hc. simpl in Hc. congruence.
      - simpl in Hz. apply (IH (λ e' He', Hvalid e' (list_elem_of_further _ _ _ He'))
                                  n z c); done. }
    destruct (Hpos _ _ _ Hx Ha) as (e1 & He1 & ->).
    destruct (Hpos _ _ _ Hy Hb) as (e2 & He2 & ->).
    exact (StronglySorted_lookup _ _ _ _ _ _ Hs Hij He1 He2).
Qed.
End sorted_listing.

(** ** The order of names *)

Lemma Ascii_compare_trans a b c :
  Ascii.compare a b ≠ Gt → Ascii.compare b c ≠ Gt → Ascii.compare a c ≠ Gt.
Proof.
  unfold Ascii.compare. rewrite !N.compare_gt_iff. intros. lia.
Qed.

Lemma Ascii_compare_refl a : Ascii.compare a a = Eq.
Proof. apply N.compare_refl. Qed.

Lemma String_compare_le_trans a : ∀ b c,
  String.compare a b ≠ Gt → String.compare b c ≠ Gt → String.compare a c ≠ Gt.
Proof.
  induction a as [|x a IH]; intros [|y b] [|z c]; simpl; try done.
  destruct (Ascii.compare x y) eqn:Hxy; [| |done];
    (destruct (Ascii.compare y z) eqn:Hyz; [| |done]).
  - apply Ascii.compare_eq_iff in Hxy, Hyz. subst.
    rewrite Ascii_compare_refl. apply IH.
  - apply Ascii.compare_eq_iff in Hxy. subst. by rewrite Hyz.
  - apply Ascii.compare_eq_iff in Hyz. subst. by rewrite Hxy.
  - intros _ _.
    assert (Ascii.compare x z = Lt) as ->; [|done].
    unfold Ascii.compare in *. rewrite N.compare_lt_iff in *. lia.
Qed.

Lemma String_ltb_asym a b : String.ltb a b = true → String.ltb b a = false.
Proof.
  unfold String.ltb. rewrite (String.compare_antisym b a).
  by destruct (String.compare a b).
Qed.

Lemma String_ltb_negtrans a b c :
  String.ltb a b = false → String.ltb b c = false → String.ltb a c = false.
Proof.
  unfold String.ltb. intros Hab Hbc.
  assert (H1 : String.compare c b ≠ Gt).
  { rewrite String.compare_antisym. by destruct (String.compare b c). }
  assert (H2 : String.compare b a ≠ Gt).
  { rewrite String.compare_antisym. by destruct (String.compare a b). }
  pose proof (String_compare_le_trans c b a H1 H2) as H3.
  rewrite String.compare_antisym in H3. by destruct (String.compare a c).
Qed.

Lemma places_alphabetically_sorted_by s :
  places_wf s →
  ∃ ids s', places_alphabetically s = Some (ids, s')
            ∧ sorted_by String.ltb Place.name s = Some ids.
Proof.
  intros Hwf. rewrite places_alphabetically_unfold.
  destruct (alphabetical_sorted_ s) eqn:Hflag.
  - eexists _, _. split; [done|]. by apply (pw_alphabetical s Hwf).
  - destruct (sorted_by_spec String.ltb Place.name String_ltb_asym
                String_ltb_negtrans s Hwf) as (ids & -> & _).
    simpl. by eexists _, _.
Qed.

(** X15: in every reachable state, whether the cached listing is returned or a
    new one is built, [places_alphabetically] returns a permutation of
    [all_places] in which no place has a name less than the name of a place
    listed before it. *)
Theorem places_alphabetically_sorted s :
  reachable_places s →
  ∃ ids s', places_alphabetically s = Some (ids, s')
    ∧ ids ≡ₚ all_places s
    ∧ listed_ascending String.ltb Place.name s ids.
Proof.
  intros Hwf%reachable_places_wf.
  destruct (places_alphabetically_sorted_by s Hwf) as (ids & s' & Hret & Hs).
  exists ids, s'. split; [done|].
  destruct (sorted_by_spec String.ltb Place.name String_ltb_asym
              String_ltb_negtrans s Hwf) as (ids' & Hs' & Hp & Hasc).
  by simplify_eq.
Qed.

Lemma places_alphabetically_sorted_witness :
  ∃ ids s', places_alphabetically sample_places = Some (ids, s')
    ∧ ids ≡ₚ all_places sample_places
    ∧ listed_ascending String.ltb Place.name sample_places ids.
Proof.
  apply (places_alphabetically_sorted sample_places), sample_places_reachable.
Defined.


(** ** The order of coordinates is a strict weak order *)

Lemma Coord_lt_spec c1 c2 :
  Coord_lt c1 c2 = true ↔ quad_lt (coord_rank c1) (coord_rank c2).
Proof.
  unfold Coord_lt, quad_lt, coord_rank. simpl.
  pose proof (nonnegative_not_nan _ (calculate_euclidean_nonnegative c1)) as H1.
  pose proof (nonnegative_not_nan _ (calculate_euclidean_nonnegative c2)) as H2.
  pose proof (double_lt_rank _ _ H1 H2) as H12.
  pose proof (double_lt_rank _ _ H2 H1) as H21.
  destruct (double_lt (calculate_euclidean c1) (calculate_euclidean c2)).
  { split; [|done]. intros _. left. by apply H12. }
  destruct (double_lt (calculate_euclidean c2) (calculate_euclidean c1)).
  { split; [done|]. assert (H : rank_lt (rank (calculate_euclidean c2))
                                  (rank (calculate_euclidean c1))) by (by apply H21).
    revert H. unfold rank_lt.
    destruct (rank (calculate_euclidean c1)) as [[a1 a2] a3].
    destruct (rank (calculate_euclidean c2)) as [[b1 b2] b3]. simpl.
    intros H [H'|[Heq _]]; simplify_eq; lia. }
  rewrite Z.ltb_lt.
  assert (Hn12 : ¬ rank_lt (rank (calculate_euclidean c1))
                           (rank (calculate_euclidean c2))).
  { intros H. by apply H12 in H. }
  assert (Hn21 : ¬ rank_lt (rank (calculate_euclidean c2))
                           (rank (calculate_euclidean c1))).
  { intros H. by apply H21 in H. }
  revert Hn12 Hn21. unfold rank_lt.
  destruct (rank (calculate_euclidean c1)) as [[a1 a2] a3].
  destruct (rank (calculate_euclidean c2)) as [[b1 b2] b3]. simpl.
  intros Hn12 Hn21. split.
  - intros Hy. right. split; [|done].
    assert (a1 = b1) by lia. assert (a2 = b2) by lia. assert (a3 = b3) by lia.
    by subst.
  - intros [H|[_ Hy]]; [done | done].
Qed.

Lemma quad_lt_asym a b : quad_lt a b → ¬ quad_lt b a.
Proof.
  destruct a as [[[a1 a2] a3] a4], b as [[[b1 b2] b3] b4].
  unfold quad_lt, rank_lt. simpl.
  intros [H|[Heq H]] [H'|[Heq' H']]; simplify_eq; lia.
Qed.

Lemma quad_lt_negtrans a b c : ¬ quad_lt a b → ¬ quad_lt b c → ¬ quad_lt a c.
Proof.
  destruct a as [[[a1 a2] a3] a4], b as [[[b1 b2] b3] b4],
    c as [[[c1 c2] c3] c4].
  unfold quad_lt, rank_lt. simpl. intros Hab Hbc Hac.
  assert (Hab' : ¬ (a1 < b1 ∨ a1 = b1 ∧ (a2 < b2 ∨ a2 = b2 ∧ a3 < b3))
                 ∧ ¬ (a1 = b1 ∧ a2 = b2 ∧ a3 = b3 ∧ a4 < b4)).
  { split; [tauto|]. intros (-> & -> & -> & ?). apply Hab. by right. }
  assert (Hbc' : ¬ (b1 < c1 ∨ b1 = c1 ∧ (b2 < c2 ∨ b2 = c2 ∧ b3 < c3))
                 ∧ ¬ (b1 = c1 ∧ b2 = c2 ∧ b3 = c3 ∧ b4 < c4)).
  { split; [tauto|]. intros (-> & -> & -> & ?). apply Hbc. by right. }
  destruct Hac as [H|[Heq H]]; simplify_eq; lia.
Qed.

Lemma Coord_lt_asym a b : Coord_lt a b = true → Coord_lt b a = false.
Proof.
  intros H%Coord_lt_spec. apply not_true_is_false. intros H'%Coord_lt_spec.
  by apply (quad_lt_asym _ _ H).
Qed.

Lemma Coord_lt_negtrans a b c :
  Coord_lt a b = false → Coord_lt b c = false → Coord_lt a c = false.
Proof.
  intros Hab Hbc. apply not_true_is_false. intros Hac%Coord_lt_spec.
  revert Hac. apply (quad_lt_negtrans _ (coord_rank b)).
  - intros H%Coord_lt_spec. congruence.
  - intros H%Coord_lt_spec. congruence.
Qed.

Lemma places_coord_order_sorted_by s :
  places_wf s →
  ∃ ids s', places_coord_order s = Some (ids, s')
            ∧ sorted_by Coord_lt Place.coordinates s = Some ids.
Proof.
  intros Hwf. rewrite places_coord_order_unfold.
  destruct (coordinate_sorted_ s) eqn:Hflag.
  - eexists _, _. split; [done|]. by apply (pw_coordinate s Hwf).
  - destruct (sorted_by_spec Coord_lt Place.coordinates Coord_lt_asym
                Coord_lt_negtrans s Hwf) as (ids & -> & _).
    simpl. by eexists _, _.
Qed.

(** X16: in every reachable state, whether the cached listing is returned or a
    new one is built, [places_coord_order] returns a permutation of
    [all_places] in which no place has a coordinate less, by [operator<] on
    [Coord], than the coordinate of a place listed before it. *)
Theorem places_coord_order_sorted s :
  reachable_places s →
  ∃ ids s', places_coord_order s = Some (ids, s')
    ∧ ids ≡ₚ all_places s
    ∧ listed_ascending Coord_lt Place.coordinates s ids.
Proof.
  intros Hwf%reachable_places_wf.
  destruct (places_coord_order_sorted_by s Hwf) as (ids & s' & Hret & Hs).
  exists ids, s'. split; [done|].
  destruct (sorted_by_spec Coord_lt Place.coordinates Coord_lt_asym
              Coord_lt_negtrans s Hwf) as (ids' & Hs' & Hp & Hasc).
  by simplify_eq.
Qed.

Lemma places_coord_order_sorted_witness :
  ∃ ids s', places_coord_order sample_places = Some (ids, s')
    ∧ ids ≡ₚ all_places sample_places
    ∧ listed_ascending Coord_lt Place.coordinates sample_places ids.
Proof.
  apply (places_coord_order_sorted sample_places), sample_places_reachable.
Defined.


(** ** The three closest places *)

Lemma nearer_rank xy a b :
  nearer xy a b = true ↔ quad_lt (place_rank xy a) (place_rank xy b).
Proof.
  unfold nearer, quad_lt, place_rank, distance_to. simpl.
  set (ca := mkCoord _ _). set (cb := mkCoord _ _).
  pose proof (nonnegative_not_nan _ (calculate_euclidean_nonnegative ca)) as H1.
  pose proof (nonnegative_not_nan _ (calculate_euclidean_nonnegative cb)) as H2.
  rewrite orb_true_iff, andb_true_iff, Z.ltb_lt.
  by rewrite (double_lt_rank _ _ H1 H2), (double_eq_rank _ _ H1 H2).
Qed.

Lemma closer_rank s xy a q b :
  place_at s q = Some b →
  closer s (distance_to xy a) a (distance_to xy b, Some q)
  = Some (quad_ltb (place_rank xy a) (place_rank xy b)).
Proof.
  intros Hb. unfold closer. simpl. rewrite Hb. simpl.
  pose proof (nearer_rank xy a b) as Hn. unfold nearer in Hn.
  unfold quad_ltb.
  destruct (double_lt (distance_to xy a) (distance_to xy b)); simpl in *.
  { f_equal. symmetry. apply bool_decide_eq_true. by apply Hn. }
  destruct (double_eq (distance_to xy a) (distance_to xy b)); simpl in *.
  - f_equal. destruct (y (Place.coordinates a) <? y (Place.coordinates b)).
    + symmetry. apply bool_decide_eq_true. by apply Hn.
    + symmetry. apply bool_decide_eq_false. intros H%Hn. done.
  - f_equal. symmetry. apply bool_decide_eq_false. intros H%Hn. done.
Qed.

Lemma quad_ltb_asym a b : quad_ltb a b = true → quad_ltb b a = false.
Proof.
  unfold quad_ltb. rewrite bool_decide_eq_true, bool_decide_eq_false.
  apply quad_lt_asym.
Qed.

Lemma quad_ltb_negtrans a b c :
  quad_ltb a b = false → quad_ltb b c = false → quad_ltb a c = false.
Proof.
  unfold quad_ltb. rewrite !bool_decide_eq_false. apply quad_lt_negtrans.
Qed.

(** One round of the loop on the three pairs is one round on the sorted
    list. *)
Lemma closest_loop_keep3 s xy range : ∀ sel,
  (∀ it, it ∈ range → is_Some (place_at s it.2)) →
  (∀ e, e ∈ sel → ∃ a, place_at s e.2 = Some a ∧ e.1 = place_rank xy a) →
  (length sel ≤ 3)%nat →
  closest_loop s xy range (slot s xy (sel !! 0%nat)) (slot s xy (sel !! 1%nat))
               (slot s xy (sel !! 2%nat))
  = Some (let sel' := foldl (keep3 s xy) sel range.*2 in
          (slot s xy (sel' !! 0%nat), slot s xy (sel' !! 1%nat),
           slot s xy (sel' !! 2%nat))).
Proof.
  induction range as [|it range IH]; intros sel Hrange Hsel Hlen; [done|].
  destruct (Hrange it) as [a Ha]; [by left|].
  assert (Hrest : ∀ it', it' ∈ range → is_Some (place_at s it'.2))
    by (intros; apply Hrange; by right).
  assert (Hstep : ∀ sel',
    sel' = keep3 s xy sel it.2 →
    closest_loop s xy range (slot s xy (sel' !! 0%nat))
      (slot s xy (sel' !! 1%nat)) (slot s xy (sel' !! 2%nat))
    = Some (let sel'' := foldl (keep3 s xy) sel (it :: range).*2 in
            (slot s xy (sel'' !! 0%nat), slot s xy (sel'' !! 1%nat),
             slot s xy (sel'' !! 2%nat)))).
  { intros sel' ->. simpl. apply IH; [done| |].
    - intros e He. unfold keep3 in He. apply elem_of_take in He as (i & He & _).
      apply list_elem_of_lookup_2 in He.
      rewrite (multimap_insert_perm quad_ltb) in He.
      apply elem_of_cons in He as [->|He]; [|by apply Hsel].
      simpl. unfold rank_at. rewrite Ha. eauto.
    - unfold keep3. rewrite length_take. lia. }
  cbn [closest_loop]. rewrite Ha. cbn [mbind option_bind].
  change (calculate_euclidean _) with (distance_to xy a).
  assert (Hkey : rank_at s xy it.2 = place_rank xy a)
    by (unfold rank_at; by rewrite Ha).
  assert (Hslot : (distance_to xy a, Some it.2)
                  = slot s xy (Some (place_rank xy a, it.2)))
    by (simpl; by rewrite Ha).
  destruct sel as [|[k1 p1] sel].
  { simpl. rewrite Hslot. apply (Hstep [(place_rank xy a, it.2)]).
    unfold keep3. simpl. by rewrite Hkey. }
  destruct (Hsel (k1, p1)) as (a1 & Ha1 & Hk1); [by left|]. simpl in Ha1, Hk1.
  subst k1. cbn [lookup list_lookup slot snd]. rewrite Ha1. cbn [snd].
  rewrite (closer_rank s xy a p1 a1 Ha1). cbn [mbind option_bind].
  destruct (quad_ltb (place_rank xy a) (place_rank xy a1)) eqn:Hb1.
  { rewrite Hslot.
    replace (distance_to xy a1, Some p1)
      with (slot s xy (Some (place_rank xy a1, p1))) by (simpl; by rewrite Ha1).
    destruct sel as [|e2 sel].
    - apply (Hstep [(place_rank xy a, it.2); (place_rank xy a1, p1)]).
      unfold keep3. simpl. by rewrite Hkey, Hb1.
    - apply (Hstep [(place_rank xy a, it.2); (place_rank xy a1, p1); e2]).
      unfold keep3. simpl. by rewrite Hkey, Hb1. }
  destruct sel as [|[k2 p2] sel].
  { simpl. rewrite Hslot.
    replace (distance_to xy a1, Some p1)
      with (slot s xy (Some (place_rank xy a1, p1))) by (simpl; by rewrite Ha1).
    apply (Hstep [(place_rank xy a1, p1); (place_rank xy a, it.2)]).
    unfold keep3. simpl. by rewrite Hkey, Hb1. }
  destruct (Hsel (k2, p2)) as (a2 & Ha2 & Hk2); [by right; left|].
  simpl in Ha2, Hk2. subst k2.
  cbn [lookup list_lookup slot snd]. rewrite Ha2. cbn [snd].
  rewrite (closer_rank s xy a p2 a2 Ha2). cbn [mbind option_bind].
  destruct (quad_ltb (place_rank xy a) (place_rank xy a2)) eqn:Hb2.
  { rewrite Hslot.
    replace (distance_to xy a1, Some p1)
      with (slot s xy (Some (place_rank xy a1, p1))) by (simpl; by rewrite Ha1).
    replace (distance_to xy a2, Some p2)
      with (slot s xy (Some (place_rank xy a2, p2))) by (simpl; by rewrite Ha2).
    apply (Hstep [(place_rank xy a1, p1); (place_rank xy a, it.2);
                  (place_rank xy a2, p2)]).
    unfold keep3. simpl. by rewrite Hkey, Hb1, Hb2. }
  destruct sel as [|[k3 p3] sel].
  { simpl. rewrite Hslot.
    replace (distance_to xy a1, Some p1)
      with (slot s xy (Some (place_rank xy a1, p1))) by (simpl; by rewrite Ha1).
    replace (distance_to xy a2, Some p2)
      with (slot s xy (Some (place_rank xy a2, p2))) by (simpl; by rewrite Ha2).
    apply (Hstep [(place_rank xy a1, p1); (place_rank xy a2, p2);
                  (place_rank xy a, it.2)]).
    unfold keep3. simpl. by rewrite Hkey, Hb1, Hb2. }
  destruct (Hsel (k3, p3)) as (a3 & Ha3 & Hk3); [by right; right; left|].
  simpl in Ha3, Hk3. subst k3.
  destruct sel; [|simpl in Hlen; lia].
  cbn [lookup list_lookup slot snd]. rewrite Ha3. cbn [snd].
  rewrite (closer_rank s xy a p3 a3 Ha3). cbn [mbind option_bind].
  replace (distance_to xy a1, Some p1)
    with (slot s xy (Some (place_rank xy a1, p1))) by (simpl; by rewrite Ha1).
  replace (distance_to xy a2, Some p2)
    with (slot s xy (Some (place_rank xy a2, p2))) by (simpl; by rewrite Ha2).
  destruct (quad_ltb (place_rank xy a) (place_rank xy a3)) eqn:Hb3.
  - rewrite Hslot.
    apply (Hstep [(place_rank xy a1, p1); (place_rank xy a2, p2);
                  (place_rank xy a, it.2)]).
    unfold keep3. simpl. by rewrite Hkey, Hb1, Hb2, Hb3.
  - replace (distance_to xy a3, Some p3)
      with (slot s xy (Some (place_rank xy a3, p3))) by (simpl; by rewrite Ha3).
    apply (Hstep [(place_rank xy a1, p1); (place_rank xy a2, p2);
                  (place_rank xy a3, p3)]).
    unfold keep3. simpl. by rewrite Hkey, Hb1, Hb2, Hb3.
Qed.

Lemma StronglySorted_take {A} (R : A → A → Prop) (l : list A) n :
  StronglySorted R l → StronglySorted R (take n l).
Proof.
  intros Hs. revert n. induction Hs as [|a l Hs IH Hall]; intros [|n]; simpl;
    try constructor.
  - apply IH.
  - rewrite Forall_forall in Hall |- *. intros x Hx. apply Hall.
    apply elem_of_take in Hx as (i & Hx & _). by eapply list_elem_of_lookup_2.
Qed.

Lemma quad_ltb_irrefl a : quad_ltb a a = false.
Proof.
  destruct (quad_ltb a a) eqn:H; [|done]. by rewrite (quad_ltb_asym _ _ H) in H.
Qed.

Lemma keep3_inv s xy seen sel p :
  closest_inv s xy seen sel → p ∉ seen →
  closest_inv s xy (seen ++ [p]) (keep3 s xy sel p).
Proof.
  intros [Hasc Hkeys Hamong Honce Hthree Hrest] Hp.
  set (k := rank_at s xy p).
  set (l' := multimap_insert quad_ltb k p sel).
  assert (Hperm : l' ≡ₚ (k, p) :: sel) by apply multimap_insert_perm.
  assert (Hasc' : ascending quad_ltb l').
  { apply multimap_insert_ascending;
      [apply quad_ltb_asym | apply quad_ltb_negtrans | done]. }
  assert (Hpsel : p ∉ sel.*2).
  { intros (e & -> & He)%list_elem_of_fmap. by apply Hp, Hamong. }
  assert (Hin' : ∀ e, e ∈ take 3 l' → e = (k, p) ∨ e ∈ sel).
  { intros e (i & He & _)%elem_of_take. apply list_elem_of_lookup_2 in He.
    rewrite Hperm in He. by apply elem_of_cons in He. }
  split.
  - by apply StronglySorted_take.
  - intros e [->|He]%Hin'; [done | by apply Hkeys].
  - intros e [->|He]%Hin'; apply elem_of_app; [right; by left|].
    left. by apply Hamong.
  - apply (sublist_NoDup _ l'.*2).
    + rewrite Hperm. simpl. by apply NoDup_cons.
    + apply fmap_sublist, sublist_take.
  - unfold keep3. rewrite length_take. lia.
  - intros q Hq Hnot. unfold keep3 in *. fold k l' in Hnot |- *.
    assert (Hold : q ≠ p → q ∉ sel.*2 →
              ∃ e, sel !! 2%nat = Some e ∧ quad_ltb (rank_at s xy q) e.1 = false).
    { intros Hqp Hqs. apply Hrest; [|done].
      apply elem_of_app in Hq as [?|?%list_elem_of_singleton]; done. }
    destruct sel as [|[k0 p0] [|[k1 p1] [|[k2 p2] [|? ?]]]];
      [| | | |simpl in Hthree; lia].
    + exfalso. apply Hnot. simpl.
      destruct (decide (q = p)) as [->|Hqp]; [by left|].
      destruct (Hold Hqp) as (e & He & _); [by intros ?%elem_of_nil|].
      by simpl in He.
    + assert (q ∈ (take 3 l').*2); [|done].
      rewrite take_ge by (unfold l'; simpl; destruct (quad_ltb k k0); simpl; lia).
      rewrite Hperm. simpl. destruct (decide (q = p)) as [->|Hqp]; [by left|].
      right. destruct (decide (q ∈ [p0])) as [?|Hn]; [done|].
      destruct (Hold Hqp Hn) as (e & He & _). by simpl in He.
    + assert (q ∈ (take 3 l').*2); [|done].
      rewrite take_ge
        by (unfold l'; simpl; destruct (quad_ltb k k0); simpl;
            [lia|destruct (quad_ltb k k1); simpl; lia]).
      rewrite Hperm. simpl. destruct (decide (q = p)) as [->|Hqp]; [by left|].
      right. destruct (decide (q ∈ [p0; p1])) as [?|Hn]; [done|].
      destruct (Hold Hqp Hn) as (e & He & _). by simpl in He.
    + assert (H12 : quad_ltb k2 k1 = false).
      { apply (StronglySorted_lookup _ _ 1 2 (k1, p1) (k2, p2) Hasc);
          [lia | done | done]. }
      assert (Hk2 : rank_at s xy p2 = k2).
      { symmetry. apply (Hkeys (k2, p2)). by right; right; left. }
      assert (Hother : q ≠ p → q ≠ p0 → q ≠ p1 → q ≠ p2 →
                quad_ltb (rank_at s xy q) k2 = false).
      { intros ????. destruct Hold as (e & [= <-] & He); [done| |done].
        simpl. rewrite !elem_of_cons, elem_of_nil. tauto. }
      revert Hnot. unfold l'. simpl.
      destruct (quad_ltb k k0) eqn:H0; simpl.
      { rewrite !elem_of_cons, elem_of_nil. intros Hnot.
        exists (k1, p1). split; [done|]. simpl.
        destruct (decide (q = p2)) as [->|?]; [by rewrite Hk2|].
        apply (quad_ltb_negtrans _ k2); [|done]. apply Hother; tauto. }
      destruct (quad_ltb k k1) eqn:H1; simpl.
      { rewrite !elem_of_cons, elem_of_nil. intros Hnot.
        exists (k1, p1). split; [done|]. simpl.
        destruct (decide (q = p2)) as [->|?]; [by rewrite Hk2|].
        apply (quad_ltb_negtrans _ k2); [|done]. apply Hother; tauto. }
      destruct (quad_ltb k k2) eqn:H2; simpl.
      { rewrite !elem_of_cons, elem_of_nil. intros Hnot.
        exists (k, p). split; [done|]. simpl.
        pose proof (quad_ltb_asym _ _ H2) as H2'.
        destruct (decide (q = p2)) as [->|?]; [by rewrite Hk2|].
        apply (quad_ltb_negtrans _ k2); [|done]. apply Hother; tauto. }
      rewrite !elem_of_cons, elem_of_nil. intros Hnot.
      exists (k2, p2). split; [done|]. simpl.
      destruct (decide (q = p)) as [->|?]; [done|].
      apply Hother; tauto.
Qed.

Lemma foldl_keep3_inv s xy range : ∀ seen sel,
  closest_inv s xy seen sel → NoDup (seen ++ range) →
  closest_inv s xy (seen ++ range) (foldl (keep3 s xy) sel range).
Proof.
  induction range as [|p range IH]; intros seen sel Hinv Hnd; simpl.
  - by rewrite app_nil_r.
  - rewrite (assoc_L (++) seen [p] range : seen ++ p :: range = (seen ++ [p]) ++ range).
    apply IH.
    + apply keep3_inv; [done|]. apply NoDup_app in Hnd as (_ & Hd & _).
      intros Hp. apply (Hd p Hp). by left.
    + by rewrite <- (assoc_L (++) seen [p] range).
Qed.

Lemma closest_inv_nil s xy : closest_inv s xy [] [].
Proof.
  split; [constructor | by intros e ?%elem_of_nil | by intros e ?%elem_of_nil
          | apply NoDup_nil_2 | simpl; lia | by intros q ?%elem_of_nil].
Qed.

Lemma closest_range s type :
  places_wf s →
  let range := if decide (type = NO_TYPE) then places_by_type_ s
               else entries_of type (places_by_type_ s) in
  NoDup range.*2
  ∧ ∀ p, p ∈ range.*2 ↔ ∃ a, indexed s p a ∧ candidate type a.
Proof.
  intros Hwf. simpl. case_decide as Ht.
  - split; [apply (pw_type_once s Hwf)|]. intros p.
    rewrite list_elem_of_fmap. split.
    + intros ([t q] & -> & (a & Ha & _)%(pw_type s Hwf)). exists a.
      split; [done | by left].
    + intros (a & Ha & _). exists (Place.type a, p). split; [done|].
      apply (pw_type s Hwf). eauto.
  - split.
    + apply (sublist_NoDup _ (places_by_type_ s).*2);
        [apply (pw_type_once s Hwf)|].
      apply fmap_sublist, sublist_filter.
    + intros p. rewrite list_elem_of_fmap. unfold entries_of. split.
      * intros ([t q] & -> & [Hk (a & Ha & Hta)%(pw_type s Hwf)]%list_elem_of_filter).
        simpl in *. exists a. split; [done|]. right. congruence.
      * intros (a & Ha & [?|Hta]); [done|]. exists (type, p). split; [done|].
        apply list_elem_of_filter. split; [done|]. apply (pw_type s Hwf). eauto.
Qed.

Lemma places_closest_to_sel s xy type :
  places_wf s →
  ∃ sel,
    places_closest_to s xy type = Some (ids_of s sel.*2)
    ∧ (∀ e, e ∈ sel → ∃ a, indexed s e.2 a ∧ candidate type a
                           ∧ e.1 = place_rank xy a)
    ∧ ascending quad_ltb sel ∧ NoDup sel.*2 ∧ (length sel ≤ 3)%nat
    ∧ ∀ q a, indexed s q a → candidate type a → q ∉ sel.*2 →
        ∃ e, sel !! 2%nat = Some e ∧ quad_ltb (place_rank xy a) e.1 = false.
Proof.
  intros Hwf. destruct (closest_range s type Hwf) as [Hnd Hin].
  unfold places_closest_to.
  set (range := if decide (type = NO_TYPE) then places_by_type_ s
                else entries_of type (places_by_type_ s)) in *.
  pose proof (foldl_keep3_inv s xy range.*2 [] [] (closest_inv_nil s xy) Hnd)
    as [Hasc Hkeys Hamong Honce Hthree Hrest].
  simpl in Hamong, Hrest.
  set (sel := foldl (keep3 s xy) [] range.*2) in *.
  assert (Hvalid : ∀ e, e ∈ sel → ∃ a, indexed s e.2 a ∧ candidate type a
                                       ∧ e.1 = place_rank xy a).
  { intros e He. destruct (proj1 (Hin e.2) (Hamong e He)) as (a & Ha & Hc).
    exists a. split; [done|]. split; [done|]. rewrite (Hkeys e He).
    unfold rank_at. destruct Ha as [-> _]. done. }
  exists sel. split; [|split; [done|split; [done|split; [done|split; [done|]]]]].
  - assert (Hloop : closest_loop s xy range unset unset unset
              = Some (slot s xy (sel !! 0%nat), slot s xy (sel !! 1%nat),
                      slot s xy (sel !! 2%nat))).
    { apply (closest_loop_keep3 s xy range []); [| |simpl; lia].
      - intros it Hit.
        destruct (proj1 (Hin it.2)) as (a & [Ha _] & _); [|eauto].
        apply list_elem_of_fmap. eauto.
      - by intros e ?%elem_of_nil. }
    unfold unset in Hloop. cbv zeta. rewrite Hloop. clear Hloop.
    cbn [mbind option_bind].
    destruct sel as [|[k0 p0] [|[k1 p1] [|[k2 p2] [|? ?]]]];
      [| | | |simpl in Hthree; lia]; simpl.
    + done.
    + destruct (Hvalid (k0, p0)) as (a0 & [Ha0 _] & _); [by left|].
      simpl in Ha0. unfold ids_of. simpl. rewrite Ha0. simpl. by rewrite Ha0.
    + destruct (Hvalid (k0, p0)) as (a0 & [Ha0 _] & _); [by left|].
      destruct (Hvalid (k1, p1)) as (a1 & [Ha1 _] & _); [by right; left|].
      simpl in Ha0, Ha1. unfold ids_of. simpl. rewrite Ha0, Ha1. simpl.
      by rewrite Ha0, Ha1.
    + destruct (Hvalid (k0, p0)) as (a0 & [Ha0 _] & _); [by left|].
      destruct (Hvalid (k1, p1)) as (a1 & [Ha1 _] & _); [by right; left|].
      destruct (Hvalid (k2, p2)) as (a2 & [Ha2 _] & _);
        [by right; right; left|].
      simpl in Ha0, Ha1, Ha2. unfold ids_of. simpl. rewrite Ha0, Ha1, Ha2.
      simpl. by rewrite Ha0, Ha1, Ha2.
  - intros q a Ha Hc Hq. destruct (Hrest q) as (e & He & Hlt); [|done|].
    + apply Hin. eauto.
    + exists e. split; [done|]. unfold rank_at in Hlt.
      destruct Ha as [Ha _]. by rewrite Ha in Hlt.
Qed.

Lemma ids_of_lookup s (sel : list (Z * Z * Z * Z * address)) n i :
  (∀ e, e ∈ sel → ∃ a, indexed s e.2 a) →
  ids_of s sel.*2 !! n = Some i →
  ∃ e a, sel !! n = Some e ∧ indexed s e.2 a ∧ Place.id a = i.
Proof.
  revert n. induction sel as [|e sel IH]; intros n Hvalid Hn; [done|].
  destruct (Hvalid e) as (a & Ha); [by left|].
  unfold ids_of in Hn. simpl in Hn. destruct Ha as [Ha Hi].
  rewrite Ha in Hn. simpl in Hn. destruct n as [|n].
  - simpl in Hn. injection Hn as <-. exists e, a. by split; [|split].
  - simpl in Hn. apply IH; [|done]. intros e' He'. apply Hvalid. by right.
Qed.

Lemma length_omap_le {A B} (f : A → option B) (l : list A) :
  (length (omap f l) ≤ length l)%nat.
Proof.
  induction l as [|x l IH]; [done|]. cbn [omap list_omap].
  destruct (f x); simpl; fold (omap f l); lia.
Qed.

(** X17: in every reachable state [places_closest_to] returns at most three
    places, each once, all of the requested type (of any type for
    [NO_TYPE]); no place of the result is nearer to [xy] than a place listed
    before it, and a place of the requested type that is left out is not
    nearer than the third place of the result.  A place is nearer when its
    distance to [xy] is less, or equal with a smaller [y]; the distance is
    the one the program computes, from the [int] differences of the
    coordinates, which is the Euclidean distance in [double] when both
    differences fit an [int]. *)
Theorem places_closest_to_nearest s xy type :
  reachable_places s →
  ∃ ids, places_closest_to s xy type = Some ids
    ∧ (length ids ≤ 3)%nat ∧ NoDup ids
    ∧ (∀ i, i ∈ ids → ∃ a, place_of s i = Some a ∧ candidate type a)
    ∧ (∀ i j x y a b,
         (i < j)%nat → ids !! i = Some x → ids !! j = Some y →
         place_of s x = Some a → place_of s y = Some b →
         nearer xy b a = false)
    ∧ (∀ i a, place_of s i = Some a → candidate type a → i ∉ ids →
         ∃ y b, ids !! 2%nat = Some y ∧ place_of s y = Some b
                ∧ nearer xy a b = false).
Proof.
  intros Hwf%reachable_places_wf.
  destruct (places_closest_to_sel s xy type Hwf)
    as (sel & Hret & Hvalid & Hasc & Hnd & Hlen & Hrest).
  exists (ids_of s sel.*2). split; [done|].
  assert (Hvalid' : ∀ e, e ∈ sel → ∃ a, indexed s e.2 a)
    by (intros e (a & ? & _)%Hvalid; eauto).
  assert (Hnear : ∀ a b, nearer xy a b = false
                         ↔ quad_ltb (place_rank xy a) (place_rank xy b) = false).
  { intros a b. unfold quad_ltb. rewrite bool_decide_eq_false.
    rewrite <- nearer_rank. by destruct (nearer xy a b). }
  assert (Hpos : ∀ n i a, ids_of s sel.*2 !! n = Some i → place_of s i = Some a →
            ∃ e, sel !! n = Some e ∧ indexed s e.2 a ∧ e.1 = place_rank xy a).
  { intros n i a Hn Hi.
    destruct (ids_of_lookup s sel n i Hvalid' Hn) as (e & b & He & Hb & Hbi).
    assert (b = a).
    { apply (place_of_indexed s i a Hwf) in Hi as (p & Hp & Hpi).
      assert (e.2 = p) by (apply (indexed_inj s _ _ b a); congruence).
      subst p. destruct Hb, Hp. congruence. }
    subst b. exists e. split; [done|]. split; [done|].
    destruct (Hvalid e) as (c & Hc & _ & ->).
    { by eapply list_elem_of_lookup_2. }
    f_equal. destruct Hb, Hc. congruence. }
  split; [|split; [|split; [|split]]].
  - unfold ids_of. etrans; [apply length_omap_le|]. by rewrite length_fmap.
  - apply NoDup_omap; [done|].
    intros p q i (e1 & -> & He1)%list_elem_of_fmap
      (e2 & -> & He2)%list_elem_of_fmap Hp Hq.
    destruct (Hvalid' e1 He1) as (a & Ha). destruct (Hvalid' e2 He2) as (b & Hb).
    apply (indexed_inj s _ _ a b); [done | done|].
    destruct Ha as [Ha _], Hb as [Hb _]. rewrite Ha in Hp. rewrite Hb in Hq.
    simpl in *. congruence.
  - intros i (p & a & (e & -> & He)%list_elem_of_fmap & Ha & Hi)%elem_of_ids_of.
    destruct (Hvalid e He) as (b & Hb & Hc & _).
    assert (b = a) by (destruct Hb; congruence). subst b.
    exists a. split; [|done]. apply (place_of_indexed s i a Hwf). eauto.
  - intros i j x y a b Hij Hx Hy Ha Hb.
    destruct (Hpos _ _ _ Hx Ha) as (e1 & He1 & _ & Hk1).
    destruct (Hpos _ _ _ Hy Hb) as (e2 & He2 & _ & Hk2).
    apply Hnear. rewrite <- Hk1, <- Hk2.
    exact (StronglySorted_lookup _ _ _ _ _ _ Hasc Hij He1 He2).
  - intros i a (p & Hp & Hi)%(place_of_indexed s i a Hwf) Hc Hnot.
    destruct (Hrest p a Hp Hc) as (e & He & Hlt).
    { intros (e & -> & He)%list_elem_of_fmap. apply Hnot.
      apply elem_of_ids_of. exists e.2, a. split; [|by destruct Hp].
      apply list_elem_of_fmap. eauto. }
    destruct (Hvalid e) as (b & Hb & _ & Hkb).
    { by eapply list_elem_of_lookup_2. }
    exists (Place.id b), b. split; [|split].
    + clear -He Hb Hvalid'. revert He.
      destruct sel as [|e0 [|e1 [|e2 sel]]]; try done. simpl.
      intros [= ->].
      destruct (Hvalid' e0) as (a0 & [Ha0 _]); [by left|].
      destruct (Hvalid' e1) as (a1 & [Ha1 _]); [by right; left|].
      unfold ids_of. simpl. rewrite Ha0, Ha1. simpl.
      destruct Hb as [-> _]. done.
    + apply (place_of_indexed s _ b Hwf). eauto.
    + apply Hnear. by rewrite <- Hkb.
Qed.

Lemma places_closest_to_nearest_witness :
  ∃ ids, places_closest_to sample_places (mkCoord 1 1) NO_TYPE = Some ids
    ∧ (length ids ≤ 3)%nat ∧ NoDup ids
    ∧ (∀ i, i ∈ ids →
         ∃ a, place_of sample_places i = Some a ∧ candidate NO_TYPE a)
    ∧ (∀ i j x y a b,
         (i < j)%nat → ids !! i = Some x → ids !! j = Some y →
         place_of sample_places x = Some a → place_of sample_places y = Some b →
         nearer (mkCoord 1 1) b a = false)
    ∧ (∀ i a, place_of sample_places i = Some a → candidate NO_TYPE a →
         i ∉ ids →
         ∃ y b, ids !! 2%nat = Some y ∧ place_of sample_places y = Some b
                ∧ nearer (mkCoord 1 1) a b = false).
Proof.
  apply (places_closest_to_nearest sample_places (mkCoord 1 1) NO_TYPE),
    sample_places_reachable.
Defined.


(** ** Areas *)

Lemma result_bind_Value {A B} (m : result A) (f : A → result B) (b : B) :
  m ≫= f = Value b ↔ ∃ a, m = Value a ∧ f a = Value b.
Proof.
  destruct m as [a| |]; simpl.
  - split; [eauto|]. by intros (? & [= <-] & ?).
  - split; [done|]. by intros (? & ? & _).
  - split; [done|]. by intros (? & ? & _).
Qed.

(** ** The invariant is established and preserved *)

Lemma areas_wf_new : areas_wf Places_new.
Proof. split; done. Qed.

Lemma areas_wf_clear_all s : areas_wf (clear_all s).
Proof. split; done. Qed.

Lemma areas_wf_same s s' :
  areas_by_id_ s' = areas_by_id_ s → area_store s' = area_store s →
  areas_wf s → areas_wf s'.
Proof.
  intros Hid Hst [W1 W2 W3 W4 W5].
  split; unfold area_at, get_area in *; rewrite ?Hid, ?Hst; assumption.
Qed.

Lemma add_area_true s id name coords s' :
  add_area s id name coords = (true, s') →
  get_area s id = None
  ∧ s' = mkPlaces (coordinate_sorted_ s) (alphabetical_sorted_ s)
           (alphabetical_vector_ids_ s) (coordinate_vector_ids_ s)
           (places_by_id_ s) (places_by_name_ s) (places_by_type_ s)
           (<[id := new_address (area_store s)]> (areas_by_id_ s))
           (place_store s)
           (<[new_address (area_store s) := Area.mk id name coords None []]>
              (area_store s)).
Proof.
  unfold add_area. destruct (get_area s id); [done|]. by intros [= <-].
Qed.

Lemma add_area_false s id name coords s' :
  add_area s id name coords = (false, s') → is_Some (get_area s id) ∧ s' = s.
Proof.
  unfold add_area. destruct (get_area s id); [|done]. intros [= <-]. eauto.
Qed.

Lemma areas_wf_add_area s id name coords b s' :
  areas_wf s → add_area s id name coords = (b, s') → areas_wf s'.
Proof.
  intros Hwf Hadd. destruct b; [|by apply add_area_false in Hadd as [_ ->]].
  apply add_area_true in Hadd as [Hnone ->].
  pose proof (new_address_fresh (area_store s)) as Hfresh.
  set (l := new_address (area_store s)) in *.
  destruct Hwf as [W1 W2 W3 W4 W5].
  assert (Hat : ∀ p a, area_store s !! p = Some a →
            <[l := Area.mk id name coords None []]> (area_store s) !! p = Some a).
  { intros p a Hp. rewrite lookup_insert_ne; [done|]. congruence. }
  split; unfold area_at, get_area in *; simpl.
  - intros i p [[<- <-]|[Hne Hp]]%lookup_insert_Some.
    + rewrite lookup_insert_eq. eauto.
    + destruct (W1 _ _ Hp) as (a & Ha & Hi). eauto.
  - intros p a [[<- <-]|[Hne Hp]]%lookup_insert_Some; simpl.
    + apply lookup_insert_eq.
    + rewrite lookup_insert_ne; [by apply W2|].
      intros Heq. apply W2 in Hp. rewrite <- Heq in Hp. congruence.
  - intros p a q [[<- <-]|[Hne Hp]]%lookup_insert_Some; [done|].
    intros Hq. destruct (W3 _ _ _ Hp Hq) as (b & Hb & Hin). eauto.
  - intros q b p [[<- <-]|[Hne Hq]]%lookup_insert_Some; simpl.
    + by intros ?%elem_of_nil.
    + intros Hp. destruct (W4 _ _ _ Hq Hp) as (a & Ha & Hpa). eauto.
  - intros q b [[<- <-]|[Hne Hq]]%lookup_insert_Some; simpl.
    + apply NoDup_nil_2.
    + by eapply W5.
Qed.

Lemma add_subarea_to_area_false s id parentid s' :
  add_subarea_to_area s id parentid = Some (false, s') → s' = s.
Proof.
  unfold add_subarea_to_area.
  destruct (get_area s id) as [p|]; [|by intros [= <-]].
  destruct (get_area s parentid) as [q|]; [|by intros [= <-]].
  intros (sub & _ & H)%option_bind_Some.
  destruct (Area.parent_area sub); [by injection H as <-|].
  by apply option_bind_Some in H as (par & _ & [=]).
Qed.

(** The store after a successful [add_subarea_to_area]. *)
Lemma add_subarea_to_area_true s id parentid s' :
  add_subarea_to_area s id parentid = Some (true, s') →
  ∃ ls lp sub par,
    get_area s id = Some ls ∧ get_area s parentid = Some lp
    ∧ area_at s ls = Some sub ∧ Area.parent_area sub = None
    ∧ area_at s lp = Some par
    ∧ areas_by_id_ s' = areas_by_id_ s
    ∧ ∀ x, area_at s' x
           = match area_at s x with
             | Some a =>
                 Some (Area.mk (Area.id a) (Area.name a) (Area.coordinates a)
                         (if decide (x = ls) then Some lp
                          else Area.parent_area a)
                         (if decide (x = lp) then Area.subareas a ++ [ls]
                          else Area.subareas a))
             | None => None
             end.
Proof.
  unfold add_subarea_to_area.
  destruct (get_area s id) as [ls|]; [|done].
  destruct (get_area s parentid) as [lp|]; [|done].
  intros (sub & Hsub & H)%option_bind_Some.
  destruct (Area.parent_area sub) eqn:Hpar; [done|].
  apply option_bind_Some in H as (par & Hpar' & [= <-]).
  unfold area_at in *. simpl in Hpar'.
  assert (Hlp : ∃ par0, area_store s !! lp = Some par0).
  { destruct (decide (lp = ls)) as [->|Hne]; [eauto|].
    rewrite lookup_insert_ne in Hpar' by done. eauto. }
  destruct Hlp as [par0 Hpar0].
  exists ls, lp, sub, par0. split; [done|]. split; [done|]. split; [done|].
  split; [done|]. split; [done|]. split; [done|].
  intros x. simpl.
  destruct (decide (x = lp)) as [->|Hxp].
  - rewrite lookup_insert_eq, Hpar0. f_equal.
    destruct (decide (lp = ls)) as [->|Hne].
    + rewrite lookup_insert_eq in Hpar'. injection Hpar' as <-. simpl.
      by simplify_eq.
    + rewrite lookup_insert_ne in Hpar' by done. by simplify_eq.
  - rewrite lookup_insert_ne by done.
    destruct (decide (x = ls)) as [->|Hxs].
    + rewrite lookup_insert_eq, Hsub. done.
    + rewrite lookup_insert_ne by done.
      destruct (area_store s !! x) as [[]|]; done.
Qed.

Lemma areas_wf_add_subarea_to_area s id parentid b s' :
  areas_wf s → add_subarea_to_area s id parentid = Some (b, s') → areas_wf s'.
Proof.
  intros Hwf Hadd.
  destruct b; [|by apply add_subarea_to_area_false in Hadd as ->].
  apply add_subarea_to_area_true in Hadd
    as (ls & lp & sub & par & Hls & Hlp & Hsub & Hnop & Hpar & Hby & Hat).
  destruct Hwf as [W1 W2 W3 W4 W5].
  assert (Hget : ∀ i, get_area s' i = get_area s i)
    by (intros i; unfold get_area; by rewrite Hby).
  split.
  - intros i p Hp. rewrite Hget in Hp. destruct (W1 _ _ Hp) as (a & Ha & Hi).
    rewrite Hat, Ha. eauto.
  - intros p a. rewrite Hat, Hget.
    destruct (area_at s p) as [a0|] eqn:Ha0; [|done].
    intros [= <-]. simpl. by apply W2.
  - intros p a q. rewrite Hat.
    destruct (area_at s p) as [a0|] eqn:Ha0; [|done].
    intros [= <-]. simpl. case_decide as Hp.
    + intros [= <-]. subst p. rewrite Hat, Hpar. eexists. split; [done|].
      simpl. rewrite decide_True by done. apply elem_of_app. right. by left.
    + intros Hq. destruct (W3 _ _ _ Ha0 Hq) as (b & Hb & Hin).
      rewrite Hat, Hb. eexists. split; [done|]. simpl.
      case_decide; [|done]. apply elem_of_app. by left.
  - intros q b p. rewrite Hat.
    destruct (area_at s q) as [b0|] eqn:Hb0; [|done].
    intros [= <-]. simpl.
    assert (Hold : p ∈ Area.subareas b0 →
              ∃ a, area_at s' p = Some a ∧ Area.parent_area a = Some q).
    { intros Hp. destruct (W4 _ _ _ Hb0 Hp) as (a & Ha & Hpa).
      rewrite Hat, Ha. eexists. split; [done|]. simpl.
      rewrite decide_False; [done|]. intros ->. congruence. }
    case_decide as Hq; [|done].
    intros [Hp|Hp%list_elem_of_singleton]%elem_of_app; [by apply Hold|].
    subst. rewrite Hat, Hsub. eexists. split; [done|]. simpl.
    by rewrite decide_True.
  - intros q b. rewrite Hat.
    destruct (area_at s q) as [b0|] eqn:Hb0; [|done].
    intros [= <-]. simpl. case_decide as Hq; [|by eapply W5].
    subst q. apply NoDup_app. split; [by eapply W5|].
    split; [|apply NoDup_singleton].
    intros p Hp ->%list_elem_of_singleton.
    destruct (W4 _ _ _ Hb0 Hp) as (a & Ha & Hpa). congruence.
Qed.

Lemma run_place_areas_kept s c s' :
  run_place s c = Some s' →
  match c with
  | Add_area _ _ _ | Add_subarea_to_area _ _ | Clear_all => True
  | _ => areas_kept s s'
  end.
Proof.
  destruct c; simpl; try done.
  - intros [= <-]. unfold add_place. by case_match.
  - unfold remove_place. intros (r & Hr & ->)%fmap_Some.
    destruct (get_place s id); [|by simplify_eq].
    apply option_bind_Some in Hr as (p & _ & Hr).
    apply option_bind_Some in Hr as (rn & _ & Hr).
    apply option_bind_Some in Hr as (rt & _ & Hr). by simplify_eq.
  - unfold change_place_name. intros (r & Hr & ->)%fmap_Some.
    destruct (get_place s id); [|by simplify_eq].
    apply option_bind_Some in Hr as (p & _ & Hr).
    apply option_bind_Some in Hr as (rn & _ & Hr). by simplify_eq.
  - unfold change_place_coord. intros (r & Hr & ->)%fmap_Some.
    destruct (get_place s id); [|by simplify_eq].
    apply option_bind_Some in Hr as (p & _ & Hr). by simplify_eq.
  - rewrite places_alphabetically_unfold. intros (r & Hr & ->)%fmap_Some.
    destruct (alphabetical_sorted_ s); [by simplify_eq|].
    apply option_bind_Some in Hr as (ids & _ & Hr). by simplify_eq.
  - rewrite places_coord_order_unfold. intros (r & Hr & ->)%fmap_Some.
    destruct (coordinate_sorted_ s); [by simplify_eq|].
    apply option_bind_Some in Hr as (ids & _ & Hr). by simplify_eq.
  - by intros [= <-].
Qed.

Lemma run_place_areas_wf s c s' :
  areas_wf s → run_place s c = Some s' → areas_wf s'.
Proof.
  intros Hwf Hrun. pose proof (run_place_areas_kept _ _ _ Hrun) as Hkept.
  destruct c; try (destruct Hkept; by eapply areas_wf_same).
  - simpl in Hrun. injection Hrun as <-.
    destruct (add_area s id name coords) as [b s1] eqn:Hadd.
    by eapply areas_wf_add_area.
  - simpl in Hrun. apply fmap_Some in Hrun as ([b s1] & Hadd & ->).
    by eapply areas_wf_add_subarea_to_area.
  - simpl in Hrun. injection Hrun as <-. apply areas_wf_clear_all.
Qed.

Lemma run_places_areas_wf cs : ∀ s s',
  areas_wf s → run_places s cs = Some s' → areas_wf s'.
Proof.
  induction cs as [|c cs IH]; intros s s' Hwf; simpl.
  - by intros [= <-].
  - destruct (run_place s c) as [s1|] eqn:Hrun; [|done]. simpl.
    apply IH. by eapply run_place_areas_wf.
Qed.

Lemma reachable_areas_wf s : reachable_places s → areas_wf s.
Proof.
  intros (cs & Hrun). eapply run_places_areas_wf; [apply areas_wf_new | done].
Qed.

(** ** Parent chains *)

Lemma elem_of_all_areas s i : i ∈ all_areas s ↔ is_Some (get_area s i).
Proof.
  unfold all_areas, get_area. rewrite list_elem_of_fmap. split.
  - intros ([k w] & -> & Hin%elem_of_map_to_list). eauto.
  - intros [w Hw]. exists (i, w). split; [done|]. by apply elem_of_map_to_list.
Qed.

Lemma chain_valid s x l : chain s x l → is_Some (area_at s x).
Proof.
  destruct l as [|q l]; simpl; [intros (a & -> & _)|intros [(a & -> & _) _]];
    eauto.
Qed.

Lemma chain_det s l : ∀ x l', chain s x l → chain s x l' → l = l'.
Proof.
  induction l as [|q l IH]; intros x [|q' l']; simpl.
  - done.
  - intros (a & Ha & Hp) [(a' & Ha' & Hp') _]. congruence.
  - intros [(a & Ha & Hp) _] (a' & Ha' & Hp'). congruence.
  - intros [(a & Ha & Hp) Hc] [(a' & Ha' & Hp') Hc'].
    assert (q = q') as <- by congruence. f_equal. by eapply IH.
Qed.

Lemma chain_suffix s l1 : ∀ x y l2, chain s x (l1 ++ y :: l2) → chain s y l2.
Proof.
  induction l1 as [|q l1 IH]; intros x y l2; simpl.
  - by intros [_ Hc].
  - intros [_ Hc]. by eapply IH.
Qed.

Lemma chain_elem_valid s x l y : chain s x l → y ∈ l → is_Some (area_at s y).
Proof.
  intros Hc (l1 & l2 & ->)%list_elem_of_split.
  eapply chain_valid, chain_suffix, Hc.
Qed.

Lemma area_ids_length s x l : chain s x l → length (area_ids s l) = length l.
Proof.
  revert x. induction l as [|q l IH]; intros x; [done|].
  intros [_ Hc]. unfold area_ids. cbn [omap list_omap].
  destruct (chain_valid _ _ _ Hc) as [b ->]. simpl. f_equal. by eapply IH.
Qed.

Lemma elem_of_area_ids s l i :
  i ∈ area_ids s l ↔ ∃ p a, p ∈ l ∧ area_at s p = Some a ∧ Area.id a = i.
Proof.
  unfold area_ids. rewrite list_elem_of_omap. split.
  - intros (p & Hp & (a & Ha & ->)%fmap_Some). eauto.
  - intros (p & a & Hp & Ha & <-). exists p. split; [done|]. by rewrite Ha.
Qed.

Lemma parents_loop_chain s l : ∀ x acc fuel,
  chain s x l → (length l < fuel)%nat →
  parents_loop fuel s x acc = Value (acc ++ area_ids s l).
Proof.
  induction l as [|q l IH]; intros x acc [|fuel] Hc Hlen; simpl in Hlen;
    try lia; simpl.
  - destruct Hc as (a & Ha & Hp). rewrite Ha. simpl. rewrite Hp.
    by rewrite app_nil_r.
  - destruct Hc as [(a & Ha & Hp) Hc]. rewrite Ha. simpl. rewrite Hp.
    destruct (chain_valid _ _ _ Hc) as [b Hb]. rewrite Hb. simpl.
    rewrite (IH q _ fuel Hc) by lia.
    unfold area_ids. cbn [omap list_omap]. by rewrite <- app_assoc.
Qed.

Lemma parents_loop_Value fuel : ∀ s x acc r,
  parents_loop fuel s x acc = Value r →
  ∃ l, chain s x l ∧ (length l < fuel)%nat ∧ r = acc ++ area_ids s l.
Proof.
  induction fuel as [|fuel IH]; intros s x acc r; simpl; [done|].
  destruct (area_at s x) as [a|] eqn:Ha; [|done]. simpl.
  destruct (Area.parent_area a) as [q|] eqn:Hq.
  - destruct (area_at s q) as [b|] eqn:Hb; [|done]. simpl.
    intros (l & Hc & Hlen & ->)%IH. exists (q :: l). simpl.
    split; [eauto|]. split; [lia|].
    unfold area_ids. cbn [omap list_omap]. rewrite Hb. simpl.
    by rewrite <- app_assoc.
  - intros [= <-]. exists []. simpl. split; [eauto|]. split; [lia|].
    by rewrite app_nil_r.
Qed.

(** What [subarea_in_areas] returns for a known area, in terms of its
    chain of parents. *)
Lemma subarea_in_areas_Value s id p fuel ps :
  get_area s id = Some p →
  subarea_in_areas fuel s id = Value ps ↔
  ∃ l, chain s p l ∧ (length l < fuel)%nat ∧ ps = area_ids s l.
Proof.
  intros Hp. unfold subarea_in_areas. rewrite Hp. split.
  - by intros ?%parents_loop_Value.
  - intros (l & Hc & Hlen & ->). by rewrite (parents_loop_chain s l).
Qed.

Lemma all_areas_insert s s' id p :
  get_area s id = None → areas_by_id_ s' = <[id := p]> (areas_by_id_ s) →
  all_areas s' ≡ₚ id :: all_areas s.
Proof.
  intros Hnone Heq. unfold all_areas. rewrite Heq.
  by rewrite map_to_list_insert.
Qed.

(** X18: in every reachable state [add_area] with an identifier that is not in
    use returns true.  Afterwards [get_area_name] and [get_area_coords]
    return the given name and coordinates, [all_areas] holds the identifier
    besides the old ones, the area has neither parent areas nor subareas,
    every other area is as it was, and a second [add_area] with the
    identifier returns false and changes nothing. *)
Theorem add_area_then_lookup s id name coords :
  reachable_places s → id ∉ all_areas s →
  ∃ s', add_area s id name coords = (true, s')
    ∧ get_area_name s' id = Some name
    ∧ get_area_coords s' id = Some coords
    ∧ all_areas s' ≡ₚ id :: all_areas s
    ∧ (∀ fuel, fuel ≠ 0%nat →
         subarea_in_areas fuel s' id = Value []
         ∧ all_subareas_in_area fuel s' id = Value [])
    ∧ (∀ j, j ≠ id → area_of s' j = area_of s j)
    ∧ add_area s' id name coords = (false, s').
Proof.
  intros Hwf%reachable_areas_wf Hnew.
  assert (Hnone : get_area s id = None).
  { apply eq_None_not_Some. by rewrite <- elem_of_all_areas. }
  destruct (add_area s id name coords) as [b s'] eqn:Hadd.
  destruct b; [|apply add_area_false in Hadd as [[? ?] _]; congruence].
  exists s'. split; [done|].
  pose proof Hadd as [_ Hs']%add_area_true.
  pose proof (new_address_fresh (area_store s)) as Hfresh.
  set (l := new_address (area_store s)) in *.
  assert (Hg : get_area s' id = Some l).
  { rewrite Hs'. unfold get_area. simpl. apply lookup_insert_eq. }
  assert (Ha : area_at s' l = Some (Area.mk id name coords None [])).
  { rewrite Hs'. unfold area_at. simpl. apply lookup_insert_eq. }
  unfold get_area_name, get_area_coords. rewrite Hg, Ha. simpl.
  split; [done|]. split; [done|].
  split; [apply (all_areas_insert s s' id l Hnone); by rewrite Hs'|].
  split.
  { intros [|fuel] Hfuel; [done|].
    unfold subarea_in_areas, all_subareas_in_area. rewrite Hg. simpl.
    by rewrite Ha. }
  split.
  { intros j Hj. unfold area_of.
    assert (Hgj : get_area s' j = get_area s j).
    { rewrite Hs'. unfold get_area. simpl. by rewrite lookup_insert_ne. }
    rewrite Hgj. destruct (get_area s j) as [p|] eqn:Hp; [|done]. simpl.
    destruct (aw_id s Hwf _ _ Hp) as (a & Hpa & _).
    rewrite Hs'. unfold area_at in *. simpl.
    rewrite lookup_insert_ne; [done|]. congruence. }
  unfold add_area. by rewrite Hg.
Qed.

Lemma add_area_then_lookup_witness :
  ∃ s', add_area sample_places 14 "E" [mkCoord 1 2; mkCoord 3 4] = (true, s')
    ∧ get_area_name s' 14 = Some "E"%string
    ∧ get_area_coords s' 14 = Some [mkCoord 1 2; mkCoord 3 4]
    ∧ all_areas s' ≡ₚ 14 :: all_areas sample_places
    ∧ (∀ fuel, fuel ≠ 0%nat →
         subarea_in_areas fuel s' 14 = Value []
         ∧ all_subareas_in_area fuel s' 14 = Value [])
    ∧ (∀ j, j ≠ 14 → area_of s' j = area_of sample_places j)
    ∧ add_area s' 14 "E" [mkCoord 1 2; mkCoord 3 4] = (false, s').
Proof.
  apply (add_area_then_lookup sample_places 14 "E" [mkCoord 1 2; mkCoord 3 4]).
  - exact sample_places_reachable.
  - rewrite elem_of_all_areas. vm_compute. by intros [? ?].
Defined.

(** ** Making an area a subarea *)

Lemma add_subarea_to_area_succeeds s id parentid ls lp sub par :
  get_area s id = Some ls → get_area s parentid = Some lp →
  area_at s ls = Some sub → Area.parent_area sub = None →
  area_at s lp = Some par →
  ∃ s', add_subarea_to_area s id parentid = Some (true, s').
Proof.
  intros Hls Hlp Hsub Hnop Hpar. unfold add_subarea_to_area.
  rewrite Hls, Hlp, Hsub. simpl. rewrite Hnop.
  unfold area_at in *. simpl.
  destruct (decide (lp = ls)) as [->|Hne].
  - rewrite lookup_insert_eq. simpl. eauto.
  - rewrite lookup_insert_ne by done. rewrite Hpar. simpl. eauto.
Qed.

Section add_subarea.
Context (s s' : Places) (ls lp : address).
Context (Hat : ∀ x, area_at s' x
           = match area_at s x with
             | Some a =>
                 Some (Area.mk (Area.id a) (Area.name a) (Area.coordinates a)
                         (if decide (x = ls) then Some lp
                          else Area.parent_area a)
                         (if decide (x = lp) then Area.subareas a ++ [ls]
                          else Area.subareas a))
             | None => None
             end).

Lemma add_subarea_parent x a :
  area_at s x = Some a → x ≠ ls →
  ∃ a', area_at s' x = Some a' ∧ Area.parent_area a' = Area.parent_area a.
Proof.
  intros Ha Hx. rewrite Hat, Ha. eexists. split; [done|]. simpl.
  by rewrite decide_False.
Qed.

Lemma add_subarea_chain l : ∀ x, chain s x l → ls ∉ x :: l → chain s' x l.
Proof.
  induction l as [|q l IH]; intros x; simpl.
  - intros (a & Ha & Hp) Hx.
    destruct (add_subarea_parent x a Ha) as (a' & Ha' & Hp').
    { intros ->. apply Hx. by left. }
    exists a'. split; [done|]. congruence.
  - intros [(a & Ha & Hp) Hc] Hx.
    destruct (add_subarea_parent x a Ha) as (a' & Ha' & Hp').
    { intros ->. apply Hx. by left. }
    split; [exists a'; split; [done|congruence]|].
    apply IH; [done|]. intros Hin. apply Hx. by right.
Qed.

Lemma add_subarea_ids l : area_ids s' l = area_ids s l.
Proof.
  unfold area_ids. induction l as [|p l IH]; [done|].
  cbn [omap list_omap]. rewrite IH, Hat. by destruct (area_at s p).
Qed.

End add_subarea.

(** Every area on a chain but the last has its parent on the chain. *)
Lemma chain_parent_on_chain s ls l : ∀ x0 x,
  chain s x0 l → ls ∈ l → chain s ls [] → x ∈ x0 :: l → x ≠ ls →
  ∃ a q, area_at s x = Some a ∧ Area.parent_area a = Some q ∧ q ∈ l.
Proof.
  induction l as [|q l IH]; intros x0 x Hc Hls Hend Hx Hne.
  - by apply elem_of_nil in Hls.
  - destruct Hc as [(a & Ha & Hp) Hc].
    apply elem_of_cons in Hx as [->|Hx].
    { exists a, q. split; [done|]. split; [done|]. by left. }
    apply elem_of_cons in Hls as [->|Hls].
    + pose proof (chain_det _ _ _ _ Hc Hend) as ->.
      apply list_elem_of_singleton in Hx. done.
    + destruct (IH q x Hc Hls Hend Hx Hne) as (a' & q' & Ha' & Hp' & Hq').
      exists a', q'. split; [done|]. split; [done|]. by right.
Qed.

(** Every area on a chain is the parent of the one before it. *)
Lemma chain_child_on_chain s l : ∀ x0 q,
  chain s x0 l → q ∈ l →
  ∃ y a, y ∈ x0 :: l ∧ area_at s y = Some a ∧ Area.parent_area a = Some q.
Proof.
  induction l as [|q0 l IH]; intros x0 q Hc Hq.
  - by apply elem_of_nil in Hq.
  - destruct Hc as [(a & Ha & Hp) Hc].
    apply elem_of_cons in Hq as [->|Hq].
    + exists x0, a. split; [by left|]. done.
    + destruct (IH q0 q Hc Hq) as (y & b & Hy & Hb & Hpb).
      exists y, b. split; [by right|]. done.
Qed.

Lemma get_children_defined s : areas_wf s → ∀ fuel x,
  is_Some (area_at s x) → get_children fuel s x ≠ Undefined.
Proof.
  intros Hwf. induction fuel as [|fuel IH]; intros x [a Ha]; simpl; [done|].
  rewrite Ha. simpl.
  assert (Hall : ∀ c, c ∈ Area.subareas a → is_Some (area_at s c)).
  { intros c Hc. destruct (aw_child s Hwf _ _ _ Ha Hc) as (b & Hb & _). eauto. }
  generalize (@nil AreaID). induction (Area.subareas a) as [|c cs IHc];
    intros acc; simpl; [done|].
  destruct (Hall c) as [b Hb]; [by left|]. rewrite Hb. simpl.
  pose proof (IH c (Hall c ltac:(by left))) as Hrec.
  destruct (get_children fuel s c); simpl; [|done|done].
  apply IHc. intros c' Hc'. apply Hall. by right.
Qed.

Lemma children_loop_Unfinished rec s cs : ∀ acc,
  (∀ c, c ∈ cs → is_Some (area_at s c) ∧ rec c ≠ Undefined) →
  (∃ y, y ∈ cs ∧ rec y = Unfinished) →
  children_loop rec s cs acc = Unfinished.
Proof.
  induction cs as [|c cs IH]; intros acc Hall (y & Hy & Hrec).
  - by apply elem_of_nil in Hy.
  - simpl. destruct (Hall c) as [[b Hb] Hdef]; [by left|]. rewrite Hb. simpl.
    destruct (rec c) as [r| |] eqn:Hc; simpl; [|done|done].
    apply IH.
    + intros c' Hc'. apply Hall. by right.
    + apply elem_of_cons in Hy as [->|Hy]; [congruence|]. eauto.
Qed.

(** A set of areas closed under taking the parent: the loop of
    [subarea_in_areas] does not leave it. *)
Lemma parents_loop_Unfinished s (C : address → Prop) :
  (∀ x, C x → ∃ a q, area_at s x = Some a ∧ Area.parent_area a = Some q ∧ C q) →
  ∀ fuel x acc, C x → parents_loop fuel s x acc = Unfinished.
Proof.
  intros Hclosed. induction fuel as [|fuel IH]; intros x acc Hx; [done|].
  simpl. destruct (Hclosed x Hx) as (a & q & Ha & Hp & Hq).
  rewrite Ha. simpl. rewrite Hp.
  destruct (Hclosed q Hq) as (b & _ & Hb & _). rewrite Hb. simpl.
  by apply IH.
Qed.

(** A set of areas each of which has a child in the set: the recursion of
    [all_subareas_in_area] does not leave it. *)
Lemma get_children_Unfinished s (C : address → Prop) :
  areas_wf s →
  (∀ x, C x → ∃ y a, C y ∧ area_at s y = Some a ∧ Area.parent_area a = Some x) →
  ∀ fuel x, C x → get_children fuel s x = Unfinished.
Proof.
  intros Hwf Hclosed. induction fuel as [|fuel IH]; intros x Hx; [done|].
  simpl. destruct (Hclosed x Hx) as (y & a & Hy & Ha & Hp).
  destruct (aw_parent s Hwf _ _ _ Ha Hp) as (b & Hb & Hin).
  rewrite Hb. simpl. apply children_loop_Unfinished.
  - intros c Hc. destruct (aw_child s Hwf _ _ _ Hb Hc) as (c' & Hc' & _).
    split; [eauto|]. apply get_children_defined; eauto.
  - exists y. split; [done|]. by apply IH.
Qed.

(** What the hypotheses of the two theorems below give. *)
Lemma add_subarea_to_area_setting s id parentid fuel0 fuel ps :
  areas_wf s →
  subarea_in_areas fuel0 s id = Value [] →
  parentid ∈ all_areas s →
  subarea_in_areas fuel s parentid = Value ps →
  ∃ ls lp sub par l s',
    get_area s id = Some ls ∧ get_area s parentid = Some lp
    ∧ area_at s ls = Some sub ∧ Area.id sub = id
    ∧ area_at s lp = Some par ∧ Area.id par = parentid
    ∧ chain s ls [] ∧ chain s lp l ∧ (length l < fuel)%nat
    ∧ ps = area_ids s l
    ∧ add_subarea_to_area s id parentid = Some (true, s')
    ∧ areas_wf s'
    ∧ (∀ i, get_area s' i = get_area s i)
    ∧ ∀ x, area_at s' x
           = match area_at s x with
             | Some a =>
                 Some (Area.mk (Area.id a) (Area.name a) (Area.coordinates a)
                         (if decide (x = ls) then Some lp
                          else Area.parent_area a)
                         (if decide (x = lp) then Area.subareas a ++ [ls]
                          else Area.subareas a))
             | None => None
             end.
Proof.
  intros Hwf Hid [lp Hlp]%elem_of_all_areas Hpar.
  destruct (get_area s id) as [ls|] eqn:Hls;
    [|unfold subarea_in_areas in Hid; by rewrite Hls in Hid].
  apply (subarea_in_areas_Value s id ls) in Hid as (l0 & Hc0 & _ & Hnil);
    [|done].
  assert (l0 = []) as ->.
  { apply length_zero_iff_nil. by rewrite <- (area_ids_length s ls), <- Hnil. }
  apply (subarea_in_areas_Value s parentid lp) in Hpar as (l & Hc & Hlen & ->);
    [|done].
  destruct (aw_id s Hwf _ _ Hls) as (sub & Hsub & Hsid).
  destruct (aw_id s Hwf _ _ Hlp) as (par & Hpar & Hpid).
  destruct Hc0 as (sub0 & Hsub0 & Hnop).
  assert (sub0 = sub) as -> by congruence.
  destruct (add_subarea_to_area_succeeds s id parentid ls lp sub par)
    as [s' Hadd]; try done.
  pose proof (areas_wf_add_subarea_to_area _ _ _ _ _ Hwf Hadd) as Hwf'.
  destruct (add_subarea_to_area_true _ _ _ _ Hadd)
    as (ls' & lp' & sub' & par' & Hls' & Hlp' & _ & _ & _ & Hby & Hat).
  assert (ls' = ls) as -> by congruence.
  assert (lp' = lp) as -> by congruence.
  exists ls, lp, sub, par, l, s'.
  repeat (split; [done || by (simpl; eauto)|]).
  split; [|done]. intros i. unfold get_area. by rewrite Hby.
Qed.

(** X19: in every reachable state, for an area [id] without a parent and
    another area [parentid] whose parent areas [ps] do not include [id],
    [add_subarea_to_area id parentid] returns true; afterwards
    [subarea_in_areas id] returns [parentid] followed by [ps], and every
    further [add_subarea_to_area] for [id] returns false and changes
    nothing. *)
Theorem add_subarea_to_area_parents s id parentid fuel0 fuel ps :
  reachable_places s →
  subarea_in_areas fuel0 s id = Value [] →
  parentid ∈ all_areas s →
  subarea_in_areas fuel s parentid = Value ps →
  id ≠ parentid → id ∉ ps →
  ∃ s', add_subarea_to_area s id parentid = Some (true, s')
    ∧ subarea_in_areas (S fuel) s' id = Value (parentid :: ps)
    ∧ ∀ other, add_subarea_to_area s' id other = Some (false, s').
Proof.
  intros Hwf%reachable_areas_wf Hid Hin Hpar Hne Hnotin.
  destruct (add_subarea_to_area_setting _ _ _ _ _ _ Hwf Hid Hin Hpar)
    as (ls & lp & sub & par & l & s' & Hls & Hlp & Hsub & Hsid & Hp & Hpid
        & Hc0 & Hc & Hlen & -> & Hadd & Hwf' & Hget & Hat).
  exists s'. split; [done|].
  assert (Hnot : ls ∉ lp :: l).
  { intros [->|Hl]%elem_of_cons; [congruence|].
    apply Hnotin, elem_of_area_ids. eauto. }
  split.
  - apply (subarea_in_areas_Value s' id ls); [by rewrite Hget|].
    exists (lp :: l). split; [|split; [simpl; lia|]].
    + simpl. split; [|by eapply add_subarea_chain].
      rewrite Hat, Hsub. eexists. split; [done|]. simpl.
      by rewrite decide_True.
    + unfold area_ids. cbn [omap list_omap]. rewrite Hat, Hp. simpl.
      fold (area_ids s' l). rewrite (add_subarea_ids s s' ls lp Hat).
      by rewrite Hpid.
  - intros other. unfold add_subarea_to_area. rewrite !Hget, Hls.
    destruct (get_area s other); [|done].
    rewrite Hat, Hsub. simpl. by rewrite decide_True.
Qed.

Lemma add_subarea_to_area_parents_witness :
  ∃ s', add_subarea_to_area sample_places 13 12 = Some (true, s')
    ∧ subarea_in_areas 4 s' 13 = Value [12; 11; 10]
    ∧ ∀ other, add_subarea_to_area s' 13 other = Some (false, s').
Proof.
  apply (add_subarea_to_area_parents sample_places 13 12 1 3 [11; 10]).
  - exact sample_places_reachable.
  - vm_compute. reflexivity.
  - rewrite elem_of_all_areas. vm_compute. eauto.
  - vm_compute. reflexivity.
  - done.
  - intros [?|[?|?%elem_of_nil]%elem_of_cons]%elem_of_cons; done.
Defined.

(** X20: [add_subarea_to_area] does not check for cycles.  In every reachable
    state, for an area [id] without a parent, [add_subarea_to_area id
    parentid] returns true also when [parentid] is [id] itself or an area
    that has [id] among its parent areas; afterwards neither
    [subarea_in_areas id] nor [all_subareas_in_area id] returns, whatever
    the number of loop rounds and nested calls. *)
Theorem add_subarea_to_area_cycle s id parentid fuel0 fuel ps :
  reachable_places s →
  subarea_in_areas fuel0 s id = Value [] →
  parentid ∈ all_areas s →
  subarea_in_areas fuel s parentid = Value ps →
  id = parentid ∨ id ∈ ps →
  ∃ s', add_subarea_to_area s id parentid = Some (true, s')
    ∧ ∀ n, subarea_in_areas n s' id = Unfinished
           ∧ all_subareas_in_area n s' id = Unfinished.
Proof.
  intros Hwf%reachable_areas_wf Hid Hin Hpar Hcyc.
  destruct (add_subarea_to_area_setting _ _ _ _ _ _ Hwf Hid Hin Hpar)
    as (ls & lp & sub & par & l & s' & Hls & Hlp & Hsub & Hsid & Hp & Hpid
        & Hc0 & Hc & Hlen & -> & Hadd & Hwf' & Hget & Hat).
  exists s'. split; [done|].
  assert (Hon : ls = lp ∨ ls ∈ l).
  { destruct Hcyc as [->|(p & a & Hpl & Ha & Hi)%elem_of_area_ids].
    - left. congruence.
    - right. apply (aw_registered s Hwf) in Ha. rewrite Hi in Ha.
      by assert (p = ls) as -> by congruence. }
  set (C := λ x, x = lp ∨ x ∈ l).
  assert (HC : C ls) by (destruct Hon; [by left|by right]).
  assert (Hup : ∀ x, C x →
            ∃ a q, area_at s' x = Some a ∧ Area.parent_area a = Some q ∧ C q).
  { intros x Hx. destruct (decide (x = ls)) as [->|Hxs].
    - rewrite Hat, Hsub. eexists _, lp. split; [done|]. simpl.
      rewrite decide_True by done. split; [done|]. by left.
    - assert (Hl : ls ∈ l).
      { destruct Hon as [->|Hl]; [|done].
        pose proof (chain_det _ _ _ _ Hc Hc0) as ->.
        destruct Hx as [->|Hx]; [done|]. by apply elem_of_nil in Hx. }
      destruct (chain_parent_on_chain s ls l lp x Hc Hl Hc0)
        as (a & q & Ha & Hpa & Hq); [by apply elem_of_cons|done|].
      destruct (add_subarea_parent s s' ls lp Hat x a Ha Hxs)
        as (a' & Ha' & Hpa').
      exists a', q. split; [done|]. split; [congruence|]. by right. }
  assert (Hdown : ∀ x, C x →
            ∃ y a, C y ∧ area_at s' y = Some a ∧ Area.parent_area a = Some x).
  { intros x [->|Hx].
    - exists ls. rewrite Hat, Hsub. eexists. split; [done|]. split; [done|].
      simpl. by rewrite decide_True.
    - destruct (chain_child_on_chain s l lp x Hc Hx) as (y & a & Hy & Ha & Hpa).
      assert (Hys : y ≠ ls).
      { intros ->. destruct Hc0 as (a0 & Ha0 & Hp0). congruence. }
      destruct (add_subarea_parent s s' ls lp Hat y a Ha Hys)
        as (a' & Ha' & Hpa').
      exists y, a'. split; [by apply elem_of_cons in Hy|].
      split; [done|congruence]. }
  intros n. unfold subarea_in_areas, all_subareas_in_area.
  rewrite Hget, Hls. split.
  - by apply (parents_loop_Unfinished s' C).
  - by apply (get_children_Unfinished s' C).
Qed.

Lemma add_subarea_to_area_cycle_witness :
  ∃ s', add_subarea_to_area sample_places 10 12 = Some (true, s')
    ∧ ∀ n, subarea_in_areas n s' 10 = Unfinished
           ∧ all_subareas_in_area n s' 10 = Unfinished.
Proof.
  apply (add_subarea_to_area_cycle sample_places 10 12 1 3 [11; 10]).
  - exact sample_places_reachable.
  - vm_compute. reflexivity.
  - rewrite elem_of_all_areas. vm_compute. eauto.
  - vm_compute. reflexivity.
  - right. apply list_elem_of_further, list_elem_of_here.
Defined.

(** ** The nearest common area *)

Lemma parent_chain_chain s l : ∀ x a acc fuel,
  chain s x l → area_at s x = Some a → (length l < fuel)%nat →
  parent_chain fuel s (Area.parent_area a) acc = Value (acc ++ l).
Proof.
  induction l as [|q l IH]; intros x a acc [|fuel] Hc Ha Hlen; simpl in Hlen;
    try lia; simpl.
  - destruct Hc as (a' & Ha' & Hp). assert (a' = a) as -> by congruence.
    rewrite Hp. by rewrite app_nil_r.
  - destruct Hc as [(a' & Ha' & Hp) Hc]. assert (a' = a) as -> by congruence.
    rewrite Hp. destruct (chain_valid _ _ _ Hc) as [b Hb]. rewrite Hb. simpl.
    rewrite (IH q b _ fuel Hc Hb) by lia. by rewrite <- app_assoc.
Qed.

Lemma mismatch_app w t1 t2 :
  mismatch (w ++ t1) (w ++ t2) = (length w + mismatch t1 t2)%nat.
Proof.
  induction w as [|x w IH]; [done|]. simpl. rewrite decide_True by done.
  by rewrite IH.
Qed.

Lemma mismatch_take l1 : ∀ l2,
  take (mismatch l1 l2) l1 = take (mismatch l1 l2) l2.
Proof.
  induction l1 as [|x l1 IH]; intros [|y l2]; simpl; try done.
  case_decide; [|done]. subst. simpl. by rewrite IH.
Qed.

Lemma mismatch_le l1 : ∀ l2, (mismatch l1 l2 ≤ length l1)%nat.
Proof.
  induction l1 as [|x l1 IH]; intros [|y l2]; simpl; try lia.
  case_decide; [|lia]. specialize (IH l2). lia.
Qed.

(** An area on both chains makes the chains agree from there on. *)
Lemma common_suffix_mismatch s x1 x2 l1 l2 q a1 b :
  chain s x1 l1 → chain s x2 l2 → l1 = a1 ++ q :: b → q ∈ l2 →
  (S (length b) ≤ mismatch (reverse l1) (reverse l2))%nat.
Proof.
  intros Hc1 Hc2 -> (a2 & b2 & ->)%list_elem_of_split.
  pose proof (chain_suffix _ _ _ _ _ Hc1) as Hq1.
  pose proof (chain_suffix _ _ _ _ _ Hc2) as Hq2.
  pose proof (chain_det _ _ _ _ Hq1 Hq2) as <-.
  rewrite !reverse_app, !reverse_cons, mismatch_app, length_app, length_reverse.
  simpl. lia.
Qed.

(** X21: in every reachable state, for two stored areas whose lists of parent
    areas are [ps1] and [ps2], [common_area_of_subareas] returns [NO_AREA]
    if the two lists share no area, and otherwise the first area of [ps1]
    that also is in [ps2]: the nearest common area.  The areas themselves
    do not count: only their parents do. *)
Theorem common_area_of_subareas_nearest s id1 id2 fuel1 fuel2 ps1 ps2 :
  reachable_places s → id1 ∈ all_areas s → id2 ∈ all_areas s →
  subarea_in_areas fuel1 s id1 = Value ps1 →
  subarea_in_areas fuel2 s id2 = Value ps2 →
  ∃ c,
    (∀ fuel, (fuel1 ≤ fuel)%nat → (fuel2 ≤ fuel)%nat →
       common_area_of_subareas fuel s id1 id2 = Value c)
    ∧ ((c = NO_AREA ∧ ∀ x, x ∈ ps1 → x ∉ ps2)
       ∨ (∃ u rest, ps1 = u ++ c :: rest ∧ c ∈ ps2 ∧ ∀ x, x ∈ u → x ∉ ps2)).
Proof.
  intros Hwf%reachable_areas_wf [p1 Hp1]%elem_of_all_areas
    [p2 Hp2]%elem_of_all_areas H1 H2.
  apply (subarea_in_areas_Value s id1 p1) in H1 as (l1 & Hc1 & Hlen1 & ->);
    [|done].
  apply (subarea_in_areas_Value s id2 p2) in H2 as (l2 & Hc2 & Hlen2 & ->);
    [|done].
  destruct (chain_valid _ _ _ Hc1) as [a1 Ha1].
  destruct (chain_valid _ _ _ Hc2) as [a2 Ha2].
  assert (Hrun : ∀ fuel, (fuel1 ≤ fuel)%nat → (fuel2 ≤ fuel)%nat →
    common_area_of_subareas fuel s id1 id2
    = match mismatch (reverse l1) (reverse l2) with
      | O => Value NO_AREA
      | S n => p ← defined (reverse l1 !! n);
               a ← defined (area_at s p); Value (Area.id a)
      end).
  { intros fuel Hf1 Hf2. unfold common_area_of_subareas.
    rewrite Hp1, Hp2, Ha1, Ha2. simpl.
    rewrite (parent_chain_chain s l1 p1 a1 [] fuel Hc1 Ha1) by lia.
    rewrite (parent_chain_chain s l2 p2 a2 [] fuel Hc2 Ha2) by lia.
    done. }
  destruct (mismatch (reverse l1) (reverse l2)) as [|n] eqn:Hn.
  - exists NO_AREA. split; [done|]. left. split; [done|].
    intros x (q & a & Hq & Ha & Hi)%elem_of_area_ids
      (q' & a' & Hq' & Ha' & Hi')%elem_of_area_ids.
    apply (aw_registered s Hwf) in Ha, Ha'.
    assert (q' = q) as -> by congruence.
    apply list_elem_of_split in Hq as (u & b & ->).
    pose proof (common_suffix_mismatch s p1 p2 _ l2 q u b Hc1 Hc2 eq_refl Hq').
    lia.
  - pose proof (mismatch_le (reverse l1) (reverse l2)) as Hle.
    pose proof (mismatch_take (reverse l1) (reverse l2)) as Htake.
    rewrite Hn in Hle, Htake.
    destruct (lookup_lt_is_Some_2 (reverse l1) n) as [p Hp]; [lia|].
    assert (Hp2' : reverse l2 !! n = Some p).
    { rewrite <- (lookup_take_lt (reverse l2) (S n) n) by lia.
      rewrite <- Htake. by rewrite lookup_take_lt by lia. }
    assert (Hin1 : p ∈ l1).
    { apply elem_of_reverse. by eapply list_elem_of_lookup_2. }
    assert (Hin2 : p ∈ l2).
    { apply elem_of_reverse. by eapply list_elem_of_lookup_2. }
    destruct (chain_elem_valid _ _ _ _ Hc1 Hin1) as [a Ha].
    exists (Area.id a). split.
    { intros fuel Hf1 Hf2. rewrite Hrun by done. rewrite Hp. simpl.
      by rewrite Ha. }
    right.
    assert (Hl1 : l1 = reverse (drop (S n) (reverse l1)) ++ p
                       :: reverse (take n (reverse l1))).
    { rewrite <- (reverse_involutive l1) at 1.
      rewrite <- (take_drop_middle (reverse l1) n p Hp) at 1.
      by rewrite reverse_app, reverse_cons, <- app_assoc. }
    set (u := reverse (drop (S n) (reverse l1))) in *.
    set (b := reverse (take n (reverse l1))) in *.
    assert (Hb : length b = n).
    { unfold b. rewrite length_reverse, length_take. lia. }
    exists (area_ids s u), (area_ids s b). split; [|split].
    + rewrite Hl1 at 1. unfold area_ids. rewrite omap_app.
      cbn [omap list_omap]. by rewrite Ha.
    + apply elem_of_area_ids. eauto.
    + intros x (q & aq & Hq & Haq & Hi)%elem_of_area_ids
        (q' & a' & Hq' & Ha' & Hi')%elem_of_area_ids.
      apply (aw_registered s Hwf) in Haq, Ha'.
      assert (q' = q) as -> by congruence.
      apply list_elem_of_split in Hq as (u1 & u2 & Hu).
      assert (Hl1' : l1 = u1 ++ q :: (u2 ++ p :: b)).
      { rewrite Hl1, Hu. by rewrite <- app_assoc. }
      pose proof (common_suffix_mismatch s p1 p2 l1 l2 q u1 _ Hc1 Hc2 Hl1' Hq')
        as Hge.
      rewrite Hn, length_app in Hge. simpl in Hge. lia.
Qed.

Lemma common_area_of_subareas_nearest_witness :
  ∃ c,
    (∀ fuel, (3 ≤ fuel)%nat → (2 ≤ fuel)%nat →
       common_area_of_subareas fuel sample_places 12 11 = Value c)
    ∧ ((c = NO_AREA ∧ ∀ x, x ∈ [11; 10] → x ∉ [10])
       ∨ (∃ u rest, [11; 10] = u ++ c :: rest ∧ c ∈ [10]
                    ∧ ∀ x, x ∈ u → x ∉ [10])).
Proof.
  apply (common_area_of_subareas_nearest sample_places 12 11 3 2 [11; 10] [10]).
  - exact sample_places_reachable.
  - rewrite elem_of_all_areas. vm_compute. eauto.
  - rewrite elem_of_all_areas. vm_compute. eauto.
  - vm_compute. reflexivity.
  - vm_compute. reflexivity.
Defined.

(** ** All the subareas of an area *)

Lemma chain_NoDup s l : ∀ x, chain s x l → NoDup (x :: l).
Proof.
  induction l as [|q l IH]; intros x Hc.
  - apply NoDup_singleton.
  - apply NoDup_cons. split; [|destruct Hc as [_ Hc]; by apply IH].
    intros (u & b & Hl)%list_elem_of_split.
    pose proof Hc as Hc'. rewrite Hl in Hc'. apply chain_suffix in Hc'.
    pose proof (chain_det _ _ _ _ Hc Hc') as Heq.
    apply (f_equal length) in Heq. rewrite Hl, length_app in Heq.
    simpl in Heq. lia.
Qed.

Lemma chain_bound s x l : chain s x l → (length l < size (area_store s))%nat.
Proof.
  intros Hc. pose proof (chain_NoDup _ _ _ Hc) as Hnd.
  assert (Hsub : list_to_set (C := gset address) (x :: l)
                 ⊆ dom (area_store s)).
  { intros y Hy%elem_of_list_to_set. apply elem_of_dom.
    apply elem_of_cons in Hy as [->|Hy].
    - by eapply chain_valid.
    - by eapply chain_elem_valid. }
  apply subseteq_size in Hsub.
  rewrite size_list_to_set, size_dom in Hsub by done. simpl in Hsub. lia.
Qed.

Lemma children_loop_ext (rec rec' : address → result (list AreaID)) s cs :
  (∀ c r, rec c = Value r → rec' c = Value r) →
  ∀ acc r, children_loop rec s cs acc = Value r →
           children_loop rec' s cs acc = Value r.
Proof.
  intros Hext. induction cs as [|c cs IH]; intros acc r; simpl; [done|].
  destruct (area_at s c); [|done]. simpl.
  destruct (rec c) as [rc| |] eqn:Hc; [|done|done].
  rewrite (Hext c rc Hc). simpl. apply IH.
Qed.

Lemma get_children_mono s fuel : ∀ fuel' x r,
  (fuel ≤ fuel')%nat → get_children fuel s x = Value r →
  get_children fuel' s x = Value r.
Proof.
  induction fuel as [|fuel IH]; intros [|fuel'] x r Hle; simpl; try done;
    try lia.
  destruct (area_at s x) as [a|]; [|done]. simpl.
  apply children_loop_ext. intros c rc. apply IH. lia.
Qed.

Lemma children_loop_total rec s cs : ∀ acc,
  (∀ c, c ∈ cs → is_Some (area_at s c) ∧ ∃ r, rec c = Value r) →
  ∃ r, children_loop rec s cs acc = Value r.
Proof.
  induction cs as [|c cs IH]; intros acc Hall; simpl; [eauto|].
  destruct (Hall c) as [[b ->] [rc ->]]; [by left|]. simpl.
  apply IH. intros c' Hc'. apply Hall. by right.
Qed.

(** What the loop of [get_children] collects: for each child its
    identifier, followed by what the call on the child returned. *)
Lemma children_loop_Value rec s cs : ∀ acc r,
  children_loop rec s cs acc = Value r →
  ∀ i, i ∈ r ↔
       i ∈ acc ∨ ∃ c b rc, c ∈ cs ∧ area_at s c = Some b ∧ rec c = Value rc
                           ∧ (i = Area.id b ∨ i ∈ rc).
Proof.
  induction cs as [|c cs IH]; intros acc r; simpl.
  - intros [= <-] i. split; [by left|].
    intros [?|(c & ? & ? & ?%elem_of_nil & _)]; done.
  - destruct (area_at s c) as [b|] eqn:Hb; [|done]. simpl.
    destruct (rec c) as [rc| |] eqn:Hc; [|done|done]. simpl.
    intros Hloop i. rewrite (IH _ _ Hloop i), !elem_of_app.
    rewrite list_elem_of_singleton. split.
    + intros [[[Hi|Hi]|Hi]|(c' & b' & rc' & Hc' & Hrest)].
      * by left.
      * right. exists c, b, rc. split; [by left|]. eauto.
      * right. exists c, b, rc. split; [by left|]. eauto.
      * right. exists c', b', rc'. split; [by right|]. done.
    + intros [Hi|(c' & b' & rc' & Hc' & Hb' & Hrc' & Hi)]; [by left; left; left|].
      apply elem_of_cons in Hc' as [->|Hc'].
      * assert (b' = b) as -> by congruence.
        assert (rc' = rc) as -> by congruence.
        destruct Hi; [by left; left; right|by left; right].
      * right. exists c', b', rc'. eauto.
Qed.

Lemma children_loop_rec_Value rec s cs : ∀ acc r,
  children_loop rec s cs acc = Value r →
  ∀ c, c ∈ cs → ∃ rc, rec c = Value rc.
Proof.
  induction cs as [|c cs IH]; intros acc r; simpl.
  - by intros _ c ?%elem_of_nil.
  - destruct (area_at s c) as [b|] eqn:Hb; [|done]. simpl.
    destruct (rec c) as [rc| |] eqn:Hc; [|done|done]. simpl.
    intros Hloop c' [->|Hc']%elem_of_cons; [eauto|]. by eapply IH.
Qed.

(** The loop of [get_children] returns no identifier twice when the calls
    on the children do not, and what two children contribute is
    disjoint. *)
Lemma children_loop_NoDup rec s cl : ∀ acc r,
  NoDup cl → NoDup acc →
  (∀ c b rc, c ∈ cl → area_at s c = Some b → rec c = Value rc →
             NoDup (Area.id b :: rc)) →
  (∀ c b rc i, c ∈ cl → area_at s c = Some b → rec c = Value rc →
               i ∈ Area.id b :: rc → i ∉ acc) →
  (∀ c c' b b' rc rc' i,
     c ∈ cl → c' ∈ cl → area_at s c = Some b → area_at s c' = Some b' →
     rec c = Value rc → rec c' = Value rc' →
     i ∈ Area.id b :: rc → i ∈ Area.id b' :: rc' → c = c') →
  children_loop rec s cl acc = Value r → NoDup r.
Proof.
  induction cl as [|c cl IH]; intros acc r Hcl Hacc Hone Hfresh Hdisj; simpl.
  - by intros [= <-].
  - destruct (area_at s c) as [b|] eqn:Hb; [|done]. simpl.
    destruct (rec c) as [rc| |] eqn:Hrc; [|done|done]. simpl.
    apply NoDup_cons in Hcl as [Hc Hcl].
    apply IH; try done.
    + rewrite <- app_assoc. apply NoDup_app. split; [done|].
      split; [|apply (Hone c b rc); [by left|done|done]].
      intros i Hi Hi'.
      apply (Hfresh c b rc i); [by left|done|done|done|done].
    + intros c' b' rc' Hin. apply Hone. by right.
    + intros c' b' rc' i Hin Hb' Hrc' Hi.
      rewrite <- app_assoc. intros [Hi'|Hi']%elem_of_app.
      * apply (Hfresh c' b' rc' i); [by right|done|done|done|done].
      * assert (c' = c); [|by subst].
        apply (Hdisj c' c b' b rc' rc i); try done; [by right|by left].
    + intros c1 c2 b1 b2 rc1 rc2 i Hin1 Hin2. apply Hdisj; by right.
Qed.

Section below.
Context (s : Places) (Hwf : areas_wf s).

Lemma get_children_total : ∀ k x lx,
  chain s x lx → (size (area_store s) - length lx ≤ k)%nat →
  ∃ cs, get_children (S k) s x = Value cs.
Proof.
  induction k as [|k IH]; intros x lx Hc Hk.
  { pose proof (chain_bound _ _ _ Hc). lia. }
  destruct (chain_valid _ _ _ Hc) as [a Ha].
  cbn [get_children]. rewrite Ha. simpl.
  apply children_loop_total. intros c Hin.
  destruct (aw_child s Hwf _ _ _ Ha Hin) as (b & Hb & Hpb).
  split; [eauto|]. apply (IH c (x :: lx)); [simpl; eauto|simpl; lia].
Qed.

(** The areas below [x]: [x] is on their chain of parents. *)
Lemma get_children_below fuel : ∀ x cs lx,
  chain s x lx → get_children fuel s x = Value cs →
  ∀ i, i ∈ cs ↔ ∃ y b l', area_at s y = Some b ∧ Area.id b = i
                          ∧ chain s y l' ∧ x ∈ l'.
Proof.
  induction fuel as [|fuel IH]; intros x cs lx Hc; simpl; [done|].
  destruct (area_at s x) as [a|] eqn:Ha; [|done]. simpl.
  intros Hloop i. rewrite (children_loop_Value _ _ _ _ _ Hloop i).
  assert (Hchild : ∀ c, c ∈ Area.subareas a → chain s c (x :: lx)).
  { intros c Hin. destruct (aw_child s Hwf _ _ _ Ha Hin) as (b & Hb & Hpb).
    simpl. eauto. }
  split.
  - intros [?%elem_of_nil|(c & b & rc & Hin & Hb & Hrc & Hi)]; [done|].
    pose proof (Hchild c Hin) as Hcc.
    destruct Hi as [->|Hi].
    + exists c, b, (x :: lx). split; [done|]. split; [done|].
      split; [done|]. by left.
    + apply (IH c rc (x :: lx) Hcc Hrc) in Hi
        as (y & b' & l' & Hy & Hi & Hcy & (u & rest & ->)%list_elem_of_split).
      exists y, b', (u ++ c :: rest). split; [done|]. split; [done|].
      split; [done|]. pose proof (chain_suffix _ _ _ _ _ Hcy) as Hrest.
      rewrite (chain_det _ _ _ _ Hrest Hcc).
      apply elem_of_app. right. right. by left.
  - intros (y & b & l' & Hy & Hi & Hcy & (u & rest & ->)%list_elem_of_split).
    right. destruct u as [|c u _] using rev_ind.
    + destruct Hcy as [(b' & Hb' & Hpb') Hcx].
      assert (b' = b) as -> by congruence.
      destruct (aw_parent s Hwf _ _ _ Hy Hpb') as (a' & Ha' & Hin).
      assert (a' = a) as -> by congruence.
      destruct (children_loop_rec_Value _ _ _ _ _ Hloop y Hin) as [rc Hrc].
      exists y, b, rc. split; [done|]. split; [done|]. split; [done|].
      by left.
    + rewrite <- app_assoc in Hcy. simpl in Hcy.
      pose proof (chain_suffix _ _ _ _ _ Hcy) as Hcc.
      destruct Hcc as [(bc & Hbc & Hpc) Hcx].
      destruct (aw_parent s Hwf _ _ _ Hbc Hpc) as (a' & Ha' & Hin).
      assert (a' = a) as -> by congruence.
      destruct (children_loop_rec_Value _ _ _ _ _ Hloop c Hin) as [rc Hrc].
      exists c, bc, rc. split; [done|]. split; [done|]. split; [done|].
      right. apply (IH c rc (x :: rest)); [simpl; eauto|done|].
      exists y, b, (u ++ c :: x :: rest). split; [done|]. split; [done|].
      split; [done|]. apply elem_of_app. right. by left.
Qed.

(** The child of [x] through which the chain of [y] reaches [x]. *)
Lemma child_towards c c' x lx y :
  chain s c (x :: lx) → chain s c' (x :: lx) →
  (y = c ∨ ∃ l', chain s y l' ∧ c ∈ l') →
  (y = c' ∨ ∃ l', chain s y l' ∧ c' ∈ l') →
  c = c'.
Proof.
  intros Hc Hc' Hy Hy'.
  assert (Hvia : ∀ d, chain s d (x :: lx) →
            (y = d ∨ ∃ l', chain s y l' ∧ d ∈ l') →
            ∃ l' u, chain s y l' ∧ y :: l' = u ++ d :: x :: lx).
  { intros d Hd [->|(l' & Hl' & (u & r & ->)%list_elem_of_split)].
    - exists (x :: lx), []. done.
    - exists (u ++ d :: r), (y :: u). split; [done|].
      pose proof (chain_suffix _ _ _ _ _ Hl') as Hr.
      by rewrite (chain_det _ _ _ _ Hr Hd). }
  destruct (Hvia c Hc Hy) as (l1 & u1 & Hl1 & H1).
  destruct (Hvia c' Hc' Hy') as (l2 & u2 & Hl2 & H2).
  pose proof (chain_det _ _ _ _ Hl1 Hl2) as <-.
  rewrite H1 in H2.
  change (u1 ++ [c] ++ x :: lx = u2 ++ [c'] ++ x :: lx) in H2.
  rewrite !app_assoc in H2. apply app_inv_tail in H2.
  by apply app_inj_tail in H2 as [_ ?].
Qed.

Lemma get_children_NoDup fuel : ∀ x cs lx,
  chain s x lx → get_children fuel s x = Value cs → NoDup cs.
Proof.
  induction fuel as [|fuel IH]; intros x cs lx Hc; simpl; [done|].
  destruct (area_at s x) as [a|] eqn:Ha; [|done]. simpl.
  assert (Hchild : ∀ c, c ∈ Area.subareas a → chain s c (x :: lx)).
  { intros c Hin. destruct (aw_child s Hwf _ _ _ Ha Hin) as (b & Hb & Hpb).
    simpl. eauto. }
  assert (Hat : ∀ c b rc i,
            c ∈ Area.subareas a → area_at s c = Some b →
            get_children fuel s c = Value rc → i ∈ Area.id b :: rc →
            ∃ y by', area_at s y = Some by' ∧ Area.id by' = i
                     ∧ (y = c ∨ ∃ l', chain s y l' ∧ c ∈ l')).
  { intros c b rc i Hin Hb Hrc [->|Hi]%elem_of_cons.
    - exists c, b. split; [done|]. split; [done|]. by left.
    - apply (get_children_below _ c rc (x :: lx) (Hchild c Hin) Hrc) in Hi
        as (y & by' & l' & Hy & Hi & Hl' & Hcl).
      exists y, by'. split; [done|]. split; [done|]. right. eauto. }
  apply children_loop_NoDup.
  - by eapply aw_once.
  - apply NoDup_nil_2.
  - intros c b rc Hin Hb Hrc. apply NoDup_cons. split.
    + intros Hi.
      apply (get_children_below _ c rc (x :: lx) (Hchild c Hin) Hrc) in Hi
        as (y & by' & l' & Hy & Hi & Hl' & Hcl).
      apply (aw_registered s Hwf) in Hy, Hb. rewrite Hi in Hy.
      assert (y = c) as -> by congruence.
      apply chain_NoDup, NoDup_cons in Hl' as [Hn _]. done.
    + apply (IH c rc (x :: lx)); [by apply Hchild|done].
  - intros c b rc i _ _ _ _. apply not_elem_of_nil.
  - intros c c' b b' rc rc' i Hin Hin' Hb Hb' Hrc Hrc' Hi Hi'.
    destruct (Hat c b rc i Hin Hb Hrc Hi) as (y & by1 & Hy & Hiy & Hvia).
    destruct (Hat c' b' rc' i Hin' Hb' Hrc' Hi')
      as (y' & by2 & Hy' & Hiy' & Hvia').
    apply (aw_registered s Hwf) in Hy, Hy'.
    rewrite Hiy in Hy. rewrite Hiy' in Hy'.
    assert (y' = y) as -> by congruence.
    by apply (child_towards c c' x lx y); [apply Hchild|apply Hchild| |].
Qed.

End below.

(** X22: in every reachable state, for a stored area [id] whose chain of parent
    areas ends, [all_subareas_in_area id] returns, and the areas it returns
    are, each once, exactly the stored areas that have [id] among their
    parent areas. *)
Theorem all_subareas_in_area_below s id fuel ps :
  reachable_places s → id ∈ all_areas s →
  subarea_in_areas fuel s id = Value ps →
  ∃ fuel0 cs,
    (∀ n, (fuel0 ≤ n)%nat → all_subareas_in_area n s id = Value cs)
    ∧ NoDup cs
    ∧ ∀ x, x ∈ cs ↔
           x ∈ all_areas s
           ∧ ∃ m qs, subarea_in_areas m s x = Value qs ∧ id ∈ qs.
Proof.
  intros Hwf%reachable_areas_wf [p Hp]%elem_of_all_areas Hpar.
  apply (subarea_in_areas_Value s id p) in Hpar as (lp & Hc & _ & _); [|done].
  destruct (get_children_total s Hwf (size (area_store s)) p lp Hc)
    as [cs Hcs]; [lia|].
  exists (S (size (area_store s))), cs. split.
  { intros n Hn. unfold all_subareas_in_area. rewrite Hp.
    by apply (get_children_mono s (S (size (area_store s)))). }
  split; [by eapply (get_children_NoDup s Hwf)|].
  intros x. rewrite (get_children_below s Hwf _ p cs lp Hc Hcs x). split.
  - intros (y & b & l' & Hy & Hi & Hcy & Hin).
    pose proof (aw_registered s Hwf _ _ Hy) as Hg. rewrite Hi in Hg.
    split; [apply elem_of_all_areas; eauto|].
    exists (S (length l')), (area_ids s l'). split.
    + apply (subarea_in_areas_Value s x y _ _ Hg). exists l'.
      split; [done|]. split; [lia|done].
    + destruct (aw_id s Hwf _ _ Hp) as (a & Ha & Hia).
      apply elem_of_area_ids. eauto.
  - intros [[y Hy]%elem_of_all_areas (m & qs & Hq & Hin)].
    apply (subarea_in_areas_Value s x y _ _ Hy) in Hq as (l' & Hcy & _ & ->).
    apply elem_of_area_ids in Hin as (q & a & Hq & Ha & Hia).
    apply (aw_registered s Hwf) in Ha. rewrite Hia in Ha.
    assert (q = p) as -> by congruence.
    destruct (aw_id s Hwf _ _ Hy) as (b & Hb & Hib).
    exists y, b, l'. done.
Qed.

Lemma all_subareas_in_area_below_witness :
  ∃ fuel0 cs,
    (∀ n, (fuel0 ≤ n)%nat → all_subareas_in_area n sample_places 10 = Value cs)
    ∧ NoDup cs
    ∧ ∀ x, x ∈ cs ↔
           x ∈ all_areas sample_places
           ∧ ∃ m qs, subarea_in_areas m sample_places x = Value qs ∧ 10 ∈ qs.
Proof.
  apply (all_subareas_in_area_below sample_places 10 1 []).
  - exact sample_places_reachable.
  - rewrite elem_of_all_areas. vm_compute. eauto.
  - vm_compute. reflexivity.
Defined.

